(** * Conjugate exponential-family distributions: Dirichlet, Gauss-Gamma, Gauss-Wishart

    A shallow embedding of [src/__dist__.py] and [src/__util__.py].

    Numbers.  The program computes with IEEE doubles.  Here a double is an
    extended real [xreal]: a real number, one of the two infinities, or NaN.
    Finite arithmetic is exact (no rounding, a single zero); the special
    values follow the IEEE rules the source relies on ([alpha = +Inf],
    [omega = +Inf], [eta = +Inf], divergences equal to [+Inf]).

    Arrays.  A 1-D array is a list, a 2-D array a list of rows.

    Effects.  A method that can fail returns in the error monad [py]; a
    method that mutates [self] returns the new instance. *)

From Stdlib Require Import String Reals Lra Lia ZArith Bool List.
From Stdlib Require Import Sorted Permutation.
Import ListNotations.
Open Scope R_scope.

(* ================================================================== *)
(** ** Extended reals *)

Inductive xreal : Type :=
| Fin (r : R)
| PInf
| NInf
| NaN.

Definition Rltb (x y : R) : bool := if Rlt_dec x y then true else false.
Definition Reqb (x y : R) : bool := if Req_dec_T x y then true else false.

Definition np_isnan (x : xreal) : bool :=
  match x with NaN => true | _ => false end.

Definition np_isinf (x : xreal) : bool :=
  match x with PInf | NInf => true | _ => false end.

Definition np_isfinite (x : xreal) : bool :=
  match x with Fin _ => true | _ => false end.

(** Comparisons: every comparison with NaN is false. *)
Definition xlt (a b : xreal) : bool :=
  match a, b with
  | NaN, _ | _, NaN => false
  | Fin x, Fin y => Rltb x y
  | Fin _, PInf => true
  | Fin _, NInf => false
  | PInf, _ => false
  | NInf, NInf => false
  | NInf, _ => true
  end.

Definition xgt (a b : xreal) : bool := xlt b a.

Definition xeq (a b : xreal) : bool :=
  match a, b with
  | Fin x, Fin y => Reqb x y
  | PInf, PInf | NInf, NInf => true
  | _, _ => false
  end.

Definition xge (a b : xreal) : bool := xlt b a || xeq a b.

Definition xneg (a : xreal) : xreal :=
  match a with
  | Fin x => Fin (- x)
  | PInf => NInf
  | NInf => PInf
  | NaN => NaN
  end.

Definition xadd (a b : xreal) : xreal :=
  match a, b with
  | NaN, _ | _, NaN => NaN
  | Fin x, Fin y => Fin (x + y)
  | PInf, NInf | NInf, PInf => NaN
  | PInf, _ | _, PInf => PInf
  | NInf, _ | _, NInf => NInf
  end.

Definition xsub (a b : xreal) : xreal := xadd a (xneg b).

(** The infinity of the sign of [x], NaN for zero. *)
Definition inf_signed (x : R) (pos neg : xreal) : xreal :=
  if Rltb 0 x then pos else if Rltb x 0 then neg else NaN.

Definition xmul (a b : xreal) : xreal :=
  match a, b with
  | NaN, _ | _, NaN => NaN
  | Fin x, Fin y => Fin (x * y)
  | Fin x, PInf | PInf, Fin x => inf_signed x PInf NInf
  | Fin x, NInf | NInf, Fin x => inf_signed x NInf PInf
  | PInf, PInf | NInf, NInf => PInf
  | PInf, NInf | NInf, PInf => NInf
  end.

(** numpy's division: a finite non-zero number over zero is an infinity
    (the zero is taken as [+0]), zero over zero is NaN. *)
Definition xdiv (a b : xreal) : xreal :=
  match a, b with
  | NaN, _ | _, NaN => NaN
  | Fin x, Fin y => if Reqb y 0 then inf_signed x PInf NInf else Fin (x / y)
  | Fin _, _ => Fin 0
  | PInf, Fin y => if Rltb y 0 then NInf else PInf
  | NInf, Fin y => if Rltb y 0 then PInf else NInf
  | _, _ => NaN
  end.

Definition xabs (a : xreal) : xreal :=
  match a with
  | Fin x => Fin (Rabs x)
  | PInf | NInf => PInf
  | NaN => NaN
  end.

(** [x**2] *)
Definition xsqr (a : xreal) : xreal := xmul a a.

(** [np.sqrt]: NaN below zero. *)
Definition np_sqrt (a : xreal) : xreal :=
  match a with
  | Fin x => if Rltb x 0 then NaN else Fin (sqrt x)
  | PInf => PInf
  | _ => NaN
  end.

(** [np.log]: [-Inf] at zero, NaN below. *)
Definition np_log (a : xreal) : xreal :=
  match a with
  | Fin x => if Rltb 0 x then Fin (ln x) else if Rltb x 0 then NaN else NInf
  | PInf => PInf
  | _ => NaN
  end.

(** [np.log1p] *)
Definition np_log1p (a : xreal) : xreal := np_log (xadd (Fin 1) a).

Definition of_Z (z : Z) : xreal := Fin (IZR z).
Definition of_nat (n : nat) : xreal := Fin (INR n).

(** [np.spacing(1.0)], the gap between 1 and the next double. *)
Definition spacing1 : xreal := Fin (/ 2 ^ 52).

Declare Scope xreal_scope.
Delimit Scope xreal_scope with X.
Bind Scope xreal_scope with xreal.
Infix "+" := xadd : xreal_scope.
Infix "-" := xsub : xreal_scope.
Infix "*" := xmul : xreal_scope.
Infix "/" := xdiv : xreal_scope.
Notation "- x" := (xneg x) : xreal_scope.

(* ================================================================== *)
(** ** Python exceptions *)

Inductive exn : Type :=
| AssertionError
| NameError (name : string)
| ZeroDivisionError
| ValueError
| TypeError
| LinAlgError.

Inductive py (A : Type) : Type :=
| Ok (a : A)
| Raise (e : exn).
Arguments Ok {A} a.
Arguments Raise {A} e.

Definition bind {A B : Type} (m : py A) (k : A -> py B) : py B :=
  match m with
  | Ok a => k a
  | Raise e => Raise e
  end.

Notation "x <- m ;; k" := (bind m (fun x => k))
  (at level 61, m at next level, right associativity).
Notation "' p <- m ;; k" := (bind m (fun x => let p := x in k))
  (at level 61, p pattern, m at next level, right associativity).

(** [assert b] *)
Definition assert (b : bool) : py unit :=
  if b then Ok tt else Raise AssertionError.

Notation "'assert!' b ;; k" := (bind (assert b) (fun _ => k))
  (at level 61, b at next level, right associativity).

(** Division of two Python floats: a zero divisor raises. *)
Definition py_truediv (a b : xreal) : py xreal :=
  if xeq b (Fin 0) then Raise ZeroDivisionError else Ok (a / b)%X.

(** [math.log] and [math.sqrt]: a domain error raises. *)
Definition math_log (a : xreal) : py xreal :=
  match a with
  | Fin x => if Rltb 0 x then Ok (Fin (ln x)) else Raise ValueError
  | PInf => Ok PInf
  | NInf => Raise ValueError
  | NaN => Ok NaN
  end.

Definition math_sqrt (a : xreal) : py xreal :=
  match a with
  | Fin x => if Rltb x 0 then Raise ValueError else Ok (Fin (sqrt x))
  | PInf => Ok PInf
  | NInf => Raise ValueError
  | NaN => Ok NaN
  end.

Definition math_pi : xreal := Fin PI.

(** The names bound at module level in [__dist__.py]: the imports and the
    three classes. *)
Definition module_scope : list string :=
  ["math"; "np"; "linalg"; "random"; "special";
   "dirich"; "gaussgamma"; "gausswish"]%string.

(** Loading a name where a number is expected.  [locals] are the numeric
    local variables of the running method; a name bound only at module
    level is no number; a name bound nowhere (no built-in of Python has
    any of the names looked up below) raises [NameError]. *)
Definition load_name (locals : list (string * xreal)) (name : string) : py xreal :=
  match find (fun b => String.eqb (fst b) name) locals with
  | Some b => Ok (snd b)
  | None =>
      if existsb (String.eqb name) module_scope then Raise TypeError
      else Raise (NameError name)
  end.

(** What a method returns when it returns no number: [return self], or a
    bare [return], which yields [None]. *)
Inductive retval : Type :=
| RetSelf
| RetNone.

(* ================================================================== *)
(** ** Arrays *)

Abbreviation vec := (list xreal) (only parsing).
Abbreviation matrix := (list (list xreal)) (only parsing).

Fixpoint map2 {A B C : Type} (f : A -> B -> C) (a : list A) (b : list B) : list C :=
  match a, b with
  | x :: a', y :: b' => f x y :: map2 f a' b'
  | _, _ => []
  end.

(** Elementwise operations on arrays of one shape. *)
Definition vadd : vec -> vec -> vec := map2 xadd.
Definition vsub : vec -> vec -> vec := map2 xsub.
Definition vmul : vec -> vec -> vec := map2 xmul.
Definition vdiv : vec -> vec -> vec := map2 xdiv.

(** An array and a scalar. *)
Definition vscale (c : xreal) (v : vec) : vec := map (xmul c) v.
Definition vdivs (v : vec) (c : xreal) : vec := map (fun x => x / c)%X v.
Definition vsubs (v : vec) (c : xreal) : vec := map (fun x => x - c)%X v.

(** [np.sum] of a 1-D array. *)
Definition np_sum (v : vec) : xreal := fold_left xadd v (Fin 0).

(** [np.dot] of two 1-D arrays. *)
Definition np_dot (u v : vec) : xreal := np_sum (vmul u v).

Definition np_zeros (n : nat) : vec := repeat (Fin 0) n.
Definition np_ones (n : nat) : vec := repeat (Fin 1) n.
Definition np_repeat (x : xreal) (n : nat) : vec := repeat x n.

(** [np.arange(n)] *)
Definition np_arange (n : nat) : vec := map of_nat (seq 0 n).

(** [np.size] of a 1-D array, as a Python integer. *)
Definition np_size {A : Type} (v : list A) : Z := Z.of_nat (length v).

(** [np.where(mask)]: the indices at which the mask holds. *)
Fixpoint where_from (i : nat) (mask : list bool) : list nat :=
  match mask with
  | [] => []
  | b :: m => if b then i :: where_from (S i) m else where_from (S i) m
  end.
Definition np_where (mask : list bool) : list nat := where_from 0 mask.

(** [v[ind]] for an array of indices. *)
Definition take_idx (v : vec) (ind : list nat) : vec :=
  map (fun i => nth i v NaN) ind.

(** [np.shape] of a 2-D array. *)
Definition nrows (m : matrix) : Z := np_size m.
Definition ncols (m : matrix) : nat := length (hd [] m).

(** A list of rows is a 2-D array of [n] columns when every row has
    [n] entries. *)
Definition rect (n : nat) (m : matrix) : Prop :=
  Forall (fun r => length r = n) m.

(** [m.sum(axis=1)] and [m.sum(axis=0)] of a 2-D array with [n] columns. *)
Definition sum_axis1 (m : matrix) : vec := map np_sum m.
Definition sum_axis0 (n : nat) (m : matrix) : vec := fold_left vadd m (np_zeros n).

(** [np.dot(m, v)] of a 2-D and a 1-D array. *)
Definition np_dot_mv (m : matrix) (v : vec) : vec := map (fun r => np_dot r v) m.

(** A value that is a scalar or a 1-D array, with numpy's broadcasting of
    a binary operation: shapes agree, or one side has a single element. *)
Inductive arr : Type :=
| Scalar (x : xreal)
| Arr1 (v : vec).

Definition bcast2 (f : xreal -> xreal -> xreal) (a b : arr) : py arr :=
  match a, b with
  | Scalar x, Scalar y => Ok (Scalar (f x y))
  | Scalar x, Arr1 v => Ok (Arr1 (map (f x) v))
  | Arr1 u, Scalar y => Ok (Arr1 (map (fun x => f x y) u))
  | Arr1 u, Arr1 v =>
      if (length u =? length v)%nat then Ok (Arr1 (map2 f u v))
      else if (length u =? 1)%nat then Ok (Arr1 (map (f (hd NaN u)) v))
      else if (length v =? 1)%nat then Ok (Arr1 (map (fun x => f x (hd NaN v)) u))
      else Raise ValueError
  end.

Definition arr_neg (a : arr) : arr :=
  match a with
  | Scalar x => Scalar (- x)%X
  | Arr1 v => Arr1 (map xneg v)
  end.

(** The result of [loglik]: an array, or a pair of an array and the
    mixing weights. *)
Inductive loglik_result : Type :=
| LL (val : arr)
| LLW (val : arr) (weights : arr).

(** An element of the [evidence] that [stat] iterates over: a bare batch,
    or a tuple of a batch and one or two 1-D arrays. *)
Inductive item : Type :=
| Obs (obs : matrix)
| Tuple2 (obs : matrix) (a : vec)
| Tuple3 (obs : matrix) (a b : vec).

(** [for obs in], [for obs, a in], [for obs, a, b in]: the element is
    unpacked as the loop header says, an element of another arity is an
    error. *)
Definition unpack1 (it : item) : py matrix :=
  match it with Obs o => Ok o | _ => Raise ValueError end.
Definition unpack2 (it : item) : py (matrix * vec) :=
  match it with Tuple2 o a => Ok (o, a) | _ => Raise ValueError end.
Definition unpack3 (it : item) : py (matrix * vec * vec) :=
  match it with Tuple3 o a b => Ok (o, a, b) | _ => Raise ValueError end.

Fixpoint py_fold {A S : Type} (step : S -> A -> py S) (st : S) (l : list A) : py S :=
  match l with
  | [] => Ok st
  | x :: rest => st' <- step st x ;; py_fold step st' rest
  end.

(** *** 2-D arrays *)

Definition madd : matrix -> matrix -> matrix := map2 vadd.
Definition msub : matrix -> matrix -> matrix := map2 vsub.
Definition mscale (c : xreal) (m : matrix) : matrix := map (vscale c) m.
Definition mdivs (m : matrix) (c : xreal) : matrix := map (fun r => vdivs r c) m.

(** [m.T] of a 2-D array with [n] columns. *)
Fixpoint transpose (n : nat) (m : matrix) : matrix :=
  match n with
  | O => []
  | S k => map (hd NaN) m :: transpose k (map (@tl xreal) m)
  end.

(** [np.dot(a, b)] of two 2-D arrays, [b] with [w] columns: row [i] of the
    product is the combination of the rows of [b] with the coefficients
    of row [i] of [a]. *)
Definition lincomb (w : nat) (r : vec) (b : matrix) : vec :=
  fold_left vadd (map2 vscale r b) (np_zeros w).
Definition matmul (w : nat) (a b : matrix) : matrix :=
  map (fun r => lincomb w r b) a.

Definition np_outer (u v : vec) : matrix := map (fun a => vscale a v) u.

(** [m.sum()] of a 2-D array. *)
Definition np_sum2 (m : matrix) : xreal := np_sum (concat m).

(** [np.diag(v)], [np.diag(m)], [np.tril(m, -1)], [np.eye(n)]. *)
Definition np_diag_of_vec (v : vec) : matrix :=
  map (fun i => map (fun j => if (i =? j)%nat then nth i v NaN else Fin 0)
                    (seq 0 (length v)))
      (seq 0 (length v)).
Definition np_diag (m : matrix) : vec :=
  map (fun i => nth i (nth i m []) NaN) (seq 0 (length m)).
Definition np_tril_below (m : matrix) : matrix :=
  map (fun ir => map (fun jx => if (fst jx <? fst ir)%nat then snd jx else Fin 0)
                     (combine (seq 0 (length (snd ir))) (snd ir)))
      (combine (seq 0 (length m)) m).
Definition np_eye (n : nat) : matrix :=
  map (fun i => map (fun j => if (i =? j)%nat then Fin 1 else Fin 0) (seq 0 n))
      (seq 0 n).

(** [np.allclose(a, b)] with the default tolerances. *)
Definition Rleb (x y : R) : bool := if Rle_dec x y then true else false.
Definition isclose (a b : xreal) : bool :=
  match a, b with
  | Fin x, Fin y => Rleb (Rabs (x - y)) (1 / 10 ^ 8 + 1 / 10 ^ 5 * Rabs y)
  | PInf, PInf | NInf, NInf => true
  | _, _ => false
  end.
Definition np_allclose (a b : matrix) : bool :=
  forallb (fun b => b) (concat (map2 (map2 isclose) a b)).

(* ================================================================== *)
(** ** numpy.linalg

    [linalg.cholesky] and [linalg.solve] are library code.  They are
    modelled in exact real arithmetic on arrays of finite numbers: the
    Cholesky-Banachiewicz factorisation, which reads the lower triangle
    and raises [LinAlgError] at a pivot that is not positive; and the
    solution of [a x = b] by forward substitution, which raises
    [LinAlgError] at a zero pivot.  Every call of [linalg.solve] in the
    source passes a lower-triangular [a], for which forward substitution
    yields the one solution there is.  An array with an entry that is not
    finite is rejected with [LinAlgError]. *)

Abbreviation rvec := (list R) (only parsing).
Abbreviation rmat := (list (list R)) (only parsing).

Definition to_R (x : xreal) : option R :=
  match x with Fin r => Some r | _ => None end.

Fixpoint vec_to_R (v : vec) : option rvec :=
  match v with
  | [] => Some []
  | x :: v' =>
      match to_R x, vec_to_R v' with
      | Some r, Some l => Some (r :: l)
      | _, _ => None
      end
  end.

Fixpoint mat_to_R (m : matrix) : option rmat :=
  match m with
  | [] => Some []
  | v :: m' =>
      match vec_to_R v, mat_to_R m' with
      | Some r, Some l => Some (r :: l)
      | _, _ => None
      end
  end.

Definition vec_of_R (v : rvec) : vec := map Fin v.
Definition mat_of_R (m : rmat) : matrix := map vec_of_R m.

Definition Rsum (l : rvec) : R := fold_right Rplus 0 l.
Definition Rdot (u v : rvec) : R := Rsum (map2 Rmult u v).

(** The combination of the rows [rows] with the coefficients [cs], rows
    of width [w]. *)
Fixpoint Rlincomb (w : nat) (cs : rvec) (rows : rmat) : rvec :=
  match cs, rows with
  | c :: cs', r :: rows' => map2 Rplus (map (Rmult c) r) (Rlincomb w cs' rows')
  | _, _ => repeat 0 w
  end.

(** Forward substitution, one row of the right-hand side at a time: [x]
    holds the rows of the solution found so far, and row [i] of [a]
    gives row [i] of the solution from them. *)
Fixpoint forward_subst (a : rmat) (b : rmat) (x : rmat) : option rmat :=
  match a, b with
  | l :: a', bi :: b' =>
      let i := length x in
      let d := nth i l 0 in
      if Reqb d 0 then None
      else
        let s := Rlincomb (length bi) (firstn i l) x in
        forward_subst a' b' (x ++ [map (fun y => y / d) (map2 Rminus bi s)])
  | _, _ => Some x
  end.

(** The rows of the Cholesky factor of [a], of order [n]: row [i] solves
    the triangular system of the rows before it, and closes with the
    square root of what is left on the diagonal. *)
Fixpoint cholesky_rows (n : nat) (a : rmat) (l : rmat) : option rmat :=
  match a with
  | [] => Some l
  | ai :: a' =>
      let i := length l in
      match forward_subst l (map (fun y => [y]) (firstn i ai)) [] with
      | None => None
      | Some x =>
          let y := map (hd 0) x in
          let d := nth i ai 0 - Rdot y y in
          if Rltb 0 d
          then cholesky_rows n a' (l ++ [y ++ sqrt d :: repeat 0 (n - S i)])
          else None
      end
  end.

Definition linalg_cholesky (a : matrix) : py matrix :=
  match mat_to_R a with
  | None => Raise LinAlgError
  | Some a' =>
      match cholesky_rows (length a') a' [] with
      | None => Raise LinAlgError
      | Some l => Ok (mat_of_R l)
      end
  end.

(** [linalg.solve(a, b)] for a 2-D [b]. *)
Definition linalg_solve (a b : matrix) : py matrix :=
  match mat_to_R a, mat_to_R b with
  | Some a', Some b' =>
      match forward_subst a' b' [] with
      | None => Raise LinAlgError
      | Some x => Ok (mat_of_R x)
      end
  | _, _ => Raise LinAlgError
  end.

(** [linalg.solve(a, b)] for a 1-D [b]. *)
Definition linalg_solve_vec (a : matrix) (b : vec) : py vec :=
  x <- linalg_solve a (map (fun y => [y]) b) ;;
  Ok (map (hd NaN) x).

(* ================================================================== *)
(** ** Indexing and assignment in place *)

(** The outcome of an indexing operation: a value, or [IndexError]. *)
Inductive lookup (A : Type) : Type :=
| Found (a : A)
| IndexError.
Arguments Found {A} a.
Arguments IndexError {A}.

Definition lbind {A B : Type} (m : lookup A) (k : A -> lookup B) : lookup B :=
  match m with
  | Found a => k a
  | IndexError => IndexError
  end.

Notation "x <~ m ;; k" := (lbind m (fun x => k))
  (at level 61, m at next level, right associativity).

Fixpoint lookup_map {A B : Type} (f : A -> lookup B) (l : list A) : lookup (list B) :=
  match l with
  | [] => Found []
  | x :: rest => y <~ f x ;; ys <~ lookup_map f rest ;; Found (y :: ys)
  end.

(** [v[i]] for a Python integer [i]: a negative index counts from the
    end; an index outside [-len(v) .. len(v)-1] raises [IndexError]. *)
Definition np_index {A : Type} (v : list A) (i : Z) : lookup A :=
  let n := Z.of_nat (length v) in
  let j := if (i <? 0)%Z then (i + n)%Z else i in
  if (j <? 0)%Z then IndexError
  else match nth_error v (Z.to_nat j) with
       | Some x => Found x
       | None => IndexError
       end.

(** [v[ind]] for an array [ind] of integers. *)
Definition np_take {A : Type} (v : list A) (ind : list Z) : lookup (list A) :=
  lookup_map (np_index v) ind.

(** [v[i]] and [v[ind]] for indices that are not negative. *)
Definition index_nat {A : Type} (v : list A) (i : nat) : lookup A :=
  match nth_error v i with
  | Some x => Found x
  | None => IndexError
  end.

Definition take_nat {A : Type} (v : list A) (ind : list nat) : lookup (list A) :=
  lookup_map (index_nat v) ind.

(** [l[i:j]] for [0 <= i] and [0 <= j]. *)
Definition slice {A : Type} (l : list A) (i j : nat) : list A :=
  firstn (j - i) (skipn i l).

(** [v[i] = x], and [v[ind] = vals] for the array [ind] of distinct
    indices that [np.where] returns and an array [vals] with one value for
    each of them. *)
Fixpoint set_nth (i : nat) (x : xreal) (v : vec) : vec :=
  match v, i with
  | [], _ => []
  | _ :: v', O => x :: v'
  | y :: v', S i' => y :: set_nth i' x v'
  end.

Fixpoint put_idx (v : vec) (ind : list nat) (vals : vec) : vec :=
  match ind, vals with
  | i :: ind', x :: vals' => put_idx (set_nth i x v) ind' vals'
  | _, _ => v
  end.

(** [dst[:] = src] for 1-D arrays: [dst] keeps its shape and takes the
    entries of [src], broadcast when [src] has a single entry; any other
    shape of [src] raises [ValueError]. *)
Definition broadcast_to (n : nat) (src : vec) : py vec :=
  if (length src =? n)%nat then Ok src
  else if (length src =? 1)%nat then Ok (repeat (hd NaN src) n)
  else Raise ValueError.

Definition slice_assign (dst src : vec) : py vec :=
  broadcast_to (length dst) src.

Fixpoint py_map {A B : Type} (f : A -> py B) (l : list A) : py (list B) :=
  match l with
  | [] => Ok []
  | x :: rest => y <- f x ;; ys <- py_map f rest ;; Ok (y :: ys)
  end.

(** [dst[:] = src] for 2-D arrays: rows and columns of [src] are
    broadcast to the shape of [dst]. *)
Definition slice_assign2 (dst src : matrix) : py matrix :=
  rows <- (if (length src =? length dst)%nat then Ok src
           else if (length src =? 1)%nat then Ok (repeat (hd [] src) (length dst))
           else Raise ValueError) ;;
  py_map (broadcast_to (ncols dst)) rows.

(* ================================================================== *)
(** ** scipy.special

    [special.psi] and [special.gammaln] are not part of the repository;
    each class takes them as parameters [special_psi], [special_gammaln]. *)

(* ================================================================== *)
(** ** class dirich *)

Module Dirich.

Record param : Type := mk_param { pi : vec; alpha : xreal }.

(** An instance: [__dim__] and [__param__]. *)
Record t : Type := mk { dim : Z; prm : param }.

(** [__init__]: the hyperparameters are stored in [__param__] as given. *)
Definition init (dim : Z) (pi : option vec) (alpha : option xreal) : py t :=
  assert! (0 <? dim)%Z ;;
  let pi := match pi with
            | None => np_repeat (Fin 1 / of_Z dim)%X (Z.to_nat dim)
            | Some p => p
            end in
  let alpha := match alpha with None => Fin 1 | Some a => a end in
  Ok (mk dim (mk_param pi alpha)).

(** The [pi] setter. *)
Definition set_pi (self : t) (pi : vec) : py t :=
  assert! (np_size pi =? dim self)%Z ;;
  assert! (forallb (fun x => xge x (Fin 0)) pi
           && xlt (xabs (np_sum pi - Fin 1)%X) spacing1) ;;
  Ok (mk (dim self) (mk_param pi (alpha (prm self)))).

(** The [alpha] setter. *)
Definition set_alpha (self : t) (alpha : xreal) : py t :=
  assert! (negb (np_isnan alpha) && xgt alpha (Fin 0)) ;;
  Ok (mk (dim self) (mk_param (pi (prm self)) alpha)).

(** [copy]: [pi] is overwritten in place, then [alpha] is rebound.  The
    result is the instance as the call leaves it, and the exception when
    the call raises one. *)
Definition copy (self other : t) : t * option exn :=
  if negb (dim other =? dim self)%Z then (self, Some AssertionError)
  else
    match slice_assign (pi (prm self)) (pi (prm other)) with
    | Raise e => (self, Some e)
    | Ok pi' => (mk (dim self) (mk_param pi' (alpha (prm other))), None)
    end.

(** [rand]: [gamma_draw] is the array that [random.gamma(alpha*pi[ind])]
    returns, one draw for every index; [random.gamma] raises
    [ValueError] on a negative shape. *)
Definition rand (self : t) (gamma_draw : vec) : py vec :=
  let pi := pi (prm self) in
  let alpha := alpha (prm self) in
  let prop := pi in
  if np_isfinite alpha then
    let ind := np_where (map (fun x => xgt x (Fin 0)) pi) in
    let shape := vscale alpha (take_idx pi ind) in
    if existsb (fun s => xlt s (Fin 0)) shape then Raise ValueError
    else
      let prop := put_idx prop ind (vdivs gamma_draw alpha) in
      let sel := take_idx prop ind in
      Ok (put_idx prop ind (vdivs sel (np_sum sel)))
  else Ok prop.

Section Special.

Variable special_psi : xreal -> xreal.
Variable special_gammaln : xreal -> xreal.

(** [loglik]: [obs] is an array of category indices, or [None]. *)
Definition loglik (self : t) (obs : option (list Z)) : lookup vec :=
  let obs := match obs with
             | None => map Z.of_nat (seq 0 (Z.to_nat (dim self)))
             | Some o => o
             end in
  let pi := pi (prm self) in
  let alpha := alpha (prm self) in
  if np_isfinite alpha then
    let val := np_repeat NInf (length obs) in
    sel <~ np_take pi obs ;;
    let ind := np_where (map (fun x => xgt x (Fin 0)) sel) in
    sel <~ np_take pi (map (fun i => nth i obs 0%Z) ind) ;;
    Found (put_idx val ind
             (vsubs (map special_psi (vscale alpha sel)) (special_psi alpha)))
  else
    sel <~ np_take pi obs ;;
    Found (map np_log sel).

Definition div (self other : t) : py xreal :=
  assert! (dim other =? dim self)%Z ;;
  let post := prm self in
  let prior := prm other in
  if np_isfinite (alpha post) && np_isfinite (alpha prior) then
    let ind := map (fun x => xgt x (Fin 0)) (pi post) in
    if existsb (fun b => b)
         (map2 xorb ind (map (fun x => xgt x (Fin 0)) (pi prior)))
    then Ok PInf
    else
      let ind := np_where ind in
      let a := vscale (alpha post) (take_idx (pi post) ind) in
      let b := vscale (alpha prior) (take_idx (pi prior) ind) in
      Ok (special_gammaln (alpha post) - special_gammaln (alpha prior)
          - np_sum (vsub (map special_gammaln a) (map special_gammaln b))
          + np_dot (vsub a b)
                   (vsubs (map special_psi a) (special_psi (alpha post))))%X
  else if np_isinf (alpha post) && np_isinf (alpha prior)
          && forallb (fun b => b) (map2 xeq (pi post) (pi prior))
  then Ok (Fin 0)
  else Ok PInf.

End Special.

(** One turn of the loop of [stat]. *)
Definition stat_step (self : t) (st : param) (prob : matrix) : py param :=
  assert! (nrows prob =? dim self)%Z ;;
  let count := sum_axis1 prob in
  Ok (mk_param (vadd (pi st) count) (alpha st + np_sum count)%X).

Definition stat (self : t) (evidence : list matrix) : py param :=
  py_fold (stat_step self)
          (mk_param (np_zeros (Z.to_nat (dim self))) (Fin 0)) evidence.

Definition update (self : t) (stat : param) : py (retval * t) :=
  assert! (np_size (pi stat) =? dim self)%Z ;;
  let pi0 := pi (prm self) in
  let alpha0 := alpha (prm self) in
  if np_isinf alpha0 then Ok (RetNone, self)
  else
    let pi1 := vadd (vscale alpha0 pi0) (pi stat) in
    let alpha1 := (alpha0 + alpha stat)%X in
    let pi2 := vdivs pi1 alpha1 in
    Ok (RetSelf, mk (dim self) (mk_param pi2 alpha1)).

End Dirich.

(* ================================================================== *)
(** ** class gaussgamma *)

Module GaussGamma.

Record param : Type :=
  mk_param { mu : vec; omega : xreal; sigma : vec; eta : xreal }.

Record t : Type := mk { dim : Z; prm : param }.

Definition init (dim : Z) (mu : option vec) (omega : option xreal)
    (sigma : option vec) (eta : option xreal) : py t :=
  assert! (0 <? dim)%Z ;;
  let mu := match mu with None => np_zeros (Z.to_nat dim) | Some m => m end in
  let omega := match omega with None => Fin 1 | Some w => w end in
  let sigma := match sigma with None => np_ones (Z.to_nat dim) | Some s => s end in
  let eta := match eta with None => Fin 1 | Some e => e end in
  Ok (mk dim (mk_param mu omega sigma eta)).

Definition set_mu (self : t) (mu' : vec) : py t :=
  assert! (np_size mu' =? dim self)%Z ;;
  assert! (negb (existsb np_isnan mu') && forallb np_isfinite mu') ;;
  let p := prm self in
  Ok (mk (dim self) (mk_param mu' (omega p) (sigma p) (eta p))).

Definition set_omega (self : t) (omega' : xreal) : py t :=
  assert! (negb (np_isnan omega') && xgt omega' (Fin 0)) ;;
  let p := prm self in
  Ok (mk (dim self) (mk_param (mu p) omega' (sigma p) (eta p))).

Definition set_sigma (self : t) (sigma' : vec) : py t :=
  assert! (np_size sigma' =? dim self)%Z ;;
  assert! (negb (existsb np_isnan sigma') && forallb np_isfinite sigma'
           && forallb (fun x => xgt x (Fin 0)) sigma') ;;
  let p := prm self in
  Ok (mk (dim self) (mk_param (mu p) (omega p) sigma' (eta p))).

Definition set_eta (self : t) (eta' : xreal) : py t :=
  assert! (negb (np_isnan eta') && xgt eta' (Fin 0)) ;;
  let p := prm self in
  Ok (mk (dim self) (mk_param (mu p) (omega p) (sigma p) eta')).

(** [copy]: [mu] is overwritten in place, [omega] is rebound, [sigma] is
    overwritten in place, [eta] is rebound, in this order.  The result is
    the instance as the call leaves it, and the exception when the call
    raises one. *)
Definition copy (self other : t) : t * option exn :=
  if negb (dim other =? dim self)%Z then (self, Some AssertionError)
  else
    let p := prm self in
    let q := prm other in
    match slice_assign (mu p) (mu q) with
    | Raise e => (self, Some e)
    | Ok mu' =>
        match slice_assign (sigma p) (sigma q) with
        | Raise e => (mk (dim self) (mk_param mu' (omega q) (sigma p) (eta p)), Some e)
        | Ok sigma' => (mk (dim self) (mk_param mu' (omega q) sigma' (eta q)), None)
        end
    end.

(** [rand]: [gamma_draw] is the array [random.gamma(eta/2.0, size=dim)]
    returns and [randn_draw] the array [random.randn(dim)] returns. *)
Definition rand (self : t) (gamma_draw randn_draw : vec) : py (vec * vec) :=
  let p := prm self in
  let disp :=
    if np_isfinite (eta p)
    then vdiv (sigma p) (vdivs gamma_draw (eta p / Fin 2)%X)
    else sigma p in
  if np_isfinite (omega p) then
    s <- math_sqrt (omega p) ;;
    Ok (vadd (mu p) (vdivs (vmul (map np_sqrt disp) randn_draw) s), disp)
  else Ok (mu p, disp).

(** [((np.abs(obs-mu[:, np.newaxis])**2)/sigma[:, np.newaxis])]: row [i]
    of [obs] against [mu[i]] and [sigma[i]]. *)
Definition sq_resid_row (row : vec) (m : xreal) : vec :=
  map (fun x => xsqr (xabs (x - m)%X)) row.

Section Special.

Variable special_psi : xreal -> xreal.
Variable special_gammaln : xreal -> xreal.

Definition loglik (self : t) (obs : matrix) (nu : option xreal) : py loglik_result :=
  let dim := nrows obs in
  let size := ncols obs in
  assert! (dim =? GaussGamma.dim self)%Z ;;
  let p := prm self in
  let sqerr :=
    sum_axis0 size
      (map2 (fun r s => vdivs r s) (map2 sq_resid_row obs (mu p)) (sigma p)) in
  sqerr <- (if np_isfinite (omega p)
            then c <- py_truediv (of_Z dim) (omega p) ;;
                 Ok (map (fun x => x + c)%X sqerr)
            else Ok sqerr) ;;
  let logdet := Scalar (np_sum (map np_log (sigma p)) / Fin 2)%X in
  logdet <- (if np_isfinite (eta p)
             then l <- math_log (eta p / Fin 2)%X ;;
                  bcast2 xadd logdet
                    (Arr1 (map (fun k => (of_Z dim / Fin 2) * l
                                         - special_psi ((eta p - k) / Fin 2) / Fin 2)%X
                               (np_arange (Z.to_nat dim))))
             else Ok logdet) ;;
  let locals := [("dim", of_Z dim); ("size", of_nat size);
                 ("omega", omega p); ("eta", eta p)]%string in
  match nu with
  | None =>
      numdim <- load_name locals "numdim" ;;
      l <- math_log (Fin 2 * math_pi)%X ;;
      r <- bcast2 xsub (Scalar (- (numdim / Fin 2) * l)%X) logdet ;;
      r <- bcast2 xsub r (Arr1 (vdivs sqerr (Fin 2))) ;;
      Ok (LL r)
  | Some nu =>
      if np_isinf nu then
        numdim <- load_name (("nu", nu) :: locals)%string "numdim" ;;
        l <- math_log (Fin 2 * math_pi)%X ;;
        r <- bcast2 xsub (Scalar (- (numdim / Fin 2) * l)%X) logdet ;;
        r <- bcast2 xsub r (Arr1 (vdivs sqerr (Fin 2))) ;;
        Ok (LLW r (Arr1 (np_ones size)))
      else
        l <- math_log (math_pi * nu)%X ;;
        const <- bcast2 xadd
                   (Scalar (special_gammaln (nu / Fin 2)
                            - special_gammaln ((nu + of_Z dim) / Fin 2)
                            + (of_Z dim / Fin 2) * l)%X)
                   logdet ;;
        r <- bcast2 xsub (arr_neg const)
               (Arr1 (vscale ((nu + of_Z dim) / Fin 2)%X
                             (map np_log1p (vdivs sqerr nu)))) ;;
        Ok (LLW r (Arr1 (map (fun e => (nu + of_Z dim) / (nu + e))%X sqerr)))
  end.

Definition div (self other : t) : py xreal :=
  assert! (dim other =? dim self)%Z ;;
  let dim := of_Z (dim self) in
  let post := prm self in
  let prior := prm other in
  d <- (if np_isfinite (omega post) && np_isfinite (omega prior) then
          ratio <- py_truediv (omega prior) (omega post) ;;
          l <- math_log ratio ;;
          Ok (Some ((dim / Fin 2) * (ratio - l - Fin 1)
                    + (omega prior / Fin 2)
                      * np_sum (vdiv (map (fun x => xsqr (xabs x))
                                          (vsub (mu post) (mu prior)))
                                     (sigma post)))%X)
        else if np_isinf (omega post) && np_isinf (omega prior)
                && forallb (fun b => b) (map2 xeq (mu post) (mu prior))
        then Ok (Some (Fin 0))
        else Ok None) ;;
  match d with
  | None => Ok PInf
  | Some div =>
      if np_isfinite (eta post) && np_isfinite (eta prior) then
        let post_det := np_sum (map np_log (sigma post)) in
        let prior_det := np_sum (map np_log (sigma prior)) in
        l <- math_log (eta post / Fin 2)%X ;;
        let aux := (l - special_psi (eta post / Fin 2))%X in
        lprior <- math_log (eta prior / Fin 2)%X ;;
        lpost <- math_log (eta post / Fin 2)%X ;;
        Ok (div - (eta post / Fin 2) * dim
            + (eta prior / Fin 2) * np_sum (vdiv (sigma prior) (sigma post))
            + ((eta prior - eta post) / Fin 2) * (post_det + dim * aux)
            - (eta prior / Fin 2) * prior_det + (eta post / Fin 2) * post_det
            + dim * special_gammaln (eta prior / Fin 2)
            - dim * special_gammaln (eta post / Fin 2)
            - dim * (eta prior / Fin 2) * lprior
            + dim * (eta post / Fin 2) * lpost)%X
      else if np_isinf (eta post) && np_isinf (eta prior)
              && forallb (fun b => b) (map2 xeq (sigma post) (sigma prior))
      then Ok div
      else Ok PInf
  end.

End Special.

(** The four loop bodies of [stat]; [ref] is the copy of [mu] taken before
    the loop. *)
Definition sq_resid (obs : matrix) (ref : vec) : matrix :=
  map2 sq_resid_row obs ref.

Definition stat_plain (self : t) (ref : vec) (st : param) (it : item) : py param :=
  obs <- unpack1 it ;;
  let size := ncols obs in
  assert! (nrows obs =? dim self)%Z ;;
  Ok (mk_param (vadd (mu st) (sum_axis1 obs))
               (omega st + of_nat size)%X
               (vadd (sigma st) (sum_axis1 (sq_resid obs ref)))
               (eta st + of_nat size)%X).

Definition stat_scaled (self : t) (ref : vec) (st : param) (it : item) : py param :=
  '(obs, scale) <- unpack2 it ;;
  let size := ncols obs in
  assert! (nrows obs =? dim self)%Z ;;
  assert! (np_size scale =? Z.of_nat size)%Z ;;
  Ok (mk_param (vadd (mu st) (np_dot_mv obs scale))
               (omega st + np_sum scale)%X
               (vadd (sigma st) (np_dot_mv (sq_resid obs ref) scale))
               (eta st + np_sum scale)%X).

Definition stat_weighted_scaled (self : t) (ref : vec) (st : param) (it : item) : py param :=
  '(obs, weight, scale) <- unpack3 it ;;
  let size := ncols obs in
  assert! (nrows obs =? dim self)%Z ;;
  assert! (np_size weight =? Z.of_nat size)%Z ;;
  assert! (np_size scale =? Z.of_nat size)%Z ;;
  let weight := vmul weight scale in
  Ok (mk_param (vadd (mu st) (np_dot_mv obs weight))
               (omega st + np_sum weight)%X
               (vadd (sigma st) (np_dot_mv (sq_resid obs ref) weight))
               (eta st + np_sum scale)%X).

Definition stat_weighted (self : t) (ref : vec) (st : param) (it : item) : py param :=
  '(obs, weight) <- unpack2 it ;;
  let size := ncols obs in
  assert! (nrows obs =? dim self)%Z ;;
  assert! (np_size weight =? Z.of_nat size)%Z ;;
  Ok (mk_param (vadd (mu st) (np_dot_mv obs weight))
               (omega st + np_sum weight)%X
               (vadd (sigma st) (np_dot_mv (sq_resid obs ref) weight))
               (eta st + of_nat size)%X).

Definition stat (self : t) (evidence : list item) (weighted scaled : bool) : py param :=
  let dim := Z.to_nat (dim self) in
  let st0 := mk_param (np_zeros dim) (Fin 0) (np_zeros dim) (Fin 0) in
  let ref := mu (prm self) in
  st <- (if negb weighted then
           if negb scaled then py_fold (stat_plain self ref) st0 evidence
           else py_fold (stat_scaled self ref) st0 evidence
         else
           if scaled then py_fold (stat_weighted_scaled self ref) st0 evidence
           else py_fold (stat_weighted self ref) st0 evidence) ;;
  let ref := if xgt (omega st) (Fin 0)
             then vsub ref (vdivs (mu st) (omega st)) else ref in
  Ok (mk_param (mu st) (omega st)
               (vsub (sigma st)
                     (vscale (omega st) (map (fun x => xsqr (xabs x)) ref)))
               (eta st)).

Definition update (self : t) (stat : param) : py (retval * t) :=
  assert! ((np_size (mu stat) =? dim self)%Z
           && (np_size (sigma stat) =? dim self)%Z) ;;
  let p := prm self in
  if np_isinf (omega p) && np_isinf (eta p) then Ok (RetSelf, self)
  else
    let diff := if xgt (omega stat) (Fin 0)
                then vsub (mu p) (vdivs (mu stat) (omega stat))
                else mu p in
    '(weight, mu1, omega1) <-
      (if np_isfinite (omega p) then
         weight <- py_truediv (omega p * omega stat)%X (omega p + omega stat)%X ;;
         let mu1 := vadd (vscale (omega p) (mu p)) (mu stat) in
         let omega1 := (omega p + omega stat)%X in
         Ok (weight, vdivs mu1 omega1, omega1)
       else Ok (omega stat, mu p, omega p)) ;;
    let '(sigma1, eta1) :=
      if np_isfinite (eta p) then
        let sigma1 := vadd (vadd (vscale (eta p) (sigma p)) (sigma stat))
                           (vscale weight (map (fun x => xsqr (xabs x)) diff)) in
        let eta1 := (eta p + eta stat)%X in
        (vdivs sigma1 eta1, eta1)
      else (sigma p, eta p) in
    Ok (RetSelf, mk (dim self) (mk_param mu1 omega1 sigma1 eta1)).

End GaussGamma.

(* ================================================================== *)
(** ** class gausswish *)

Module GaussWish.

Record param : Type :=
  mk_param { mu : vec; omega : xreal; sigma : matrix; eta : xreal }.

Record t : Type := mk { dim : Z; prm : param }.

Definition init (dim : Z) (mu : option vec) (omega : option xreal)
    (sigma : option matrix) (eta : option xreal) : py t :=
  assert! (0 <? dim)%Z ;;
  let mu := match mu with None => np_zeros (Z.to_nat dim) | Some m => m end in
  let omega := match omega with None => Fin 1 | Some w => w end in
  let sigma := match sigma with None => np_eye (Z.to_nat dim) | Some s => s end in
  let eta := match eta with None => of_Z dim | Some e => e end in
  Ok (mk dim (mk_param mu omega sigma eta)).

Definition set_mu (self : t) (mu' : vec) : py t :=
  assert! (np_size mu' =? dim self)%Z ;;
  assert! (negb (existsb np_isnan mu') && forallb np_isfinite mu') ;;
  let p := prm self in
  Ok (mk (dim self) (mk_param mu' (omega p) (sigma p) (eta p))).

Definition set_omega (self : t) (omega' : xreal) : py t :=
  assert! (negb (np_isnan omega') && xgt omega' (Fin 0)) ;;
  let p := prm self in
  Ok (mk (dim self) (mk_param (mu p) omega' (sigma p) (eta p))).

Section Eigvals.

(** [linalg.eigvals], library code: the eigenvalues of a square array. *)
Variable linalg_eigvals : matrix -> vec.

Definition set_sigma (self : t) (sigma' : matrix) : py t :=
  assert! ((nrows sigma' =? dim self)%Z
           && forallb (fun r => (np_size r =? dim self)%Z) sigma') ;;
  assert! (negb (existsb np_isnan (concat sigma'))
           && forallb np_isfinite (concat sigma')
           && np_allclose (transpose (Z.to_nat (dim self)) sigma') sigma'
           && forallb (fun x => xgt x (Fin 0)) (linalg_eigvals sigma')) ;;
  let p := prm self in
  Ok (mk (dim self) (mk_param (mu p) (omega p) sigma' (eta p))).

End Eigvals.

Definition set_eta (self : t) (eta' : xreal) : py t :=
  assert! (negb (np_isnan eta') && xgt eta' (of_Z (dim self) - Fin 1)%X) ;;
  let p := prm self in
  Ok (mk (dim self) (mk_param (mu p) (omega p) (sigma p) eta')).

(** [copy]: [mu] is overwritten in place, [omega] is rebound, [sigma] is
    overwritten in place, [eta] is rebound, in this order.  The result is
    the instance as the call leaves it, and the exception when the call
    raises one. *)
Definition copy (self other : t) : t * option exn :=
  if negb (dim other =? dim self)%Z then (self, Some AssertionError)
  else
    let p := prm self in
    let q := prm other in
    match slice_assign (mu p) (mu q) with
    | Raise e => (self, Some e)
    | Ok mu' =>
        match slice_assign2 (sigma p) (sigma q) with
        | Raise e => (mk (dim self) (mk_param mu' (omega q) (sigma p) (eta p)), Some e)
        | Ok sigma' => (mk (dim self) (mk_param mu' (omega q) sigma' (eta q)), None)
        end
    end.

(** [rand]: [gamma_draw] is the array [random.gamma((eta-np.arange(dim))/2.0)]
    returns, [randn_mat] the array [random.randn(dim, dim)] returns and
    [randn_draw] the array [random.randn(dim)] returns. *)
Definition rand (self : t) (gamma_draw : vec) (randn_mat : matrix)
    (randn_draw : vec) : py (vec * matrix) :=
  let n := Z.to_nat (dim self) in
  let p := prm self in
  disp <- (if np_isfinite (eta p) then
             let diag := vscale (Fin 2) gamma_draw in
             let fact := madd (np_diag_of_vec (map np_sqrt diag))
                              (np_tril_below randn_mat) in
             s <- math_sqrt (eta p) ;;
             c <- linalg_cholesky (sigma p) ;;
             fact <- linalg_solve fact (mscale s (transpose n c)) ;;
             Ok (matmul n (transpose n fact) fact)
           else Ok (sigma p)) ;;
  if np_isfinite (omega p) then
    c <- linalg_cholesky disp ;;
    s <- math_sqrt (omega p) ;;
    Ok (vadd (mu p) (vdivs (np_dot_mv c randn_draw) s), disp)
  else Ok (mu p, disp).

Section Special.

Variable special_psi : xreal -> xreal.
Variable special_gammaln : xreal -> xreal.

Definition loglik (self : t) (obs : matrix) (nu : option xreal) : py loglik_result :=
  let dim := nrows obs in
  let size := ncols obs in
  assert! (dim =? GaussWish.dim self)%Z ;;
  let p := prm self in
  fact <- linalg_cholesky (sigma p) ;;
  x <- linalg_solve fact (map2 vsubs obs (mu p)) ;;
  let sqerr := sum_axis0 size (map (map (fun e => xsqr (xabs e))) x) in
  sqerr <- (if np_isfinite (omega p)
            then c <- py_truediv (of_Z dim) (omega p) ;;
                 Ok (map (fun e => e + c)%X sqerr)
            else Ok sqerr) ;;
  let logdet := np_sum (map np_log (np_diag fact)) in
  logdet <- (if np_isfinite (eta p)
             then l <- math_log (eta p / Fin 2)%X ;;
                  Ok (logdet
                      + ((of_Z dim / Fin 2) * l
                         - np_sum (map (fun k => special_psi ((eta p - k) / Fin 2))
                                       (np_arange (Z.to_nat dim)))
                           / Fin 2))%X
             else Ok logdet) ;;
  let logdet := Scalar logdet in
  let locals := [("dim", of_Z dim); ("size", of_nat size);
                 ("omega", omega p); ("eta", eta p)]%string in
  match nu with
  | None =>
      numdim <- load_name locals "numdim" ;;
      l <- math_log (Fin 2 * math_pi)%X ;;
      r <- bcast2 xsub (Scalar (- (numdim / Fin 2) * l)%X) logdet ;;
      r <- bcast2 xsub r (Arr1 (vdivs sqerr (Fin 2))) ;;
      Ok (LL r)
  | Some nu =>
      if np_isinf nu then
        numdim <- load_name (("nu", nu) :: locals)%string "numdim" ;;
        l <- math_log (Fin 2 * math_pi)%X ;;
        r <- bcast2 xsub (Scalar (- (numdim / Fin 2) * l)%X) logdet ;;
        r <- bcast2 xsub r (Arr1 (vdivs sqerr (Fin 2))) ;;
        Ok (LLW r (Arr1 (np_ones size)))
      else
        l <- math_log (math_pi * nu)%X ;;
        const <- bcast2 xadd
                   (Scalar (special_gammaln (nu / Fin 2)
                            - special_gammaln ((nu + of_Z dim) / Fin 2)
                            + (of_Z dim / Fin 2) * l)%X)
                   logdet ;;
        r <- bcast2 xsub (arr_neg const)
               (Arr1 (vscale ((nu + of_Z dim) / Fin 2)%X
                             (map np_log1p (vdivs sqerr nu)))) ;;
        Ok (LLW r (Arr1 (map (fun e => (nu + of_Z dim) / (nu + e))%X sqerr)))
  end.

Definition div (self other : t) : py xreal :=
  assert! (dim other =? dim self)%Z ;;
  let n := Z.to_nat (dim self) in
  let dim := of_Z (dim self) in
  let post := prm self in
  let prior := prm other in
  post_fact <- linalg_cholesky (sigma post) ;;
  d <- (if np_isfinite (omega post) && np_isfinite (omega prior) then
          ratio <- py_truediv (omega prior) (omega post) ;;
          l <- math_log ratio ;;
          x <- linalg_solve_vec post_fact (vsub (mu post) (mu prior)) ;;
          Ok (Some ((dim / Fin 2) * (ratio - l - Fin 1)
                    + (omega prior / Fin 2)
                      * np_sum (map (fun e => xsqr (xabs e)) x))%X)
        else if np_isinf (omega post) && np_isinf (omega prior)
                && forallb (fun b => b) (map2 xeq (mu post) (mu prior))
        then Ok (Some (Fin 0))
        else Ok None) ;;
  match d with
  | None => Ok PInf
  | Some div =>
      if np_isfinite (eta post) && np_isfinite (eta prior) then
        prior_fact <- linalg_cholesky (sigma prior) ;;
        let post_det := np_sum (map np_log (np_diag post_fact)) in
        let prior_det := np_sum (map np_log (np_diag prior_fact)) in
        l <- math_log (eta post / Fin 2)%X ;;
        let aux := ((dim / Fin 2) * l
                    - np_sum (map (fun k => special_psi ((eta post - k) / Fin 2))
                                  (np_arange n))
                      / Fin 2)%X in
        x <- linalg_solve post_fact prior_fact ;;
        lprior <- math_log (eta prior / Fin 2)%X ;;
        lpost <- math_log (eta post / Fin 2)%X ;;
        Ok (div - (eta post / Fin 2) * dim
            + (eta prior / Fin 2)
              * np_sum2 (map (map (fun e => xsqr (xabs e))) x)
            + (eta prior - eta post) * (post_det + aux)
            - eta prior * prior_det + eta post * post_det
            + np_sum (map (fun k => special_gammaln ((eta prior - k) / Fin 2))
                          (np_arange n))
            - np_sum (map (fun k => special_gammaln ((eta post - k) / Fin 2))
                          (np_arange n))
            - dim * (eta prior / Fin 2) * lprior
            + dim * (eta post / Fin 2) * lpost)%X
      else if np_isinf (eta post) && np_isinf (eta prior)
              && forallb (fun b => b)
                   (concat (map2 (map2 xeq) (sigma post) (sigma prior)))
      then Ok div
      else Ok PInf
  end.

End Special.

(** The four loop bodies of [stat]; [ref] is the copy of [mu] taken before
    the loop.  [scatter obs ref w] is
    [np.dot(resid, w[:, np.newaxis]*resid.T)] for
    [resid = obs-ref[:, np.newaxis]]. *)
Definition resid (obs : matrix) (ref : vec) : matrix := map2 vsubs obs ref.

Definition scatter_plain (n : nat) (obs : matrix) (ref : vec) : matrix :=
  let r := resid obs ref in
  matmul n r (transpose (ncols obs) r).

Definition scatter (n : nat) (obs : matrix) (ref : vec) (w : vec) : matrix :=
  let r := resid obs ref in
  matmul n r (map2 vscale w (transpose (ncols obs) r)).

Definition stat_plain (self : t) (ref : vec) (st : param) (it : item) : py param :=
  obs <- unpack1 it ;;
  let size := ncols obs in
  assert! (nrows obs =? dim self)%Z ;;
  Ok (mk_param (vadd (mu st) (sum_axis1 obs))
               (omega st + of_nat size)%X
               (madd (sigma st) (scatter_plain (Z.to_nat (dim self)) obs ref))
               (eta st + of_nat size)%X).

Definition stat_scaled (self : t) (ref : vec) (st : param) (it : item) : py param :=
  '(obs, scale) <- unpack2 it ;;
  let size := ncols obs in
  assert! (nrows obs =? dim self)%Z ;;
  assert! (np_size scale =? Z.of_nat size)%Z ;;
  Ok (mk_param (vadd (mu st) (np_dot_mv obs scale))
               (omega st + np_sum scale)%X
               (madd (sigma st) (scatter (Z.to_nat (dim self)) obs ref scale))
               (eta st + np_sum scale)%X).

Definition stat_weighted_scaled (self : t) (ref : vec) (st : param) (it : item) : py param :=
  '(obs, weight, scale) <- unpack3 it ;;
  let size := ncols obs in
  assert! (nrows obs =? dim self)%Z ;;
  assert! (np_size weight =? Z.of_nat size)%Z ;;
  assert! (np_size scale =? Z.of_nat size)%Z ;;
  let weight := vmul weight scale in
  Ok (mk_param (vadd (mu st) (np_dot_mv obs weight))
               (omega st + np_sum weight)%X
               (madd (sigma st) (scatter (Z.to_nat (dim self)) obs ref weight))
               (eta st + np_sum scale)%X).

Definition stat_weighted (self : t) (ref : vec) (st : param) (it : item) : py param :=
  '(obs, weight) <- unpack2 it ;;
  let size := ncols obs in
  assert! (nrows obs =? dim self)%Z ;;
  assert! (np_size weight =? Z.of_nat size)%Z ;;
  Ok (mk_param (vadd (mu st) (np_dot_mv obs weight))
               (omega st + np_sum weight)%X
               (madd (sigma st) (scatter (Z.to_nat (dim self)) obs ref weight))
               (eta st + of_nat size)%X).

Definition stat (self : t) (evidence : list item) (weighted scaled : bool) : py param :=
  let dim := Z.to_nat (dim self) in
  let st0 := mk_param (np_zeros dim) (Fin 0) (repeat (np_zeros dim) dim) (Fin 0) in
  let ref := mu (prm self) in
  st <- (if negb weighted then
           if negb scaled then py_fold (stat_plain self ref) st0 evidence
           else py_fold (stat_scaled self ref) st0 evidence
         else
           if scaled then py_fold (stat_weighted_scaled self ref) st0 evidence
           else py_fold (stat_weighted self ref) st0 evidence) ;;
  let ref := if xgt (omega st) (Fin 0)
             then vsub ref (vdivs (mu st) (omega st)) else ref in
  Ok (mk_param (mu st) (omega st)
               (msub (sigma st) (mscale (omega st) (np_outer ref ref)))
               (eta st)).

Definition update (self : t) (stat : param) : py (retval * t) :=
  let n := Z.to_nat (dim self) in
  assert! ((np_size (mu stat) =? dim self)%Z
           && (nrows (sigma stat) =? dim self)%Z
           && forallb (fun r => (np_size r =? dim self)%Z) (sigma stat)) ;;
  let p := prm self in
  if np_isinf (omega p) && np_isinf (eta p) then Ok (RetNone, self)
  else
    let diff := if xgt (omega stat) (Fin 0)
                then vsub (mu p) (vdivs (mu stat) (omega stat))
                else mu p in
    '(weight, mu1, omega1) <-
      (if np_isfinite (omega p) then
         weight <- py_truediv (omega p * omega stat)%X (omega p + omega stat)%X ;;
         let mu1 := vadd (vscale (omega p) (mu p)) (mu stat) in
         let omega1 := (omega p + omega stat)%X in
         Ok (weight, vdivs mu1 omega1, omega1)
       else Ok (omega stat, mu p, omega p)) ;;
    let '(sigma1, eta1) :=
      if np_isfinite (eta p) then
        let sigma1 := madd (madd (mscale (eta p) (sigma p)) (sigma stat))
                           (mscale weight (np_outer diff diff)) in
        let eta1 := (eta p + eta stat)%X in
        (mdivs sigma1 eta1, eta1)
      else (sigma p, eta p) in
    let sigma2 := madd (mdivs sigma1 (Fin 2))
                       (transpose n (mdivs sigma1 (Fin 2))) in
    Ok (RetSelf, mk (dim self) (mk_param mu1 omega1 sigma2 eta1)).

End GaussWish.

(* ================================================================== *)
(** ** [src/__util__.py] *)

Module Util.

(** [a <= b] on floats, and Python's [max] of two floats, which keeps the
    first unless the second is greater. *)
Definition xle (a b : xreal) : bool := xlt a b || xeq a b.
Definition py_max (a b : xreal) : xreal := if xgt b a then b else a.

Section Spacing.

(** [np.spacing] is not part of the repository. *)
Variable np_spacing : xreal -> xreal.

Definition isconv (tol : xreal) (val : list xreal) : bool :=
  if (length val <? 2)%nat then false
  else
    let last := nth (length val - 1) val NaN in
    let prev := nth (length val - 2) val NaN in
    xle (py_max (Fin 2 * xabs (last - prev))%X (np_spacing (Fin 1 - tol)%X))
        (tol * (xabs last + xabs prev))%X.

End Spacing.

Section Argsort.

(** [np.argsort] is not part of the repository. *)
Variable np_argsort : vec -> list nat.

(** [np.diff] of a 1-D array. *)
Definition np_diff (v : vec) : vec := map2 xsub (tl v) v.

(** [unique]: the pairs the generator yields, or the [IndexError] it
    raises. *)
Definition unique (seq_ : vec) : lookup (list (xreal * list nat)) :=
  let order := np_argsort seq_ in
  sorted <~ take_nat seq_ order ;;
  let ind := np_where (map (fun d => xgt d (Fin 0)) (np_diff sorted)) in
  let ind := [0%nat] ++ map S ind ++ [length seq_] in
  lookup_map (fun ij : nat * nat =>
                let (i, j) := ij in
                k <~ index_nat order i ;;
                v <~ index_nat seq_ k ;;
                Found (v, slice order i j))
             (combine (removelast ind) (tl ind)).

End Argsort.

End Util.
(* ================================================================== *)
(** ** The invariants of the data model *)

Definition finite (x : xreal) : Prop := exists r, x = Fin r.

(** A positive number or [+Inf]. *)
Definition positive (x : xreal) : Prop :=
  x = PInf \/ exists r, x = Fin r /\ 0 < r.

(** A Dirichlet instance whose parameters meet the invariants: [pi] has
    [dim] entries, all finite and not negative, summing to 1 within the
    tolerance of the setter; [alpha] is positive or [+Inf]. *)
Definition dirich_valid (d : Dirich.t) : Prop :=
  (0 < Dirich.dim d)%Z
  /\ (exists rs,
        Dirich.pi (Dirich.prm d) = map Fin rs
        /\ np_size rs = Dirich.dim d
        /\ Forall (fun r => 0 <= r) rs
        /\ Rabs (Rsum rs - 1) < / 2 ^ 52)
  /\ positive (Dirich.alpha (Dirich.prm d)).

(** The statistics record with every field zero. *)
Definition dirich_zero_stat (d : Dirich.t) : Dirich.param :=
  Dirich.mk_param (np_zeros (Z.to_nat (Dirich.dim d))) (Fin 0).

(** A Gauss-Gamma instance whose parameters meet the invariants: [mu]
    and [sigma] have [dim] finite entries, those of [sigma] positive;
    [omega] and [eta] are positive or [+Inf]. *)
Definition gaussgamma_valid (g : GaussGamma.t) : Prop :=
  (0 < GaussGamma.dim g)%Z
  /\ (exists ms,
        GaussGamma.mu (GaussGamma.prm g) = map Fin ms
        /\ np_size ms = GaussGamma.dim g)
  /\ positive (GaussGamma.omega (GaussGamma.prm g))
  /\ (exists ss,
        GaussGamma.sigma (GaussGamma.prm g) = map Fin ss
        /\ np_size ss = GaussGamma.dim g
        /\ Forall (fun s => 0 < s) ss)
  /\ positive (GaussGamma.eta (GaussGamma.prm g)).

Definition gaussgamma_zero_stat (g : GaussGamma.t) : GaussGamma.param :=
  let n := Z.to_nat (GaussGamma.dim g) in
  GaussGamma.mk_param (np_zeros n) (Fin 0) (np_zeros n) (Fin 0).

(** The Gauss-Gamma instance of the scenario: [dim = 2], [mu = [0,0]],
    [omega = 1], [sigma = [1,1]], [eta = +Inf]. *)
Definition fixed_dispersion_prior : GaussGamma.t :=
  GaussGamma.mk 2 (GaussGamma.mk_param [Fin 0; Fin 0] (Fin 1) [Fin 1; Fin 1] PInf).

(** *** Triangular matrices

    [lower_from n i rows]: [rows] are rows [i], [i+1], ... of a lower
    triangular matrix of order [n] with a positive diagonal: row [k] has
    [k] entries, then a positive one, then zeros. *)
Inductive lower_from (n : nat) : nat -> rmat -> Prop :=
| lower_nil (i : nat) : lower_from n i []
| lower_cons (i : nat) (p : rvec) (d : R) (rows : rmat) :
    length p = i -> 0 < d -> (i < n)%nat ->
    lower_from n (S i) rows ->
    lower_from n i ((p ++ d :: repeat 0 (n - S i)) :: rows).

(** Row [k] of the identity matrix of order [n], and rows [i] to
    [i + m - 1]. *)
Definition Runit (n k : nat) : rvec := repeat 0 k ++ 1 :: repeat 0 (n - S k).
Definition Runits (n i m : nat) : rmat := map (Runit n) (seq i m).

(** A Gauss-Wishart instance whose parameters meet the invariants: [mu]
    has [dim] finite entries; [sigma] is a [dim] by [dim] array of finite
    numbers, symmetric and positive definite, that is, with a Cholesky
    factor; [omega] is positive or [+Inf]; [eta] is above [dim - 1] or
    [+Inf]. *)
Definition gausswish_valid (g : GaussWish.t) : Prop :=
  let n := Z.to_nat (GaussWish.dim g) in
  (0 < GaussWish.dim g)%Z
  /\ (exists ms,
        GaussWish.mu (GaussWish.prm g) = map Fin ms
        /\ np_size ms = GaussWish.dim g)
  /\ positive (GaussWish.omega (GaussWish.prm g))
  /\ (exists s,
        GaussWish.sigma (GaussWish.prm g) = mat_of_R s
        /\ length s = n
        /\ Forall (fun r => length r = n) s
        /\ transpose n (mat_of_R s) = mat_of_R s
        /\ exists l, cholesky_rows n s [] = Some l)
  /\ (GaussWish.eta (GaussWish.prm g) = PInf
      \/ exists e, GaussWish.eta (GaussWish.prm g) = Fin e
                   /\ IZR (GaussWish.dim g) - 1 < e).

Definition gausswish_zero_stat (g : GaussWish.t) : GaussWish.param :=
  let n := Z.to_nat (GaussWish.dim g) in
  GaussWish.mk_param (np_zeros n) (Fin 0) (repeat (np_zeros n) n) (Fin 0).

(** *** What the setters accept *)

(** A vector on the unit simplex, as the [pi] setter checks it. *)
Definition simplex (dim : Z) (v : list xreal) : Prop :=
  exists rs,
    v = map Fin rs /\ np_size rs = dim
    /\ Forall (fun r => 0 <= r) rs
    /\ Rabs (Rsum rs - 1) < / 2 ^ 52.

(** A vector of [dim] finite numbers, and one of [dim] positive finite
    numbers. *)
Definition finite_vector (dim : Z) (v : list xreal) : Prop :=
  exists rs, v = map Fin rs /\ np_size rs = dim.

Definition positive_vector (dim : Z) (v : list xreal) : Prop :=
  exists rs, v = map Fin rs /\ np_size rs = dim /\ Forall (fun r => 0 < r) rs.

(** A degrees-of-freedom value above [dim - 1]. *)
Definition above_dim (dim : Z) (x : xreal) : Prop :=
  x = PInf \/ exists e, x = Fin e /\ IZR dim - 1 < e.

(** A [dim] by [dim] array of finite numbers that is close to its
    transpose and whose eigenvalues, as [linalg.eigvals] returns them,
    are positive. *)
Definition spd_checked (eigvals : list (list xreal) -> list xreal) (dim : Z)
    (m : list (list xreal)) : Prop :=
  nrows m = dim
  /\ Forall (fun r => finite_vector dim r) m
  /\ np_allclose (transpose (Z.to_nat dim) m) m = true
  /\ Forall (fun x => xgt x (Fin 0) = true) (eigvals m).

(** A setter accepts the values that meet [accept], which it stores, and
    fails an assertion on every other value. *)
Definition setter_spec {T V : Type} (set : T -> V -> py T)
    (accept : T -> V -> Prop) (store : T -> V -> T) : Prop :=
  forall self v,
    (accept self v -> set self v = Ok (store self v))
    /\ (~ accept self v -> set self v = Raise AssertionError).

(** The instances that [gaussgamma(2)] and [gausswish(2)] build by
    default. *)
Definition default_gaussgamma : GaussGamma.t :=
  GaussGamma.mk 2 (GaussGamma.mk_param [Fin 0; Fin 0] (Fin 1) [Fin 1; Fin 1] (Fin 1)).

Definition default_gausswish : GaussWish.t :=
  GaussWish.mk 2
    (GaussWish.mk_param [Fin 0; Fin 0] (Fin 1)
                        [[Fin 1; Fin 0]; [Fin 0; Fin 1]] (Fin 2)).

(** *** Matching instances of dimension 1

    The diagonal and the full-covariance instance with the mean [m], the
    scale [s] (a 1 by 1 matrix for the latter) and the same [omega] and
    [eta]. *)
Definition gaussgamma1 (m : xreal) (w : xreal) (s : xreal) (e : xreal) : GaussGamma.t :=
  GaussGamma.mk 1 (GaussGamma.mk_param [m] w [s] e).

Definition gausswish1 (m : xreal) (w : xreal) (s : xreal) (e : xreal) : GaussWish.t :=
  GaussWish.mk 1 (GaussWish.mk_param [m] w [[s]] e).

(** Two calls of [update], one in each family, end alike: with the same
    exception, or in matching instances. *)
Definition same_update (a : py (retval * GaussGamma.t))
    (b : py (retval * GaussWish.t)) : Prop :=
  match a, b with
  | Ok (_, g), Ok (_, h) =>
      exists m w s e, g = gaussgamma1 m w s e /\ h = gausswish1 m w s e
  | Raise x, Raise y => x = y
  | _, _ => False
  end.

(** Two calls of [rand] end alike: with the same exception, or with the
    same location and the same dispersion. *)
Definition same_sample (a : py (list xreal * list xreal))
    (b : py (list xreal * list (list xreal))) : Prop :=
  match a, b with
  | Ok (loc, disp), Ok (loc', disp') => loc' = loc /\ disp' = map (fun d => [d]) disp
  | Raise x, Raise y => x = y
  | _, _ => False
  end.

(** *** Evidence of finite numbers

    An element of the evidence with finite entries, and the batch it
    stands for in the sums of [stat]: the observations with the weight
    each one carries ([1], the scale, the weight, or the weight times the
    scale, as the two flags say). *)
Inductive ritem : Type :=
| RObs (o : rmat)
| RTuple2 (o : rmat) (a : rvec)
| RTuple3 (o : rmat) (a b : rvec).

Definition item_of_R (it : ritem) : item :=
  match it with
  | RObs o => Obs (mat_of_R o)
  | RTuple2 o a => Tuple2 (mat_of_R o) (map Fin a)
  | RTuple3 o a b => Tuple3 (mat_of_R o) (map Fin a) (map Fin b)
  end.

Definition batch (weighted scaled : bool) (it : ritem) : rmat * rvec :=
  match it with
  | RObs o => (o, repeat 1 (length (hd [] o)))
  | RTuple2 o a => (o, a)
  | RTuple3 o a b => (o, map2 Rmult a b)
  end.

(** The element has the arity that the flags ask for, [dim] rows, and as
    many weights (and scales) as columns. *)
Definition item_shaped (dim : nat) (weighted scaled : bool) (it : ritem) : Prop :=
  match it with
  | RObs o =>
      weighted = false /\ scaled = false
      /\ length o = dim /\ Forall (fun r => length r = length (hd [] o)) o
  | RTuple2 o a =>
      weighted <> scaled
      /\ length o = dim /\ Forall (fun r => length r = length a) o
  | RTuple3 o a b =>
      weighted = true /\ scaled = true
      /\ length o = dim /\ length b = length a
      /\ Forall (fun r => length r = length a) o
  end.

(** The sums over the batches: the total weight, the weighted sum of the
    observations, and the weighted sum of the squared deviations of the
    observations from a centre [c], coordinate by coordinate. *)
Definition total_weight (bs : list (rmat * rvec)) : R :=
  fold_right (fun b acc => Rsum (snd b) + acc) 0 bs.

Definition weighted_sum (n : nat) (bs : list (rmat * rvec)) : rvec :=
  fold_right
    (fun b acc => map2 Rplus (map (fun row => Rdot row (snd b)) (fst b)) acc)
    (repeat 0 n) bs.

Definition sq_dev (n : nat) (bs : list (rmat * rvec)) (c : rvec) : rvec :=
  fold_right
    (fun b acc =>
       map2 Rplus
         (map2 (fun row ci => Rdot (map (fun x => (x - ci) * (x - ci)) row) (snd b))
               (fst b) c)
         acc)
    (repeat 0 n) bs.

(** The weighted mean of the batches. *)
Definition weighted_mean (n : nat) (bs : list (rmat * rvec)) : rvec :=
  map (fun x => x / total_weight bs) (weighted_sum n bs).

(** The sums of one coordinate over the batches: [hs] holds, for each
    batch, the row of that coordinate and the weights. *)
Definition coord_weight (hs : list (list R * list R)) : R :=
  fold_right (fun h acc => Rsum (snd h) + acc) 0 hs.
Definition coord_sum (hs : list (list R * list R)) : R :=
  fold_right (fun h acc => Rdot (fst h) (snd h) + acc) 0 hs.
Definition coord_sq (hs : list (list R * list R)) : R :=
  fold_right (fun h acc => Rdot (map (fun x => x * x) (fst h)) (snd h) + acc) 0 hs.
Definition coord_dev (hs : list (list R * list R)) (c : R) : R :=
  fold_right
    (fun h acc => Rdot (map (fun x => (x - c) * (x - c)) (fst h)) (snd h) + acc)
    0 hs.

(** The first row of every batch, and the batches without it. *)
Definition heads (bs : list (list (list R) * list R)) : list (list R * list R) :=
  map (fun b => (hd [] (fst b), snd b)) bs.
Definition tails (bs : list (list (list R) * list R)) : list (list (list R) * list R) :=
  map (fun b => (tl (fst b), snd b)) bs.

Definition batch_shaped (n : nat) (b : list (list R) * list R) : Prop :=
  length (fst b) = n /\ Forall (fun r => length r = length (snd b)) (fst b).

(** The loop body that [stat] runs for the two flags. *)
Definition gaussgamma_step (weighted scaled : bool) :
    GaussGamma.t -> list xreal -> GaussGamma.param -> item -> py GaussGamma.param :=
  if negb weighted then
    if negb scaled then GaussGamma.stat_plain else GaussGamma.stat_scaled
  else
    if scaled then GaussGamma.stat_weighted_scaled else GaussGamma.stat_weighted.

Definition gausswish_step (weighted scaled : bool) :
    GaussWish.t -> list xreal -> GaussWish.param -> item -> py GaussWish.param :=
  if negb weighted then
    if negb scaled then GaussWish.stat_plain else GaussWish.stat_scaled
  else
    if scaled then GaussWish.stat_weighted_scaled else GaussWish.stat_weighted.

(** The deviations of the rows of a batch from a centre, the weighted sum
    of the outer products of the deviations of its observations, and the
    sum of these over all batches: entry [(i, j)] adds up
    [(x_i - c_i) * w * (x_j - c_j)] over the observations [x] of weight
    [w]. *)
Definition deviations (o : list (list R)) (c : list R) : list (list R) :=
  map2 (fun row ci => map (fun x => x - ci) row) o c.
Definition scatter_batch (b : list (list R) * list R) (c : list R) : list (list R) :=
  let d := deviations (fst b) c in
  map (fun di => map (fun dj => Rdot di (map2 Rmult (snd b) dj)) d) d.
Definition outer_dev (n : nat) (bs : list (list (list R) * list R)) (c : list R) :
    list (list R) :=
  fold_right (fun b acc => map2 (map2 Rplus) (scatter_batch b c) acc)
             (repeat (repeat 0 n) n) bs.

(** The transpose of a matrix of real numbers with [n] columns. *)
Fixpoint Rtranspose (n : nat) (m : list (list R)) : list (list R) :=
  match n with
  | O => []
  | S k => map (hd 0) m :: Rtranspose k (map (@tl R) m)
  end.

(** One entry of [outer_dev], and the sums it is made of. *)
Definition cross (w ri : list R) (a : R) (rj : list R) (c : R) : R :=
  Rdot (map (fun x => x - a) ri) (map2 Rmult w (map (fun x => x - c) rj)).
Definition entry_dev (bs : list (list (list R) * list R)) (c : list R) (i j : nat) : R :=
  fold_right
    (fun b acc => cross (snd b) (nth i (fst b) []) (nth i c 0)
                        (nth j (fst b) []) (nth j c 0) + acc)
    0 bs.
Definition entry_prod (bs : list (list (list R) * list R)) (i j : nat) : R :=
  fold_right
    (fun b acc => Rdot (nth i (fst b) []) (map2 Rmult (snd b) (nth j (fst b) [])) + acc)
    0 bs.
Definition entry_sum (bs : list (list (list R) * list R)) (i : nat) : R :=
  fold_right (fun b acc => Rdot (nth i (fst b) []) (snd b) + acc) 0 bs.

(** A matrix of [n] rows and [n] columns. *)
Definition square (n : nat) (m : list (list R)) : Prop :=
  length m = n /\ Forall (fun r => length r = n) m.

(** *** A batch of two observations in two dimensions

    The observations [(1, 3)] and [(2, 5)] with the weights [1] and [2]
    and the scales [3] and [1]. *)
Definition two_observations : list ritem :=
  [RTuple3 [[1; 2]; [3; 5]] [1; 2] [3; 1]].

(** *** The Dirichlet scenario

    The instance with [dim = 3], uniform [pi] and [alpha = 1], and one
    responsibility matrix of two observations. *)
Definition scenario_prior : Dirich.t :=
  Dirich.mk 3 (Dirich.mk_param [Fin (1/3); Fin (1/3); Fin (1/3)] (Fin 1)).

Definition scenario_evidence : list matrix :=
  [[[Fin 1; Fin 0]; [Fin 0; Fin 1]; [Fin 0; Fin 0]]].

(** A number that is finite and positive. *)
Definition fin_pos (x : xreal) : Prop := exists r, x = Fin r /\ 0 < r.

(** *** Counts of responsibilities

    Per category, the sum of all the entries of its row in every
    responsibility matrix of the evidence. *)
Definition counts (n : nat) (ev : list (list (list R))) : list R :=
  fold_right (fun prob acc => map2 Rplus (map Rsum prob) acc) (repeat 0 n) ev.

(** The entrywise sum of two statistics records of [dirich.stat]. *)
Definition dirich_stat_plus (a b : Dirich.param) : Dirich.param :=
  Dirich.mk_param (vadd (Dirich.pi a) (Dirich.pi b))
                  (Dirich.alpha a + Dirich.alpha b)%X.


(** A statistics record of counts: [dim] finite counts and a finite total
    that is not negative. *)
Definition count_record (dim : Z) (s : Dirich.param) : Prop :=
  exists cs A,
    Dirich.pi s = map Fin cs /\ np_size cs = dim
    /\ Dirich.alpha s = Fin A /\ 0 <= A.

(** *** Assignment through a mask

    [merge mask v vals] is [v] with the entries at which [mask] holds
    replaced, in order, by the values [vals]. *)
Fixpoint merge {A : Type} (mask : list bool) (v vals : list A) : list A :=
  match mask, v with
  | b :: m, x :: v' =>
      if b then match vals with
                | y :: vals' => y :: merge m v' vals'
                | [] => x :: v'
                end
      else x :: merge m v' vals
  | _, _ => v
  end.

(** *** The expected log-likelihood of a category

    [category n i] is the category that the index [i] names among [n]
    (a negative index counts from the end); [category_loglik] is the
    value for a category of probability [p]. *)
Definition category (n : nat) (i : Z) : nat :=
  Z.to_nat (if (i <? 0)%Z then i + Z.of_nat n else i).

Definition category_loglik (special_psi : xreal -> xreal) (alpha : xreal) (p : R) :
    xreal :=
  if Rltb 0 p then
    if np_isfinite alpha then (special_psi (alpha * Fin p) - special_psi alpha)%X
    else Fin (ln p)
  else NInf.

(** *** Runs of a sorted list

    [pairs l] are the consecutive pairs of [l].  [runs x rest mask] cuts
    the list [x :: rest] after every position at which [mask] holds
    ([mask] has one entry for every two neighbours) and gives every piece
    with its first element. *)
Definition pairs {A : Type} (l : list A) : list (A * A) :=
  combine (removelast l) (tl l).

Fixpoint runs {A : Type} (x : A) (rest : list A) (mask : list bool) :
    list (A * list A) :=
  match rest, mask with
  | y :: rest', b :: mask' =>
      let rs := runs y rest' mask' in
      if b then (x, [x]) :: rs
      else match rs with
           | (_, r) :: rs' => (x, x :: r) :: rs'
           | [] => [(x, [x])]
           end
  | _, _ => [(x, [x])]
  end.

(** The mask of the rises of a list of numbers: entry [k] holds when
    entry [k + 1] of the list is greater than entry [k]. *)
Definition rises (ss : list R) : list bool :=
  map2 (fun y x => Rltb 0 (y + - x)) (tl ss) ss.

(** An [n] by [n] array. *)
Definition square_array (n : nat) (m : list (list xreal)) : Prop :=
  length m = n /\ Forall (fun r => length r = n) m.

(** A statistics record of [gausswish] in two dimensions whose [sigma] is
    not symmetric. *)
Definition lopsided_record : GaussWish.param :=
  GaussWish.mk_param [Fin 1; Fin 1] (Fin 1) [[Fin 1; Fin 2]; [Fin 0; Fin 1]] (Fin 1).

(** A statistics record of [gaussgamma] with finite fields of the right
    sizes, none of [omega], [sigma], [eta] negative. *)
Definition gaussgamma_record (dim : Z) (st : GaussGamma.param) : Prop :=
  exists (mS : list R) (W : R) (tS : list R) (E : R),
    GaussGamma.mu st = map Fin mS /\ np_size mS = dim
    /\ GaussGamma.omega st = Fin W /\ 0 <= W
    /\ GaussGamma.sigma st = map Fin tS /\ np_size tS = dim
    /\ Forall (fun t => 0 <= t) tS
    /\ GaussGamma.eta st = Fin E /\ 0 <= E.
(* ================================================================== *)
(** * Properties *)

(** ** Deciding comparisons of reals *)

Lemma Rltb_true (x y : R) : x < y -> Rltb x y = true.
Proof. intros H. unfold Rltb. destruct (Rlt_dec x y); [reflexivity | contradiction]. Qed.

Lemma Rltb_false (x y : R) : ~ x < y -> Rltb x y = false.
Proof. intros H. unfold Rltb. destruct (Rlt_dec x y); [contradiction | reflexivity]. Qed.

Lemma Rltb_spec (x y : R) : Rltb x y = true <-> x < y.
Proof.
  unfold Rltb. destruct (Rlt_dec x y); split; intros; auto; discriminate.
Qed.

Lemma Reqb_true (x y : R) : x = y -> Reqb x y = true.
Proof. intros H. unfold Reqb. destruct (Req_dec_T x y); [reflexivity | contradiction]. Qed.

Lemma Reqb_false (x y : R) : x <> y -> Reqb x y = false.
Proof. intros H. unfold Reqb. destruct (Req_dec_T x y); [contradiction | reflexivity]. Qed.

Lemma Reqb_spec (x y : R) : Reqb x y = true <-> x = y.
Proof.
  unfold Reqb. destruct (Req_dec_T x y); split; intros; auto; discriminate.
Qed.

Lemma Rleb_spec (x y : R) : Rleb x y = true <-> x <= y.
Proof.
  unfold Rleb. destruct (Rle_dec x y); split; intros; auto; discriminate.
Qed.

(** Decides the comparisons of real constants in the goal. *)
Ltac rdec :=
  repeat match goal with
  | |- context [Rltb ?a ?b] =>
      first [ rewrite (Rltb_true a b) by lra | rewrite (Rltb_false a b) by lra ]
  | |- context [Reqb ?a ?b] =>
      first [ rewrite (Reqb_true a b) by lra | rewrite (Reqb_false a b) by lra ]
  end.

(** Splits an equation between structures of numbers into the equations
    between the real numbers in them, and solves these. *)
Ltac real_eq :=
  lazymatch goal with
  | |- @eq R _ _ => first [ lra | field; lra | idtac ]
  | _ => idtac
  end.

Ltac struct_eq :=
  repeat (lazymatch goal with
          | |- @eq R _ _ => fail
          | _ => first [ reflexivity | progress f_equal ]
          end);
  real_eq.

(** ** Finite values *)

Lemma finite_Fin (r : R) : finite (Fin r).
Proof. exists r; reflexivity. Qed.

Lemma np_isfinite_finite (x : xreal) : np_isfinite x = true <-> finite x.
Proof.
  split.
  - destruct x; simpl; intros H; try discriminate. apply finite_Fin.
  - intros [r ->]. reflexivity.
Qed.

Lemma xdiv_Fin (x y : R) : y <> 0 -> (Fin x / Fin y)%X = Fin (x / y).
Proof. intros H. simpl. rewrite Reqb_false by assumption. reflexivity. Qed.

Lemma xsub_self (x : xreal) : finite x -> (x - x)%X = Fin 0.
Proof. intros [r ->]. unfold xsub; simpl. f_equal. lra. Qed.

(** ** Sums *)

Lemma fold_xadd_Fin (l : rvec) (a : R) :
  fold_left xadd (map Fin l) (Fin a) = Fin (a + Rsum l).
Proof.
  revert a. induction l as [|x l IH]; intros a; simpl.
  - f_equal. lra.
  - rewrite IH. f_equal. lra.
Qed.

Lemma np_sum_Fin (l : rvec) : np_sum (map Fin l) = Fin (Rsum l).
Proof. unfold np_sum. rewrite fold_xadd_Fin. f_equal. lra. Qed.

Lemma np_sum_zeros (n : nat) : np_sum (repeat (Fin 0) n) = Fin 0.
Proof.
  unfold np_sum. induction n as [|n IH]; simpl; [reflexivity|].
  replace (0 + 0) with 0 by lra. exact IH.
Qed.

Lemma map2_length {A B C : Type} (f : A -> B -> C) (a : list A) (b : list B) :
  length a = length b -> length (map2 f a b) = length a.
Proof.
  revert b. induction a as [|x a IH]; intros [|y b] H; simpl in *; try discriminate; auto.
Qed.

Lemma map2_map_Fin (f : xreal -> xreal -> xreal) (g : R -> R -> R) (a b : rvec) :
  (forall x y, f (Fin x) (Fin y) = Fin (g x y)) ->
  map2 f (map Fin a) (map Fin b) = map Fin (map2 g a b).
Proof.
  intros H. revert b. induction a as [|x a IH]; intros [|y b]; simpl; auto.
  rewrite H, IH. reflexivity.
Qed.

Lemma vsub_self (u : vec) : Forall finite u -> vsub u u = repeat (Fin 0) (length u).
Proof.
  induction 1 as [|x u Hx _ IH]; simpl; [reflexivity|].
  unfold vsub in *. simpl. rewrite xsub_self by assumption. rewrite IH. reflexivity.
Qed.

Lemma vmul_zeros_l (v : vec) :
  Forall finite v -> vmul (repeat (Fin 0) (length v)) v = repeat (Fin 0) (length v).
Proof.
  induction 1 as [|x u [r ->] _ IH]; simpl; [reflexivity|].
  unfold vmul in *. simpl. rewrite IH. f_equal. f_equal. lra.
Qed.

(** ** Dirichlet *)

Lemma xeq_true (x y : xreal) : xeq x y = true -> x = y.
Proof.
  destruct x, y; simpl; intros H; try discriminate; auto.
  apply Reqb_spec in H. congruence.
Qed.

Lemma xeq_refl (x : xreal) : x <> NaN -> xeq x x = true.
Proof.
  destruct x; simpl; intros H; try reflexivity.
  - apply Reqb_true; reflexivity.
  - exfalso. apply H. reflexivity.
Qed.

Lemma all_xeq_true (p q : vec) :
  length p = length q ->
  forallb (fun b => b) (map2 xeq p q) = true -> p = q.
Proof.
  revert q. induction p as [|x p IH]; intros [|y q] Hl H; simpl in *;
    try discriminate; auto.
  apply andb_true_iff in H. destruct H as [H1 H2].
  f_equal; [apply xeq_true; assumption | apply IH; auto].
Qed.

Lemma all_xeq_refl (p : vec) :
  ~ In NaN p -> forallb (fun b => b) (map2 xeq p p) = true.
Proof.
  induction p as [|x p IH]; simpl; intros H; auto.
  rewrite xeq_refl by (intros ->; apply H; left; reflexivity).
  apply IH. intros Hin. apply H. right. assumption.
Qed.

Lemma mask_same {A : Type} (f : A -> bool) (p q : list A) (d : A) :
  length p = length q ->
  existsb (fun b => b) (map2 xorb (map f p) (map f q)) = false ->
  forall i, f (nth i p d) = f (nth i q d).
Proof.
  revert q. induction p as [|x p IH]; intros [|y q] Hl H i;
    try discriminate Hl.
  - destruct i; reflexivity.
  - cbn [map map2 existsb] in H. apply orb_false_iff in H. destruct H as [H1 H2].
    destruct i as [|i]; cbn [nth].
    + destruct (f x), (f y); simpl in H1; congruence.
    + apply IH; auto.
Qed.

Lemma mask_self {A : Type} (f : A -> bool) (p : list A) :
  existsb (fun b => b) (map2 xorb (map f p) (map f p)) = false.
Proof.
  induction p as [|x p IH]; simpl; auto.
  rewrite xorb_nilpotent. exact IH.
Qed.

(** C4 *)
(** Claim C4. [div] of two Dirichlet instances of one dimension: it is
    [+Inf] when some coordinate is in the support ([pi > 0]) of one and not
    of the other; when both [alpha] are [+Inf] it is [0] for equal [pi]
    and [+Inf] otherwise; when one [alpha] is finite and the other is not,
    it is [+Inf]. *)
Theorem dirich_div_degenerate
    (special_psi special_gammaln : xreal -> xreal) (self other : Dirich.t) :
  Dirich.dim other = Dirich.dim self ->
  length (Dirich.pi (Dirich.prm self)) = length (Dirich.pi (Dirich.prm other)) ->
  let p := Dirich.pi (Dirich.prm self) in
  let q := Dirich.pi (Dirich.prm other) in
  let a := Dirich.alpha (Dirich.prm self) in
  let b := Dirich.alpha (Dirich.prm other) in
  let d := Dirich.div special_psi special_gammaln self other in
  ((exists i, xgt (nth i p NaN) (Fin 0) <> xgt (nth i q NaN) (Fin 0)) -> d = Ok PInf)
  /\ (a = PInf -> b = PInf -> ~ In NaN p ->
      (p = q -> d = Ok (Fin 0)) /\ (p <> q -> d = Ok PInf))
  /\ (np_isfinite a <> np_isfinite b -> d = Ok PInf).
Proof.
  intros Hdim Hlen p q a b d.
  assert (Hd : d =
    if np_isfinite a && np_isfinite b then
      if existsb (fun b => b)
           (map2 xorb (map (fun x => xgt x (Fin 0)) p) (map (fun x => xgt x (Fin 0)) q))
      then Ok PInf
      else
        let ind := np_where (map (fun x => xgt x (Fin 0)) p) in
        let u := vscale a (take_idx p ind) in
        let v := vscale b (take_idx q ind) in
        Ok (special_gammaln a - special_gammaln b
            - np_sum (vsub (map special_gammaln u) (map special_gammaln v))
            + np_dot (vsub u v) (vsubs (map special_psi u) (special_psi a)))%X
    else if np_isinf a && np_isinf b && forallb (fun b => b) (map2 xeq p q)
    then Ok (Fin 0) else Ok PInf).
  { unfold d, Dirich.div. rewrite Hdim, Z.eqb_refl. reflexivity. }
  rewrite Hd. clear Hd d. split; [|split].
  - intros [i Hi].
    destruct (existsb _ _) eqn:He.
    + destruct (np_isfinite a && np_isfinite b); [reflexivity|].
      destruct (np_isinf a && np_isinf b); simpl; [|reflexivity].
      destruct (forallb _ _) eqn:Hq; [|reflexivity].
      apply all_xeq_true in Hq; [|assumption].
      exfalso. apply Hi. rewrite Hq. reflexivity.
    + exfalso. apply Hi.
      apply (mask_same (fun x => xgt x (Fin 0))); assumption.
  - intros Ha Hb Hnan. rewrite Ha, Hb. simpl. split; intros Hpq.
    + rewrite <- Hpq. rewrite all_xeq_refl by assumption. reflexivity.
    + destruct (forallb _ _) eqn:Hq; [|reflexivity].
      apply all_xeq_true in Hq; [contradiction | assumption].
  - intros Hab.
    destruct a, b; simpl in *; try reflexivity; congruence.
Qed.

(** The theorem at a pair of instances with the supports [{0}] and
    [{0, 1}]. *)
Lemma dirich_div_degenerate_witness :
  Dirich.div (fun x => x) (fun x => x)
    (Dirich.mk 2 (Dirich.mk_param [Fin 1; Fin 0] (Fin 1)))
    (Dirich.mk 2 (Dirich.mk_param [Fin (1/2); Fin (1/2)] (Fin 1))) = Ok PInf.
Proof.
  refine (proj1 (dirich_div_degenerate (fun x => x) (fun x => x)
           (Dirich.mk 2 (Dirich.mk_param [Fin 1; Fin 0] (Fin 1)))
           (Dirich.mk 2 (Dirich.mk_param [Fin (1/2); Fin (1/2)] (Fin 1)))
           eq_refl eq_refl) _).
  exists 1%nat. simpl. rewrite (Rltb_false 0 0) by lra.
  rewrite (Rltb_true 0 (1/2)) by lra. discriminate.
Defined.

(** Claim C3. The Dirichlet instance with [dim = 3], uniform [pi] and
    [alpha = 1] (what the constructor builds by default): [stat] over the
    responsibility matrix [[1,0],[0,1],[0,0]] gives [pi = [1,1,0]] and
    [alpha = 2], and [update] with that record sets [pi] to
    [[(1/3+1)/3, (1/3+1)/3, (1/3)/3]] and [alpha] to [3]. *)
Theorem dirich_scenario :
  Dirich.init 3 None None = Ok scenario_prior
  /\ Dirich.stat scenario_prior scenario_evidence
     = Ok (Dirich.mk_param [Fin 1; Fin 1; Fin 0] (Fin 2))
  /\ Dirich.update scenario_prior (Dirich.mk_param [Fin 1; Fin 1; Fin 0] (Fin 2))
     = Ok (RetSelf,
           Dirich.mk 3 (Dirich.mk_param
                          [Fin ((1/3 + 1) / 3); Fin ((1/3 + 1) / 3); Fin ((1/3) / 3)]
                          (Fin 3))).
Proof.
  repeat split.
  - unfold Dirich.init, scenario_prior. simpl.
    rewrite (Reqb_false 3 0) by lra. reflexivity.
  - cbn. change (Pos.to_nat 3) with 3%nat. cbn. struct_eq.
  - cbn. rewrite (Reqb_false (1 + 2) 0) by lra. struct_eq.
Qed.

Lemma take_idx_where_from (f : xreal -> bool) (pre v : vec) :
  map (fun i => nth i (pre ++ v) NaN) (where_from (length pre) (map f v))
  = filter f v.
Proof.
  revert pre. induction v as [|x v IH]; intros pre; simpl; [reflexivity|].
  assert (Hrest : map (fun i => nth i (pre ++ x :: v) NaN)
                      (where_from (S (length pre)) (map f v)) = filter f v).
  { specialize (IH (pre ++ [x])).
    rewrite <- app_assoc in IH. simpl in IH.
    rewrite length_app in IH. simpl in IH.
    rewrite Nat.add_1_r in IH. exact IH. }
  destruct (f x); simpl.
  - rewrite nth_middle. f_equal. exact Hrest.
  - exact Hrest.
Qed.

Lemma take_idx_where (f : xreal -> bool) (v : vec) :
  take_idx v (np_where (map f v)) = filter f v.
Proof. exact (take_idx_where_from f [] v). Qed.

Lemma filter_pos_Fin (rs : rvec) :
  Forall fin_pos (filter (fun x => xgt x (Fin 0)) (map Fin rs)).
Proof.
  induction rs as [|r rs IH]; simpl; [constructor|].
  destruct (Rltb 0 r) eqn:Hr; [|exact IH].
  constructor; [|exact IH].
  exists r. split; [reflexivity | apply Rltb_spec; exact Hr].
Qed.

Lemma vscale_fin_pos (a : R) (v : vec) :
  0 < a -> Forall fin_pos v -> Forall fin_pos (vscale (Fin a) v).
Proof.
  intros Ha. induction 1 as [|x v [r [-> Hr]] _ IH]; simpl; constructor; auto.
  exists (a * r). split; [reflexivity|]. apply Rmult_lt_0_compat; assumption.
Qed.

Lemma Forall_map_finite (f : xreal -> xreal) (v : vec) :
  (forall x, 0 < x -> finite (f (Fin x))) ->
  Forall fin_pos v -> Forall finite (map f v).
Proof.
  intros Hf. induction 1 as [|x v [r [-> Hr]] _ IH]; simpl; constructor; auto.
Qed.

Lemma Forall_vsubs_finite (v : vec) (c : xreal) :
  finite c -> Forall finite v -> Forall finite (vsubs v c).
Proof.
  intros [y ->]. induction 1 as [|x v [r ->] _ IH]; simpl; constructor; auto.
  unfold xsub; simpl. apply finite_Fin.
Qed.

Lemma np_dot_zeros_l (n : nat) (v : vec) :
  Forall finite v -> n = length v -> np_dot (repeat (Fin 0) n) v = Fin 0.
Proof.
  intros Hv ->. unfold np_dot. rewrite vmul_zeros_l by assumption.
  apply np_sum_zeros.
Qed.

Lemma not_In_NaN_Fin (rs : rvec) : ~ In NaN (map Fin rs).
Proof.
  induction rs as [|r rs IH]; simpl; [tauto|].
  intros [H|H]; [discriminate | auto].
Qed.

(** [div] of a valid Dirichlet instance against itself. *)
Lemma dirich_div_self (special_psi special_gammaln : xreal -> xreal) (d : Dirich.t) :
  (forall x, 0 < x -> finite (special_psi (Fin x))) ->
  (forall x, 0 < x -> finite (special_gammaln (Fin x))) ->
  dirich_valid d ->
  Dirich.div special_psi special_gammaln d d = Ok (Fin 0).
Proof.
  intros Hpsi Hgl (Hdim & (rs & Hpi & Hlen & Hnn & Hsum) & Halpha).
  unfold Dirich.div. rewrite Z.eqb_refl. cbn [bind assert].
  rewrite Hpi. destruct Halpha as [-> | (a & -> & Ha)].
  - cbn [np_isfinite np_isinf andb].
    rewrite all_xeq_refl by apply not_In_NaN_Fin. reflexivity.
  - cbn [np_isfinite andb]. rewrite mask_self.
    rewrite take_idx_where.
    set (u := vscale (Fin a) (filter (fun x => xgt x (Fin 0)) (map Fin rs))).
    assert (Hu : Forall fin_pos u)
      by (apply vscale_fin_pos; [assumption | apply filter_pos_Fin]).
    rewrite (vsub_self (map special_gammaln u)) by (apply Forall_map_finite; assumption).
    rewrite np_sum_zeros.
    assert (Hfin : Forall finite u).
    { eapply Forall_impl; [|exact Hu]. intros x [r [-> _]]. apply finite_Fin. }
    rewrite (vsub_self u) by assumption.
    rewrite np_dot_zeros_l.
    + rewrite xsub_self by (apply Hgl; assumption).
      unfold xsub; simpl. struct_eq.
    + apply Forall_vsubs_finite; [apply Hpsi; assumption|].
      apply Forall_map_finite; assumption.
    + unfold vsubs. rewrite !length_map. reflexivity.
Qed.

Lemma vdivs_update_zero (a : R) (rs : rvec) :
  0 < a ->
  vdivs (vadd (vscale (Fin a) (map Fin rs)) (repeat (Fin 0) (length rs)))
        (Fin a + Fin 0)%X
  = map Fin rs.
Proof.
  intros Ha. induction rs as [|r rs IH]; simpl; [reflexivity|].
  unfold vdivs, vadd, vscale in *. simpl in *. rewrite IH.
  rewrite Reqb_false by lra. struct_eq.
Qed.

(** [update] of a valid Dirichlet instance with the zero record. *)
Lemma dirich_update_zero (d : Dirich.t) :
  dirich_valid d ->
  exists r, Dirich.update d (dirich_zero_stat d) = Ok (r, d).
Proof.
  intros (Hdim & (rs & Hpi & Hlen & Hnn & Hsum) & Halpha).
  destruct d as [dim [pi alpha]]. simpl in *. subst pi.
  assert (Hn : Z.to_nat dim = length rs).
  { unfold np_size in Hlen. lia. }
  unfold Dirich.update, dirich_zero_stat. cbn [Dirich.dim Dirich.prm Dirich.pi Dirich.alpha].
  unfold np_size, np_zeros. rewrite repeat_length, Hn.
  unfold np_size in Hlen. rewrite Hlen, Z.eqb_refl. cbn [bind assert].
  destruct Halpha as [-> | (a & -> & Ha)].
  - exists RetNone. reflexivity.
  - exists RetSelf. cbn [np_isinf].
    rewrite vdivs_update_zero by assumption.
    simpl. struct_eq.
Qed.

(** In its degenerate branch [dirich.update] returns [None]. *)
Lemma dirich_update_returns_none (d : Dirich.t) (stat : Dirich.param) :
  np_size (Dirich.pi stat) = Dirich.dim d ->
  np_isinf (Dirich.alpha (Dirich.prm d)) = true ->
  Dirich.update d stat = Ok (RetNone, d).
Proof.
  intros Hs Ha. unfold Dirich.update.
  rewrite Hs, Z.eqb_refl. cbn [bind assert]. rewrite Ha. reflexivity.
Qed.

(** ** Gauss-Gamma *)

(** Computes the arithmetic of finite numbers; a divisor must be shown
    non-zero by [lra]. *)
Ltac xnorm :=
  repeat (progress (cbn [xadd xsub xmul xneg xabs xsqr];
                    rewrite ?xdiv_Fin by lra)).

Lemma py_truediv_Fin (x y : R) :
  y <> 0 -> py_truediv (Fin x) (Fin y) = Ok (Fin (x / y)).
Proof.
  intros H. unfold py_truediv. simpl. rewrite Reqb_false by assumption.
  reflexivity.
Qed.

Lemma math_log_Fin (x : R) : 0 < x -> math_log (Fin x) = Ok (Fin (ln x)).
Proof. intros H. simpl. rewrite Rltb_true by assumption. reflexivity. Qed.

Lemma map_np_log_Fin (ss : rvec) :
  Forall (fun s => 0 < s) ss -> map np_log (map Fin ss) = map Fin (map ln ss).
Proof.
  induction 1 as [|s ss Hs _ IH]; simpl; [reflexivity|].
  rewrite Rltb_true by assumption. rewrite IH. reflexivity.
Qed.

Lemma vsub_Fin (a b : rvec) :
  vsub (map Fin a) (map Fin b) = map Fin (map2 Rminus a b).
Proof. apply map2_map_Fin. reflexivity. Qed.

Lemma vadd_Fin (a b : rvec) :
  vadd (map Fin a) (map Fin b) = map Fin (map2 Rplus a b).
Proof. apply map2_map_Fin. reflexivity. Qed.

Lemma vmul_Fin (a b : rvec) :
  vmul (map Fin a) (map Fin b) = map Fin (map2 Rmult a b).
Proof. apply map2_map_Fin. reflexivity. Qed.

Lemma vdiv_Fin (a b : rvec) :
  Forall (fun y => y <> 0) b ->
  vdiv (map Fin a) (map Fin b) = map Fin (map2 Rdiv a b).
Proof.
  intros Hb. revert a. induction Hb as [|y b Hy _ IH]; intros [|x a]; simpl;
    try reflexivity.
  unfold vdiv in *. simpl. rewrite Reqb_false by assumption. rewrite IH.
  reflexivity.
Qed.

Lemma vscale_Fin (c : R) (a : rvec) :
  vscale (Fin c) (map Fin a) = map Fin (map (Rmult c) a).
Proof. unfold vscale. rewrite !map_map. reflexivity. Qed.

Lemma vdivs_Fin (a : rvec) (c : R) :
  c <> 0 -> vdivs (map Fin a) (Fin c) = map Fin (map (fun x => x / c) a).
Proof.
  intros Hc. unfold vdivs. rewrite !map_map. apply map_ext. intros x.
  apply xdiv_Fin. assumption.
Qed.

Lemma sq_abs_Fin (a : rvec) :
  map (fun x => xsqr (xabs x)) (map Fin a) = map Fin (map (fun x => Rabs x * Rabs x) a).
Proof. rewrite !map_map. reflexivity. Qed.

Lemma zeros_Fin (n : nat) : np_zeros n = map Fin (repeat 0 n).
Proof. unfold np_zeros. induction n; simpl; congruence. Qed.

Lemma pos_nonzero (ss : rvec) :
  Forall (fun s => 0 < s) ss -> Forall (fun y => y <> 0) ss.
Proof. apply Forall_impl. intros; lra. Qed.

Lemma Rsum_sq_self (ms ss : rvec) :
  Rsum (map2 Rdiv (map (fun x => Rabs x * Rabs x) (map2 Rminus ms ms)) ss) = 0.
Proof.
  revert ss. induction ms as [|m ms IH]; intros [|s ss]; simpl; try reflexivity.
  rewrite IH. replace (m - m) with 0 by lra. rewrite Rabs_R0. unfold Rdiv. lra.
Qed.

Lemma Rsum_ratio_self (ss : rvec) :
  Forall (fun s => 0 < s) ss -> Rsum (map2 Rdiv ss ss) = INR (length ss).
Proof.
  induction 1 as [|s ss Hs _ IH]; [reflexivity|].
  cbn [map2 Rsum fold_right length]. fold (Rsum (map2 Rdiv ss ss)).
  rewrite IH, S_INR. field. lra.
Qed.

Lemma IZR_size {A : Type} (l : list A) (z : Z) :
  np_size l = z -> IZR z = INR (length l).
Proof. intros <-. unfold np_size. symmetry. apply INR_IZR_INZ. Qed.

(** [div] of a valid Gauss-Gamma instance against itself. *)
Lemma gaussgamma_div_self (special_psi special_gammaln : xreal -> xreal)
    (g : GaussGamma.t) :
  (forall x, 0 < x -> finite (special_psi (Fin x))) ->
  (forall x, 0 < x -> finite (special_gammaln (Fin x))) ->
  gaussgamma_valid g ->
  GaussGamma.div special_psi special_gammaln g g = Ok (Fin 0).
Proof.
  intros Hpsi Hgl (Hdim & (ms & Hmu & Hlm) & Homega & (ss & Hsig & Hls & Hpos) & Heta).
  destruct g as [dim [mu omega sigma eta]]. simpl in *. subst mu sigma.
  unfold GaussGamma.div.
  cbn [GaussGamma.dim GaussGamma.prm GaussGamma.mu GaussGamma.omega
       GaussGamma.sigma GaussGamma.eta].
  rewrite Z.eqb_refl. cbn [bind assert].
  assert (Hd : exists d, d = 0 /\
    (if np_isfinite omega && np_isfinite omega
     then ratio <- py_truediv omega omega;;
          l <- math_log ratio;;
          Ok (Some (of_Z dim / Fin 2 * (ratio - l - Fin 1)
                    + omega / Fin 2
                      * np_sum (vdiv (map (fun x => xsqr (xabs x))
                                          (vsub (map Fin ms) (map Fin ms)))
                                     (map Fin ss)))%X)
     else if np_isinf omega && np_isinf omega
             && forallb (fun b => b) (map2 xeq (map Fin ms) (map Fin ms))
          then Ok (Some (Fin 0)) else Ok None) = Ok (Some (Fin d))).
  { destruct Homega as [-> | (w & -> & Hw)].
    - exists 0. split; [reflexivity|]. cbn [np_isfinite np_isinf andb].
      rewrite all_xeq_refl by apply not_In_NaN_Fin. reflexivity.
    - exists (IZR dim / 2 * (w / w - ln (w / w) - 1) + w / 2 * 0). split.
      + replace (w / w) with 1 by (field; lra). rewrite ln_1. lra.
      + cbn [np_isfinite andb].
        rewrite py_truediv_Fin by lra. cbn [bind].
        rewrite math_log_Fin by (apply Rdiv_lt_0_compat; lra). cbn [bind].
        rewrite vsub_Fin, sq_abs_Fin, vdiv_Fin by (apply pos_nonzero; assumption).
        rewrite np_sum_Fin, Rsum_sq_self.
        unfold of_Z. rewrite !xdiv_Fin by lra.
        cbn [xadd xsub xmul xneg]. reflexivity. }
  destruct Hd as (d & Hd0 & ->). subst d. cbn [bind].
  destruct Heta as [-> | (e & -> & He)].
  - cbn [np_isfinite np_isinf andb].
    rewrite all_xeq_refl by apply not_In_NaN_Fin. reflexivity.
  - cbn [np_isfinite andb].
    rewrite !xdiv_Fin by lra.
    rewrite math_log_Fin by lra. cbn [bind].
    destruct (Hpsi (e / 2)) as [y Hy]; [lra|].
    destruct (Hgl (e / 2)) as [z Hz]; [lra|].
    rewrite Hy, Hz.
    rewrite map_np_log_Fin by assumption.
    rewrite vdiv_Fin by (apply pos_nonzero; assumption).
    rewrite !np_sum_Fin, Rsum_ratio_self by assumption.
    unfold of_Z. rewrite (IZR_size ss dim Hls).
    xnorm. f_equal. f_equal. field.
Qed.

Lemma np_size_zeros (z : Z) : (0 < z)%Z -> np_size (np_zeros (Z.to_nat z)) = z.
Proof.
  intros H. unfold np_size, np_zeros. rewrite repeat_length. lia.
Qed.

Lemma xgt_0_0 : xgt (Fin 0) (Fin 0) = false.
Proof. simpl. apply Rltb_false. lra. Qed.

Lemma sigma_update_zero (e c : R) (ss ms : rvec) :
  0 < e -> c = 0 -> length ms = length ss ->
  vdivs (vadd (vadd (vscale (Fin e) (map Fin ss)) (np_zeros (length ss)))
              (vscale (Fin c) (map (fun x => xsqr (xabs x)) (map Fin ms))))
        (Fin e + Fin 0)%X
  = map Fin ss.
Proof.
  intros He -> Hl. rewrite zeros_Fin, sq_abs_Fin, !vscale_Fin, !vadd_Fin.
  cbn [xadd]. rewrite vdivs_Fin by lra. f_equal.
  revert ms Hl. induction ss as [|s ss IH]; intros [|m ms] Hl;
    try discriminate Hl; [reflexivity|].
  cbn [map repeat length map2]. rewrite IH by (simpl in Hl; lia).
  f_equal. field. lra.
Qed.

Lemma mu_update_zero (w : R) (ms : rvec) :
  0 < w ->
  vdivs (vadd (vscale (Fin w) (map Fin ms)) (np_zeros (length ms))) (Fin w + Fin 0)%X
  = map Fin ms.
Proof. intros Hw. unfold np_zeros. apply vdivs_update_zero. assumption. Qed.

(** [update] of a valid Gauss-Gamma instance with the zero record. *)
Lemma gaussgamma_update_zero (g : GaussGamma.t) :
  gaussgamma_valid g ->
  exists r, GaussGamma.update g (gaussgamma_zero_stat g) = Ok (r, g).
Proof.
  intros (Hdim & (ms & Hmu & Hlm) & Homega & (ss & Hsig & Hls & Hpos) & Heta).
  destruct g as [dim [mu omega sigma eta]]. simpl in *. subst mu sigma.
  exists RetSelf.
  assert (Hnm : Z.to_nat dim = length ms) by (unfold np_size in Hlm; lia).
  assert (Hns : Z.to_nat dim = length ss) by (unfold np_size in Hls; lia).
  unfold GaussGamma.update, gaussgamma_zero_stat.
  cbn [GaussGamma.dim GaussGamma.prm GaussGamma.mu GaussGamma.omega
       GaussGamma.sigma GaussGamma.eta].
  rewrite np_size_zeros by assumption. rewrite Z.eqb_refl.
  cbn [andb bind assert]. rewrite xgt_0_0.
  destruct Homega as [-> | (w & -> & Hw)], Heta as [-> | (e & -> & He)];
    cbn [np_isinf np_isfinite andb bind xmul xadd].
  - reflexivity.
  - rewrite Hns at 1. rewrite sigma_update_zero by (auto; lia). struct_eq.
  - rewrite py_truediv_Fin by lra. cbn [bind].
    rewrite Hnm. rewrite mu_update_zero by assumption. struct_eq.
  - rewrite py_truediv_Fin by lra. cbn [bind].
    rewrite Hnm at 1. rewrite mu_update_zero by assumption.
    rewrite Hns. rewrite sigma_update_zero by (try lia; try lra; field; lra).
    struct_eq.
Qed.

(** [gaussgamma.update] returns [self] in its degenerate branch. *)
Lemma gaussgamma_update_degenerate (g : GaussGamma.t) (stat : GaussGamma.param) :
  np_size (GaussGamma.mu stat) = GaussGamma.dim g ->
  np_size (GaussGamma.sigma stat) = GaussGamma.dim g ->
  np_isinf (GaussGamma.omega (GaussGamma.prm g)) = true ->
  np_isinf (GaussGamma.eta (GaussGamma.prm g)) = true ->
  GaussGamma.update g stat = Ok (RetSelf, g).
Proof.
  intros Hm Hs Hw He. unfold GaussGamma.update.
  rewrite Hm, Hs, Z.eqb_refl. cbn [andb bind assert].
  rewrite Hw, He. reflexivity.
Qed.

(** Outside the degenerate branch [gaussgamma.update] returns [self] when
    it returns. *)
Lemma gaussgamma_update_returns_self (g g' : GaussGamma.t)
    (stat : GaussGamma.param) (r : retval) :
  GaussGamma.update g stat = Ok (r, g') -> r = RetSelf.
Proof.
  unfold GaussGamma.update.
  destruct (_ && _)%bool; cbn [bind assert]; [|discriminate].
  destruct (_ && _)%bool; [congruence|].
  destruct (np_isfinite (GaussGamma.omega (GaussGamma.prm g))).
  - destruct (py_truediv _ _); cbn [bind]; [|discriminate].
    destruct (np_isfinite _); congruence.
  - cbn [bind]. destruct (np_isfinite _); congruence.
Qed.

Lemma load_numdim (d s w e : xreal) :
  load_name [("dim", d); ("size", s); ("omega", w); ("eta", e)]%string "numdim"
  = Raise (NameError "numdim").
Proof. reflexivity. Qed.

Lemma load_numdim_nu (nu d s w e : xreal) :
  load_name [("nu", nu); ("dim", d); ("size", s); ("omega", w); ("eta", e)]%string
            "numdim"
  = Raise (NameError "numdim").
Proof. reflexivity. Qed.

(** Whatever the instance and the batch, [gaussgamma.loglik] returns no
    value with [nu=None] or an infinite [nu]. *)
Lemma gaussgamma_loglik_no_value (special_psi special_gammaln : xreal -> xreal)
    (g : GaussGamma.t) (obs : matrix) (nu : option xreal) (r : loglik_result) :
  match nu with None => True | Some x => np_isinf x = true end ->
  GaussGamma.loglik special_psi special_gammaln g obs nu <> Ok r.
Proof.
  intros Hnu. unfold GaussGamma.loglik.
  destruct (assert _); cbn [bind]; [|discriminate].
  destruct (if np_isfinite _ then _ else _); cbn [bind]; [|discriminate].
  destruct (if np_isfinite _ then _ else _); cbn [bind]; [|discriminate].
  destruct nu as [x|].
  - rewrite Hnu. rewrite load_numdim_nu. discriminate.
  - rewrite load_numdim. discriminate.
Qed.

(** For a valid instance and a batch of [dim] rows the exception is the
    [NameError] of the name [numdim]. *)
Lemma gaussgamma_loglik_name_error (special_psi special_gammaln : xreal -> xreal)
    (g : GaussGamma.t) (obs : matrix) (nu : option xreal) :
  gaussgamma_valid g ->
  nrows obs = GaussGamma.dim g ->
  match nu with None => True | Some x => np_isinf x = true end ->
  GaussGamma.loglik special_psi special_gammaln g obs nu
  = Raise (NameError "numdim").
Proof.
  intros (Hdim & (ms & Hmu & Hlm) & Homega & (ss & Hsig & Hls & Hpos) & Heta) Hobs Hnu.
  unfold GaussGamma.loglik. rewrite Hobs, Z.eqb_refl. cbn [bind assert].
  assert (H1 : exists v,
    (if np_isfinite (GaussGamma.omega (GaussGamma.prm g))
     then c <- py_truediv (of_Z (GaussGamma.dim g)) (GaussGamma.omega (GaussGamma.prm g));;
          Ok (map (fun x => (x + c)%X)
                (sum_axis0 (ncols obs)
                   (map2 (fun r s => vdivs r s)
                      (map2 GaussGamma.sq_resid_row obs (GaussGamma.mu (GaussGamma.prm g)))
                      (GaussGamma.sigma (GaussGamma.prm g)))))
     else Ok (sum_axis0 (ncols obs)
                (map2 (fun r s => vdivs r s)
                   (map2 GaussGamma.sq_resid_row obs (GaussGamma.mu (GaussGamma.prm g)))
                   (GaussGamma.sigma (GaussGamma.prm g))))) = Ok v).
  { destruct Homega as [-> | (w & -> & Hw)]; cbn [np_isfinite].
    - eexists; reflexivity.
    - unfold of_Z. rewrite py_truediv_Fin by lra. eexists; reflexivity. }
  destruct H1 as [v ->]. cbn [bind].
  assert (H2 : exists a,
    (if np_isfinite (GaussGamma.eta (GaussGamma.prm g))
     then l <- math_log (GaussGamma.eta (GaussGamma.prm g) / Fin 2)%X;;
          bcast2 xadd
            (Scalar (np_sum (map np_log (GaussGamma.sigma (GaussGamma.prm g))) / Fin 2)%X)
            (Arr1 (map (fun k => (of_Z (GaussGamma.dim g) / Fin 2 * l
                                  - special_psi ((GaussGamma.eta (GaussGamma.prm g) - k) / Fin 2)
                                    / Fin 2)%X)
                       (np_arange (Z.to_nat (GaussGamma.dim g)))))
     else Ok (Scalar (np_sum (map np_log (GaussGamma.sigma (GaussGamma.prm g))) / Fin 2)%X))
    = Ok a).
  { destruct Heta as [-> | (e & -> & He)]; cbn [np_isfinite].
    - eexists; reflexivity.
    - rewrite xdiv_Fin by lra. rewrite math_log_Fin by lra.
      cbn [bind bcast2]. eexists; reflexivity. }
  destruct H2 as [a ->]. cbn [bind].
  destruct nu as [x|].
  - rewrite Hnu. rewrite load_numdim_nu. reflexivity.
  - rewrite load_numdim. reflexivity.
Qed.

(** C7 *)
(** Claim C7. The Gauss-Gamma instance with [dim = 2], [mu = [0,0]],
    [omega = 1], [sigma = [1,1]], [eta = +Inf]: [update] with a statistics
    record, whatever its [sigma], keeps [sigma] and [eta] and sets [mu] to
    [(omega*mu + stat.mu)/(omega + stat.omega)] and [omega] to
    [omega + stat.omega] (the total weight [stat.omega] is not [-1], where
    the combined weight divides by zero).  [update] leaves every instance
    with infinite [omega] and [eta] as it is, and every valid instance
    with a finite [omega] or [eta] is changed by some record. *)
Theorem gaussgamma_update_fixed_dispersion :
  (forall stat : GaussGamma.param,
      np_size (GaussGamma.mu stat) = 2%Z ->
      np_size (GaussGamma.sigma stat) = 2%Z ->
      GaussGamma.omega stat <> Fin (-1) ->
      GaussGamma.update fixed_dispersion_prior stat
      = Ok (RetSelf,
            GaussGamma.mk 2
              (GaussGamma.mk_param
                 (vdivs (vadd (vscale (Fin 1) [Fin 0; Fin 0]) (GaussGamma.mu stat))
                        (Fin 1 + GaussGamma.omega stat)%X)
                 (Fin 1 + GaussGamma.omega stat)%X
                 [Fin 1; Fin 1]
                 PInf)))
  /\ (forall (g : GaussGamma.t) (stat : GaussGamma.param),
         np_size (GaussGamma.mu stat) = GaussGamma.dim g ->
         np_size (GaussGamma.sigma stat) = GaussGamma.dim g ->
         GaussGamma.omega (GaussGamma.prm g) = PInf ->
         GaussGamma.eta (GaussGamma.prm g) = PInf ->
         GaussGamma.update g stat = Ok (RetSelf, g))
  /\ (forall g : GaussGamma.t,
         gaussgamma_valid g ->
         GaussGamma.omega (GaussGamma.prm g) <> PInf
         \/ GaussGamma.eta (GaussGamma.prm g) <> PInf ->
         exists stat r g',
           GaussGamma.update g stat = Ok (r, g') /\ g' <> g).
Proof.
  split; [|split].
  - intros stat Hm Hs Hw.
    unfold GaussGamma.update, fixed_dispersion_prior.
    cbn [GaussGamma.dim GaussGamma.prm GaussGamma.mu GaussGamma.omega
         GaussGamma.sigma GaussGamma.eta].
    rewrite Hm, Hs. cbn [Z.eqb Pos.eqb andb bind assert np_isinf np_isfinite].
    assert (Hz : xeq (Fin 1 + GaussGamma.omega stat)%X (Fin 0) = false).
    { destruct (GaussGamma.omega stat) as [k| | |]; cbn [xadd xeq]; try reflexivity.
      apply Reqb_false. intros Hk. apply Hw. f_equal. lra. }
    unfold py_truediv. rewrite Hz. reflexivity.
  - intros g stat Hm Hs Hw He.
    apply gaussgamma_update_degenerate; auto; [rewrite Hw | rewrite He]; reflexivity.
  - intros g (Hdim & (ms & Hmu & Hlm) & Homega & (ss & Hsig & Hls & Hpos) & Heta) Hfin.
    destruct g as [dim [mu omega sigma eta]]. simpl in *. subst mu sigma.
    destruct Homega as [-> | (w & -> & Hw)].
    + destruct Heta as [-> | (e & -> & He)]; [destruct Hfin; congruence|].
      exists (GaussGamma.mk_param (np_zeros (Z.to_nat dim)) (Fin 0)
                                  (np_zeros (Z.to_nat dim)) (Fin 1)).
      unfold GaussGamma.update.
      cbn [GaussGamma.dim GaussGamma.prm GaussGamma.mu GaussGamma.omega
           GaussGamma.sigma GaussGamma.eta].
      rewrite np_size_zeros by assumption. rewrite Z.eqb_refl.
      cbn [andb bind assert np_isinf np_isfinite xadd].
      do 2 eexists. split; [reflexivity|].
      intros H. injection H as _ H. lra.
    + exists (GaussGamma.mk_param (np_zeros (Z.to_nat dim)) (Fin 1)
                                  (np_zeros (Z.to_nat dim)) (Fin 0)).
      unfold GaussGamma.update.
      cbn [GaussGamma.dim GaussGamma.prm GaussGamma.mu GaussGamma.omega
           GaussGamma.sigma GaussGamma.eta].
      rewrite np_size_zeros by assumption. rewrite Z.eqb_refl.
      cbn [andb bind assert np_isinf np_isfinite xadd xmul].
      rewrite py_truediv_Fin by lra. cbn [bind].
      destruct (if np_isfinite eta then _ else _) as [s1 e1] eqn:Hse.
      do 2 eexists. split; [reflexivity|].
      intros H. injection H as _ H _ _. lra.
Qed.

(** The first part at the record [mu = [2,4]], [omega = 3],
    [sigma = [5,6]], [eta = 3]. *)
Lemma gaussgamma_update_fixed_dispersion_witness :
  GaussGamma.update fixed_dispersion_prior
    (GaussGamma.mk_param [Fin 2; Fin 4] (Fin 3) [Fin 5; Fin 6] (Fin 3))
  = Ok (RetSelf,
        GaussGamma.mk 2
          (GaussGamma.mk_param
             (vdivs (vadd (vscale (Fin 1) [Fin 0; Fin 0]) [Fin 2; Fin 4])
                    (Fin 1 + Fin 3)%X)
             (Fin 1 + Fin 3)%X [Fin 1; Fin 1] PInf)).
Proof.
  apply (proj1 gaussgamma_update_fixed_dispersion
           (GaussGamma.mk_param [Fin 2; Fin 4] (Fin 3) [Fin 5; Fin 6] (Fin 3)));
    [reflexivity | reflexivity |].
  intros H. injection H as H. lra.
Defined.

(** ** Linear algebra *)

Lemma vec_to_R_of_R (v : rvec) : vec_to_R (vec_of_R v) = Some v.
Proof. induction v as [|x v IH]; simpl; [reflexivity|]. rewrite IH. reflexivity. Qed.

Lemma mat_to_R_of_R (m : rmat) : mat_to_R (mat_of_R m) = Some m.
Proof.
  induction m as [|v m IH]; simpl; [reflexivity|].
  rewrite vec_to_R_of_R, IH. reflexivity.
Qed.

Lemma mat_to_R_column (v : rvec) :
  mat_to_R (map (fun y => [y]) (map Fin v)) = Some (map (fun y => [y]) v).
Proof. induction v as [|x v IH]; simpl; [reflexivity|]. rewrite IH. reflexivity. Qed.

Lemma map2_app {A B C : Type} (f : A -> B -> C) (a1 a2 : list A) (b1 b2 : list B) :
  length a1 = length b1 ->
  map2 f (a1 ++ a2) (b1 ++ b2) = map2 f a1 b1 ++ map2 f a2 b2.
Proof.
  revert b1. induction a1 as [|x a1 IH]; intros [|y b1] H; simpl in *;
    try discriminate; [reflexivity|].
  rewrite IH by lia. reflexivity.
Qed.

Lemma Rsum_app (a b : rvec) : Rsum (a ++ b) = Rsum a + Rsum b.
Proof. induction a as [|x a IH]; simpl; [lra|]. rewrite IH. lra. Qed.

Lemma Rsum_zeros (n : nat) : Rsum (repeat 0 n) = 0.
Proof. induction n as [|n IH]; simpl; [reflexivity|]. rewrite IH. lra. Qed.

Lemma scale_add_zeros (c : R) (v : rvec) :
  map2 Rplus (map (Rmult c) (repeat 0 (length v))) v = v.
Proof. induction v as [|x v IH]; simpl; [reflexivity|]. rewrite IH. f_equal. lra. Qed.

Lemma scale_add_zeros_both (c : R) (k : nat) :
  map2 Rplus (map (Rmult c) (repeat 0 k)) (repeat 0 k) = repeat 0 k.
Proof.
  rewrite <- (repeat_length 0 k) at 1. apply scale_add_zeros.
Qed.

(** A combination of rows of the identity. *)
Lemma Rlincomb_units (n : nat) (p : rvec) (k : nat) :
  (k + length p <= n)%nat ->
  Rlincomb n p (Runits n k (length p))
  = repeat 0 k ++ p ++ repeat 0 (n - k - length p).
Proof.
  revert k. induction p as [|c p IH]; intros k Hk.
  - simpl. rewrite <- repeat_app. f_equal. simpl in Hk. lia.
  - cbn [length Runits seq map Rlincomb]. fold (Runits n (S k) (length p)).
    rewrite IH by (simpl in Hk; lia).
    unfold Runit. simpl in Hk.
    replace (repeat 0 (S k) ++ p ++ repeat 0 (n - S k - length p))
      with (repeat 0 k ++ 0 :: p ++ repeat 0 (n - S k - length p)).
    2:{ change (S k) with (1 + k)%nat.
        replace (1 + k)%nat with (k + 1)%nat by lia.
        rewrite repeat_app, <- app_assoc. reflexivity. }
    rewrite map_app. rewrite map2_app by (rewrite length_map; reflexivity).
    rewrite scale_add_zeros_both. f_equal.
    cbn [map map2 app length]. f_equal; [lra|].
    replace (n - k - S (length p))%nat with (n - S k - length p)%nat by lia.
    assert (Hv : (n - S k)%nat = length (p ++ repeat 0 (n - S k - length p)))
      by (rewrite length_app, repeat_length; lia).
    set (v := p ++ repeat 0 (n - S k - length p)) in *.
    rewrite Hv. apply scale_add_zeros.
Qed.

Lemma Rlincomb_zero_rows (w : nat) (cs : rvec) (k : nat) :
  Rlincomb w cs (repeat (repeat 0 w) k) = repeat 0 w.
Proof.
  revert k. induction cs as [|c cs IH]; intros [|k]; simpl; try reflexivity.
  rewrite IH. apply scale_add_zeros_both.
Qed.

Lemma lower_row_nth (p : rvec) (d : R) (z : rvec) :
  nth (length p) (p ++ d :: z) 0 = d.
Proof. apply nth_middle. Qed.

Lemma lower_row_firstn (p : rvec) (d : R) (z : rvec) :
  firstn (length p) (p ++ d :: z) = p.
Proof.
  rewrite firstn_app, Nat.sub_diag, firstn_all. simpl. apply app_nil_r.
Qed.

Lemma lower_row_length (n i : nat) (p : rvec) (d : R) :
  length p = i -> (i < n)%nat -> length (p ++ d :: repeat 0 (n - S i)) = n.
Proof. intros Hp Hi. rewrite length_app. simpl. rewrite repeat_length. lia. Qed.

(** Forward substitution does not fail on a triangular matrix with a
    positive diagonal. *)
Lemma forward_subst_total (n i : nat) (a b x : rmat) :
  lower_from n i a -> length x = i ->
  exists r, forward_subst a b x = Some r
            /\ length r = (i + Nat.min (length a) (length b))%nat.
Proof.
  intros Ha. revert b x. induction Ha as [i | i p d rows Hp Hd Hi Hrows IH];
    intros b x Hx.
  - exists x. split; [reflexivity | simpl; lia].
  - destruct b as [|bi b].
    + exists x. split; [reflexivity | simpl; lia].
    + subst i. cbn [forward_subst]. rewrite Hx, lower_row_nth.
      rewrite Reqb_false by lra.
      match goal with
      | |- exists r, forward_subst rows b ?x' = _ /\ _ =>
          destruct (IH b x') as (r & Hr & Hlr)
      end.
      * rewrite length_app. simpl. lia.
      * exists r. split; [exact Hr | simpl; lia].
Qed.

Lemma unit_row_solve (p z : rvec) (d : R) :
  0 < d ->
  map (fun y => y / d)
      (map2 Rminus (p ++ d :: z) (p ++ 0 :: z))
  = repeat 0 (length p) ++ 1 :: repeat 0 (length z).
Proof.
  intros Hd. rewrite map2_app by reflexivity. rewrite map_app. f_equal.
  - induction p as [|x p IH]; simpl; [reflexivity|].
    rewrite IH. f_equal. field. lra.
  - cbn [map2 map]. f_equal; [field; lra|].
    induction z as [|x z IH]; simpl; [reflexivity|].
    rewrite IH. f_equal. field. lra.
Qed.

Lemma Runits_snoc (n i : nat) : Runits n 0 i ++ [Runit n i] = Runits n 0 (S i).
Proof. unfold Runits. rewrite seq_S, map_app. reflexivity. Qed.

Lemma Runits_length (n i m : nat) : length (Runits n i m) = m.
Proof. unfold Runits. rewrite length_map, length_seq. reflexivity. Qed.

(** Solving [a x = a] gives the identity. *)
Lemma forward_subst_self_from (n i : nat) (a : rmat) :
  lower_from n i a ->
  forward_subst a a (Runits n 0 i) = Some (Runits n 0 (i + length a)).
Proof.
  induction 1 as [i | i p d rows Hp Hd Hi Hrows IH].
  - simpl. rewrite Nat.add_0_r. reflexivity.
  - subst i. cbn [forward_subst]. rewrite Runits_length.
    rewrite lower_row_nth, lower_row_firstn.
    rewrite Reqb_false by lra.
    rewrite (lower_row_length n (length p) p d eq_refl Hi).
    rewrite Rlincomb_units by lia.
    cbn [repeat app].
    replace (n - 0 - length p)%nat with (S (n - S (length p))) by lia.
    cbn [repeat]. rewrite unit_row_solve by assumption.
    rewrite repeat_length. fold (Runit n (length p)).
    rewrite Runits_snoc, IH. f_equal. f_equal. simpl. lia.
Qed.

Lemma forward_subst_self (n : nat) (a : rmat) :
  lower_from n 0 a -> length a = n ->
  forward_subst a a [] = Some (Runits n 0 n).
Proof.
  intros Ha Hl. pose proof (forward_subst_self_from n 0 a Ha) as H.
  rewrite Hl in H. exact H.
Qed.

(** Solving [a x = 0] gives zero. *)
Lemma forward_subst_zero_from (n i : nat) (a : rmat) :
  lower_from n i a ->
  forward_subst a (repeat [0] (length a)) (repeat [0] i)
  = Some (repeat [0] (i + length a)).
Proof.
  induction 1 as [i | i p d rows Hp Hd Hi Hrows IH].
  - simpl. rewrite Nat.add_0_r. reflexivity.
  - subst i. cbn [length repeat forward_subst]. rewrite repeat_length.
    rewrite lower_row_nth.
    rewrite Reqb_false by lra.
    change [0] with (repeat 0 1) at 2. rewrite Rlincomb_zero_rows.
    cbn [repeat map2 map].
    replace ((0 - 0) / d) with 0 by (field; lra).
    rewrite <- repeat_cons. cbn [repeat Nat.add] in IH. rewrite IH.
    rewrite Nat.add_succ_r. reflexivity.
Qed.

Lemma forward_subst_zero (n : nat) (a : rmat) :
  lower_from n 0 a -> length a = n ->
  forward_subst a (repeat [0] n) [] = Some (repeat [0] n).
Proof.
  intros Ha Hl. pose proof (forward_subst_zero_from n 0 a Ha) as H.
  rewrite Hl in H. exact H.
Qed.

(** The rows of a Cholesky factor are triangular with a positive
    diagonal. *)
Lemma lower_from_snoc (n i : nat) (l : rmat) (p : rvec) (d : R) :
  lower_from n i l ->
  length p = (i + length l)%nat -> 0 < d -> (i + length l < n)%nat ->
  lower_from n i (l ++ [p ++ d :: repeat 0 (n - S (i + length l))]).
Proof.
  induction 1 as [i | i q e rows Hq He Hi Hrows IH]; intros Hp Hd Hn.
  - simpl in *. rewrite Nat.add_0_r in *.
    constructor; auto. constructor.
  - simpl in *. constructor; auto.
    replace (i + S (length rows))%nat with (S i + length rows)%nat by lia.
    apply IH; [lia | assumption | lia].
Qed.

Lemma cholesky_rows_lower (n : nat) (a l0 l : rmat) :
  lower_from n 0 l0 ->
  Forall (fun r => length r = n) a ->
  (length l0 + length a <= n)%nat ->
  cholesky_rows n a l0 = Some l ->
  lower_from n 0 l /\ length l = (length l0 + length a)%nat.
Proof.
  revert l0. induction a as [|ai a IH]; intros l0 Hl0 Hrect Hlen H.
  - simpl in H. injection H as <-. split; [assumption | simpl; lia].
  - cbn [cholesky_rows] in H. simpl in Hlen.
    inversion Hrect as [|? ? Hai Hrect']; subst.
    destruct (forward_subst_total (length ai) 0 l0
                (map (fun y => [y]) (firstn (length l0) ai)) [] Hl0 eq_refl)
      as (x & Hx & Hlx).
    rewrite Hx in H.
    assert (Hy : length (map (hd 0) x) = length l0).
    { rewrite length_map, Hlx, length_map, length_firstn. lia. }
    destruct (Rltb 0 _) eqn:Hd; [|discriminate].
    apply Rltb_spec in Hd.
    apply IH in H; auto.
    + destruct H as [H1 H2]. split; [assumption|].
      rewrite H2, length_app. simpl. lia.
    + replace (length l0) with (0 + length l0)%nat at 2 by lia.
      apply lower_from_snoc;
        [assumption | rewrite Hy; lia | apply sqrt_lt_R0; assumption | lia].
    + rewrite length_app. simpl. lia.
Qed.

Lemma cholesky_lower (n : nat) (a l : rmat) :
  length a = n -> Forall (fun r => length r = n) a ->
  cholesky_rows n a [] = Some l ->
  lower_from n 0 l /\ length l = n.
Proof.
  intros Hl Hrect H.
  destruct (cholesky_rows_lower n a [] l) as [H1 H2];
    [constructor | assumption | simpl; lia | assumption |].
  split; [assumption | simpl in H2; lia].
Qed.

(** ** Gauss-Wishart *)

Lemma linalg_cholesky_Ok (n : nat) (s l : rmat) :
  length s = n -> cholesky_rows n s [] = Some l ->
  linalg_cholesky (mat_of_R s) = Ok (mat_of_R l).
Proof.
  intros Hn Hl. unfold linalg_cholesky. rewrite mat_to_R_of_R, Hn, Hl.
  reflexivity.
Qed.

Lemma Rminus_self (ms : rvec) : map2 Rminus ms ms = repeat 0 (length ms).
Proof.
  induction ms as [|m ms IH]; simpl; [reflexivity|].
  rewrite IH. f_equal. lra.
Qed.

Lemma linalg_solve_vec_zero (n : nat) (l : rmat) (ms : rvec) :
  lower_from n 0 l -> length l = n -> length ms = n ->
  linalg_solve_vec (mat_of_R l) (vsub (map Fin ms) (map Fin ms))
  = Ok (repeat (Fin 0) n).
Proof.
  intros Hl Hn Hm. unfold linalg_solve_vec, linalg_solve.
  rewrite vsub_Fin, Rminus_self, Hm, mat_to_R_of_R, mat_to_R_column.
  rewrite map_repeat, (forward_subst_zero n l Hl Hn). cbn [bind].
  unfold mat_of_R. rewrite !map_repeat. reflexivity.
Qed.

Lemma sum_sq_zeros (n : nat) :
  np_sum (map (fun e => xsqr (xabs e)) (repeat (Fin 0) n)) = Fin 0.
Proof.
  rewrite map_repeat. cbn [xabs xsqr xmul].
  rewrite Rabs_R0, Rmult_0_l. apply np_sum_zeros.
Qed.

Lemma linalg_solve_self (n : nat) (l : rmat) :
  lower_from n 0 l -> length l = n ->
  linalg_solve (mat_of_R l) (mat_of_R l) = Ok (mat_of_R (Runits n 0 n)).
Proof.
  intros Hl Hn. unfold linalg_solve.
  rewrite mat_to_R_of_R, (forward_subst_self n l Hl Hn). reflexivity.
Qed.

Lemma concat_mat_of_R (f : xreal -> xreal) (g : R -> R) (m : rmat) :
  (forall x, f (Fin x) = Fin (g x)) ->
  concat (map (map f) (mat_of_R m)) = map Fin (concat (map (map g) m)).
Proof.
  intros H. induction m as [|v m IH]; simpl; [reflexivity|].
  rewrite IH, map_app. f_equal. unfold vec_of_R. rewrite !map_map.
  apply map_ext. intros x. apply H.
Qed.

Lemma Rsum_sq_unit (n k : nat) :
  Rsum (map (fun x => Rabs x * Rabs x) (Runit n k)) = 1.
Proof.
  unfold Runit. rewrite map_app, Rsum_app. cbn [map Rsum fold_right].
  fold (Rsum (map (fun x => Rabs x * Rabs x) (repeat 0 (n - S k)))).
  rewrite !map_repeat, Rabs_R0, Rabs_R1, Rmult_0_l, !Rsum_zeros. lra.
Qed.

Lemma Rsum_sq_units (n i m : nat) :
  Rsum (concat (map (map (fun x => Rabs x * Rabs x)) (Runits n i m))) = INR m.
Proof.
  revert i. induction m as [|m IH]; intros i; [reflexivity|].
  cbn [Runits seq map concat]. fold (Runits n (S i) m).
  rewrite Rsum_app, Rsum_sq_unit, IH, S_INR. lra.
Qed.

Lemma np_diag_lower_from (n i : nat) (rows : rmat) :
  lower_from n i rows ->
  forall pre : list (list xreal), length pre = i ->
  exists ds,
    map (fun k => nth k (nth k (pre ++ mat_of_R rows) []) NaN) (seq i (length rows))
    = map Fin ds
    /\ Forall (fun d => 0 < d) ds.
Proof.
  induction 1 as [i | i p d rows Hp Hd Hi Hrows IH]; intros pre Hpre.
  - exists []. split; [reflexivity | constructor].
  - destruct (IH (pre ++ [vec_of_R (p ++ d :: repeat 0 (n - S i))])) as (ds & Hds & Hpos).
    { rewrite length_app. simpl. lia. }
    exists (d :: ds). split; [|constructor; assumption].
    cbn [length seq map mat_of_R]. f_equal.
    + subst i.
      assert (Hrow : forall (row : list xreal) rest,
                 nth (length p) (pre ++ row :: rest) [] = row).
      { intros row rest. rewrite <- Hpre. apply nth_middle. }
      rewrite Hrow. unfold vec_of_R. rewrite map_app. cbn [map].
      rewrite <- (length_map Fin p). apply nth_middle.
    + rewrite <- Hds. apply map_ext. intros k.
      rewrite <- app_assoc. reflexivity.
Qed.

Lemma np_diag_lower (n : nat) (l : rmat) :
  lower_from n 0 l ->
  exists ds, np_diag (mat_of_R l) = map Fin ds /\ Forall (fun d => 0 < d) ds.
Proof.
  intros Hl. destruct (np_diag_lower_from n 0 l Hl [] eq_refl) as (ds & Hds & Hpos).
  exists ds. split; [|assumption].
  unfold np_diag. unfold mat_of_R at 2. rewrite length_map. exact Hds.
Qed.

Lemma Forall_finite_Fin (v : list xreal) :
  Forall finite v -> exists rs, v = map Fin rs.
Proof.
  induction 1 as [|x v [r ->] _ [rs ->]].
  - exists []. reflexivity.
  - exists (r :: rs). reflexivity.
Qed.

Lemma np_sum_finite (v : list xreal) : Forall finite v -> finite (np_sum v).
Proof.
  intros H. destruct (Forall_finite_Fin v H) as [rs ->].
  rewrite np_sum_Fin. apply finite_Fin.
Qed.

(** The sums of [special.psi] and [special.gammaln] over
    [(eta - np.arange(dim))/2.0] are finite when [eta > dim - 1]. *)
Lemma special_sum_finite (f : xreal -> xreal) (e : R) (n : nat) :
  (forall x, 0 < x -> finite (f (Fin x))) ->
  INR n - 1 < e ->
  finite (np_sum (map (fun k => f ((Fin e - k) / Fin 2)%X) (np_arange n))).
Proof.
  intros Hf He. apply np_sum_finite. unfold np_arange. rewrite map_map.
  apply Forall_forall. intros x Hx. apply in_map_iff in Hx.
  destruct Hx as (j & <- & Hj). apply in_seq in Hj.
  unfold of_nat. cbn [xsub xadd xneg]. rewrite xdiv_Fin by lra.
  apply Hf.
  assert (INR j <= INR n - 1).
  { replace (INR n - 1) with (INR (n - 1)).
    - apply le_INR. lia.
    - rewrite minus_INR by lia. simpl. lra. }
  lra.
Qed.

(** [div] of a valid Gauss-Wishart instance against itself. *)
Lemma gausswish_div_self (special_psi special_gammaln : xreal -> xreal)
    (g : GaussWish.t) :
  (forall x, 0 < x -> finite (special_psi (Fin x))) ->
  (forall x, 0 < x -> finite (special_gammaln (Fin x))) ->
  gausswish_valid g ->
  GaussWish.div special_psi special_gammaln g g = Ok (Fin 0).
Proof.
  intros Hpsi Hgl (Hdim & (ms & Hmu & Hlm) & Homega
                   & (s & Hsig & Hls & Hrect & Hsym & l & Hl) & Heta).
  destruct g as [dim [mu omega sigma eta]]. simpl in *. subst mu sigma.
  set (n := Z.to_nat dim) in *.
  assert (Hnm : length ms = n) by (unfold np_size in Hlm; lia).
  assert (HD : IZR dim = INR n).
  { unfold n. rewrite INR_IZR_INZ. f_equal. lia. }
  destruct (cholesky_lower n s l Hls Hrect Hl) as [Hlow Hll].
  unfold GaussWish.div.
  cbn [GaussWish.dim GaussWish.prm GaussWish.mu GaussWish.omega
       GaussWish.sigma GaussWish.eta].
  rewrite Z.eqb_refl. cbn [bind assert].
  rewrite (linalg_cholesky_Ok n s l Hls Hl). cbn [bind].
  assert (Hd : exists d, d = 0 /\
    (if np_isfinite omega && np_isfinite omega
     then ratio <- py_truediv omega omega;;
          lg <- math_log ratio;;
          x <- linalg_solve_vec (mat_of_R l) (vsub (map Fin ms) (map Fin ms));;
          Ok (Some (of_Z dim / Fin 2 * (ratio - lg - Fin 1)
                    + omega / Fin 2 * np_sum (map (fun e => xsqr (xabs e)) x))%X)
     else if np_isinf omega && np_isinf omega
             && forallb (fun b => b) (map2 xeq (map Fin ms) (map Fin ms))
          then Ok (Some (Fin 0)) else Ok None) = Ok (Some (Fin d))).
  { destruct Homega as [-> | (w & -> & Hw)].
    - exists 0. split; [reflexivity|]. cbn [np_isfinite np_isinf andb].
      rewrite all_xeq_refl by apply not_In_NaN_Fin. reflexivity.
    - exists (IZR dim / 2 * (w / w - ln (w / w) - 1) + w / 2 * 0). split.
      + replace (w / w) with 1 by (field; lra). rewrite ln_1. lra.
      + cbn [np_isfinite andb].
        rewrite py_truediv_Fin by lra. cbn [bind].
        rewrite math_log_Fin by (apply Rdiv_lt_0_compat; lra). cbn [bind].
        rewrite (linalg_solve_vec_zero n l ms Hlow Hll Hnm). cbn [bind].
        rewrite sum_sq_zeros.
        unfold of_Z. xnorm. reflexivity. }
  destruct Hd as (d & Hd0 & ->). subst d. cbn [bind].
  destruct Heta as [-> | (e & -> & He)].
  - cbn [np_isfinite np_isinf andb].
    assert (Hq : forallb (fun b => b)
                   (concat (map2 (map2 xeq) (mat_of_R s) (mat_of_R s))) = true).
    { clear. induction s as [|v s IH]; simpl; [reflexivity|].
      rewrite forallb_app, IH, andb_true_r.
      apply all_xeq_refl, not_In_NaN_Fin. }
    rewrite Hq. reflexivity.
  - cbn [np_isfinite andb bind].
    rewrite !xdiv_Fin by lra.
    assert (He2 : 0 < e / 2).
    { assert (0 <= INR n - 1).
      { assert (1 <= INR n); [|lra].
        change 1 with (INR 1). apply le_INR. lia. }
      lra. }
    rewrite math_log_Fin by assumption. cbn [bind].
    rewrite (linalg_solve_self n l Hlow Hll). cbn [bind].
    destruct (np_diag_lower n l Hlow) as (ds & -> & Hds).
    rewrite map_np_log_Fin by assumption. rewrite np_sum_Fin.
    destruct (special_sum_finite special_psi e n Hpsi) as [P HP]; [lra|].
    destruct (special_sum_finite special_gammaln e n Hgl) as [G HG]; [lra|].
    fold n. rewrite HP, HG.
    unfold np_sum2.
    rewrite (concat_mat_of_R _ (fun x => Rabs x * Rabs x)) by reflexivity.
    rewrite np_sum_Fin, Rsum_sq_units.
    unfold of_Z. rewrite HD. xnorm.
    f_equal. f_equal. field.
Qed.

Lemma transpose_map (f : xreal -> xreal) (n : nat) (m : list (list xreal)) :
  f NaN = NaN ->
  transpose n (map (map f) m) = map (map f) (transpose n m).
Proof.
  intros Hf. revert m. induction n as [|n IH]; intros m; [reflexivity|].
  cbn [transpose map]. f_equal.
  - rewrite !map_map. apply map_ext. intros [|x r]; simpl; auto.
  - rewrite <- IH. f_equal. rewrite !map_map. apply map_ext.
    intros [|x r]; reflexivity.
Qed.

Lemma transpose_mdivs (n : nat) (m : list (list xreal)) (c : xreal) :
  transpose n (mdivs m c) = mdivs (transpose n m) c.
Proof. unfold mdivs, vdivs. apply transpose_map. reflexivity. Qed.

Lemma halves_Fin (s : rmat) :
  madd (mdivs (mat_of_R s) (Fin 2)) (mdivs (mat_of_R s) (Fin 2)) = mat_of_R s.
Proof.
  induction s as [|r s IH]; [reflexivity|].
  cbn [mat_of_R map mdivs madd map2] in *. f_equal; [|exact IH].
  unfold vec_of_R. rewrite vdivs_Fin by lra. rewrite vadd_Fin. f_equal.
  clear. induction r as [|x r IH]; simpl; [reflexivity|].
  rewrite IH. f_equal. lra.
Qed.

(** Symmetrising a symmetric array of finite numbers changes nothing. *)
Lemma symmetrise_symmetric (n : nat) (s : rmat) :
  transpose n (mat_of_R s) = mat_of_R s ->
  madd (mdivs (mat_of_R s) (Fin 2)) (transpose n (mdivs (mat_of_R s) (Fin 2)))
  = mat_of_R s.
Proof. intros H. rewrite transpose_mdivs, H. apply halves_Fin. Qed.

Lemma row_update_zero (e c a : R) (r ms : rvec) :
  0 < e -> c = 0 -> length r = length ms ->
  vdivs (vadd (vadd (vscale (Fin e) (map Fin r)) (np_zeros (length ms)))
              (vscale (Fin c) (vscale (Fin a) (map Fin ms))))
        (Fin e + Fin 0)%X
  = map Fin r.
Proof.
  intros He -> Hl. rewrite zeros_Fin, !vscale_Fin, !vadd_Fin.
  cbn [xadd]. rewrite vdivs_Fin by lra. f_equal.
  revert ms Hl. induction r as [|x r IH]; intros [|m ms] Hl;
    try discriminate Hl; [reflexivity|].
  cbn [map repeat length map2]. rewrite IH by (simpl in Hl; lia).
  f_equal. field. lra.
Qed.

Lemma matrix_update_zero (e c : R) (s : rmat) (u ms : rvec) (k : nat) :
  0 < e -> c = 0 -> length u = length s -> k = length s ->
  Forall (fun r => length r = length ms) s ->
  mdivs (madd (madd (mscale (Fin e) (mat_of_R s))
                    (repeat (np_zeros (length ms)) k))
              (mscale (Fin c) (np_outer (map Fin u) (map Fin ms))))
        (Fin e + Fin 0)%X
  = mat_of_R s.
Proof.
  intros He Hc Hu -> Hrect. revert u Hu.
  induction Hrect as [|r s Hr _ IH]; intros [|a u] Hu; try discriminate Hu;
    [reflexivity|].
  cbn [mat_of_R map mscale length repeat madd map2 np_outer mdivs].
  f_equal.
  - apply row_update_zero; assumption.
  - apply IH. simpl in Hu. lia.
Qed.

Lemma forallb_repeat {A : Type} (f : A -> bool) (x : A) (n : nat) :
  f x = true -> forallb f (repeat x n) = true.
Proof. intros H. induction n; simpl; [reflexivity|]. rewrite H. assumption. Qed.

(** [update] of a valid Gauss-Wishart instance with the zero record. *)
Lemma gausswish_update_zero (g : GaussWish.t) :
  gausswish_valid g ->
  exists r, GaussWish.update g (gausswish_zero_stat g) = Ok (r, g).
Proof.
  intros (Hdim & (ms & Hmu & Hlm) & Homega
          & (s & Hsig & Hls & Hrect & Hsym & l & Hl) & Heta).
  destruct g as [dim [mu omega sigma eta]]. simpl in *. subst mu sigma.
  assert (Hnm : Z.to_nat dim = length ms) by (unfold np_size in Hlm; lia).
  unfold GaussWish.update, gausswish_zero_stat.
  cbn [GaussWish.dim GaussWish.prm GaussWish.mu GaussWish.omega
       GaussWish.sigma GaussWish.eta].
  rewrite np_size_zeros by assumption.
  assert (Hrows : nrows (repeat (np_zeros (Z.to_nat dim)) (Z.to_nat dim)) = dim).
  { unfold nrows, np_size. rewrite repeat_length. lia. }
  rewrite Hrows, Z.eqb_refl.
  rewrite forallb_repeat
    by (rewrite np_size_zeros by assumption; apply Z.eqb_refl).
  cbn [andb bind assert]. rewrite xgt_0_0.
  assert (Heta' : positive eta).
  { destruct Heta as [-> | (e & -> & He)]; [left; reflexivity|].
    right. exists e. split; [reflexivity|].
    assert (1 <= IZR dim) by (apply IZR_le; lia). lra. }
  rewrite !Hnm in *.
  destruct Homega as [-> | (w & -> & Hw)], Heta' as [-> | (e & -> & He)];
    cbn [np_isinf np_isfinite andb bind xmul xadd].
  - exists RetNone. reflexivity.
  - exists RetSelf.
    rewrite matrix_update_zero by (auto; lia).
    rewrite symmetrise_symmetric by assumption. struct_eq.
  - exists RetSelf. rewrite py_truediv_Fin by lra. cbn [bind].
    rewrite mu_update_zero by assumption.
    rewrite symmetrise_symmetric by assumption. struct_eq.
  - exists RetSelf. rewrite py_truediv_Fin by lra. cbn [bind].
    rewrite mu_update_zero by assumption.
    rewrite matrix_update_zero
      by (try lia; try lra; try assumption; field; lra).
    rewrite symmetrise_symmetric by assumption. struct_eq.
Qed.

(** In its degenerate branch [gausswish.update] returns [None]. *)
Lemma gausswish_update_returns_none (g : GaussWish.t) (stat : GaussWish.param) :
  np_size (GaussWish.mu stat) = GaussWish.dim g ->
  nrows (GaussWish.sigma stat) = GaussWish.dim g ->
  Forall (fun r => np_size r = GaussWish.dim g) (GaussWish.sigma stat) ->
  np_isinf (GaussWish.omega (GaussWish.prm g)) = true ->
  np_isinf (GaussWish.eta (GaussWish.prm g)) = true ->
  GaussWish.update g stat = Ok (RetNone, g).
Proof.
  intros Hm Hs Hr Hw He. unfold GaussWish.update.
  rewrite Hm, Hs, Z.eqb_refl.
  assert (Hf : forallb (fun r => (np_size r =? GaussWish.dim g)%Z)
                 (GaussWish.sigma stat) = true).
  { apply forallb_forall. intros r Hin. rewrite Forall_forall in Hr.
    rewrite (Hr r Hin). apply Z.eqb_refl. }
  rewrite Hf. cbn [andb bind assert]. rewrite Hw, He. reflexivity.
Qed.

(** Whatever the instance and the batch, [gausswish.loglik] returns no
    value with [nu=None] or an infinite [nu]. *)
Lemma gausswish_loglik_no_value (special_psi special_gammaln : xreal -> xreal)
    (g : GaussWish.t) (obs : list (list xreal)) (nu : option xreal)
    (r : loglik_result) :
  match nu with None => True | Some x => np_isinf x = true end ->
  GaussWish.loglik special_psi special_gammaln g obs nu <> Ok r.
Proof.
  intros Hnu. unfold GaussWish.loglik.
  destruct (assert _); cbn [bind]; [|discriminate].
  destruct (linalg_cholesky _); cbn [bind]; [|discriminate].
  destruct (linalg_solve _ _); cbn [bind]; [|discriminate].
  destruct (if np_isfinite _ then _ else _); cbn [bind]; [|discriminate].
  destruct (if np_isfinite _ then _ else _); cbn [bind]; [|discriminate].
  destruct nu as [x|].
  - rewrite Hnu. rewrite load_numdim_nu. discriminate.
  - rewrite load_numdim. discriminate.
Qed.

Lemma resid_Fin (o : rmat) (ms : rvec) :
  map2 vsubs (mat_of_R o) (map Fin ms)
  = mat_of_R (map2 (fun r m => map (fun x => x - m) r) o ms).
Proof.
  revert ms. induction o as [|r o IH]; intros [|m ms]; try reflexivity.
  cbn [mat_of_R map map2] in *. rewrite IH. f_equal.
  unfold vsubs, vec_of_R. rewrite !map_map. reflexivity.
Qed.

(** For a valid instance and a batch of [dim] rows of finite numbers the
    exception is the [NameError] of the name [numdim]. *)
Lemma gausswish_loglik_name_error (special_psi special_gammaln : xreal -> xreal)
    (g : GaussWish.t) (o : rmat) (nu : option xreal) :
  gausswish_valid g ->
  nrows (mat_of_R o) = GaussWish.dim g ->
  match nu with None => True | Some x => np_isinf x = true end ->
  GaussWish.loglik special_psi special_gammaln g (mat_of_R o) nu
  = Raise (NameError "numdim").
Proof.
  intros (Hdim & (ms & Hmu & Hlm) & Homega
          & (s & Hsig & Hls & Hrect & Hsym & l & Hl) & Heta) Hobs Hnu.
  destruct g as [dim [mu omega sigma eta]]. simpl in *. subst mu sigma.
  destruct (cholesky_lower _ s l Hls Hrect Hl) as [Hlow Hll].
  unfold GaussWish.loglik. rewrite Hobs.
  cbn [GaussWish.dim GaussWish.prm GaussWish.mu GaussWish.omega
       GaussWish.sigma GaussWish.eta].
  rewrite Z.eqb_refl. cbn [bind assert].
  rewrite (linalg_cholesky_Ok _ s l Hls Hl). cbn [bind].
  unfold linalg_solve. rewrite resid_Fin, !mat_to_R_of_R.
  destruct (forward_subst_total _ 0 l
              (map2 (fun r m => map (fun x => x - m) r) o ms) [] Hlow eq_refl)
    as (x & -> & _).
  cbn [bind].
  destruct Homega as [-> | (w & -> & Hw)]; cbn [np_isfinite bind];
    [|unfold of_Z; rewrite py_truediv_Fin by lra; cbn [bind]].
  all: destruct Heta as [-> | (e & -> & He)]; cbn [np_isfinite bind].
  all: try (rewrite xdiv_Fin by lra;
            rewrite math_log_Fin
              by (assert (1 <= IZR dim) by (apply IZR_le; lia); lra);
            cbn [bind]).
  all: destruct nu as [y|];
    [rewrite Hnu, load_numdim_nu | rewrite load_numdim]; reflexivity.
Qed.

(** C1 *)
(** Claim C1. [loglik] with [nu=None] or [nu=+Inf] computes the squared
    error and the log-determinant and then reads the name [numdim], which
    is bound nowhere: for every instance and batch no value is returned in
    these modes, and for a valid instance and a batch of [dim] rows the
    call raises [NameError] (for the full-covariance family the batch has
    finite entries). *)
Theorem loglik_plain_modes_raise (special_psi special_gammaln : xreal -> xreal) :
  (forall g obs nu r,
      match nu with None => True | Some x => np_isinf x = true end ->
      GaussGamma.loglik special_psi special_gammaln g obs nu <> Ok r)
  /\ (forall g obs nu r,
         match nu with None => True | Some x => np_isinf x = true end ->
         GaussWish.loglik special_psi special_gammaln g obs nu <> Ok r)
  /\ (forall g obs nu,
         gaussgamma_valid g ->
         nrows obs = GaussGamma.dim g ->
         match nu with None => True | Some x => np_isinf x = true end ->
         GaussGamma.loglik special_psi special_gammaln g obs nu
         = Raise (NameError "numdim"))
  /\ (forall g o nu,
         gausswish_valid g ->
         nrows (mat_of_R o) = GaussWish.dim g ->
         match nu with None => True | Some x => np_isinf x = true end ->
         GaussWish.loglik special_psi special_gammaln g (mat_of_R o) nu
         = Raise (NameError "numdim")).
Proof.
  split; [|split; [|split]].
  - intros. apply gaussgamma_loglik_no_value. assumption.
  - intros. apply gausswish_loglik_no_value. assumption.
  - intros. apply gaussgamma_loglik_name_error; assumption.
  - intros. apply gausswish_loglik_name_error; assumption.
Qed.

(** ** The setters *)

Lemma setter_spec_of_check {T V : Type} (set : T -> V -> py T)
    (accept : T -> V -> Prop) (store : T -> V -> T) (check : T -> V -> bool) :
  (forall self v, set self v
                  = if check self v then Ok (store self v) else Raise AssertionError) ->
  (forall self v, check self v = true <-> accept self v) ->
  setter_spec set accept store.
Proof.
  intros Hset Hcheck self v. rewrite Hset. split; intros H.
  - apply Hcheck in H. rewrite H. reflexivity.
  - destruct (check self v) eqn:Hc; [|reflexivity].
    exfalso. apply H. apply Hcheck. assumption.
Qed.

Lemma assert_two {A : Type} (a b : bool) (x : A) :
  (assert! a ;; assert! b ;; Ok x) = if a && b then Ok x else Raise AssertionError.
Proof. destruct a, b; reflexivity. Qed.

Lemma assert_one {A : Type} (a : bool) (x : A) :
  (assert! a ;; Ok x) = if a then Ok x else Raise AssertionError.
Proof. destruct a; reflexivity. Qed.

Lemma positive_check (a : xreal) :
  negb (np_isnan a) && xgt a (Fin 0) = true <-> positive a.
Proof.
  split.
  - destruct a as [r| | |]; simpl; intros H; try discriminate.
    + right. exists r. split; [reflexivity | apply Rltb_spec; assumption].
    + left. reflexivity.
  - intros [-> | (r & -> & Hr)]; simpl; [reflexivity|].
    apply Rltb_true. assumption.
Qed.

Lemma above_dim_check (dim : Z) (a : xreal) :
  negb (np_isnan a) && xgt a (of_Z dim - Fin 1)%X = true <-> above_dim dim a.
Proof.
  unfold of_Z. split.
  - destruct a as [r| | |]; simpl; intros H; try discriminate.
    + right. exists r. split; [reflexivity|]. apply Rltb_spec in H. lra.
    + left. reflexivity.
  - intros [-> | (r & -> & Hr)]; simpl; [reflexivity|].
    apply Rltb_true. lra.
Qed.

Lemma size_check {A : Type} (v : list A) (dim : Z) :
  (np_size v =? dim)%Z = true <-> np_size v = dim.
Proof. apply Z.eqb_eq. Qed.

Lemma finite_entries_check (v : list xreal) :
  negb (existsb np_isnan v) && forallb np_isfinite v = true
  <-> exists rs, v = map Fin rs.
Proof.
  split.
  - intros H. apply andb_true_iff in H. destruct H as [_ H].
    induction v as [|x v IH]; [exists []; reflexivity|].
    simpl in H. apply andb_true_iff in H. destruct H as [Hx Hv].
    destruct (IH Hv) as [rs ->]. destruct x; try discriminate.
    exists (r :: rs). reflexivity.
  - intros [rs ->]. induction rs as [|r rs IH]; [reflexivity|].
    simpl in *. exact IH.
Qed.

Lemma finite_vector_check (dim : Z) (v : list xreal) :
  (np_size v =? dim)%Z && (negb (existsb np_isnan v) && forallb np_isfinite v) = true
  <-> finite_vector dim v.
Proof.
  rewrite andb_true_iff, size_check, finite_entries_check. unfold finite_vector.
  split.
  - intros [Hs [rs ->]]. exists rs. split; [reflexivity|].
    unfold np_size in *. rewrite length_map in Hs. assumption.
  - intros (rs & -> & Hs). split; [|exists rs; reflexivity].
    unfold np_size in *. rewrite length_map. assumption.
Qed.

Lemma positive_entries_check (rs : list R) :
  forallb (fun x => xgt x (Fin 0)) (map Fin rs) = true <-> Forall (fun r => 0 < r) rs.
Proof.
  induction rs as [|r rs IH]; simpl.
  - split; [constructor | reflexivity].
  - rewrite andb_true_iff, IH, Rltb_spec. split.
    + intros [H1 H2]. constructor; assumption.
    + intros H. inversion H; subst. split; assumption.
Qed.

Lemma positive_vector_check (dim : Z) (v : list xreal) :
  (np_size v =? dim)%Z
  && (negb (existsb np_isnan v) && forallb np_isfinite v
      && forallb (fun x => xgt x (Fin 0)) v) = true
  <-> positive_vector dim v.
Proof.
  rewrite andb_true_iff, andb_true_iff, size_check, finite_entries_check.
  unfold positive_vector. split.
  - intros (Hs & [rs ->] & Hp). exists rs. repeat split.
    + unfold np_size in *. rewrite length_map in Hs. assumption.
    + apply positive_entries_check. assumption.
  - intros (rs & -> & Hs & Hp). repeat split.
    + unfold np_size in *. rewrite length_map. assumption.
    + exists rs. reflexivity.
    + apply positive_entries_check. assumption.
Qed.

Lemma fold_xadd_PInf (v : list xreal) :
  Forall (fun x => x = PInf \/ exists r, x = Fin r /\ 0 <= r) v ->
  fold_left xadd v PInf = PInf.
Proof.
  induction 1 as [|x v [-> | (r & -> & _)] _ IH]; simpl; auto.
Qed.

Lemma fold_xadd_nonneg (v : list xreal) (a : R) :
  Forall (fun x => x = PInf \/ exists r, x = Fin r /\ 0 <= r) v ->
  (exists rs, v = map Fin rs /\ Forall (fun r => 0 <= r) rs)
  \/ fold_left xadd v (Fin a) = PInf.
Proof.
  intros H. revert a. induction H as [|x v Hx Hv IH]; intros a.
  - left. exists []. split; [reflexivity | constructor].
  - destruct Hx as [-> | (r & -> & Hr)]; simpl.
    + right. apply fold_xadd_PInf. assumption.
    + destruct (IH (a + r)) as [(rs & -> & Hrs) | Hinf].
      * left. exists (r :: rs). split; [reflexivity | constructor; assumption].
      * right. assumption.
Qed.

Lemma nonneg_entries (v : list xreal) :
  forallb (fun x => xge x (Fin 0)) v = true ->
  Forall (fun x => x = PInf \/ exists r, x = Fin r /\ 0 <= r) v.
Proof.
  induction v as [|x v IH]; simpl; intros H; [constructor|].
  apply andb_true_iff in H. destruct H as [Hx Hv].
  constructor; [|apply IH; assumption].
  destruct x as [r| | |]; simpl in Hx; try discriminate.
  - right. exists r. split; [reflexivity|].
    apply orb_true_iff in Hx. destruct Hx as [Hx | Hx].
    + apply Rltb_spec in Hx. lra.
    + apply Reqb_spec in Hx. lra.
  - left. reflexivity.
Qed.

Lemma nonneg_entries_Fin (rs : list R) :
  Forall (fun r => 0 <= r) rs ->
  forallb (fun x => xge x (Fin 0)) (map Fin rs) = true.
Proof.
  induction 1 as [|r rs Hr _ IH]; simpl; [reflexivity|].
  rewrite IH, andb_true_r. unfold xge. simpl.
  destruct (Rlt_dec 0 r) as [Hlt | Hge].
  - rewrite Rltb_true by assumption. reflexivity.
  - rewrite (Reqb_true r 0) by lra. apply orb_true_r.
Qed.

Lemma simplex_check (dim : Z) (v : list xreal) :
  (np_size v =? dim)%Z
  && (forallb (fun x => xge x (Fin 0)) v
      && xlt (xabs (np_sum v - Fin 1)%X) spacing1) = true
  <-> simplex dim v.
Proof.
  rewrite andb_true_iff, andb_true_iff, size_check. unfold simplex. split.
  - intros (Hs & Hnn & Hsum).
    destruct (fold_xadd_nonneg v 0 (nonneg_entries v Hnn))
      as [(rs & -> & Hrs) | Hinf].
    + exists rs. repeat split; auto.
      * unfold np_size in *. rewrite length_map in Hs. assumption.
      * rewrite np_sum_Fin in Hsum. simpl in Hsum.
        apply Rltb_spec in Hsum. exact Hsum.
    + unfold np_sum in Hsum. rewrite Hinf in Hsum. discriminate.
  - intros (rs & -> & Hs & Hrs & Hsum). repeat split.
    + unfold np_size in *. rewrite length_map. assumption.
    + apply nonneg_entries_Fin. assumption.
    + rewrite np_sum_Fin. simpl. apply Rltb_true. exact Hsum.
Qed.

Lemma rows_finite_check (dim : Z) (m : list (list xreal)) :
  forallb (fun r => (np_size r =? dim)%Z) m
  && (negb (existsb np_isnan (concat m)) && forallb np_isfinite (concat m)) = true
  <-> Forall (fun r => finite_vector dim r) m.
Proof.
  induction m as [|r m IH].
  - simpl. split; [constructor | reflexivity].
  - cbn [forallb concat]. rewrite existsb_app, forallb_app, negb_orb.
    rewrite Forall_cons_iff, <- IH, <- finite_vector_check.
    rewrite !andb_true_iff. tauto.
Qed.

Lemma spd_check (eigvals : list (list xreal) -> list xreal) (dim : Z)
    (m : list (list xreal)) :
  (nrows m =? dim)%Z && forallb (fun r => (np_size r =? dim)%Z) m
  && (negb (existsb np_isnan (concat m)) && forallb np_isfinite (concat m)
      && np_allclose (transpose (Z.to_nat dim) m) m
      && forallb (fun x => xgt x (Fin 0)) (eigvals m)) = true
  <-> spd_checked eigvals dim m.
Proof.
  unfold spd_checked, nrows. rewrite <- rows_finite_check.
  rewrite Forall_forall, <- forallb_forall.
  rewrite !andb_true_iff, size_check. tauto.
Qed.

(** C2 *)
(** The constructor stores what it is given: an instance is built, with no
    failed assertion, holding a [pi] of the wrong length off the simplex
    and a negative [alpha]. *)
Lemma constructor_stores_unvalidated :
  Dirich.init 3 (Some [Fin 2; Fin 2]) (Some (Fin (-1)))
  = Ok (Dirich.mk 3 (Dirich.mk_param [Fin 2; Fin 2] (Fin (-1))))
  /\ ~ dirich_valid (Dirich.mk 3 (Dirich.mk_param [Fin 2; Fin 2] (Fin (-1)))).
Proof.
  split; [reflexivity|].
  intros (_ & _ & [H | (r & H & Hr)]); simpl in H; [discriminate|].
  injection H as <-. lra.
Qed.

(** Claim C2, amended. Every property setter stores a value that meets
    the invariant it checks and fails an assertion on any other value:
    [pi] on the simplex with [dim] entries; [alpha], [omega], [eta]
    positive or [+Inf] ([eta] above [dim - 1] for the full-covariance
    family); [mu] of [dim] finite entries; the diagonal [sigma] of [dim]
    positive finite entries; the matrix [sigma] a [dim] by [dim] array of
    finite numbers, close to its transpose, with positive eigenvalues.
    The constructors assert [dim > 0] only and store the hyperparameters
    as given. *)
Theorem setters_validate (linalg_eigvals : list (list xreal) -> list xreal) :
  setter_spec Dirich.set_pi
    (fun d v => simplex (Dirich.dim d) v)
    (fun d v => Dirich.mk (Dirich.dim d)
                  (Dirich.mk_param v (Dirich.alpha (Dirich.prm d))))
  /\ setter_spec Dirich.set_alpha
       (fun _ a => positive a)
       (fun d a => Dirich.mk (Dirich.dim d)
                     (Dirich.mk_param (Dirich.pi (Dirich.prm d)) a))
  /\ setter_spec GaussGamma.set_mu
       (fun g v => finite_vector (GaussGamma.dim g) v)
       (fun g v => let p := GaussGamma.prm g in
                   GaussGamma.mk (GaussGamma.dim g)
                     (GaussGamma.mk_param v (GaussGamma.omega p)
                        (GaussGamma.sigma p) (GaussGamma.eta p)))
  /\ setter_spec GaussGamma.set_omega
       (fun _ a => positive a)
       (fun g a => let p := GaussGamma.prm g in
                   GaussGamma.mk (GaussGamma.dim g)
                     (GaussGamma.mk_param (GaussGamma.mu p) a
                        (GaussGamma.sigma p) (GaussGamma.eta p)))
  /\ setter_spec GaussGamma.set_sigma
       (fun g v => positive_vector (GaussGamma.dim g) v)
       (fun g v => let p := GaussGamma.prm g in
                   GaussGamma.mk (GaussGamma.dim g)
                     (GaussGamma.mk_param (GaussGamma.mu p) (GaussGamma.omega p)
                        v (GaussGamma.eta p)))
  /\ setter_spec GaussGamma.set_eta
       (fun _ a => positive a)
       (fun g a => let p := GaussGamma.prm g in
                   GaussGamma.mk (GaussGamma.dim g)
                     (GaussGamma.mk_param (GaussGamma.mu p) (GaussGamma.omega p)
                        (GaussGamma.sigma p) a))
  /\ setter_spec GaussWish.set_mu
       (fun g v => finite_vector (GaussWish.dim g) v)
       (fun g v => let p := GaussWish.prm g in
                   GaussWish.mk (GaussWish.dim g)
                     (GaussWish.mk_param v (GaussWish.omega p)
                        (GaussWish.sigma p) (GaussWish.eta p)))
  /\ setter_spec GaussWish.set_omega
       (fun _ a => positive a)
       (fun g a => let p := GaussWish.prm g in
                   GaussWish.mk (GaussWish.dim g)
                     (GaussWish.mk_param (GaussWish.mu p) a
                        (GaussWish.sigma p) (GaussWish.eta p)))
  /\ setter_spec (GaussWish.set_sigma linalg_eigvals)
       (fun g m => spd_checked linalg_eigvals (GaussWish.dim g) m)
       (fun g m => let p := GaussWish.prm g in
                   GaussWish.mk (GaussWish.dim g)
                     (GaussWish.mk_param (GaussWish.mu p) (GaussWish.omega p)
                        m (GaussWish.eta p)))
  /\ setter_spec GaussWish.set_eta
       (fun g a => above_dim (GaussWish.dim g) a)
       (fun g a => let p := GaussWish.prm g in
                   GaussWish.mk (GaussWish.dim g)
                     (GaussWish.mk_param (GaussWish.mu p) (GaussWish.omega p)
                        (GaussWish.sigma p) a))
  /\ (forall dim pi alpha,
         (0 < dim)%Z ->
         Dirich.init dim (Some pi) (Some alpha)
         = Ok (Dirich.mk dim (Dirich.mk_param pi alpha)))
  /\ (forall dim mu omega sigma eta,
         (0 < dim)%Z ->
         GaussGamma.init dim (Some mu) (Some omega) (Some sigma) (Some eta)
         = Ok (GaussGamma.mk dim (GaussGamma.mk_param mu omega sigma eta)))
  /\ (forall dim mu omega sigma eta,
         (0 < dim)%Z ->
         GaussWish.init dim (Some mu) (Some omega) (Some sigma) (Some eta)
         = Ok (GaussWish.mk dim (GaussWish.mk_param mu omega sigma eta))).
Proof.
  repeat match goal with |- _ /\ _ => split end.
  - eapply setter_spec_of_check with
      (check := fun d v =>
         (np_size v =? Dirich.dim d)%Z
         && (forallb (fun x => xge x (Fin 0)) v
             && xlt (xabs (np_sum v - Fin 1)%X) spacing1)).
    + intros. apply assert_two.
    + intros. apply simplex_check.
  - eapply setter_spec_of_check with
      (check := fun _ a => negb (np_isnan a) && xgt a (Fin 0)).
    + intros. apply assert_one.
    + intros. apply positive_check.
  - eapply setter_spec_of_check with
      (check := fun g v =>
         (np_size v =? GaussGamma.dim g)%Z
         && (negb (existsb np_isnan v) && forallb np_isfinite v)).
    + intros. apply assert_two.
    + intros. apply finite_vector_check.
  - eapply setter_spec_of_check with
      (check := fun _ a => negb (np_isnan a) && xgt a (Fin 0)).
    + intros. apply assert_one.
    + intros. apply positive_check.
  - eapply setter_spec_of_check with
      (check := fun g v =>
         (np_size v =? GaussGamma.dim g)%Z
         && (negb (existsb np_isnan v) && forallb np_isfinite v
             && forallb (fun x => xgt x (Fin 0)) v)).
    + intros. apply assert_two.
    + intros. apply positive_vector_check.
  - eapply setter_spec_of_check with
      (check := fun _ a => negb (np_isnan a) && xgt a (Fin 0)).
    + intros. apply assert_one.
    + intros. apply positive_check.
  - eapply setter_spec_of_check with
      (check := fun g v =>
         (np_size v =? GaussWish.dim g)%Z
         && (negb (existsb np_isnan v) && forallb np_isfinite v)).
    + intros. apply assert_two.
    + intros. apply finite_vector_check.
  - eapply setter_spec_of_check with
      (check := fun _ a => negb (np_isnan a) && xgt a (Fin 0)).
    + intros. apply assert_one.
    + intros. apply positive_check.
  - eapply setter_spec_of_check with
      (check := fun g m =>
         (nrows m =? GaussWish.dim g)%Z
         && forallb (fun r => (np_size r =? GaussWish.dim g)%Z) m
         && (negb (existsb np_isnan (concat m)) && forallb np_isfinite (concat m)
             && np_allclose (transpose (Z.to_nat (GaussWish.dim g)) m) m
             && forallb (fun x => xgt x (Fin 0)) (linalg_eigvals m))).
    + intros. apply assert_two.
    + intros. apply spd_check.
  - eapply setter_spec_of_check with
      (check := fun g a =>
         negb (np_isnan a) && xgt a (of_Z (GaussWish.dim g) - Fin 1)%X).
    + intros. apply assert_one.
    + intros. apply above_dim_check.
  - intros dim pi alpha H. unfold Dirich.init.
    apply Z.ltb_lt in H. rewrite H. reflexivity.
  - intros dim mu omega sigma eta H. unfold GaussGamma.init.
    apply Z.ltb_lt in H. rewrite H. reflexivity.
  - intros dim mu omega sigma eta H. unfold GaussWish.init.
    apply Z.ltb_lt in H. rewrite H. reflexivity.
Qed.

(** The setter of [alpha] at the values [-1] and [2]. *)
Lemma setters_validate_witness :
  Dirich.set_alpha scenario_prior (Fin (-1)) = Raise AssertionError
  /\ Dirich.set_alpha scenario_prior (Fin 2)
     = Ok (Dirich.mk 3 (Dirich.mk_param [Fin (1/3); Fin (1/3); Fin (1/3)] (Fin 2))).
Proof.
  pose proof (setters_validate (fun _ => [])) as H.
  destruct H as (_ & H & _). split.
  - apply (proj2 (H scenario_prior (Fin (-1)))).
    intros [Hp | (r & Hr & Hpos)]; [discriminate|].
    injection Hr as <-. lra.
  - apply (proj1 (H scenario_prior (Fin 2))).
    right. exists 2. split; [reflexivity | lra].
Defined.

(** ** The three families together *)

Lemma dirich_eta (d d' : Dirich.t) :
  Dirich.dim d' = Dirich.dim d -> Dirich.prm d' = Dirich.prm d -> d' = d.
Proof. destruct d, d'; simpl; intros -> ->; reflexivity. Qed.

Lemma gaussgamma_eta (g g' : GaussGamma.t) :
  GaussGamma.dim g' = GaussGamma.dim g -> GaussGamma.prm g' = GaussGamma.prm g ->
  g' = g.
Proof. destruct g, g'; simpl; intros -> ->; reflexivity. Qed.

Lemma gausswish_eta (g g' : GaussWish.t) :
  GaussWish.dim g' = GaussWish.dim g -> GaussWish.prm g' = GaussWish.prm g ->
  g' = g.
Proof. destruct g, g'; simpl; intros -> ->; reflexivity. Qed.

(** C5 *)
(** Claim C5. In each of the three families, [div] of a valid instance
    against an instance of the same dimension with the same parameters (in
    particular against itself) is [0], in exact arithmetic; the special
    functions are finite at positive arguments. *)
Theorem div_identical_zero (special_psi special_gammaln : xreal -> xreal) :
  (forall x, 0 < x -> finite (special_psi (Fin x))) ->
  (forall x, 0 < x -> finite (special_gammaln (Fin x))) ->
  (forall post prior,
      dirich_valid post ->
      Dirich.dim prior = Dirich.dim post -> Dirich.prm prior = Dirich.prm post ->
      Dirich.div special_psi special_gammaln post prior = Ok (Fin 0))
  /\ (forall post prior,
         gaussgamma_valid post ->
         GaussGamma.dim prior = GaussGamma.dim post ->
         GaussGamma.prm prior = GaussGamma.prm post ->
         GaussGamma.div special_psi special_gammaln post prior = Ok (Fin 0))
  /\ (forall post prior,
         gausswish_valid post ->
         GaussWish.dim prior = GaussWish.dim post ->
         GaussWish.prm prior = GaussWish.prm post ->
         GaussWish.div special_psi special_gammaln post prior = Ok (Fin 0)).
Proof.
  intros Hpsi Hgl. split; [|split]; intros post prior Hv Hd Hp.
  - rewrite (dirich_eta post prior Hd Hp). apply dirich_div_self; assumption.
  - rewrite (gaussgamma_eta post prior Hd Hp). apply gaussgamma_div_self; assumption.
  - rewrite (gausswish_eta post prior Hd Hp). apply gausswish_div_self; assumption.
Qed.

(** C6 *)
(** Claim C6. In each of the three families, [update] of a valid instance
    with the statistics record whose fields are all zero leaves the
    instance as it is. *)
Theorem update_zero_identity :
  (forall d, dirich_valid d ->
             exists r, Dirich.update d (dirich_zero_stat d) = Ok (r, d))
  /\ (forall g, gaussgamma_valid g ->
                exists r, GaussGamma.update g (gaussgamma_zero_stat g) = Ok (r, g))
  /\ (forall g, gausswish_valid g ->
                exists r, GaussWish.update g (gausswish_zero_stat g) = Ok (r, g)).
Proof.
  split; [|split].
  - exact dirich_update_zero.
  - exact gaussgamma_update_zero.
  - exact gausswish_update_zero.
Qed.

(** C9 *)
(** Claim C9 fails on the code: in the degenerate branch [dirich.update]
    and [gausswish.update] end in a bare [return] and yield [None], while
    [gaussgamma.update] returns [self] there. *)
Theorem update_degenerate_return :
  (forall d stat,
      np_size (Dirich.pi stat) = Dirich.dim d ->
      np_isinf (Dirich.alpha (Dirich.prm d)) = true ->
      Dirich.update d stat = Ok (RetNone, d))
  /\ (forall g stat,
         np_size (GaussGamma.mu stat) = GaussGamma.dim g ->
         np_size (GaussGamma.sigma stat) = GaussGamma.dim g ->
         np_isinf (GaussGamma.omega (GaussGamma.prm g)) = true ->
         np_isinf (GaussGamma.eta (GaussGamma.prm g)) = true ->
         GaussGamma.update g stat = Ok (RetSelf, g))
  /\ (forall g stat,
         np_size (GaussWish.mu stat) = GaussWish.dim g ->
         nrows (GaussWish.sigma stat) = GaussWish.dim g ->
         Forall (fun r => np_size r = GaussWish.dim g) (GaussWish.sigma stat) ->
         np_isinf (GaussWish.omega (GaussWish.prm g)) = true ->
         np_isinf (GaussWish.eta (GaussWish.prm g)) = true ->
         GaussWish.update g stat = Ok (RetNone, g)).
Proof.
  split; [|split].
  - exact dirich_update_returns_none.
  - exact gaussgamma_update_degenerate.
  - exact gausswish_update_returns_none.
Qed.

(** The Dirichlet instance with [dim = 3], uniform [pi] and
    [alpha = +Inf], updated with the record of the scenario, returns
    [None]. *)
Lemma update_degenerate_return_witness :
  Dirich.update
    (Dirich.mk 3 (Dirich.mk_param [Fin (1/3); Fin (1/3); Fin (1/3)] PInf))
    (Dirich.mk_param [Fin 1; Fin 1; Fin 0] (Fin 2))
  = Ok (RetNone,
        Dirich.mk 3 (Dirich.mk_param [Fin (1/3); Fin (1/3); Fin (1/3)] PInf)).
Proof.
  apply (proj1 update_degenerate_return); reflexivity.
Defined.

(** ** Valid instances *)

Lemma scenario_prior_valid : dirich_valid scenario_prior.
Proof.
  split; [reflexivity|]. split.
  - exists [1/3; 1/3; 1/3]. repeat split.
    + repeat constructor; lra.
    + change (Rabs (1/3 + (1/3 + (1/3 + 0)) - 1) < / 2 ^ 52).
      replace (1/3 + (1/3 + (1/3 + 0)) - 1) with 0 by lra.
      rewrite Rabs_R0. apply Rinv_0_lt_compat. apply pow_lt. lra.
  - right. exists 1. split; [reflexivity | lra].
Qed.

Lemma default_gaussgamma_built :
  GaussGamma.init 2 None None None None = Ok default_gaussgamma.
Proof. reflexivity. Qed.

Lemma default_gaussgamma_valid : gaussgamma_valid default_gaussgamma.
Proof.
  split; [reflexivity|]. split; [|split; [|split]].
  - exists [0; 0]. split; reflexivity.
  - right. exists 1. split; [reflexivity | lra].
  - exists [1; 1]. repeat split. repeat constructor; lra.
  - right. exists 1. split; [reflexivity | lra].
Qed.

Lemma default_gausswish_built :
  GaussWish.init 2 None None None None = Ok default_gausswish.
Proof. reflexivity. Qed.

Lemma cholesky_identity2 :
  cholesky_rows 2 [[1; 0]; [0; 1]] [] = Some [[1; 0]; [0; 1]].
Proof.
  cbn [cholesky_rows length firstn map forward_subst nth hd Rdot map2 Rsum
       fold_right app repeat Nat.sub].
  replace (1 - 0) with 1 by lra. rewrite sqrt_1.
  rewrite (Rltb_true 0 1) by lra.
  cbn [cholesky_rows length firstn map forward_subst nth hd Rdot map2 Rsum
       fold_right app repeat Nat.sub Rlincomb].
  rewrite (Reqb_false 1 0) by lra.
  cbn [cholesky_rows length firstn map forward_subst nth hd Rdot map2 Rsum
       fold_right app repeat Nat.sub Rlincomb].
  replace ((0 - 0) / 1) with 0 by (field; lra).
  replace (1 - (0 * 0 + 0)) with 1 by lra. rewrite sqrt_1.
  rewrite (Rltb_true 0 1) by lra. reflexivity.
Qed.

Lemma default_gausswish_valid : gausswish_valid default_gausswish.
Proof.
  split; [reflexivity|]. split; [|split; [|split]].
  - exists [0; 0]. split; reflexivity.
  - right. exists 1. split; [reflexivity | lra].
  - exists [[1; 0]; [0; 1]]. repeat split.
    + repeat constructor.
    + eexists. exact cholesky_identity2.
  - right. exists 2. split; [reflexivity | simpl; lra].
Qed.

(** [div_identical_zero] at the Dirichlet instance of the scenario and at
    the default Gauss-Gamma and Gauss-Wishart instances of dimension 2. *)
Lemma div_identical_zero_witness :
  Dirich.div (fun x => x) (fun x => x) scenario_prior scenario_prior = Ok (Fin 0)
  /\ GaussGamma.div (fun x => x) (fun x => x) default_gaussgamma default_gaussgamma
     = Ok (Fin 0)
  /\ GaussWish.div (fun x => x) (fun x => x) default_gausswish default_gausswish
     = Ok (Fin 0).
Proof.
  destruct (div_identical_zero (fun x => x) (fun x => x)) as (H1 & H2 & H3).
  - intros x _. apply finite_Fin.
  - intros x _. apply finite_Fin.
  - split; [|split].
    + apply H1; [exact scenario_prior_valid | reflexivity | reflexivity].
    + apply H2; [exact default_gaussgamma_valid | reflexivity | reflexivity].
    + apply H3; [exact default_gausswish_valid | reflexivity | reflexivity].
Defined.

(** [update_zero_identity] at the same three instances. *)
Lemma update_zero_identity_witness :
  (exists r, Dirich.update scenario_prior (dirich_zero_stat scenario_prior)
             = Ok (r, scenario_prior))
  /\ (exists r, GaussGamma.update default_gaussgamma
                  (gaussgamma_zero_stat default_gaussgamma)
                = Ok (r, default_gaussgamma))
  /\ (exists r, GaussWish.update default_gausswish
                  (gausswish_zero_stat default_gausswish)
                = Ok (r, default_gausswish)).
Proof.
  destruct update_zero_identity as (H1 & H2 & H3).
  split; [|split].
  - apply H1. exact scenario_prior_valid.
  - apply H2. exact default_gaussgamma_valid.
  - apply H3. exact default_gausswish_valid.
Defined.

(** [loglik_plain_modes_raise] at the default instances and the batch of
    the single observation [(0, 0)]. *)
Lemma loglik_plain_modes_raise_witness :
  GaussGamma.loglik (fun x => x) (fun x => x) default_gaussgamma
    [[Fin 0]; [Fin 0]] None = Raise (NameError "numdim")
  /\ GaussWish.loglik (fun x => x) (fun x => x) default_gausswish
       [[Fin 0]; [Fin 0]] (Some PInf) = Raise (NameError "numdim").
Proof.
  destruct (loglik_plain_modes_raise (fun x => x) (fun x => x)) as (_ & _ & H3 & H4).
  split.
  - apply H3; [exact default_gaussgamma_valid | reflexivity | exact I].
  - apply (H4 default_gausswish [[0]; [0]] (Some PInf));
      [exact default_gausswish_valid | reflexivity | reflexivity].
Defined.

(** ** Dimension 1: the diagonal and the full-covariance family *)

Lemma abs_sq (x : R) : Rabs x * Rabs x = x * x.
Proof. unfold Rabs. destruct (Rcase_abs x); ring. Qed.

Lemma sq_div_sqrt (a s : R) :
  0 < s -> Rabs (a / sqrt s) * Rabs (a / sqrt s) = Rabs a * Rabs a / s.
Proof.
  intros Hs. rewrite !abs_sq.
  assert (Hq : sqrt s * sqrt s = s) by (apply sqrt_sqrt; lra).
  assert (Hn : sqrt s <> 0).
  { pose proof (sqrt_lt_R0 s Hs). lra. }
  rewrite <- Hq at 3. field. assumption.
Qed.

Lemma ln_sqrt_half (x : R) : 0 < x -> ln (sqrt x) = ln x / 2.
Proof.
  intros Hx. pose proof (sqrt_lt_R0 x Hx) as Hs.
  rewrite <- (sqrt_sqrt x) at 2 by lra.
  rewrite ln_mult by assumption. lra.
Qed.

Lemma cholesky1 (s : R) :
  0 < s -> linalg_cholesky [[Fin s]] = Ok [[Fin (sqrt s)]].
Proof.
  intros Hs. unfold linalg_cholesky.
  cbn [mat_to_R vec_to_R to_R length cholesky_rows firstn map forward_subst
       hd nth Rdot map2 Rsum fold_right].
  replace (s - 0) with s by lra. rewrite Rltb_true by assumption.
  reflexivity.
Qed.

Lemma minus_zeros (v : list R) : map2 Rminus v (repeat 0 (length v)) = v.
Proof.
  induction v as [|x v IH]; simpl; [reflexivity|].
  rewrite IH. f_equal. lra.
Qed.

Lemma plus_zeros (v : list R) : map2 Rplus (repeat 0 (length v)) v = v.
Proof.
  induction v as [|x v IH]; simpl; [reflexivity|].
  rewrite IH. f_equal. lra.
Qed.

Lemma solve1 (d : R) (b : list R) :
  d <> 0 ->
  linalg_solve [[Fin d]] [map Fin b] = Ok [map Fin (map (fun y => y / d) b)].
Proof.
  intros Hd. unfold linalg_solve.
  change [[Fin d]] with (mat_of_R [[d]]).
  change [map Fin b] with (mat_of_R [b]).
  rewrite !mat_to_R_of_R.
  cbn [forward_subst length nth firstn Rlincomb app].
  rewrite Reqb_false by assumption. rewrite minus_zeros. reflexivity.
Qed.

Lemma solve_vec1 (d b : R) :
  d <> 0 -> linalg_solve_vec [[Fin d]] [Fin b] = Ok [Fin (b / d)].
Proof.
  intros Hd. unfold linalg_solve_vec.
  change (map (fun y => [y]) [Fin b]) with [map Fin [b]].
  rewrite solve1 by assumption. reflexivity.
Qed.

Lemma sqrt_nonzero (s : R) : 0 < s -> sqrt s <> 0.
Proof. intros Hs. pose proof (sqrt_lt_R0 s Hs). lra. Qed.

Lemma np_log_Fin (x : R) : 0 < x -> np_log (Fin x) = Fin (ln x).
Proof. intros H. simpl. rewrite Rltb_true by assumption. reflexivity. Qed.

(** The Gauss part of [div] in dimension 1. *)
Lemma div1_gauss (m m' s w w' : R) (ow ow' : xreal) (dim : xreal) :
  0 < s -> positive ow -> positive ow' ->
  let gg :=
    if np_isfinite ow && np_isfinite ow' then
      ratio <- py_truediv ow' ow ;;
      l <- math_log ratio ;;
      Ok (Some (dim / Fin 2 * (ratio - l - Fin 1)
                + ow' / Fin 2
                  * np_sum (vdiv (map (fun x => xsqr (xabs x))
                                      (vsub [Fin m] [Fin m']))
                                 [Fin s]))%X)
    else if np_isinf ow && np_isinf ow'
            && forallb (fun b => b) (map2 xeq [Fin m] [Fin m'])
    then Ok (Some (Fin 0)) else Ok None in
  let gw :=
    if np_isfinite ow && np_isfinite ow' then
      ratio <- py_truediv ow' ow ;;
      l <- math_log ratio ;;
      x <- linalg_solve_vec [[Fin (sqrt s)]] (vsub [Fin m] [Fin m']) ;;
      Ok (Some (dim / Fin 2 * (ratio - l - Fin 1)
                + ow' / Fin 2 * np_sum (map (fun e => xsqr (xabs e)) x))%X)
    else if np_isinf ow && np_isinf ow'
            && forallb (fun b => b) (map2 xeq [Fin m] [Fin m'])
    then Ok (Some (Fin 0)) else Ok None in
  gw = gg.
Proof.
  intros Hs How How' gg gw. subst gg gw.
  destruct (np_isfinite ow && np_isfinite ow') eqn:Hf; [|reflexivity].
  destruct How as [-> | (a & -> & Ha)]; [discriminate|].
  destruct How' as [-> | (b & -> & Hb)]; [discriminate|].
  rewrite py_truediv_Fin by lra. cbn [bind].
  rewrite math_log_Fin by (apply Rdiv_lt_0_compat; lra). cbn [bind].
  cbn [vsub map2 xsub xadd xneg].
  rewrite solve_vec1 by (apply sqrt_nonzero; assumption). cbn [bind].
  cbn [map vdiv map2 xabs xsqr xmul np_sum fold_left xadd].
  xnorm. rewrite sq_div_sqrt by assumption. reflexivity.
Qed.

Lemma div1_gauss_shape (m m' s : R) (ow ow' : xreal) :
  0 < s -> positive ow -> positive ow' ->
  exists o,
    (if np_isfinite ow && np_isfinite ow' then
       ratio <- py_truediv ow' ow ;;
       l <- math_log ratio ;;
       Ok (Some (of_Z 1 / Fin 2 * (ratio - l - Fin 1)
                 + ow' / Fin 2
                   * np_sum (vdiv (map (fun x => xsqr (xabs x))
                                       (vsub [Fin m] [Fin m']))
                                  [Fin s]))%X)
     else if np_isinf ow && np_isinf ow'
             && forallb (fun b => b) (map2 xeq [Fin m] [Fin m'])
     then Ok (Some (Fin 0)) else Ok None) = Ok o
    /\ (o = None \/ exists d, o = Some (Fin d)).
Proof.
  intros Hs How How'.
  destruct (np_isfinite ow && np_isfinite ow') eqn:Hf.
  - destruct How as [-> | (a & -> & Ha)]; [discriminate|].
    destruct How' as [-> | (b & -> & Hb)]; [discriminate|].
    rewrite py_truediv_Fin by lra. cbn [bind].
    rewrite math_log_Fin by (apply Rdiv_lt_0_compat; lra). cbn [bind].
    cbn [vsub map2 map vdiv xabs xsqr np_sum fold_left]. unfold of_Z. xnorm.
    eexists. split; [reflexivity|]. right. eexists. reflexivity.
  - clear Hf.
    destruct (np_isinf ow && np_isinf ow'
              && forallb (fun b => b) (map2 xeq [Fin m] [Fin m']));
      eexists; (split; [reflexivity|]).
    + right. exists 0. reflexivity.
    + left. reflexivity.
Qed.

Lemma arange1 : np_arange (Z.to_nat 1) = [Fin 0].
Proof. reflexivity. Qed.

(** [div] agrees in dimension 1. *)
Lemma div1 (special_psi special_gammaln : xreal -> xreal)
    (m s m' s' : R) (w e w' e' : xreal) :
  (forall x, 0 < x -> finite (special_psi (Fin x))) ->
  (forall x, 0 < x -> finite (special_gammaln (Fin x))) ->
  0 < s -> 0 < s' ->
  positive w -> positive e -> positive w' -> positive e' ->
  GaussWish.div special_psi special_gammaln
    (gausswish1 (Fin m) w (Fin s) e) (gausswish1 (Fin m') w' (Fin s') e')
  = GaussGamma.div special_psi special_gammaln
      (gaussgamma1 (Fin m) w (Fin s) e) (gaussgamma1 (Fin m') w' (Fin s') e').
Proof.
  intros Hpsi Hgl Hs Hs' Hw He Hw' He'.
  unfold GaussWish.div, GaussGamma.div, gausswish1, gaussgamma1.
  cbn [GaussWish.dim GaussWish.prm GaussWish.mu GaussWish.omega
       GaussWish.sigma GaussWish.eta
       GaussGamma.dim GaussGamma.prm GaussGamma.mu GaussGamma.omega
       GaussGamma.sigma GaussGamma.eta].
  rewrite Z.eqb_refl. cbn [bind assert].
  rewrite cholesky1 by assumption. cbn [bind].
  pose proof (div1_gauss m m' s 0 0 w w' (of_Z 1) Hs Hw Hw') as Hg.
  cbv zeta in Hg. rewrite Hg. clear Hg.
  destruct (div1_gauss_shape m m' s w w' Hs Hw Hw') as (o & -> & Ho).
  cbn [bind].
  destruct Ho as [-> | (d & ->)]; [reflexivity|].
  destruct He as [-> | (a & -> & Ha)], He' as [-> | (b & -> & Hb)];
    cbn [np_isfinite np_isinf andb]; try reflexivity.
  rewrite cholesky1 by assumption. cbn [bind].
  rewrite !xdiv_Fin by lra.
  rewrite !math_log_Fin by lra. cbn [bind].
  rewrite solve1 with (b := [sqrt s']) by (apply sqrt_nonzero; assumption).
  cbn [bind]. rewrite arange1.
  cbn [map np_sum np_sum2 concat app fold_left np_diag length seq nth vdiv map2
       xabs xsqr].
  unfold of_Z.
  rewrite !np_log_Fin by (try assumption; apply sqrt_lt_R0; assumption).
  xnorm.
  replace ((a + - 0) / 2) with (a / 2) by lra.
  replace ((b + - 0) / 2) with (b / 2) by lra.
  destruct (Hpsi (a / 2)) as [y Hy]; [lra|].
  destruct (Hgl (a / 2)) as [ga Hga]; [lra|].
  destruct (Hgl (b / 2)) as [gb Hgb]; [lra|].
  rewrite Hy, Hga, Hgb. xnorm.
  rewrite sq_div_sqrt by assumption.
  rewrite !ln_sqrt_half by assumption.
  rewrite (abs_sq (sqrt s')), sqrt_sqrt by lra.
  f_equal. f_equal. field. lra.
Qed.

Lemma half_half (x : xreal) : (x / Fin 2 + x / Fin 2)%X = x.
Proof.
  destruct x as [r| | |]; simpl; rdec; simpl; try reflexivity.
  f_equal. lra.
Qed.

Lemma sqr_abs (x : xreal) : xsqr (xabs x) = (x * x)%X.
Proof.
  destruct x as [r| | |]; simpl; try reflexivity.
  f_equal. apply abs_sq.
Qed.

(** [update] agrees in dimension 1, whatever the numbers. *)
Lemma update1 (m w s e M W S E : xreal) :
  same_update
    (GaussGamma.update (gaussgamma1 m w s e) (GaussGamma.mk_param [M] W [S] E))
    (GaussWish.update (gausswish1 m w s e) (GaussWish.mk_param [M] W [[S]] E)).
Proof.
  unfold same_update, GaussGamma.update, GaussWish.update, gaussgamma1, gausswish1.
  cbn [GaussWish.dim GaussWish.prm GaussWish.mu GaussWish.omega
       GaussWish.sigma GaussWish.eta
       GaussGamma.dim GaussGamma.prm GaussGamma.mu GaussGamma.omega
       GaussGamma.sigma GaussGamma.eta].
  change (Z.to_nat 1) with 1%nat.
  cbn [np_size nrows length Z.of_nat Pos.of_succ_nat Z.eqb Pos.eqb andb forallb
       bind assert].
  destruct (np_isinf w && np_isinf e).
  { exists m, w, s, e. split; reflexivity. }
  set (diff := if xgt W (Fin 0) then vsub [m] (vdivs [M] W) else [m]).
  assert (Hdiff : exists d, diff = [d]).
  { unfold diff. destruct (xgt W (Fin 0)); eexists; reflexivity. }
  destruct Hdiff as [d ->].
  destruct (np_isfinite w).
  - destruct (py_truediv (w * W)%X (w + W)%X) as [weight|ex]; cbn [bind];
      [|reflexivity].
    destruct (np_isfinite e).
    + cbn [vscale vadd vdivs map map2 madd mdivs mscale np_outer transpose hd tl].
      rewrite half_half, sqr_abs. do 4 eexists. split; reflexivity.
    + cbn [vscale vadd vdivs map map2 madd mdivs mscale np_outer transpose hd tl].
      rewrite half_half. do 4 eexists. split; reflexivity.
  - cbn [bind]. destruct (np_isfinite e).
    + cbn [vscale vadd vdivs map map2 madd mdivs mscale np_outer transpose hd tl].
      rewrite half_half, sqr_abs. do 4 eexists. split; reflexivity.
    + cbn [vscale vadd vdivs map map2 madd mdivs mscale np_outer transpose hd tl].
      rewrite half_half. do 4 eexists. split; reflexivity.
Qed.

Lemma math_sqrt_Fin (x : R) : 0 < x -> math_sqrt (Fin x) = Ok (Fin (sqrt x)).
Proof. intros H. simpl. rewrite Rltb_false by lra. reflexivity. Qed.

Lemma np_sqrt_Fin (x : R) : 0 < x -> np_sqrt (Fin x) = Fin (sqrt x).
Proof. intros H. simpl. rewrite Rltb_false by lra. reflexivity. Qed.

(** The dispersion drawn by [gausswish.rand] in dimension 1. *)
Lemma rand1_disp (s a g : R) (n : xreal) :
  0 < s -> 0 < a -> 0 < g ->
  (s0 <- math_sqrt (Fin a) ;;
   c <- linalg_cholesky [[Fin s]] ;;
   fact <- linalg_solve
             (madd (np_diag_of_vec (map np_sqrt (vscale (Fin 2) [Fin g])))
                   (np_tril_below [[n]]))
             (mscale s0 (transpose 1 c)) ;;
   Ok (matmul 1 (transpose 1 fact) fact))
  = Ok [[Fin (s / (g / (a / 2)))]].
Proof.
  intros Hs Ha Hg.
  rewrite math_sqrt_Fin by assumption. cbn [bind].
  rewrite cholesky1 by assumption. cbn [bind].
  cbn [vscale map xmul].
  rewrite np_sqrt_Fin by lra.
  cbn [np_diag_of_vec np_tril_below length seq map combine fst snd nth
       Nat.eqb Nat.ltb Nat.leb madd map2 vadd xadd transpose hd tl mscale
       vscale xmul].
  assert (Hp : sqrt (2 * g) + 0 <> 0).
  { pose proof (sqrt_lt_R0 (2 * g)). lra. }
  rewrite solve1 with (b := [sqrt a * sqrt s]) by assumption. cbn [bind].
  cbn [map transpose hd tl matmul lincomb map2 vscale xmul fold_left np_zeros
       repeat vadd xadd].
  apply (f_equal (fun x => Ok [[Fin x]])).
  assert (H2g : sqrt (2 * g) * sqrt (2 * g) = 2 * g) by (apply sqrt_sqrt; lra).
  assert (Hqa : sqrt a * sqrt a = a) by (apply sqrt_sqrt; lra).
  assert (Hqs : sqrt s * sqrt s = s) by (apply sqrt_sqrt; lra).
  replace (sqrt (2 * g) + 0) with (sqrt (2 * g)) by lra.
  assert (Hn : sqrt (2 * g) <> 0) by lra.
  replace (0 + sqrt a * sqrt s / sqrt (2 * g) * (sqrt a * sqrt s / sqrt (2 * g)))
    with ((sqrt a * sqrt a) * (sqrt s * sqrt s) / (sqrt (2 * g) * sqrt (2 * g)))
    by (field; assumption).
  rewrite H2g, Hqa, Hqs. field. lra.
Qed.

(** [rand] agrees in dimension 1 when both families get the same draws. *)
Lemma rand1 (m s g z : R) (w e n : xreal) :
  0 < s -> 0 < g -> positive w -> positive e ->
  same_sample
    (GaussGamma.rand (gaussgamma1 (Fin m) w (Fin s) e) [Fin g] [Fin z])
    (GaussWish.rand (gausswish1 (Fin m) w (Fin s) e) [Fin g] [[n]] [Fin z]).
Proof.
  intros Hs Hg Hw He.
  unfold same_sample, GaussGamma.rand, GaussWish.rand, gaussgamma1, gausswish1.
  cbn [GaussWish.dim GaussWish.prm GaussWish.mu GaussWish.omega
       GaussWish.sigma GaussWish.eta
       GaussGamma.dim GaussGamma.prm GaussGamma.mu GaussGamma.omega
       GaussGamma.sigma GaussGamma.eta].
  change (Z.to_nat 1) with 1%nat.
  assert (Hd : exists d, 0 < d
     /\ (if np_isfinite e
         then vdiv [Fin s] (vdivs [Fin g] (e / Fin 2)%X) else [Fin s]) = [Fin d]
     /\ (if np_isfinite e
         then s0 <- math_sqrt e ;;
              c <- linalg_cholesky [[Fin s]] ;;
              fact <- linalg_solve
                        (madd (np_diag_of_vec (map np_sqrt (vscale (Fin 2) [Fin g])))
                              (np_tril_below [[n]]))
                        (mscale s0 (transpose 1 c)) ;;
              Ok (matmul 1 (transpose 1 fact) fact)
         else Ok [[Fin s]]) = Ok [[Fin d]]).
  { destruct He as [-> | (a & -> & Ha)]; cbn [np_isfinite].
    - exists s. repeat split; assumption.
    - exists (s / (g / (a / 2))). split; [|split].
      + apply Rdiv_lt_0_compat; [assumption|].
        apply Rdiv_lt_0_compat; lra.
      + cbn [vdivs vdiv map map2]. rewrite xdiv_Fin by lra.
        rewrite xdiv_Fin by lra. rewrite xdiv_Fin; [reflexivity|].
        assert (0 < g / (a / 2)) by (apply Rdiv_lt_0_compat; lra). lra.
      + apply rand1_disp; assumption. }
  destruct Hd as (d & Hd & -> & ->). cbn [bind].
  destruct Hw as [-> | (b & -> & Hb)]; cbn [np_isfinite].
  - split; reflexivity.
  - rewrite cholesky1 by assumption. cbn [bind].
    rewrite math_sqrt_Fin by assumption. cbn [bind].
    cbn [map]. rewrite np_sqrt_Fin by assumption.
    cbn [vmul map2 xmul vdivs map np_dot_mv np_dot np_sum fold_left xadd vadd].
    rewrite !xdiv_Fin by (apply sqrt_nonzero; assumption).
    cbn [xadd]. split; [|reflexivity].
    apply (f_equal (fun x => [Fin x])). lra.
Qed.

Lemma bcast2_singleton (f : xreal -> xreal -> xreal) (a : xreal) (v : list xreal) :
  bcast2 f (Arr1 [a]) (Arr1 v) = bcast2 f (Scalar a) (Arr1 v).
Proof. destruct v as [|x [|y v]]; reflexivity. Qed.

Lemma bcast2_scalar_scalar (f : xreal -> xreal -> xreal) (a b : xreal) :
  bcast2 f (Scalar a) (Scalar b) = Ok (Scalar (f a b)).
Proof. reflexivity. Qed.

Lemma bcast2_scalar_arr (f : xreal -> xreal -> xreal) (a : xreal) (v : list xreal) :
  bcast2 f (Scalar a) (Arr1 v) = Ok (Arr1 (map (f a) v)).
Proof. reflexivity. Qed.

Lemma vsubs_Fin (row : list R) (m : R) :
  vsubs (map Fin row) (Fin m) = map Fin (map (fun x => x - m) row).
Proof. unfold vsubs. rewrite !map_map. reflexivity. Qed.

Lemma sum_axis0_one (v : list xreal) :
  sum_axis0 (length v) [v] = vadd (np_zeros (length v)) v.
Proof. reflexivity. Qed.

(** The squared errors of the two families in dimension 1. *)
Lemma sqerr1 (m s : R) (row : list R) :
  0 < s ->
  map (fun e => xsqr (xabs e))
      (map Fin (map (fun y => y / sqrt s) (map (fun x => x - m) row)))
  = vdivs (GaussGamma.sq_resid_row (map Fin row) (Fin m)) (Fin s).
Proof.
  intros Hs. unfold GaussGamma.sq_resid_row, vdivs.
  rewrite !map_map. apply map_ext. intros x.
  cbn [xsub xadd xneg xabs xsqr xmul]. rewrite xdiv_Fin by lra.
  f_equal. apply sq_div_sqrt. assumption.
Qed.

(** [loglik] agrees in dimension 1. *)
Lemma loglik1 (special_psi special_gammaln : xreal -> xreal)
    (m s : R) (w e : xreal) (row : list R) (nu : option xreal) :
  (forall x, 0 < x -> finite (special_psi (Fin x))) ->
  0 < s -> positive w -> positive e ->
  GaussWish.loglik special_psi special_gammaln
    (gausswish1 (Fin m) w (Fin s) e) [map Fin row] nu
  = GaussGamma.loglik special_psi special_gammaln
      (gaussgamma1 (Fin m) w (Fin s) e) [map Fin row] nu.
Proof.
  intros Hpsi Hs Hw He.
  unfold GaussWish.loglik, GaussGamma.loglik, gausswish1, gaussgamma1.
  cbn [GaussWish.dim GaussWish.prm GaussWish.mu GaussWish.omega
       GaussWish.sigma GaussWish.eta
       GaussGamma.dim GaussGamma.prm GaussGamma.mu GaussGamma.omega
       GaussGamma.sigma GaussGamma.eta].
  cbn [nrows np_size length Z.of_nat Pos.of_succ_nat Z.eqb Pos.eqb bind assert
       ncols hd].
  rewrite cholesky1 by assumption. cbn [bind].
  cbn [map2]. rewrite vsubs_Fin.
  rewrite solve1 by (apply sqrt_nonzero; assumption). cbn [bind map].
  rewrite sqerr1 by assumption.
  set (sq := sum_axis0 (length (map Fin row))
               [vdivs (GaussGamma.sq_resid_row (map Fin row) (Fin m)) (Fin s)]).
  destruct (if np_isfinite w
            then c <- py_truediv (of_Z 1) w ;; Ok (map (fun x => (x + c)%X) sq)
            else Ok sq) as [sqerr|ex]; cbn [bind]; [|reflexivity].
  change (Z.to_nat 1) with 1%nat.
  unfold np_arange, of_nat, of_Z, np_diag.
  cbn [length seq map nth INR].
  rewrite !np_log_Fin by (try assumption; apply sqrt_lt_R0; assumption).
  cbn [np_sum fold_left xadd]. rewrite ln_sqrt_half by assumption.
  rewrite (xdiv_Fin (0 + ln s) 2) by lra.
  replace ((0 + ln s) / 2) with (0 + ln s / 2) by lra.
  destruct He as [-> | (a & -> & Ha)]; cbn [np_isfinite bind].
  - reflexivity.
  - rewrite xdiv_Fin by lra. rewrite math_log_Fin by lra. cbn [bind].
    rewrite bcast2_scalar_arr. cbn [map].
    xnorm.
    replace ((a + - 0) / 2) with (a / 2) by lra.
    destruct (Hpsi (a / 2)) as [y Hy]; [lra|]. rewrite Hy. xnorm.
    replace (0 + ln s / 2 + (1 / 2 * ln (a / 2) + - ((0 + y) / 2)))
      with (0 + ln s / 2 + (1 / 2 * ln (a / 2) + - (y / 2))) by lra.
    destruct nu as [x|]; [|reflexivity].
    destruct (np_isinf x); [reflexivity|].
    destruct (math_log (math_pi * x)%X) as [l|ex]; cbn [bind]; [|reflexivity].
    rewrite bcast2_scalar_scalar, bcast2_scalar_arr. cbn [bind arr_neg map].
    rewrite bcast2_singleton. reflexivity.
Qed.

(** C8 *)
(** Claim C8. In dimension 1, for a diagonal and a full-covariance
    instance with the same [mu], [omega], [eta] and the same positive
    scale (as the entry of a 1 by 1 matrix), in exact arithmetic:
    [loglik] gives the same result on every batch of finite numbers and
    for every [nu]; [div] gives the same value against every such pair of
    priors; [rand] gives the same sample from the same Gamma and normal
    draws; [update] leaves the same parameters with every statistics
    record. *)
Theorem dimension1_families_agree
    (special_psi special_gammaln : xreal -> xreal)
    (m s : R) (w e : xreal) :
  (forall x, 0 < x -> finite (special_psi (Fin x))) ->
  (forall x, 0 < x -> finite (special_gammaln (Fin x))) ->
  0 < s -> positive w -> positive e ->
  (forall (row : list R) (nu : option xreal),
      GaussWish.loglik special_psi special_gammaln
        (gausswish1 (Fin m) w (Fin s) e) [map Fin row] nu
      = GaussGamma.loglik special_psi special_gammaln
          (gaussgamma1 (Fin m) w (Fin s) e) [map Fin row] nu)
  /\ (forall (m' s' : R) (w' e' : xreal),
         0 < s' -> positive w' -> positive e' ->
         GaussWish.div special_psi special_gammaln
           (gausswish1 (Fin m) w (Fin s) e) (gausswish1 (Fin m') w' (Fin s') e')
         = GaussGamma.div special_psi special_gammaln
             (gaussgamma1 (Fin m) w (Fin s) e)
             (gaussgamma1 (Fin m') w' (Fin s') e'))
  /\ (forall (g z : R) (n : xreal),
         0 < g ->
         same_sample
           (GaussGamma.rand (gaussgamma1 (Fin m) w (Fin s) e) [Fin g] [Fin z])
           (GaussWish.rand (gausswish1 (Fin m) w (Fin s) e) [Fin g] [[n]] [Fin z]))
  /\ (forall M W S E : xreal,
         same_update
           (GaussGamma.update (gaussgamma1 (Fin m) w (Fin s) e)
              (GaussGamma.mk_param [M] W [S] E))
           (GaussWish.update (gausswish1 (Fin m) w (Fin s) e)
              (GaussWish.mk_param [M] W [[S]] E))).
Proof.
  intros Hpsi Hgl Hs Hw He. split; [|split; [|split]].
  - intros row nu. apply loglik1; assumption.
  - intros m' s' w' e' Hs' Hw' He'. apply div1; assumption.
  - intros g z n Hg. apply rand1; assumption.
  - intros M W S E. apply update1.
Qed.

(** The theorem at [mu = 1], [omega = 2], [sigma = 4], [eta = 3], against
    the prior with [mu = 0], [omega = 1], [sigma = 1], [eta = 1]. *)
Lemma dimension1_families_agree_witness :
  GaussWish.div (fun x => x) (fun x => x)
    (gausswish1 (Fin 1) (Fin 2) (Fin 4) (Fin 3))
    (gausswish1 (Fin 0) (Fin 1) (Fin 1) (Fin 1))
  = GaussGamma.div (fun x => x) (fun x => x)
      (gaussgamma1 (Fin 1) (Fin 2) (Fin 4) (Fin 3))
      (gaussgamma1 (Fin 0) (Fin 1) (Fin 1) (Fin 1))
  /\ same_update
       (GaussGamma.update (gaussgamma1 (Fin 1) (Fin 2) (Fin 4) (Fin 3))
          (GaussGamma.mk_param [Fin 5] (Fin 2) [Fin 1] (Fin 2)))
       (GaussWish.update (gausswish1 (Fin 1) (Fin 2) (Fin 4) (Fin 3))
          (GaussWish.mk_param [Fin 5] (Fin 2) [[Fin 1]] (Fin 2))).
Proof.
  assert (Hfin : forall x : R, 0 < x -> finite ((fun y : xreal => y) (Fin x)))
    by (intros x _; apply finite_Fin).
  assert (Hpos : forall r : R, 0 < r -> positive (Fin r))
    by (intros r Hr; right; exists r; split; [reflexivity | assumption]).
  destruct (dimension1_families_agree (fun x => x) (fun x => x) 1 4 (Fin 2) (Fin 3)
              Hfin Hfin ltac:(lra) (Hpos 2 ltac:(lra)) (Hpos 3 ltac:(lra)))
    as (_ & Hdiv & _ & Hupd).
  split.
  - apply Hdiv; [lra | apply Hpos; lra | apply Hpos; lra].
  - apply Hupd.
Defined.

(** ** The statistics of the Gaussian families *)

(** *** One coordinate *)

Lemma Rdot_sq_dev (row w : list R) (c : R) :
  length row = length w ->
  Rdot (map (fun x => (x - c) * (x - c)) row) w
  = Rdot (map (fun x => x * x) row) w - 2 * c * Rdot row w + c * c * Rsum w.
Proof.
  revert w. induction row as [|x row IH]; intros [|y w] H; try discriminate H.
  - unfold Rdot. simpl. ring.
  - unfold Rdot in *. cbn [map map2 Rsum fold_right] in *.
    fold (Rsum w). fold (Rsum (map2 Rmult (map (fun x => (x - c) * (x - c)) row) w)).
    fold (Rsum (map2 Rmult (map (fun x => x * x) row) w)).
    fold (Rsum (map2 Rmult row w)).
    rewrite IH by (simpl in H; lia). ring.
Qed.

Lemma coord_dev_expand (hs : list (list R * list R)) (c : R) :
  Forall (fun h => length (fst h) = length (snd h)) hs ->
  coord_dev hs c = coord_sq hs - 2 * c * coord_sum hs + c * c * coord_weight hs.
Proof.
  induction 1 as [|h hs Hh _ IH]; simpl; [ring|].
  rewrite IH, Rdot_sq_dev by assumption. ring.
Qed.

(** The correction of [stat] in one coordinate: the squared deviations
    from a reference point [r], less the total weight times the squared
    gap between [r] and the weighted mean, are the squared deviations
    from the weighted mean. *)
Lemma coord_correction (hs : list (list R * list R)) (r : R) :
  Forall (fun h => length (fst h) = length (snd h)) hs ->
  coord_weight hs <> 0 ->
  coord_dev hs r
  - coord_weight hs * ((r - coord_sum hs / coord_weight hs)
                       * (r - coord_sum hs / coord_weight hs))
  = coord_dev hs (coord_sum hs / coord_weight hs).
Proof.
  intros Hs Hw. rewrite !coord_dev_expand by assumption. field. assumption.
Qed.

(** *** All coordinates *)

Lemma tails_shaped (n : nat) (bs : list (list (list R) * list R)) :
  Forall (batch_shaped (S n)) bs -> Forall (batch_shaped n) (tails bs).
Proof.
  induction 1 as [|[o w] bs [Hl Hr] _ IH]; simpl; constructor; auto.
  destruct o as [|row o]; [discriminate Hl|].
  unfold batch_shaped. simpl in *. split; [lia|]. inversion Hr; assumption.
Qed.

Lemma heads_shaped (n : nat) (bs : list (list (list R) * list R)) :
  Forall (batch_shaped (S n)) bs ->
  Forall (fun h => length (fst h) = length (snd h)) (heads bs).
Proof.
  induction 1 as [|[o w] bs [Hl Hr] _ IH]; simpl; constructor; auto.
  destruct o as [|row o]; [discriminate Hl|].
  simpl in *. inversion Hr; assumption.
Qed.

Lemma total_weight_tails (bs : list (list (list R) * list R)) :
  total_weight (tails bs) = total_weight bs.
Proof. induction bs as [|b bs IH]; simpl; [reflexivity|]. rewrite IH. reflexivity. Qed.

Lemma total_weight_heads (bs : list (list (list R) * list R)) :
  coord_weight (heads bs) = total_weight bs.
Proof. induction bs as [|b bs IH]; simpl; [reflexivity|]. rewrite IH. reflexivity. Qed.

Lemma weighted_sum_cons (n : nat) (bs : list (list (list R) * list R)) :
  Forall (batch_shaped (S n)) bs ->
  weighted_sum (S n) bs = coord_sum (heads bs) :: weighted_sum n (tails bs).
Proof.
  induction 1 as [|[o w] bs [Hl Hr] _ IH]; [reflexivity|].
  destruct o as [|row o]; [discriminate Hl|].
  unfold weighted_sum in *. cbn [fold_right fst snd]. rewrite IH. reflexivity.
Qed.

Lemma sq_dev_cons (n : nat) (bs : list (list (list R) * list R)) (c : R) (cs : list R) :
  Forall (batch_shaped (S n)) bs ->
  sq_dev (S n) bs (c :: cs) = coord_dev (heads bs) c :: sq_dev n (tails bs) cs.
Proof.
  induction 1 as [|[o w] bs [Hl Hr] _ IH]; [reflexivity|].
  destruct o as [|row o]; [discriminate Hl|].
  unfold sq_dev in *. cbn [fold_right fst snd]. rewrite IH. reflexivity.
Qed.

Lemma sq_dev_nil (bs : list (list (list R) * list R)) : sq_dev 0 bs [] = [].
Proof.
  induction bs as [|[o w] bs IH]; [reflexivity|].
  unfold sq_dev in *. cbn [fold_right fst snd]. rewrite IH.
  destruct o; reflexivity.
Qed.

Lemma weighted_sum_nil (bs : list (list (list R) * list R)) :
  Forall (batch_shaped 0) bs -> weighted_sum 0 bs = [].
Proof.
  induction 1 as [|[o w] bs [Hl Hr] _ IH]; [reflexivity|].
  destruct o; [|discriminate Hl]. reflexivity.
Qed.

(** The correction of [gaussgamma.stat], all coordinates at once. *)
Lemma sq_dev_correction (n : nat) (bs : list (list (list R) * list R)) (ms : list R) :
  Forall (batch_shaped n) bs ->
  length ms = n ->
  total_weight bs <> 0 ->
  map2 Rminus (sq_dev n bs ms)
       (map (Rmult (total_weight bs))
            (map (fun d => d * d) (map2 Rminus ms (weighted_mean n bs))))
  = sq_dev n bs (weighted_mean n bs).
Proof.
  unfold weighted_mean. revert bs ms.
  induction n as [|n IH]; intros bs ms Hs Hl Hw.
  - destruct ms; [|discriminate Hl].
    rewrite weighted_sum_nil by assumption. cbn [map].
    rewrite !sq_dev_nil. reflexivity.
  - destruct ms as [|r ms]; [discriminate Hl|].
    rewrite weighted_sum_cons by assumption. cbn [map].
    rewrite !sq_dev_cons by assumption. cbn [map2 map]. f_equal.
    + rewrite <- total_weight_heads.
      apply coord_correction; [apply (heads_shaped n); assumption|].
      rewrite total_weight_heads. assumption.
    + rewrite <- (total_weight_tails bs).
      apply IH; [apply tails_shaped; assumption | simpl in Hl; lia|].
      rewrite total_weight_tails. assumption.
Qed.

(** *** The loop of [gaussgamma.stat] on finite evidence *)

Lemma item_batch_shaped (n : nat) (weighted scaled : bool) (it : ritem) :
  item_shaped n weighted scaled it -> batch_shaped n (batch weighted scaled it).
Proof.
  destruct it as [o | o a | o a b]; unfold batch_shaped; simpl.
  - intros (_ & _ & Hl & Hr). split; [assumption|].
    rewrite repeat_length. assumption.
  - intros (_ & Hl & Hr). split; assumption.
  - intros (_ & _ & Hl & Hab & Hr). split; [assumption|].
    rewrite map2_length by (symmetry; assumption). assumption.
Qed.

Lemma sum_axis1_Fin (o : list (list R)) :
  sum_axis1 (mat_of_R o) = map Fin (map Rsum o).
Proof.
  unfold sum_axis1, mat_of_R, vec_of_R. rewrite !map_map.
  apply map_ext. intros row. apply np_sum_Fin.
Qed.

Lemma np_dot_Fin (u v : list R) : np_dot (map Fin u) (map Fin v) = Fin (Rdot u v).
Proof. unfold np_dot, Rdot. rewrite vmul_Fin, np_sum_Fin. reflexivity. Qed.

Lemma np_dot_mv_Fin (o : list (list R)) (w : list R) :
  np_dot_mv (mat_of_R o) (map Fin w) = map Fin (map (fun row => Rdot row w) o).
Proof.
  unfold np_dot_mv, mat_of_R, vec_of_R. rewrite !map_map.
  apply map_ext. intros row. apply np_dot_Fin.
Qed.

Lemma sq_resid_row_Fin (row : list R) (r : R) :
  GaussGamma.sq_resid_row (map Fin row) (Fin r)
  = map Fin (map (fun x => (x - r) * (x - r)) row).
Proof.
  unfold GaussGamma.sq_resid_row. rewrite !map_map. apply map_ext. intros x.
  cbn [xsub xadd xneg xabs xsqr xmul]. rewrite abs_sq. reflexivity.
Qed.

Lemma sq_resid_Fin (o : list (list R)) (ms : list R) :
  GaussGamma.sq_resid (mat_of_R o) (map Fin ms)
  = mat_of_R (map2 (fun row r => map (fun x => (x - r) * (x - r)) row) o ms).
Proof.
  unfold GaussGamma.sq_resid. revert ms.
  induction o as [|row o IH]; intros [|r ms]; try reflexivity.
  cbn [mat_of_R map map2]. rewrite sq_resid_row_Fin. f_equal. apply IH.
Qed.

Lemma map_map2 {A B C D : Type} (g : C -> D) (f : A -> B -> C)
    (a : list A) (b : list B) :
  map g (map2 f a b) = map2 (fun x y => g (f x y)) a b.
Proof.
  revert b. induction a as [|x a IH]; intros [|y b]; simpl; try reflexivity.
  rewrite IH. reflexivity.
Qed.

Lemma Rdot_ones (row : list R) : Rdot row (repeat 1 (length row)) = Rsum row.
Proof.
  unfold Rdot. induction row as [|x row IH]; simpl; [reflexivity|].
  fold (Rsum (map2 Rmult row (repeat 1 (length row)))). rewrite IH.
  fold (Rsum row). lra.
Qed.

Lemma Rsum_ones (n : nat) : Rsum (repeat 1 n) = INR n.
Proof.
  induction n as [|n IH]; [reflexivity|].
  cbn [repeat Rsum fold_right]. fold (Rsum (repeat 1 n)). rewrite IH, S_INR. lra.
Qed.

Lemma map_ext_Forall {A B : Type} (f g : A -> B) (l : list A) :
  Forall (fun x => f x = g x) l -> map f l = map g l.
Proof. induction 1 as [|x l Hx _ IH]; simpl; [reflexivity|]. rewrite Hx, IH. reflexivity. Qed.

Lemma ncols_of_R (o : list (list R)) : ncols (mat_of_R o) = length (hd [] o).
Proof. destruct o as [|row o]; [reflexivity|]. apply length_map. Qed.

Lemma hd_length (n k : nat) (o : list (list R)) :
  length o = n -> (0 < n)%nat -> Forall (fun r => length r = k) o ->
  length (hd [] o) = k.
Proof.
  intros Hl Hn Hr. destruct o as [|row o]; [simpl in Hl; lia|].
  inversion Hr; assumption.
Qed.

(** One turn of the loop adds to the sums what the batch contributes. *)
Lemma gaussgamma_step_Fin (weighted scaled : bool) (g : GaussGamma.t) (n : nat)
    (ms : list R) (it : ritem) (M : list R) (W : R) (S : list R) (E : R) :
  GaussGamma.dim g = Z.of_nat n -> (0 < n)%nat ->
  item_shaped n weighted scaled it ->
  let o := fst (batch weighted scaled it) in
  let w := snd (batch weighted scaled it) in
  exists E',
    gaussgamma_step weighted scaled g (map Fin ms)
      (GaussGamma.mk_param (map Fin M) (Fin W) (map Fin S) (Fin E))
      (item_of_R it)
    = Ok (GaussGamma.mk_param
            (map Fin (map2 Rplus M (map (fun row => Rdot row w) o)))
            (Fin (W + Rsum w))
            (map Fin (map2 Rplus S
                        (map2 (fun row r =>
                                 Rdot (map (fun x => (x - r) * (x - r)) row) w)
                              o ms)))
            (Fin E')).
Proof.
  intros Hdim Hn Hit o' w'. subst o' w'.
  destruct it as [o | o a | o a b]; cbn [batch fst snd item_of_R].
  - destruct Hit as (-> & -> & Hl & Hr).
    cbn [gaussgamma_step negb]. unfold GaussGamma.stat_plain.
    cbn [unpack1 bind]. unfold nrows, np_size, mat_of_R at 1.
    rewrite length_map, Hl, Hdim, Z.eqb_refl. cbn [assert bind].
    cbn [GaussGamma.mu GaussGamma.omega GaussGamma.sigma GaussGamma.eta].
    rewrite sq_resid_Fin, !sum_axis1_Fin, !vadd_Fin, ncols_of_R.
    unfold of_nat. cbn [xadd]. rewrite Rsum_ones.
    exists (E + INR (length (hd [] o))). do 2 f_equal.
    + f_equal. f_equal. apply map_ext_Forall.
      eapply Forall_impl; [|exact Hr]. intros row Hrow. cbn beta.
      rewrite <- Hrow. symmetry. apply Rdot_ones.
    + f_equal. f_equal. rewrite (map_map2 Rsum).
      clear Hl. generalize dependent (length (hd [] o)). intros k Hr.
      revert ms. induction Hr as [|row o' Hrow Hr' IH]; intros [|r ms];
        try reflexivity.
      cbn [map2]. f_equal; [|apply IH].
      rewrite <- Hrow. rewrite <- (length_map (fun x => (x - r) * (x - r)) row).
      symmetry. apply Rdot_ones.
  - destruct Hit as (Hws & Hl & Hr).
    assert (Hsize : (np_size (map Fin a) =? Z.of_nat (ncols (mat_of_R o)))%Z = true).
    { unfold np_size. rewrite length_map, ncols_of_R.
      rewrite (hd_length n (length a) o Hl Hn Hr). apply Z.eqb_refl. }
    assert (Hrows : (nrows (mat_of_R o) =? GaussGamma.dim g)%Z = true).
    { unfold nrows, np_size, mat_of_R. rewrite length_map, Hl, Hdim.
      apply Z.eqb_refl. }
    destruct weighted, scaled; try (exfalso; apply Hws; reflexivity);
      cbn [gaussgamma_step negb];
      unfold GaussGamma.stat_weighted, GaussGamma.stat_scaled;
      cbn [unpack2 bind]; rewrite Hrows, Hsize; cbn [assert bind];
      cbn [GaussGamma.mu GaussGamma.omega GaussGamma.sigma GaussGamma.eta];
      rewrite sq_resid_Fin, !np_dot_mv_Fin, !vadd_Fin, ?np_sum_Fin,
        (map_map2 (fun row => Rdot row a));
      unfold of_nat; cbn [xadd]; eexists; reflexivity.
  - destruct Hit as (-> & -> & Hl & Hab & Hr).
    assert (Hsize : (np_size (map Fin a) =? Z.of_nat (ncols (mat_of_R o)))%Z = true).
    { unfold np_size. rewrite length_map, ncols_of_R.
      rewrite (hd_length n (length a) o Hl Hn Hr). apply Z.eqb_refl. }
    assert (Hsize' : (np_size (map Fin b) =? Z.of_nat (ncols (mat_of_R o)))%Z = true).
    { unfold np_size. rewrite length_map, ncols_of_R, Hab.
      rewrite (hd_length n (length a) o Hl Hn Hr). apply Z.eqb_refl. }
    assert (Hrows : (nrows (mat_of_R o) =? GaussGamma.dim g)%Z = true).
    { unfold nrows, np_size, mat_of_R. rewrite length_map, Hl, Hdim.
      apply Z.eqb_refl. }
    cbn [gaussgamma_step negb]. unfold GaussGamma.stat_weighted_scaled.
    cbn [unpack3 bind]. rewrite Hrows, Hsize, Hsize'. cbn [assert bind].
    cbn [GaussGamma.mu GaussGamma.omega GaussGamma.sigma GaussGamma.eta].
    rewrite vmul_Fin, sq_resid_Fin, !np_dot_mv_Fin, !vadd_Fin, !np_sum_Fin,
      (map_map2 (fun row => Rdot row (map2 Rmult a b))).
    cbn [xadd]. eexists. reflexivity.
Qed.

Lemma map2_Rplus_assoc (a b c : list R) :
  map2 Rplus (map2 Rplus a b) c = map2 Rplus a (map2 Rplus b c).
Proof.
  revert b c. induction a as [|x a IH]; intros [|y b] [|z c]; simpl; try reflexivity.
  rewrite IH. f_equal. lra.
Qed.

Lemma plus_zeros_r (v : list R) : map2 Rplus v (repeat 0 (length v)) = v.
Proof.
  induction v as [|x v IH]; simpl; [reflexivity|].
  rewrite IH. f_equal. lra.
Qed.

Lemma weighted_sum_length (n : nat) (bs : list (list (list R) * list R)) :
  Forall (batch_shaped n) bs -> length (weighted_sum n bs) = n.
Proof.
  induction 1 as [|[o w] bs [Hl Hr] _ IH]; unfold weighted_sum in *;
    cbn [fold_right fst snd] in *.
  - apply repeat_length.
  - rewrite map2_length; rewrite length_map; lia.
Qed.

Lemma sq_dev_length (n : nat) (bs : list (list (list R) * list R)) (c : list R) :
  Forall (batch_shaped n) bs -> length c = n -> length (sq_dev n bs c) = n.
Proof.
  intros Hs Hc. induction Hs as [|[o w] bs [Hl Hr] _ IH]; unfold sq_dev in *;
    cbn [fold_right fst snd] in *.
  - apply repeat_length.
  - assert (Hm : length (map2 (fun row ci =>
                    Rdot (map (fun x => (x - ci) * (x - ci)) row) w) o c) = n)
      by (rewrite map2_length; lia).
    rewrite map2_length; lia.
Qed.

Lemma batches_shaped (n : nat) (weighted scaled : bool) (ev : list ritem) :
  Forall (item_shaped n weighted scaled) ev ->
  Forall (batch_shaped n) (map (batch weighted scaled) ev).
Proof.
  induction 1 as [|it ev Hit _ IH]; simpl; constructor; auto.
  apply item_batch_shaped. assumption.
Qed.

(** The loop of [gaussgamma.stat] adds up the batches. *)
Lemma gaussgamma_fold_Fin (weighted scaled : bool) (g : GaussGamma.t) (n : nat)
    (ms : list R) (ev : list ritem) :
  GaussGamma.dim g = Z.of_nat n -> (0 < n)%nat -> length ms = n ->
  Forall (item_shaped n weighted scaled) ev ->
  forall (M : list R) (W : R) (S : list R) (E : R),
    length M = n -> length S = n ->
    let bs := map (batch weighted scaled) ev in
    exists E',
      py_fold (gaussgamma_step weighted scaled g (map Fin ms))
        (GaussGamma.mk_param (map Fin M) (Fin W) (map Fin S) (Fin E))
        (map item_of_R ev)
      = Ok (GaussGamma.mk_param
              (map Fin (map2 Rplus M (weighted_sum n bs)))
              (Fin (W + total_weight bs))
              (map Fin (map2 Rplus S (sq_dev n bs ms)))
              (Fin E')).
Proof.
  intros Hdim Hn Hms Hev. induction Hev as [|it ev Hit Hev IH]; intros M W S E HM HS bs.
  - exists E. subst bs. cbn [map py_fold weighted_sum sq_dev total_weight fold_right].
    replace (map2 Rplus M (repeat 0 n)) with M
      by (rewrite <- HM; symmetry; apply plus_zeros_r).
    replace (map2 Rplus S (repeat 0 n)) with S
      by (rewrite <- HS; symmetry; apply plus_zeros_r).
    replace (W + 0) with W by lra. reflexivity.
  - subst bs. cbn [map py_fold].
    destruct (gaussgamma_step_Fin weighted scaled g n ms it M W S E Hdim Hn Hit)
      as [E1 ->].
    cbn [bind].
    pose proof (item_batch_shaped n weighted scaled it Hit) as [Hl Hr].
    destruct (IH (map2 Rplus M
                    (map (fun row => Rdot row (snd (batch weighted scaled it)))
                         (fst (batch weighted scaled it))))
                 (W + Rsum (snd (batch weighted scaled it)))
                 (map2 Rplus S
                    (map2 (fun row r =>
                             Rdot (map (fun x => (x - r) * (x - r)) row)
                                  (snd (batch weighted scaled it)))
                          (fst (batch weighted scaled it)) ms))
                 E1) as [E2 ->].
    + rewrite map2_length; rewrite ?length_map; lia.
    + assert (Hm : length (map2 (fun row r =>
                      Rdot (map (fun x => (x - r) * (x - r)) row)
                           (snd (batch weighted scaled it)))
                      (fst (batch weighted scaled it)) ms) = n)
        by (rewrite map2_length; lia).
      rewrite map2_length; lia.
    + exists E2. cbn [weighted_sum sq_dev total_weight fold_right].
      rewrite !map2_Rplus_assoc.
      replace (W + Rsum (snd (batch weighted scaled it))
               + total_weight (map (batch weighted scaled) ev))
        with (W + (Rsum (snd (batch weighted scaled it))
                   + total_weight (map (batch weighted scaled) ev))) by lra.
      reflexivity.
Qed.

Lemma gaussgamma_stat_loop (g : GaussGamma.t) (ref : list xreal)
    (st0 : GaussGamma.param) (evidence : list item) (weighted scaled : bool) :
  (if negb weighted then
     if negb scaled then py_fold (GaussGamma.stat_plain g ref) st0 evidence
     else py_fold (GaussGamma.stat_scaled g ref) st0 evidence
   else
     if scaled then py_fold (GaussGamma.stat_weighted_scaled g ref) st0 evidence
     else py_fold (GaussGamma.stat_weighted g ref) st0 evidence)
  = py_fold (gaussgamma_step weighted scaled g ref) st0 evidence.
Proof. destruct weighted, scaled; reflexivity. Qed.

(** [gaussgamma.stat] on finite evidence of positive total weight. *)
Lemma gaussgamma_stat_Fin (weighted scaled : bool) (g : GaussGamma.t) (n : nat)
    (ms : list R) (ev : list ritem) :
  GaussGamma.dim g = Z.of_nat n -> (0 < n)%nat ->
  GaussGamma.mu (GaussGamma.prm g) = map Fin ms -> length ms = n ->
  Forall (item_shaped n weighted scaled) ev ->
  let bs := map (batch weighted scaled) ev in
  0 < total_weight bs ->
  exists st,
    GaussGamma.stat g (map item_of_R ev) weighted scaled = Ok st
    /\ GaussGamma.mu st = map Fin (weighted_sum n bs)
    /\ GaussGamma.omega st = Fin (total_weight bs)
    /\ GaussGamma.sigma st = map Fin (sq_dev n bs (weighted_mean n bs)).
Proof.
  intros Hdim Hn Hmu Hms Hev bs Hw.
  pose proof (batches_shaped n weighted scaled ev Hev) as Hbs. fold bs in Hbs.
  unfold GaussGamma.stat. rewrite gaussgamma_stat_loop, Hmu, Hdim, Nat2Z.id.
  rewrite zeros_Fin.
  destruct (gaussgamma_fold_Fin weighted scaled g n ms ev Hdim Hn Hms Hev
              (repeat 0 n) 0 (repeat 0 n) 0) as [E' ->];
    [apply repeat_length | apply repeat_length |].
  fold bs. cbn [bind].
  cbn [GaussGamma.mu GaussGamma.omega GaussGamma.sigma GaussGamma.eta].
  assert (HM : map2 Rplus (repeat 0 n) (weighted_sum n bs) = weighted_sum n bs).
  { rewrite <- (weighted_sum_length n bs Hbs) at 1. apply plus_zeros. }
  assert (HS : map2 Rplus (repeat 0 n) (sq_dev n bs ms) = sq_dev n bs ms).
  { rewrite <- (sq_dev_length n bs ms Hbs Hms) at 1. apply plus_zeros. }
  rewrite HM, HS.
  replace (0 + total_weight bs) with (total_weight bs) by lra.
  cbn [xgt xlt]. rewrite Rltb_true by assumption.
  rewrite vdivs_Fin by lra. rewrite vsub_Fin, sq_abs_Fin, vscale_Fin, vsub_Fin.
  eexists. split; [reflexivity|].
  cbn [GaussGamma.mu GaussGamma.omega GaussGamma.sigma].
  repeat split. f_equal.
  rewrite <- sq_dev_correction with (ms := ms) by (try assumption; lra).
  do 2 f_equal. apply map_ext. intros x. apply abs_sq.
Qed.

(** *** The scatter matrix of [gausswish.stat] on finite evidence *)

Lemma transpose_Fin (n : nat) (m : list (list R)) :
  Forall (fun r => length r = n) m ->
  transpose n (mat_of_R m) = mat_of_R (Rtranspose n m).
Proof.
  revert m. induction n as [|n IH]; intros m Hm; [reflexivity|].
  cbn [transpose Rtranspose mat_of_R map]. f_equal.
  - unfold mat_of_R, vec_of_R. rewrite !map_map. apply map_ext_Forall.
    eapply Forall_impl; [|exact Hm]. intros [|x row] Hrow; [discriminate Hrow|].
    reflexivity.
  - replace (map (@tl xreal) (mat_of_R m)) with (mat_of_R (map (@tl R) m)).
    + apply IH. apply Forall_map. eapply Forall_impl; [|exact Hm].
      intros [|x row] Hrow; [discriminate Hrow|]. simpl in *. lia.
    + unfold mat_of_R, vec_of_R. rewrite !map_map. apply map_ext.
      intros [|x row]; reflexivity.
Qed.

Lemma Rtranspose_length (n : nat) (m : list (list R)) : length (Rtranspose n m) = n.
Proof. revert m. induction n as [|n IH]; intros m; simpl; [reflexivity|]. rewrite IH. reflexivity. Qed.

Lemma lincomb_Fin (ri : list R) (B : list (list R)) (acc : list R) :
  fold_left vadd (map2 vscale (map Fin ri) (mat_of_R B)) (map Fin acc)
  = map Fin (fold_left (map2 Rplus) (map2 (fun x row => map (Rmult x) row) ri B) acc).
Proof.
  revert B acc. induction ri as [|x ri IH]; intros [|row B] acc; try reflexivity.
  cbn [map map2 mat_of_R fold_left]. unfold vec_of_R.
  rewrite vscale_Fin, vadd_Fin. apply IH.
Qed.

Lemma wscale_Fin (w : list R) (T : list (list R)) :
  map2 vscale (map Fin w) (mat_of_R T)
  = mat_of_R (map2 (fun y col => map (Rmult y) col) w T).
Proof.
  revert T. induction w as [|y w IH]; intros [|col T]; try reflexivity.
  cbn [map map2 mat_of_R]. unfold vec_of_R at 1.
  rewrite vscale_Fin, IH. reflexivity.
Qed.

Lemma madd_Fin (A B : list (list R)) :
  madd (mat_of_R A) (mat_of_R B) = mat_of_R (map2 (map2 Rplus) A B).
Proof.
  unfold madd. revert B. induction A as [|a A IH]; intros [|b B]; try reflexivity.
  cbn [map map2 mat_of_R]. unfold vec_of_R at 1 2.
  rewrite vadd_Fin, IH. reflexivity.
Qed.

Lemma msub_Fin (A B : list (list R)) :
  msub (mat_of_R A) (mat_of_R B) = mat_of_R (map2 (map2 Rminus) A B).
Proof.
  unfold msub. revert B. induction A as [|a A IH]; intros [|b B]; try reflexivity.
  cbn [map map2 mat_of_R]. unfold vec_of_R at 1 2.
  rewrite vsub_Fin, IH. reflexivity.
Qed.

Lemma mscale_Fin (c : R) (A : list (list R)) :
  mscale (Fin c) (mat_of_R A) = mat_of_R (map (map (Rmult c)) A).
Proof.
  unfold mscale, mat_of_R, vec_of_R. rewrite !map_map. apply map_ext.
  intros row. apply vscale_Fin.
Qed.

Lemma np_outer_Fin (u v : list R) :
  np_outer (map Fin u) (map Fin v) = mat_of_R (map (fun a => map (Rmult a) v) u).
Proof.
  unfold np_outer, mat_of_R, vec_of_R. rewrite !map_map. apply map_ext.
  intros a. apply vscale_Fin.
Qed.

Lemma Rdot_cons (x y : R) (u v : list R) : Rdot (x :: u) (y :: v) = x * y + Rdot u v.
Proof. reflexivity. Qed.

Lemma Rdot_nil (v : list R) : Rdot [] v = 0.
Proof. reflexivity. Qed.

Lemma plus_zero_rows (acc : list R) (rr : list (list R)) :
  length acc = length rr -> map2 (fun a (_ : list R) => a + 0) acc rr = acc.
Proof.
  revert rr. induction acc as [|a acc IH]; intros [|r rr] H; try discriminate H;
    [reflexivity|].
  cbn [map2]. rewrite IH by (simpl in H; lia). f_equal. lra.
Qed.

Lemma column_step (x y : R) (ri w : list R) (rr : list (list R)) (k : nat) :
  Forall (fun r => length r = S k) rr ->
  forall acc : list R,
    map2 (fun a rj => a + Rdot ri (map2 Rmult w rj))
         (map2 Rplus acc (map (Rmult x) (map (Rmult y) (map (hd 0) rr))))
         (map (@tl R) rr)
    = map2 (fun a rj => a + Rdot (x :: ri) (map2 Rmult (y :: w) rj)) acc rr.
Proof.
  induction 1 as [|[|h t] rr Hrow _ IH]; intros [|a acc]; try reflexivity;
    try discriminate Hrow.
  cbn [map map2 hd tl]. rewrite IH, Rdot_cons. f_equal. lra.
Qed.

(** Row [ri] of the residuals times the weighted transpose of the
    residuals [rr]: for every row [rj] the sum of [ri * w * rj]. *)
Lemma columns_sum (size : nat) :
  forall (ri w : list R) (rr : list (list R)) (acc : list R),
    length ri = size -> length w = size ->
    Forall (fun r => length r = size) rr -> length acc = length rr ->
    fold_left (map2 Rplus)
      (map2 (fun x row => map (Rmult x) row) ri
            (map2 (fun y col => map (Rmult y) col) w (Rtranspose size rr)))
      acc
    = map2 (fun a rj => a + Rdot ri (map2 Rmult w rj)) acc rr.
Proof.
  induction size as [|k IH]; intros ri w rr acc Hri Hw Hrr Hacc.
  - destruct ri; [|discriminate Hri]. cbn [Rtranspose map2 fold_left].
    symmetry. apply plus_zero_rows. assumption.
  - destruct ri as [|x ri]; [discriminate Hri|].
    destruct w as [|y w]; [discriminate Hw|].
    cbn [Rtranspose map2 fold_left]. rewrite IH.
    + apply (column_step x y ri w rr k). assumption.
    + simpl in Hri. lia.
    + simpl in Hw. lia.
    + apply Forall_map. eapply Forall_impl; [|exact Hrr].
      intros [|h t] Hrow; [discriminate Hrow|]. simpl in *. lia.
    + rewrite map2_length; rewrite !length_map; lia.
Qed.

Lemma zero_start (D : list R -> R) (n : nat) (rr : list (list R)) :
  length rr = n ->
  map2 (fun a rj => a + D rj) (repeat 0 n) rr = map D rr.
Proof.
  intros <-. induction rr as [|r rr IH]; [reflexivity|].
  cbn [length repeat map2 map]. rewrite IH. f_equal. lra.
Qed.

Lemma deviations_shaped (k : nat) (o : list (list R)) (c : list R) :
  Forall (fun r => length r = k) o ->
  Forall (fun r => length r = k) (deviations o c).
Proof.
  intros Ho. revert c. unfold deviations.
  induction Ho as [|row o Hrow _ IH]; intros [|ci c]; cbn [map2]; constructor.
  - rewrite length_map. assumption.
  - apply IH.
Qed.

Lemma deviations_length (n : nat) (o : list (list R)) (c : list R) :
  length o = n -> length c = n -> length (deviations o c) = n.
Proof. intros Ho Hc. unfold deviations. rewrite map2_length; lia. Qed.

Lemma scatter_Fin (n : nat) (o : list (list R)) (ms w : list R) :
  (0 < n)%nat -> length o = n -> length ms = n ->
  Forall (fun r => length r = length w) o ->
  GaussWish.scatter n (mat_of_R o) (map Fin ms) (map Fin w)
  = mat_of_R (scatter_batch (o, w) ms).
Proof.
  intros Hn Ho Hms Hrows.
  pose proof (deviations_shaped (length w) o ms Hrows) as Hd.
  pose proof (deviations_length n o ms Ho Hms) as Hdl.
  unfold GaussWish.scatter, GaussWish.resid, scatter_batch. cbn [fst snd].
  rewrite resid_Fin, ncols_of_R, (hd_length n (length w) o Ho Hn Hrows).
  fold (deviations o ms).
  rewrite transpose_Fin by assumption. rewrite wscale_Fin.
  unfold matmul, lincomb. unfold mat_of_R at 2 3. rewrite !map_map.
  apply map_ext_Forall. eapply Forall_impl; [|exact Hd]. intros di Hdi. cbn beta.
  unfold vec_of_R. rewrite zeros_Fin, lincomb_Fin.
  rewrite (columns_sum (length w)); try assumption; try reflexivity.
  - rewrite zero_start by assumption. reflexivity.
  - rewrite repeat_length. symmetry. assumption.
Qed.

Lemma map_Rmult_1 (v : list R) : map (Rmult 1) v = v.
Proof. induction v as [|x v IH]; simpl; [reflexivity|]. rewrite IH. f_equal. lra. Qed.

Lemma ones_scale (T : list (list R)) :
  map2 (fun y col => map (Rmult y) col) (repeat 1 (length T)) T = T.
Proof.
  induction T as [|col T IH]; [reflexivity|].
  cbn [length repeat map2]. rewrite IH, map_Rmult_1. reflexivity.
Qed.

Lemma scatter_plain_ones (n : nat) (o : list (list R)) (ms : list R) :
  Forall (fun r => length r = length (hd [] o)) o ->
  GaussWish.scatter_plain n (mat_of_R o) (map Fin ms)
  = GaussWish.scatter n (mat_of_R o) (map Fin ms)
      (map Fin (repeat 1 (length (hd [] o)))).
Proof.
  intros Hrows.
  unfold GaussWish.scatter_plain, GaussWish.scatter, GaussWish.resid.
  rewrite resid_Fin, ncols_of_R. fold (deviations o ms).
  rewrite transpose_Fin by (apply deviations_shaped; assumption).
  rewrite wscale_Fin.
  replace (repeat 1 (length (hd [] o)))
    with (repeat 1 (length (Rtranspose (length (hd [] o)) (deviations o ms))))
    by (rewrite Rtranspose_length; reflexivity).
  rewrite ones_scale. reflexivity.
Qed.

(** One turn of the loop of [gausswish.stat] adds to the sums what the
    batch contributes. *)
Lemma gausswish_step_Fin (weighted scaled : bool) (g : GaussWish.t) (n : nat)
    (ms : list R) (it : ritem) (M : list R) (W : R) (S : list (list R)) (E : R) :
  GaussWish.dim g = Z.of_nat n -> (0 < n)%nat -> length ms = n ->
  item_shaped n weighted scaled it ->
  let o := fst (batch weighted scaled it) in
  let w := snd (batch weighted scaled it) in
  exists E',
    gausswish_step weighted scaled g (map Fin ms)
      (GaussWish.mk_param (map Fin M) (Fin W) (mat_of_R S) (Fin E))
      (item_of_R it)
    = Ok (GaussWish.mk_param
            (map Fin (map2 Rplus M (map (fun row => Rdot row w) o)))
            (Fin (W + Rsum w))
            (mat_of_R (map2 (map2 Rplus) S
                         (scatter_batch (batch weighted scaled it) ms)))
            (Fin E')).
Proof.
  intros Hdim Hn Hms Hit o' w'. subst o' w'.
  pose proof (item_batch_shaped n weighted scaled it Hit) as [Hbl Hbr].
  destruct it as [o | o a | o a b]; cbn [batch fst snd item_of_R] in *.
  - destruct Hit as (-> & -> & Hl & Hr).
    cbn [gausswish_step negb]. unfold GaussWish.stat_plain.
    cbn [unpack1 bind]. unfold nrows, np_size, mat_of_R at 1.
    rewrite length_map, Hl, Hdim, Z.eqb_refl. cbn [assert bind].
    cbn [GaussWish.mu GaussWish.omega GaussWish.sigma GaussWish.eta].
    rewrite Nat2Z.id, scatter_plain_ones by assumption.
    rewrite scatter_Fin by assumption.
    rewrite madd_Fin, !sum_axis1_Fin, !vadd_Fin, ncols_of_R.
    unfold of_nat. cbn [xadd]. rewrite Rsum_ones.
    exists (E + INR (length (hd [] o))). do 2 f_equal.
    f_equal. f_equal. apply map_ext_Forall.
    eapply Forall_impl; [|exact Hr]. intros row Hrow. cbn beta.
    rewrite <- Hrow. symmetry. apply Rdot_ones.
  - destruct Hit as (Hws & Hl & Hr).
    assert (Hsize : (np_size (map Fin a) =? Z.of_nat (ncols (mat_of_R o)))%Z = true).
    { unfold np_size. rewrite length_map, ncols_of_R.
      rewrite (hd_length n (length a) o Hl Hn Hr). apply Z.eqb_refl. }
    assert (Hrows : (nrows (mat_of_R o) =? GaussWish.dim g)%Z = true).
    { unfold nrows, np_size, mat_of_R. rewrite length_map, Hl, Hdim.
      apply Z.eqb_refl. }
    destruct weighted, scaled; try (exfalso; apply Hws; reflexivity);
      cbn [gausswish_step negb];
      unfold GaussWish.stat_weighted, GaussWish.stat_scaled;
      cbn [unpack2 bind]; rewrite Hrows, Hsize; cbn [assert bind];
      cbn [GaussWish.mu GaussWish.omega GaussWish.sigma GaussWish.eta];
      rewrite Hdim, Nat2Z.id, scatter_Fin by assumption;
      rewrite madd_Fin, !np_dot_mv_Fin, !vadd_Fin, ?np_sum_Fin;
      unfold of_nat; cbn [xadd]; eexists; reflexivity.
  - destruct Hit as (-> & -> & Hl & Hab & Hr).
    assert (Hsize : (np_size (map Fin a) =? Z.of_nat (ncols (mat_of_R o)))%Z = true).
    { unfold np_size. rewrite length_map, ncols_of_R.
      rewrite (hd_length n (length a) o Hl Hn Hr). apply Z.eqb_refl. }
    assert (Hsize' : (np_size (map Fin b) =? Z.of_nat (ncols (mat_of_R o)))%Z = true).
    { unfold np_size. rewrite length_map, ncols_of_R, Hab.
      rewrite (hd_length n (length a) o Hl Hn Hr). apply Z.eqb_refl. }
    assert (Hrows : (nrows (mat_of_R o) =? GaussWish.dim g)%Z = true).
    { unfold nrows, np_size, mat_of_R. rewrite length_map, Hl, Hdim.
      apply Z.eqb_refl. }
    cbn [gausswish_step negb]. unfold GaussWish.stat_weighted_scaled.
    cbn [unpack3 bind]. rewrite Hrows, Hsize, Hsize'. cbn [assert bind].
    cbn [GaussWish.mu GaussWish.omega GaussWish.sigma GaussWish.eta].
    rewrite vmul_Fin, Hdim, Nat2Z.id, scatter_Fin by assumption.
    rewrite madd_Fin, !np_dot_mv_Fin, !vadd_Fin, !np_sum_Fin.
    cbn [xadd]. eexists. reflexivity.
Qed.

Lemma map2_rows_assoc (a b c : list (list R)) :
  map2 (map2 Rplus) (map2 (map2 Rplus) a b) c
  = map2 (map2 Rplus) a (map2 (map2 Rplus) b c).
Proof.
  revert b c. induction a as [|x a IH]; intros [|y b] [|z c]; simpl; try reflexivity.
  rewrite IH, map2_Rplus_assoc. reflexivity.
Qed.

Lemma plus_zero_rows_r (n : nat) (m : list (list R)) :
  Forall (fun r => length r = n) m ->
  map2 (map2 Rplus) m (repeat (repeat 0 n) (length m)) = m.
Proof.
  induction 1 as [|row m Hrow _ IH]; [reflexivity|].
  cbn [length repeat map2]. rewrite IH. f_equal.
  rewrite <- Hrow. apply plus_zeros_r.
Qed.

Lemma plus_zero_rows_l (n : nat) (m : list (list R)) :
  Forall (fun r => length r = n) m ->
  map2 (map2 Rplus) (repeat (repeat 0 n) (length m)) m = m.
Proof.
  induction 1 as [|row m Hrow _ IH]; [reflexivity|].
  cbn [length repeat map2]. rewrite IH. f_equal.
  rewrite <- Hrow. apply plus_zeros.
Qed.

Lemma square_zeros (n : nat) : square n (repeat (repeat 0 n) n).
Proof.
  split; [apply repeat_length|]. apply Forall_forall. intros r Hr.
  apply repeat_spec in Hr. subst r. apply repeat_length.
Qed.

Lemma square_plus (n : nat) (a b : list (list R)) :
  square n a -> square n b -> square n (map2 (map2 Rplus) a b).
Proof.
  intros [Ha Har] [Hb Hbr]. split; [rewrite map2_length; lia|].
  clear Ha Hb. revert b Hbr. induction Har as [|x a Hx _ IH]; intros b Hbr;
    destruct Hbr as [|y b Hy Hbr]; cbn [map2]; constructor.
  - rewrite map2_length; lia.
  - apply IH. assumption.
Qed.

Lemma square_scatter (n : nat) (b : list (list R) * list R) (c : list R) :
  batch_shaped n b -> length c = n -> square n (scatter_batch b c).
Proof.
  intros [Hl Hr] Hc. unfold scatter_batch, square.
  pose proof (deviations_length n (fst b) c Hl Hc) as Hd.
  rewrite length_map. split; [assumption|].
  apply Forall_map. apply Forall_forall. intros di _. rewrite length_map. assumption.
Qed.

Lemma square_outer_dev (n : nat) (bs : list (list (list R) * list R)) (c : list R) :
  Forall (batch_shaped n) bs -> length c = n -> square n (outer_dev n bs c).
Proof.
  intros Hbs Hc. induction Hbs as [|b bs Hb _ IH]; cbn [outer_dev fold_right].
  - apply square_zeros.
  - apply square_plus; [apply square_scatter; assumption | exact IH].
Qed.

(** The loop of [gausswish.stat] adds up the batches. *)
Lemma gausswish_fold_Fin (weighted scaled : bool) (g : GaussWish.t) (n : nat)
    (ms : list R) (ev : list ritem) :
  GaussWish.dim g = Z.of_nat n -> (0 < n)%nat -> length ms = n ->
  Forall (item_shaped n weighted scaled) ev ->
  forall (M : list R) (W : R) (S : list (list R)) (E : R),
    length M = n -> square n S ->
    let bs := map (batch weighted scaled) ev in
    exists E',
      py_fold (gausswish_step weighted scaled g (map Fin ms))
        (GaussWish.mk_param (map Fin M) (Fin W) (mat_of_R S) (Fin E))
        (map item_of_R ev)
      = Ok (GaussWish.mk_param
              (map Fin (map2 Rplus M (weighted_sum n bs)))
              (Fin (W + total_weight bs))
              (mat_of_R (map2 (map2 Rplus) S (outer_dev n bs ms)))
              (Fin E')).
Proof.
  intros Hdim Hn Hms Hev. induction Hev as [|it ev Hit Hev IH]; intros M W S E HM HS bs.
  - exists E. subst bs. cbn [map py_fold weighted_sum outer_dev total_weight fold_right].
    replace (map2 Rplus M (repeat 0 n)) with M
      by (rewrite <- HM; symmetry; apply plus_zeros_r).
    replace (map2 (map2 Rplus) S (repeat (repeat 0 n) n)) with S
      by (destruct HS as [HSl HSr]; rewrite <- HSl at 2; symmetry;
          apply plus_zero_rows_r; assumption).
    replace (W + 0) with W by lra. reflexivity.
  - subst bs. cbn [map py_fold].
    destruct (gausswish_step_Fin weighted scaled g n ms it M W S E Hdim Hn Hms Hit)
      as [E1 ->].
    cbn [bind].
    pose proof (item_batch_shaped n weighted scaled it Hit) as Hb.
    destruct (IH (map2 Rplus M
                    (map (fun row => Rdot row (snd (batch weighted scaled it)))
                         (fst (batch weighted scaled it))))
                 (W + Rsum (snd (batch weighted scaled it)))
                 (map2 (map2 Rplus) S (scatter_batch (batch weighted scaled it) ms))
                 E1) as [E2 ->].
    + destruct Hb as [Hl Hr]. rewrite map2_length; rewrite ?length_map; lia.
    + apply square_plus; [assumption | apply square_scatter; assumption].
    + exists E2. cbn [weighted_sum outer_dev total_weight fold_right].
      rewrite map2_Rplus_assoc, map2_rows_assoc.
      replace (W + Rsum (snd (batch weighted scaled it))
               + total_weight (map (batch weighted scaled) ev))
        with (W + (Rsum (snd (batch weighted scaled it))
                   + total_weight (map (batch weighted scaled) ev))) by lra.
      reflexivity.
Qed.

Lemma gausswish_stat_loop (g : GaussWish.t) (ref : list xreal)
    (st0 : GaussWish.param) (evidence : list item) (weighted scaled : bool) :
  (if negb weighted then
     if negb scaled then py_fold (GaussWish.stat_plain g ref) st0 evidence
     else py_fold (GaussWish.stat_scaled g ref) st0 evidence
   else
     if scaled then py_fold (GaussWish.stat_weighted_scaled g ref) st0 evidence
     else py_fold (GaussWish.stat_weighted g ref) st0 evidence)
  = py_fold (gausswish_step weighted scaled g ref) st0 evidence.
Proof. destruct weighted, scaled; reflexivity. Qed.

(** *** The entries of the scatter matrix *)

Lemma map_seq_nth {A B : Type} (f : A -> B) (l : list A) (d : A) :
  map f l = map (fun i => f (nth i l d)) (seq 0 (length l)).
Proof.
  induction l as [|x l IH]; [reflexivity|].
  cbn [length seq map nth]. f_equal.
  rewrite <- seq_shift, map_map. exact IH.
Qed.

Lemma map2_seq_nth {A B C : Type} (f : A -> B -> C) (a : list A) (b : list B)
    (da : A) (db : B) (n : nat) :
  length a = n -> length b = n ->
  map2 f a b = map (fun i => f (nth i a da) (nth i b db)) (seq 0 n).
Proof.
  revert b n. induction a as [|x a IH]; intros [|y b] n Ha Hb; subst n;
    try discriminate Hb; [reflexivity|].
  cbn [length seq map map2 nth]. f_equal.
  rewrite <- seq_shift, map_map. apply IH; [reflexivity | simpl in Hb; lia].
Qed.

Lemma map2_map_same {A B C D : Type} (g : B -> C -> D) (f1 : A -> B) (f2 : A -> C)
    (l : list A) :
  map2 g (map f1 l) (map f2 l) = map (fun x => g (f1 x) (f2 x)) l.
Proof. induction l as [|x l IH]; simpl; [reflexivity|]. rewrite IH. reflexivity. Qed.

Lemma repeat_map_const {A B : Type} (x : B) (l : list A) :
  repeat x (length l) = map (fun _ => x) l.
Proof. induction l as [|y l IH]; simpl; [reflexivity|]. rewrite IH. reflexivity. Qed.

Lemma repeat_seq {B : Type} (x : B) (n : nat) :
  repeat x n = map (fun _ => x) (seq 0 n).
Proof. rewrite <- repeat_map_const, length_seq. reflexivity. Qed.

Lemma nth_map_seq (f : nat -> R) (n i : nat) :
  (i < n)%nat -> nth i (map f (seq 0 n)) 0 = f i.
Proof.
  intros Hi. rewrite (nth_indep _ 0 (f 0%nat)) by (rewrite length_map, length_seq; lia).
  rewrite map_nth, seq_nth by lia. reflexivity.
Qed.

Lemma scatter_batch_entries (n : nat) (b : list (list R) * list R) (c : list R) :
  batch_shaped n b -> length c = n ->
  scatter_batch b c
  = map (fun i =>
           map (fun j => cross (snd b) (nth i (fst b) []) (nth i c 0)
                               (nth j (fst b) []) (nth j c 0))
               (seq 0 n))
        (seq 0 n).
Proof.
  intros [Hl Hr] Hc. unfold scatter_batch, deviations, cross. cbn zeta.
  rewrite (map2_seq_nth _ (fst b) c [] 0 n Hl Hc), !map_map.
  apply map_ext. intros i. rewrite !map_map. reflexivity.
Qed.

Lemma outer_dev_entries (n : nat) (bs : list (list (list R) * list R)) (c : list R) :
  Forall (batch_shaped n) bs -> length c = n ->
  outer_dev n bs c
  = map (fun i => map (fun j => entry_dev bs c i j) (seq 0 n)) (seq 0 n).
Proof.
  intros Hbs Hc. induction Hbs as [|b bs Hb _ IH].
  - cbn [outer_dev entry_dev fold_right].
    rewrite (repeat_seq (repeat 0 n)), (repeat_seq 0). reflexivity.
  - unfold outer_dev in *. cbn [fold_right]. rewrite IH.
    rewrite (scatter_batch_entries n b c Hb Hc), map2_map_same.
    apply map_ext. intros i. rewrite map2_map_same. reflexivity.
Qed.

Lemma weighted_sum_entries (n : nat) (bs : list (list (list R) * list R)) :
  Forall (batch_shaped n) bs ->
  weighted_sum n bs = map (fun i => entry_sum bs i) (seq 0 n).
Proof.
  induction 1 as [|b bs [Hl Hr] _ IH].
  - cbn [weighted_sum entry_sum fold_right]. apply repeat_seq.
  - unfold weighted_sum in *. cbn [fold_right]. rewrite IH.
    rewrite (map_seq_nth (fun row => Rdot row (snd b)) (fst b) []), Hl.
    rewrite map2_map_same. reflexivity.
Qed.

Lemma cross_expand (w : list R) (a c : R) :
  forall ri rj : list R,
    length ri = length w -> length rj = length w ->
    cross w ri a rj c
    = Rdot ri (map2 Rmult w rj) - c * Rdot ri w - a * Rdot rj w + a * c * Rsum w.
Proof.
  induction w as [|y w IH]; intros [|x ri] [|z rj] Hi Hj;
    try discriminate Hi; try discriminate Hj.
  - unfold cross, Rdot, Rsum. simpl. ring.
  - specialize (IH ri rj ltac:(simpl in Hi; lia) ltac:(simpl in Hj; lia)).
    unfold cross, Rdot, Rsum in *. cbn [map map2 fold_right] in *.
    rewrite IH. ring.
Qed.

Lemma row_shaped (n i : nat) (b : list (list R) * list R) :
  batch_shaped n b -> (i < n)%nat -> length (nth i (fst b) []) = length (snd b).
Proof.
  intros [Hl Hr] Hi. rewrite Forall_forall in Hr. apply Hr.
  apply nth_In. lia.
Qed.

Lemma entry_dev_expand (n : nat) (bs : list (list (list R) * list R)) (c : list R)
    (i j : nat) :
  Forall (batch_shaped n) bs -> (i < n)%nat -> (j < n)%nat ->
  entry_dev bs c i j
  = entry_prod bs i j - nth j c 0 * entry_sum bs i - nth i c 0 * entry_sum bs j
    + nth i c 0 * nth j c 0 * total_weight bs.
Proof.
  intros Hbs Hi Hj. induction Hbs as [|b bs Hb _ IH].
  - simpl. ring.
  - unfold entry_dev, entry_prod, entry_sum, total_weight in *.
    cbn [fold_right] in *.
    rewrite IH, cross_expand by (eapply row_shaped; eassumption). ring.
Qed.

(** The correction of [gausswish.stat]: the scatter about a reference
    point, less the total weight times the outer product of the gap
    between the reference point and the weighted mean, is the scatter
    about the weighted mean. *)
Lemma outer_dev_correction (n : nat) (bs : list (list (list R) * list R))
    (ms : list R) :
  Forall (batch_shaped n) bs ->
  length ms = n ->
  total_weight bs <> 0 ->
  map2 (map2 Rminus) (outer_dev n bs ms)
       (map (map (Rmult (total_weight bs)))
            (map (fun a => map (Rmult a) (map2 Rminus ms (weighted_mean n bs)))
                 (map2 Rminus ms (weighted_mean n bs))))
  = outer_dev n bs (weighted_mean n bs).
Proof.
  intros Hbs Hms Hw.
  assert (Hmean : weighted_mean n bs
                  = map (fun i => entry_sum bs i / total_weight bs) (seq 0 n)).
  { unfold weighted_mean. rewrite weighted_sum_entries by assumption.
    rewrite map_map. reflexivity. }
  assert (Hml : length (weighted_mean n bs) = n)
    by (rewrite Hmean, length_map, length_seq; reflexivity).
  assert (Hd : map2 Rminus ms (weighted_mean n bs)
               = map (fun i => nth i ms 0 - entry_sum bs i / total_weight bs)
                     (seq 0 n)).
  { assert (Hmsq : ms = map (fun i => nth i ms 0) (seq 0 n)).
    { rewrite <- Hms, <- (map_seq_nth (fun x => x) ms 0). symmetry. apply map_id. }
    rewrite Hmean.
    etransitivity; [apply (f_equal (fun l => map2 Rminus l _)); exact Hmsq|].
    apply map2_map_same. }
  rewrite Hd, !outer_dev_entries by assumption.
  rewrite !map_map, map2_map_same.
  apply map_ext_in. intros i Hi. rewrite !map_map, map2_map_same.
  apply map_ext_in. intros j Hj.
  apply in_seq in Hi. apply in_seq in Hj.
  rewrite !(entry_dev_expand n) by (assumption || lia).
  rewrite Hmean, !nth_map_seq by lia. field. assumption.
Qed.

(** [gausswish.stat] on finite evidence of positive total weight. *)
Lemma gausswish_stat_Fin (weighted scaled : bool) (g : GaussWish.t) (n : nat)
    (ms : list R) (ev : list ritem) :
  GaussWish.dim g = Z.of_nat n -> (0 < n)%nat ->
  GaussWish.mu (GaussWish.prm g) = map Fin ms -> length ms = n ->
  Forall (item_shaped n weighted scaled) ev ->
  let bs := map (batch weighted scaled) ev in
  0 < total_weight bs ->
  exists st,
    GaussWish.stat g (map item_of_R ev) weighted scaled = Ok st
    /\ GaussWish.mu st = map Fin (weighted_sum n bs)
    /\ GaussWish.omega st = Fin (total_weight bs)
    /\ GaussWish.sigma st = mat_of_R (outer_dev n bs (weighted_mean n bs)).
Proof.
  intros Hdim Hn Hmu Hms Hev bs Hw.
  pose proof (batches_shaped n weighted scaled ev Hev) as Hbs. fold bs in Hbs.
  unfold GaussWish.stat. rewrite gausswish_stat_loop, Hmu, Hdim, Nat2Z.id.
  rewrite zeros_Fin.
  replace (repeat (map Fin (repeat 0 n)) n) with (mat_of_R (repeat (repeat 0 n) n))
    by (unfold mat_of_R, vec_of_R; rewrite map_repeat; reflexivity).
  destruct (gausswish_fold_Fin weighted scaled g n ms ev Hdim Hn Hms Hev
              (repeat 0 n) 0 (repeat (repeat 0 n) n) 0) as [E' ->];
    [apply repeat_length | apply square_zeros |].
  fold bs. cbn [bind].
  cbn [GaussWish.mu GaussWish.omega GaussWish.sigma GaussWish.eta].
  assert (HM : map2 Rplus (repeat 0 n) (weighted_sum n bs) = weighted_sum n bs).
  { rewrite <- (weighted_sum_length n bs Hbs) at 1. apply plus_zeros. }
  assert (HS : map2 (map2 Rplus) (repeat (repeat 0 n) n) (outer_dev n bs ms)
               = outer_dev n bs ms).
  { destruct (square_outer_dev n bs ms Hbs Hms) as [Hl Hr].
    rewrite <- Hl at 2. apply plus_zero_rows_l. assumption. }
  rewrite HM, HS.
  replace (0 + total_weight bs) with (total_weight bs) by lra.
  cbn [xgt xlt]. rewrite Rltb_true by assumption.
  rewrite vdivs_Fin by lra. rewrite vsub_Fin, np_outer_Fin, mscale_Fin, msub_Fin.
  eexists. split; [reflexivity|].
  cbn [GaussWish.mu GaussWish.omega GaussWish.sigma].
  repeat split. f_equal.
  apply outer_dev_correction; try assumption. lra.
Qed.

(** Claim C10.  In each of the four modes of [stat], for an instance of
    either Gaussian family whose [mu] holds [dim] finite numbers and for
    finite evidence of the shape of the mode with a positive total weight,
    [stat] returns a record whose [mu] is the weighted sum of the
    observations, whose [omega] is the total weight, so that
    [mu / omega] is the weighted mean, and whose [sigma] is the weighted
    sum of the squared deviations of the observations from that weighted
    mean: the squares of the coordinates for [gaussgamma], the outer
    products for [gausswish].  The values on the right name neither the
    instance nor its [mu]: the correction by the reference point cancels
    it. *)
Theorem stat_sigma_about_weighted_mean (weighted scaled : bool) (n : nat)
    (ev : list ritem) (ms : list R) (gg : GaussGamma.t) (gw : GaussWish.t) :
  (0 < n)%nat ->
  length ms = n ->
  Forall (item_shaped n weighted scaled) ev ->
  0 < total_weight (map (batch weighted scaled) ev) ->
  GaussGamma.dim gg = Z.of_nat n ->
  GaussGamma.mu (GaussGamma.prm gg) = map Fin ms ->
  GaussWish.dim gw = Z.of_nat n ->
  GaussWish.mu (GaussWish.prm gw) = map Fin ms ->
  let bs := map (batch weighted scaled) ev in
  (exists st,
      GaussGamma.stat gg (map item_of_R ev) weighted scaled = Ok st
      /\ GaussGamma.mu st = map Fin (weighted_sum n bs)
      /\ GaussGamma.omega st = Fin (total_weight bs)
      /\ vdivs (GaussGamma.mu st) (GaussGamma.omega st)
         = map Fin (weighted_mean n bs)
      /\ GaussGamma.sigma st = map Fin (sq_dev n bs (weighted_mean n bs)))
  /\ (exists st,
         GaussWish.stat gw (map item_of_R ev) weighted scaled = Ok st
         /\ GaussWish.mu st = map Fin (weighted_sum n bs)
         /\ GaussWish.omega st = Fin (total_weight bs)
         /\ vdivs (GaussWish.mu st) (GaussWish.omega st)
            = map Fin (weighted_mean n bs)
         /\ GaussWish.sigma st = mat_of_R (outer_dev n bs (weighted_mean n bs))).
Proof.
  intros Hn Hms Hev Hw Hgd Hgm Hwd Hwm bs. fold bs in Hw. split.
  - destruct (gaussgamma_stat_Fin weighted scaled gg n ms ev Hgd Hn Hgm Hms Hev Hw)
      as (st & Hst & Hmu & Hom & Hsig).
    exists st. repeat split; try assumption.
    fold bs in Hmu, Hom. rewrite Hmu, Hom. apply vdivs_Fin. lra.
  - destruct (gausswish_stat_Fin weighted scaled gw n ms ev Hwd Hn Hwm Hms Hev Hw)
      as (st & Hst & Hmu & Hom & Hsig).
    exists st. repeat split; try assumption.
    fold bs in Hmu, Hom. rewrite Hmu, Hom. apply vdivs_Fin. lra.
Qed.

Lemma stat_sigma_about_weighted_mean_witness :
  (exists st,
      GaussGamma.stat default_gaussgamma (map item_of_R two_observations) true true
      = Ok st
      /\ GaussGamma.mu st
         = map Fin (weighted_sum 2 (map (batch true true) two_observations))
      /\ GaussGamma.omega st
         = Fin (total_weight (map (batch true true) two_observations))
      /\ vdivs (GaussGamma.mu st) (GaussGamma.omega st)
         = map Fin (weighted_mean 2 (map (batch true true) two_observations))
      /\ GaussGamma.sigma st
         = map Fin (sq_dev 2 (map (batch true true) two_observations)
                      (weighted_mean 2 (map (batch true true) two_observations))))
  /\ (exists st,
         GaussWish.stat default_gausswish (map item_of_R two_observations) true true
         = Ok st
         /\ GaussWish.mu st
            = map Fin (weighted_sum 2 (map (batch true true) two_observations))
         /\ GaussWish.omega st
            = Fin (total_weight (map (batch true true) two_observations))
         /\ vdivs (GaussWish.mu st) (GaussWish.omega st)
            = map Fin (weighted_mean 2 (map (batch true true) two_observations))
         /\ GaussWish.sigma st
            = mat_of_R (outer_dev 2 (map (batch true true) two_observations)
                          (weighted_mean 2 (map (batch true true) two_observations)))).
Proof.
  apply (stat_sigma_about_weighted_mean true true 2 two_observations [0; 0]
           default_gaussgamma default_gausswish).
  - lia.
  - reflexivity.
  - constructor; [|constructor]. simpl. repeat split; repeat constructor.
  - unfold total_weight, two_observations, batch, Rsum. simpl. lra.
  - reflexivity.
  - reflexivity.
  - reflexivity.
  - reflexivity.
Defined.

(** ** Further properties of [dirich] *)

Lemma xadd_assoc (a b c : xreal) : (a + b + c)%X = (a + (b + c))%X.
Proof. destruct a, b, c; simpl; try reflexivity. f_equal. lra. Qed.

Lemma xadd_0_r (a : xreal) : (a + Fin 0)%X = a.
Proof. destruct a; simpl; try reflexivity. f_equal. lra. Qed.

Lemma vadd_assoc (a b c : list xreal) : vadd (vadd a b) c = vadd a (vadd b c).
Proof.
  unfold vadd. revert b c.
  induction a as [|x a IH]; intros [|y b] [|z c]; simpl; try reflexivity.
  rewrite IH, xadd_assoc. reflexivity.
Qed.

Lemma vadd_zeros_r (a : list xreal) : vadd a (np_zeros (length a)) = a.
Proof.
  unfold vadd, np_zeros. induction a as [|x a IH]; simpl; [reflexivity|].
  rewrite IH, xadd_0_r. reflexivity.
Qed.

Lemma vadd_length (a b : list xreal) :
  length a = length b -> length (vadd a b) = length a.
Proof. apply map2_length. Qed.

Lemma sum_axis1_length (prob : list (list xreal)) (dim : Z) :
  nrows prob = dim -> length (sum_axis1 prob) = Z.to_nat dim.
Proof.
  intros <-. unfold sum_axis1, nrows, np_size. rewrite length_map, Nat2Z.id.
  reflexivity.
Qed.

(** The loop of [dirich.stat] started from the sum of two records. *)
Lemma dirich_fold_shift (d : Dirich.t) (ev : list (list (list xreal))) :
  forall a b sb : Dirich.param,
    length (Dirich.pi a) = Z.to_nat (Dirich.dim d) ->
    length (Dirich.pi b) = Z.to_nat (Dirich.dim d) ->
    py_fold (Dirich.stat_step d) b ev = Ok sb ->
    py_fold (Dirich.stat_step d) (dirich_stat_plus a b) ev
    = Ok (dirich_stat_plus a sb)
    /\ length (Dirich.pi sb) = Z.to_nat (Dirich.dim d).
Proof.
  induction ev as [|prob ev IH]; intros a b sb Ha Hb Hfold.
  - cbn [py_fold] in *. injection Hfold as <-. split; [reflexivity | assumption].
  - cbn [py_fold] in *. unfold Dirich.stat_step in *.
    destruct (nrows prob =? Dirich.dim d)%Z eqn:Hrows;
      cbn [assert bind] in *; [|discriminate Hfold].
    apply Z.eqb_eq in Hrows.
    pose proof (sum_axis1_length prob (Dirich.dim d) Hrows) as Hc.
    specialize (IH a (Dirich.mk_param (vadd (Dirich.pi b) (sum_axis1 prob))
                        (Dirich.alpha b + np_sum (sum_axis1 prob))%X) sb Ha).
    cbn [Dirich.pi Dirich.alpha dirich_stat_plus] in *.
    rewrite vadd_assoc, xadd_assoc. apply IH; [|assumption].
    rewrite vadd_length; lia.
Qed.

Lemma py_fold_app {A S : Type} (step : S -> A -> py S) (st : S) (l1 l2 : list A) :
  py_fold step st (l1 ++ l2)
  = (st' <- py_fold step st l1 ;; py_fold step st' l2).
Proof.
  revert st. induction l1 as [|x l1 IH]; intros st; cbn [app py_fold bind];
    [reflexivity|].
  destruct (step st x) as [st'|e]; cbn [bind]; [apply IH | reflexivity].
Qed.

Lemma dirich_stat_length (d : Dirich.t) (ev : list (list (list xreal)))
    (st : Dirich.param) :
  Dirich.stat d ev = Ok st -> length (Dirich.pi st) = Z.to_nat (Dirich.dim d).
Proof.
  intros Hst. unfold Dirich.stat in Hst.
  set (z := Dirich.mk_param (np_zeros (Z.to_nat (Dirich.dim d))) (Fin 0)) in *.
  assert (Hz : length (Dirich.pi z) = Z.to_nat (Dirich.dim d))
    by apply repeat_length.
  destruct (dirich_fold_shift d ev z z st Hz Hz Hst) as [_ H]. exact H.
Qed.

(** [dirich.stat] can be computed batch by batch: the record of two lists
    of responsibility matrices put together is the entrywise sum of the
    records of the two lists. *)
Theorem dirich_stat_concat (d : Dirich.t) (e1 e2 : list (list (list xreal)))
    (s1 s2 : Dirich.param) :
  Dirich.stat d e1 = Ok s1 ->
  Dirich.stat d e2 = Ok s2 ->
  Dirich.stat d (e1 ++ e2) = Ok (dirich_stat_plus s1 s2).
Proof.
  intros H1 H2. pose proof (dirich_stat_length d e1 s1 H1) as Hl1.
  unfold Dirich.stat in *. rewrite py_fold_app, H1. cbn [bind].
  set (z := Dirich.mk_param (np_zeros (Z.to_nat (Dirich.dim d))) (Fin 0)) in *.
  assert (Hz : length (Dirich.pi z) = Z.to_nat (Dirich.dim d))
    by apply repeat_length.
  destruct (dirich_fold_shift d e2 s1 z s2 Hl1 Hz H2) as [Hshift _].
  replace (dirich_stat_plus s1 z) with s1 in Hshift; [exact Hshift|].
  destruct s1 as [p a]. unfold dirich_stat_plus, z.
  cbn [Dirich.pi Dirich.alpha] in *.
  rewrite <- Hl1, vadd_zeros_r, xadd_0_r. reflexivity.
Qed.

Lemma scenario_stat :
  Dirich.stat scenario_prior scenario_evidence
  = Ok (Dirich.mk_param [Fin 1; Fin 1; Fin 0] (Fin 2)).
Proof. cbn. change (Pos.to_nat 3) with 3%nat. cbn. struct_eq. Qed.

Lemma dirich_stat_concat_witness :
  Dirich.stat scenario_prior (scenario_evidence ++ scenario_evidence)
  = Ok (dirich_stat_plus (Dirich.mk_param [Fin 1; Fin 1; Fin 0] (Fin 2))
                         (Dirich.mk_param [Fin 1; Fin 1; Fin 0] (Fin 2))).
Proof.
  apply (dirich_stat_concat scenario_prior scenario_evidence scenario_evidence);
    exact scenario_stat.
Defined.

Lemma Rsum_map2_plus (a b : list R) :
  length a = length b -> Rsum (map2 Rplus a b) = Rsum a + Rsum b.
Proof.
  revert b. induction a as [|x a IH]; intros [|y b] H; try discriminate H.
  - simpl. lra.
  - unfold Rsum in *. cbn [map2 fold_right]. rewrite IH by (simpl in H; lia). lra.
Qed.


Lemma Rsum_div (c : R) (l : list R) : Rsum (map (fun x => x / c) l) = Rsum l / c.
Proof.
  unfold Rsum. induction l as [|x l IH]; simpl; [unfold Rdiv; lra|].
  rewrite IH. unfold Rdiv. lra.
Qed.

Lemma Rsum_nonneg (l : list R) : Forall (fun x => 0 <= x) l -> 0 <= Rsum l.
Proof. unfold Rsum. induction 1 as [|x l Hx _ IH]; simpl; lra. Qed.

Lemma counts_length (n : nat) (ev : list (list (list R))) :
  Forall (fun prob => length prob = n) ev -> length (counts n ev) = n.
Proof.
  induction 1 as [|prob ev Hp _ IH]; unfold counts in *; cbn [fold_right].
  - apply repeat_length.
  - rewrite map2_length; rewrite length_map; lia.
Qed.


(** The loop of [dirich.stat] on matrices of finite numbers. *)
Lemma dirich_fold_Fin (d : Dirich.t) (n : nat) (ev : list (list (list R))) :
  Dirich.dim d = Z.of_nat n ->
  Forall (fun prob => length prob = n) ev ->
  forall (P : list R) (A : R),
    length P = n ->
    py_fold (Dirich.stat_step d) (Dirich.mk_param (map Fin P) (Fin A))
            (map mat_of_R ev)
    = Ok (Dirich.mk_param (map Fin (map2 Rplus P (counts n ev)))
                          (Fin (A + Rsum (counts n ev)))).
Proof.
  intros Hdim Hev. induction Hev as [|prob ev Hp Hev IH]; intros P A HP.
  - cbn [map py_fold counts fold_right].
    replace (map2 Rplus P (repeat 0 n)) with P
      by (rewrite <- HP; symmetry; apply plus_zeros_r).
    unfold Rsum. rewrite <- HP. clear.
    replace (fold_right Rplus 0 (repeat 0 (length P))) with 0.
    + replace (A + 0) with A by lra. reflexivity.
    + induction P as [|x P IH]; simpl; [reflexivity|]. rewrite <- IH. lra.
  - cbn [map py_fold]. unfold Dirich.stat_step at 1.
    unfold nrows, np_size, mat_of_R at 1. rewrite length_map, Hp, Hdim, Z.eqb_refl.
    cbn [assert bind Dirich.pi Dirich.alpha].
    rewrite sum_axis1_Fin, vadd_Fin, np_sum_Fin. cbn [xadd].
    rewrite IH by (rewrite map2_length; rewrite ?length_map; lia).
    unfold counts. cbn [fold_right]. fold (counts n ev).
    rewrite map2_Rplus_assoc.
    rewrite (Rsum_map2_plus (map Rsum prob) (counts n ev))
      by (rewrite length_map, counts_length; [lia | assumption]).
    replace (A + Rsum (map Rsum prob) + Rsum (counts n ev))
      with (A + (Rsum (map Rsum prob) + Rsum (counts n ev))) by lra.
    reflexivity.
Qed.

Lemma dirich_stat_Fin (d : Dirich.t) (ev : list (list (list R))) :
  (0 < Dirich.dim d)%Z ->
  Forall (fun prob => np_size prob = Dirich.dim d) ev ->
  Dirich.stat d (map mat_of_R ev)
  = Ok (Dirich.mk_param
          (map Fin (counts (Z.to_nat (Dirich.dim d)) ev))
          (Fin (Rsum (counts (Z.to_nat (Dirich.dim d)) ev))))
    /\ length (counts (Z.to_nat (Dirich.dim d)) ev) = Z.to_nat (Dirich.dim d).
Proof.
  intros Hdim Hev. set (n := Z.to_nat (Dirich.dim d)).
  assert (Hn : Dirich.dim d = Z.of_nat n) by (unfold n; lia).
  assert (Hev' : Forall (fun prob : list (list R) => length prob = n) ev).
  { eapply Forall_impl; [|exact Hev]. intros prob Hp. unfold np_size in Hp. lia. }
  pose proof (counts_length n ev Hev') as Hcl.
  split; [|exact Hcl].
  unfold Dirich.stat. fold n. rewrite zeros_Fin.
  rewrite (dirich_fold_Fin d n ev Hn Hev') by apply repeat_length.
  replace (map2 Rplus (repeat 0 n) (counts n ev)) with (counts n ev)
    by (rewrite <- Hcl at 2; symmetry; apply plus_zeros).
  replace (0 + Rsum (counts n ev)) with (Rsum (counts n ev)) by lra.
  reflexivity.
Qed.

(** The record that [dirich.stat] returns is consistent: for matrices of
    finite numbers with [dim] rows, [stat.pi] holds the counts of the
    [dim] categories and [stat.alpha] is the sum of [stat.pi]. *)
Theorem dirich_stat_alpha_is_total (d : Dirich.t) (ev : list (list (list R))) :
  (0 < Dirich.dim d)%Z ->
  Forall (fun prob => np_size prob = Dirich.dim d) ev ->
  exists st,
    Dirich.stat d (map mat_of_R ev) = Ok st
    /\ Dirich.pi st = map Fin (counts (Z.to_nat (Dirich.dim d)) ev)
    /\ np_size (Dirich.pi st) = Dirich.dim d
    /\ Dirich.alpha st = np_sum (Dirich.pi st).
Proof.
  intros Hdim Hev. destruct (dirich_stat_Fin d ev Hdim Hev) as [Hst Hl].
  eexists. split; [exact Hst|]. cbn [Dirich.pi Dirich.alpha].
  split; [reflexivity|]. split.
  - unfold np_size. rewrite length_map, Hl. lia.
  - rewrite np_sum_Fin. reflexivity.
Qed.

Lemma dirich_stat_alpha_is_total_witness :
  exists st,
    Dirich.stat scenario_prior (map mat_of_R [[[1; 0]; [0; 1]; [0; 0]]]) = Ok st
    /\ Dirich.pi st = map Fin (counts 3 [[[1; 0]; [0; 1]; [0; 0]]])
    /\ np_size (Dirich.pi st) = 3%Z
    /\ Dirich.alpha st = np_sum (Dirich.pi st).
Proof.
  apply (dirich_stat_alpha_is_total scenario_prior [[[1; 0]; [0; 1]; [0; 0]]]).
  - reflexivity.
  - repeat constructor.
Defined.





Lemma posterior_twice (a A1 A2 : R) (rs c1 c2 : list R) :
  0 < a -> 0 <= A1 -> 0 <= A2 ->
  map (fun x => x / (a + A1 + A2))
      (map2 Rplus
         (map (Rmult (a + A1))
              (map (fun x => x / (a + A1)) (map2 Rplus (map (Rmult a) rs) c1)))
         c2)
  = map (fun x => x / (a + (A1 + A2)))
        (map2 Rplus (map (Rmult a) rs) (map2 Rplus c1 c2)).
Proof.
  intros Ha H1 H2. revert c1 c2.
  induction rs as [|r rs IH]; intros [|x c1] [|y c2]; try reflexivity.
  cbn [map map2]. rewrite IH. f_equal. field. lra.
Qed.

(** Bayesian updating composes: for a valid instance, [update] with one
    record of counts and then with another leaves the parameters that a
    single [update] with the sum of the two records leaves. *)
Theorem dirich_update_compose (d : Dirich.t) (s1 s2 : Dirich.param) :
  dirich_valid d ->
  count_record (Dirich.dim d) s1 ->
  count_record (Dirich.dim d) s2 ->
  exists r d1 d2,
    Dirich.update d s1 = Ok (r, d1)
    /\ Dirich.update d1 s2 = Ok (r, d2)
    /\ Dirich.update d (dirich_stat_plus s1 s2) = Ok (r, d2).
Proof.
  intros (Hdim & (rs & Hpi & Hlen & Hnn & Hsum) & Halpha)
         (c1 & A1 & Hp1 & Hl1 & Ha1 & HA1) (c2 & A2 & Hp2 & Hl2 & Ha2 & HA2).
  destruct d as [dim [pi alpha]]. destruct s1 as [p1 a1]. destruct s2 as [p2 a2].
  cbn [Dirich.dim Dirich.prm Dirich.pi Dirich.alpha] in *. subst pi p1 p2 a1 a2.
  unfold np_size in Hlen, Hl1, Hl2.
  assert (Hs1 : (np_size (map Fin c1) =? dim)%Z = true)
    by (unfold np_size; rewrite length_map; apply Z.eqb_eq; lia).
  assert (Hs2 : (np_size (map Fin c2) =? dim)%Z = true)
    by (unfold np_size; rewrite length_map; apply Z.eqb_eq; lia).
  assert (Hs12 : (np_size (vadd (map Fin c1) (map Fin c2)) =? dim)%Z = true).
  { unfold np_size. rewrite vadd_length; rewrite !length_map; [|lia].
    apply Z.eqb_eq. lia. }
  destruct Halpha as [-> | (a & -> & Ha)].
  - exists RetNone. do 2 eexists.
    unfold Dirich.update, dirich_stat_plus.
    cbn [Dirich.dim Dirich.prm Dirich.pi Dirich.alpha].
    rewrite Hs1, Hs12. cbn [assert bind np_isinf].
    split; [reflexivity|].
    cbn [Dirich.dim Dirich.prm Dirich.pi Dirich.alpha].
    rewrite Hs2. cbn [assert bind np_isinf]. split; reflexivity.
  - exists RetSelf.
    exists (Dirich.mk dim
              (Dirich.mk_param
                 (map Fin (map (fun x => x / (a + A1))
                               (map2 Rplus (map (Rmult a) rs) c1)))
                 (Fin (a + A1)))).
    eexists.
    unfold Dirich.update, dirich_stat_plus.
    cbn [Dirich.dim Dirich.prm Dirich.pi Dirich.alpha].
    rewrite Hs1, Hs2, Hs12. cbn [assert bind np_isinf xadd].
    rewrite !vadd_Fin, !vscale_Fin, !vadd_Fin, !vdivs_Fin by lra.
    split; [reflexivity|]. split; [reflexivity|].
    rewrite (posterior_twice a A1 A2 rs c1 c2) by assumption.
    replace (a + A1 + A2) with (a + (A1 + A2)) by lra. reflexivity.
Qed.

Lemma dirich_update_compose_witness :
  exists r d1 d2,
    Dirich.update scenario_prior (Dirich.mk_param [Fin 1; Fin 1; Fin 0] (Fin 2))
    = Ok (r, d1)
    /\ Dirich.update d1 (Dirich.mk_param [Fin 0; Fin 2; Fin 1] (Fin 3)) = Ok (r, d2)
    /\ Dirich.update scenario_prior
         (dirich_stat_plus (Dirich.mk_param [Fin 1; Fin 1; Fin 0] (Fin 2))
                           (Dirich.mk_param [Fin 0; Fin 2; Fin 1] (Fin 3)))
       = Ok (r, d2).
Proof.
  apply (dirich_update_compose scenario_prior).
  - exact scenario_prior_valid.
  - exists [1; 1; 0], 2. repeat split. lra.
  - exists [0; 2; 1], 3. repeat split. lra.
Defined.

(** ** [copy] *)


Lemma broadcast_to_same (src : list xreal) : broadcast_to (length src) src = Ok src.
Proof. unfold broadcast_to. rewrite Nat.eqb_refl. reflexivity. Qed.

Lemma slice_assign_same (dst src : list xreal) :
  length src = length dst -> slice_assign dst src = Ok src.
Proof. intros H. unfold slice_assign. rewrite <- H. apply broadcast_to_same. Qed.

Lemma slice_assign_raises (dst src : list xreal) :
  length src <> length dst -> length src <> 1%nat ->
  slice_assign dst src = Raise ValueError.
Proof.
  intros H H1. unfold slice_assign, broadcast_to.
  destruct (Nat.eqb_spec (length src) (length dst)); [contradiction|].
  destruct (Nat.eqb_spec (length src) 1); [contradiction|]. reflexivity.
Qed.

Lemma py_map_same {A : Type} (f : A -> py A) (l : list A) :
  Forall (fun x => f x = Ok x) l -> py_map f l = Ok l.
Proof.
  induction 1 as [|x l Hx _ IH]; [reflexivity|].
  cbn [py_map]. rewrite Hx, IH. reflexivity.
Qed.



Lemma slice_assign2_same (n : nat) (dst src : list (list xreal)) :
  (0 < n)%nat -> length dst = n -> length src = n ->
  Forall (fun r => length r = n) dst -> Forall (fun r => length r = n) src ->
  slice_assign2 dst src = Ok src.
Proof.
  intros Hn Hd Hs Hdr Hsr. unfold slice_assign2.
  rewrite Hd, Hs, Nat.eqb_refl. cbn [bind].
  apply py_map_same. unfold ncols.
  destruct dst as [|row dst]; [simpl in Hd; lia|]. cbn [hd].
  apply Forall_inv in Hdr. rewrite Hdr.
  eapply Forall_impl; [|exact Hsr]. intros r Hr. cbn beta.
  rewrite <- Hr. apply broadcast_to_same.
Qed.


(** [copy] between valid instances of one dimension raises nothing and
    leaves [self] with exactly the parameters of [other]. *)
Theorem copy_valid_takes_parameters :
  (forall self other : Dirich.t,
      dirich_valid self -> dirich_valid other ->
      Dirich.dim other = Dirich.dim self ->
      Dirich.copy self other = (other, None))
  /\ (forall self other : GaussGamma.t,
         gaussgamma_valid self -> gaussgamma_valid other ->
         GaussGamma.dim other = GaussGamma.dim self ->
         GaussGamma.copy self other = (other, None))
  /\ (forall self other : GaussWish.t,
         gausswish_valid self -> gausswish_valid other ->
         GaussWish.dim other = GaussWish.dim self ->
         GaussWish.copy self other = (other, None)).
Proof.
  split; [|split]; intros self other.
  - intros (_ & (rs & Hpi & Hlen & _) & _) (_ & (rs' & Hpi' & Hlen' & _) & _) Hdim.
    unfold Dirich.copy. rewrite Hdim, Z.eqb_refl. cbn [negb].
    rewrite slice_assign_same.
    + destruct other as [dim prm]. destruct prm. cbn in *. rewrite Hdim. reflexivity.
    + rewrite Hpi, Hpi', !length_map. unfold np_size in *. lia.
  - intros (_ & (ms & Hmu & Hml) & _ & (ss & Hsg & Hsl & _) & _)
           (_ & (ms' & Hmu' & Hml') & _ & (ss' & Hsg' & Hsl' & _) & _) Hdim.
    unfold GaussGamma.copy. rewrite Hdim, Z.eqb_refl. cbn [negb].
    rewrite !slice_assign_same.
    + destruct other as [dim prm]. destruct prm. cbn in *. rewrite Hdim. reflexivity.
    + rewrite Hsg, Hsg', !length_map. unfold np_size in *. lia.
    + rewrite Hmu, Hmu', !length_map. unfold np_size in *. lia.
  - intros (Hpos & (ms & Hmu & Hml) & _ & (s & Hsg & Hsl & Hsr & _) & _)
           (_ & (ms' & Hmu' & Hml') & _ & (s' & Hsg' & Hsl' & Hsr' & _) & _) Hdim.
    unfold GaussWish.copy. rewrite Hdim, Z.eqb_refl. cbn [negb].
    rewrite slice_assign_same
      by (rewrite Hmu, Hmu', !length_map; unfold np_size in *; lia).
    rewrite (slice_assign2_same (Z.to_nat (GaussWish.dim self))).
    + destruct other as [dim prm]. destruct prm. cbn in *. rewrite Hdim. reflexivity.
    + lia.
    + rewrite Hsg. unfold mat_of_R. rewrite length_map. exact Hsl.
    + rewrite Hsg'. unfold mat_of_R. rewrite length_map, Hsl', Hdim. reflexivity.
    + rewrite Hsg. unfold mat_of_R, vec_of_R. apply Forall_map.
      eapply Forall_impl; [|exact Hsr]. intros r Hr. cbn beta.
      rewrite length_map. exact Hr.
    + rewrite Hsg'. unfold mat_of_R, vec_of_R. apply Forall_map.
      eapply Forall_impl; [|exact Hsr']. intros r Hr. cbn beta.
      rewrite length_map, Hr, Hdim. reflexivity.
Qed.

Lemma copy_valid_takes_parameters_witness :
  Dirich.copy scenario_prior scenario_prior = (scenario_prior, None)
  /\ GaussGamma.copy default_gaussgamma default_gaussgamma = (default_gaussgamma, None)
  /\ GaussWish.copy default_gausswish default_gausswish = (default_gausswish, None).
Proof.
  destruct copy_valid_takes_parameters as (H1 & H2 & H3).
  split; [|split].
  - apply H1; [exact scenario_prior_valid | exact scenario_prior_valid | reflexivity].
  - apply H2; [exact default_gaussgamma_valid | exact default_gaussgamma_valid
               | reflexivity].
  - apply H3; [exact default_gausswish_valid | exact default_gausswish_valid
               | reflexivity].
Defined.

(** [copy] is not atomic in the Gaussian families: when [mu] fits and the
    [sigma] of [other] cannot be broadcast to the [sigma] of [self], the
    call raises [ValueError] after [mu] and [omega] have been overwritten;
    [sigma] and [eta] are still those of [self]. *)
Theorem copy_raises_after_partial_overwrite :
  (forall self other : GaussGamma.t,
      GaussGamma.dim other = GaussGamma.dim self ->
      length (GaussGamma.mu (GaussGamma.prm other))
      = length (GaussGamma.mu (GaussGamma.prm self)) ->
      length (GaussGamma.sigma (GaussGamma.prm other))
      <> length (GaussGamma.sigma (GaussGamma.prm self)) ->
      length (GaussGamma.sigma (GaussGamma.prm other)) <> 1%nat ->
      GaussGamma.copy self other
      = (GaussGamma.mk (GaussGamma.dim self)
           (GaussGamma.mk_param
              (GaussGamma.mu (GaussGamma.prm other))
              (GaussGamma.omega (GaussGamma.prm other))
              (GaussGamma.sigma (GaussGamma.prm self))
              (GaussGamma.eta (GaussGamma.prm self))),
         Some ValueError))
  /\ (forall self other : GaussWish.t,
         GaussWish.dim other = GaussWish.dim self ->
         length (GaussWish.mu (GaussWish.prm other))
         = length (GaussWish.mu (GaussWish.prm self)) ->
         length (GaussWish.sigma (GaussWish.prm other))
         <> length (GaussWish.sigma (GaussWish.prm self)) ->
         length (GaussWish.sigma (GaussWish.prm other)) <> 1%nat ->
         GaussWish.copy self other
         = (GaussWish.mk (GaussWish.dim self)
              (GaussWish.mk_param
                 (GaussWish.mu (GaussWish.prm other))
                 (GaussWish.omega (GaussWish.prm other))
                 (GaussWish.sigma (GaussWish.prm self))
                 (GaussWish.eta (GaussWish.prm self))),
            Some ValueError)).
Proof.
  split; intros self other Hdim Hmu Hs Hs1.
  - unfold GaussGamma.copy. rewrite Hdim, Z.eqb_refl. cbn [negb].
    rewrite slice_assign_same by assumption.
    rewrite slice_assign_raises by assumption. reflexivity.
  - unfold GaussWish.copy. rewrite Hdim, Z.eqb_refl. cbn [negb].
    rewrite slice_assign_same by assumption.
    unfold slice_assign2.
    destruct (Nat.eqb_spec (length (GaussWish.sigma (GaussWish.prm other)))
                           (length (GaussWish.sigma (GaussWish.prm self))));
      [contradiction|].
    destruct (Nat.eqb_spec (length (GaussWish.sigma (GaussWish.prm other))) 1);
      [contradiction|].
    reflexivity.
Qed.

Lemma copy_raises_after_partial_overwrite_witness :
  GaussGamma.copy default_gaussgamma
    (GaussGamma.mk 2 (GaussGamma.mk_param [Fin 3; Fin 4] (Fin 5)
                                          [Fin 1; Fin 1; Fin 1] (Fin 7)))
  = (GaussGamma.mk 2 (GaussGamma.mk_param [Fin 3; Fin 4] (Fin 5)
                                          [Fin 1; Fin 1] (Fin 1)),
     Some ValueError)
  /\ GaussWish.copy default_gausswish
       (GaussWish.mk 2 (GaussWish.mk_param [Fin 3; Fin 4] (Fin 5)
                                           [[Fin 1]; [Fin 1]; [Fin 1]] (Fin 7)))
     = (GaussWish.mk 2 (GaussWish.mk_param [Fin 3; Fin 4] (Fin 5)
                                           [[Fin 1; Fin 0]; [Fin 0; Fin 1]] (Fin 2)),
        Some ValueError).
Proof.
  destruct copy_raises_after_partial_overwrite as (H1 & H2). split.
  - apply (H1 default_gaussgamma); [reflexivity | reflexivity | | ]; simpl; lia.
  - apply (H2 default_gausswish); [reflexivity | reflexivity | | ]; simpl; lia.
Defined.

(** ** [dirich.rand] *)

Lemma set_nth_middle (pre : list xreal) (x y : xreal) (v : list xreal) :
  set_nth (length pre) y (pre ++ x :: v) = pre ++ y :: v.
Proof. induction pre as [|z pre IH]; simpl; [reflexivity|]. rewrite IH. reflexivity. Qed.

Lemma snoc_app {A : Type} (pre : list A) (x : A) (v : list A) :
  pre ++ x :: v = (pre ++ [x]) ++ v.
Proof. rewrite <- app_assoc. reflexivity. Qed.

Lemma snoc_length {A : Type} (pre : list A) (x : A) :
  length (pre ++ [x]) = S (length pre).
Proof. rewrite length_app. simpl. lia. Qed.

(** Assignment at the indices of [np.where(mask)] is assignment through
    the mask. *)
Lemma put_idx_where_from (mask : list bool) :
  forall (pre v vals : list xreal),
    length mask = length v ->
    put_idx (pre ++ v) (where_from (length pre) mask) vals
    = pre ++ merge mask v vals.
Proof.
  induction mask as [|b m IH]; intros pre v vals Hl.
  - destruct v; [|discriminate Hl]. reflexivity.
  - destruct v as [|x v]; [discriminate Hl|].
    assert (Hl' : length m = length v) by (simpl in Hl; lia).
    cbn [where_from merge]. destruct b.
    + destruct vals as [|y vals]; cbn [put_idx]; [reflexivity|].
      rewrite set_nth_middle, (snoc_app pre y v), <- (snoc_length pre y).
      rewrite IH by assumption. rewrite <- app_assoc. reflexivity.
    + rewrite (snoc_app pre x v), <- (snoc_length pre x).
      rewrite IH by assumption. rewrite <- app_assoc. reflexivity.
Qed.

Lemma put_idx_where (mask : list bool) (v vals : list xreal) :
  length mask = length v ->
  put_idx v (np_where mask) vals = merge mask v vals.
Proof. intros Hl. exact (put_idx_where_from mask [] v vals Hl). Qed.

Lemma merge_length {A : Type} (mask : list bool) :
  forall v vals : list A, length (merge mask v vals) = length v.
Proof.
  induction mask as [|b m IH]; intros [|x v] vals; try reflexivity.
  cbn [merge]. destruct b; [destruct vals|]; simpl; try rewrite IH; reflexivity.
Qed.

(** Reading back at the indices of [np.where(mask)] what was assigned
    through the mask. *)
Lemma take_idx_merge_from (mask : list bool) :
  forall (pre v vals : list xreal),
    length mask = length v ->
    length vals = length (filter (fun b => b) mask) ->
    take_idx (pre ++ merge mask v vals) (where_from (length pre) mask) = vals.
Proof.
  unfold take_idx.
  induction mask as [|b m IH]; intros pre v vals Hl Hc.
  - destruct vals; [reflexivity | discriminate Hc].
  - destruct v as [|x v]; [discriminate Hl|].
    assert (Hl' : length m = length v) by (simpl in Hl; lia).
    cbn [where_from merge filter] in *. destruct b.
    + destruct vals as [|y vals]; [discriminate Hc|].
      cbn [map]. rewrite nth_middle. f_equal.
      rewrite (snoc_app pre y (merge m v vals)), <- (snoc_length pre y).
      apply IH; [assumption | simpl in Hc; lia].
    + rewrite (snoc_app pre x (merge m v vals)), <- (snoc_length pre x).
      apply IH; assumption.
Qed.

Lemma take_idx_merge (mask : list bool) (v vals : list xreal) :
  length mask = length v ->
  length vals = length (filter (fun b => b) mask) ->
  take_idx (merge mask v vals) (np_where mask) = vals.
Proof. intros Hl Hc. exact (take_idx_merge_from mask [] v vals Hl Hc). Qed.

Lemma merge_merge {A : Type} (mask : list bool) :
  forall v vals1 vals2 : list A,
    length vals1 = length vals2 ->
    merge mask (merge mask v vals1) vals2 = merge mask v vals2.
Proof.
  induction mask as [|b m IH]; intros [|x v] vals1 vals2 Hl; try reflexivity.
  cbn [merge]. destruct b.
  - destruct vals1 as [|y1 vals1], vals2 as [|y2 vals2]; try discriminate Hl;
      cbn [merge]; [reflexivity|].
    rewrite IH by (simpl in Hl; lia). reflexivity.
  - cbn [merge]. rewrite IH by assumption. reflexivity.
Qed.

Lemma merge_map {A B : Type} (f : A -> B) (mask : list bool) :
  forall v vals : list A,
    merge mask (map f v) (map f vals) = map f (merge mask v vals).
Proof.
  induction mask as [|b m IH]; intros [|x v] vals; try reflexivity.
  cbn [map merge]. destruct b.
  - destruct vals as [|y vals]; cbn [map]; [reflexivity|]. rewrite IH. reflexivity.
  - cbn [map]. rewrite IH. reflexivity.
Qed.

Lemma positive_mask (rs : list R) :
  map (fun x => xgt x (Fin 0)) (map Fin rs) = map (fun r => Rltb 0 r) rs.
Proof. rewrite map_map. reflexivity. Qed.

Lemma positive_count (rs : list R) :
  length (filter (fun b => b) (map (fun r => Rltb 0 r) rs))
  = length (filter (fun x => xgt x (Fin 0)) (map Fin rs)).
Proof.
  induction rs as [|r rs IH]; [reflexivity|].
  cbn [map filter]. change (xgt (Fin r) (Fin 0)) with (Rltb 0 r).
  destruct (Rltb 0 r); cbn [length]; rewrite IH; reflexivity.
Qed.

Lemma filter_positive_Fin (rs : list R) :
  filter (fun x => xgt x (Fin 0)) (map Fin rs)
  = map Fin (filter (fun r => Rltb 0 r) rs).
Proof.
  induction rs as [|r rs IH]; [reflexivity|].
  cbn [map filter]. change (xgt (Fin r) (Fin 0)) with (Rltb 0 r).
  destruct (Rltb 0 r); cbn [map]; rewrite IH; reflexivity.
Qed.

(** A sample through the mask of the positive entries: the entries that
    are not positive are zero and stay, the others are the values. *)
Lemma merge_positive (rs : list R) :
  Forall (fun r => 0 <= r) rs ->
  forall qs : list R,
    Forall (fun q => 0 < q) qs ->
    length qs = length (filter (fun r => Rltb 0 r) rs) ->
    let ps := merge (map (fun r => Rltb 0 r) rs) rs qs in
    Rsum ps = Rsum qs
    /\ Forall (fun p => 0 <= p) ps
    /\ Forall2 (fun r p => (r = 0 -> p = 0) /\ (0 < r -> 0 < p)) rs ps.
Proof.
  induction 1 as [|r rs Hr _ IH]; intros qs Hqs Hl ps; subst ps.
  - cbn. destruct qs; [|discriminate Hl]. repeat split; constructor.
  - cbn [map merge filter] in *. destruct (Rltb 0 r) eqn:Hpos.
    + destruct qs as [|q qs]; [discriminate Hl|].
      inversion Hqs as [|? ? Hq Hqs']; subst.
      destruct (IH qs Hqs' ltac:(simpl in Hl; lia)) as (Hs & Hn & Hz).
      apply Rltb_spec in Hpos.
      unfold Rsum in *. cbn [fold_right]. rewrite Hs.
      split; [reflexivity|]. split; constructor; try assumption; lra.
    + destruct (IH qs Hqs Hl) as (Hs & Hn & Hz).
      assert (Hr0 : r = 0).
      { destruct (Rlt_dec 0 r) as [H|H]; [|lra].
        apply Rltb_spec in H. congruence. }
      unfold Rsum in *. cbn [fold_right]. rewrite Hs.
      split; [lra|]. split; constructor; try assumption; lra.
Qed.

Lemma Rsum_positive (l : list R) :
  Forall (fun x => 0 < x) l -> l <> [] -> 0 < Rsum l.
Proof.
  intros Hl Hne. destruct Hl as [|x l Hx Hl]; [contradiction|].
  unfold Rsum. cbn [fold_right].
  assert (0 <= fold_right Rplus 0 l).
  { apply (Rsum_nonneg l). eapply Forall_impl; [|exact Hl]. intros; lra. }
  lra.
Qed.

Lemma some_positive (rs : list R) :
  Forall (fun r => 0 <= r) rs -> 0 < Rsum rs ->
  filter (fun r => Rltb 0 r) rs <> [].
Proof.
  induction 1 as [|r rs Hr _ IH]; intros Hs.
  - unfold Rsum in Hs. simpl in Hs. lra.
  - cbn [filter]. destruct (Rltb 0 r) eqn:Hpos; [discriminate|].
    apply IH. unfold Rsum in *. cbn [fold_right] in Hs.
    destruct (Rlt_dec 0 r) as [H|H]; [apply Rltb_spec in H; congruence | lra].
Qed.

Lemma tolerance_small : / 2 ^ 52 < 1.
Proof.
  rewrite <- Rinv_1. apply Rinv_lt_contravar.
  - rewrite Rmult_1_l. apply pow_lt. lra.
  - apply Rlt_pow_R1; [lra | lia].
Qed.

Lemma shapes_not_negative (a : R) (rs : list R) :
  0 < a ->
  existsb (fun s => xlt s (Fin 0))
          (vscale (Fin a) (map Fin (filter (fun r => Rltb 0 r) rs))) = false.
Proof.
  intros Ha. rewrite vscale_Fin.
  induction rs as [|r rs IH]; [reflexivity|].
  cbn [filter]. destruct (Rltb 0 r) eqn:Hpos; [|exact IH].
  cbn [map existsb xlt]. rewrite IH. apply Rltb_spec in Hpos.
  rewrite Rltb_false by nra. reflexivity.
Qed.

(** A sample of a valid Dirichlet instance with a finite [alpha] lies on
    the simplex: for positive draws of [random.gamma], one for every
    category of positive probability, [rand] returns [dim] numbers, none
    negative, that sum to exactly 1, zero for every category of
    probability zero and positive for the others. *)
Theorem dirich_rand_on_simplex (d : Dirich.t) (rs gs : list R) :
  dirich_valid d ->
  Dirich.pi (Dirich.prm d) = map Fin rs ->
  np_isfinite (Dirich.alpha (Dirich.prm d)) = true ->
  Forall (fun g => 0 < g) gs ->
  length gs = length (filter (fun r => Rltb 0 r) rs) ->
  exists ps,
    Dirich.rand d (map Fin gs) = Ok (map Fin ps)
    /\ np_size ps = Dirich.dim d
    /\ Forall (fun p => 0 <= p) ps
    /\ Rsum ps = 1
    /\ Forall2 (fun r p => (r = 0 -> p = 0) /\ (0 < r -> 0 < p)) rs ps.
Proof.
  intros (Hdim & (rs' & Hpi' & Hlen & Hnn & Hsum) & Halpha) Hpi Hfin Hgs Hgl.
  assert (rs' = rs).
  { rewrite Hpi in Hpi'. clear - Hpi'. revert rs' Hpi'.
    induction rs as [|r rs IH]; intros [|r' rs'] H; try discriminate H;
      [reflexivity|].
    injection H as -> H. f_equal. apply IH. exact H. }
  subst rs'.
  destruct Halpha as [Ha | (a & Ha & Hapos)]; [rewrite Ha in Hfin; discriminate Hfin|].
  assert (Hne : gs <> []).
  { intros ->. apply (some_positive rs Hnn).
    - pose proof tolerance_small.
      unfold Rabs in Hsum. destruct (Rcase_abs (Rsum rs - 1)); lra.
    - destruct (filter (fun r => Rltb 0 r) rs); [reflexivity | discriminate Hgl]. }
  set (qs1 := map (fun x => x / a) gs).
  assert (Hq1 : Forall (fun q => 0 < q) qs1).
  { unfold qs1. apply Forall_map. eapply Forall_impl; [|exact Hgs].
    intros g Hg. cbn beta. unfold Rdiv. apply Rmult_lt_0_compat; [lra|].
    apply Rinv_0_lt_compat. lra. }
  assert (HS : 0 < Rsum qs1).
  { apply Rsum_positive; [assumption|]. unfold qs1. destruct gs; [contradiction|].
    discriminate. }
  set (qs := map (fun x => x / Rsum qs1) qs1).
  assert (Hq : Forall (fun q => 0 < q) qs).
  { unfold qs. apply Forall_map. eapply Forall_impl; [|exact Hq1].
    intros g Hg. cbn beta. unfold Rdiv. apply Rmult_lt_0_compat; [lra|].
    apply Rinv_0_lt_compat. lra. }
  assert (Hql : length qs = length (filter (fun r => Rltb 0 r) rs))
    by (unfold qs, qs1; rewrite !length_map; exact Hgl).
  destruct (merge_positive rs Hnn qs Hq Hql) as (Hs & Hn & Hz).
  exists (merge (map (fun r => Rltb 0 r) rs) rs qs).
  split; [|split; [|split; [|split]]]; try assumption.
  - unfold Dirich.rand. rewrite Hpi, Ha. cbn [np_isfinite].
    rewrite take_idx_where, filter_positive_Fin, shapes_not_negative by assumption.
    rewrite positive_mask, vdivs_Fin by lra. fold qs1.
    rewrite (put_idx_where _ (map Fin rs) (map Fin qs1))
      by (rewrite !length_map; reflexivity).
    rewrite take_idx_merge.
    + rewrite np_sum_Fin, vdivs_Fin by lra. fold qs.
      rewrite put_idx_where by (rewrite merge_length, !length_map; reflexivity).
      rewrite merge_merge by (unfold qs; rewrite !length_map; reflexivity).
      rewrite merge_map. reflexivity.
    + rewrite !length_map. reflexivity.
    + rewrite positive_count, filter_positive_Fin, !length_map.
      unfold qs1. rewrite length_map. exact Hgl.
  - unfold np_size. rewrite merge_length. exact Hlen.
  - rewrite Hs. unfold qs. rewrite Rsum_div. field. lra.
Qed.

Lemma dirich_rand_on_simplex_witness :
  exists ps,
    Dirich.rand scenario_prior (map Fin [2; 4; 2]) = Ok (map Fin ps)
    /\ np_size ps = 3%Z
    /\ Forall (fun p => 0 <= p) ps
    /\ Rsum ps = 1
    /\ Forall2 (fun r p => (r = 0 -> p = 0) /\ (0 < r -> 0 < p)) [1/3; 1/3; 1/3] ps.
Proof.
  apply (dirich_rand_on_simplex scenario_prior [1/3; 1/3; 1/3] [2; 4; 2]).
  - exact scenario_prior_valid.
  - reflexivity.
  - reflexivity.
  - repeat constructor; lra.
  - simpl. rewrite !Rltb_true by lra. reflexivity.
Defined.

(** ** [dirich.loglik] *)

Lemma np_index_in_range {A : Type} (v : list A) (i : Z) (d : A) :
  (- Z.of_nat (length v) <= i < Z.of_nat (length v))%Z ->
  np_index v i = Found (nth (category (length v) i) v d).
Proof.
  intros Hi. unfold np_index, category.
  set (j := if (i <? 0)%Z then (i + Z.of_nat (length v))%Z else i).
  assert (Hj : (0 <= j < Z.of_nat (length v))%Z).
  { unfold j. destruct (Z.ltb_spec i 0); lia. }
  destruct (Z.ltb_spec j 0); [lia|].
  destruct (nth_error v (Z.to_nat j)) as [x|] eqn:Hx.
  - f_equal. symmetry. apply nth_error_nth. exact Hx.
  - apply nth_error_None in Hx. lia.
Qed.

Lemma np_index_out_of_range {A : Type} (v : list A) (i : Z) :
  (i < - Z.of_nat (length v) \/ Z.of_nat (length v) <= i)%Z ->
  np_index v i = IndexError.
Proof.
  intros Hi. unfold np_index.
  destruct (Z.ltb_spec i 0).
  - destruct (Z.ltb_spec (i + Z.of_nat (length v)) 0); [reflexivity | lia].
  - destruct (Z.ltb_spec i 0); [lia|].
    destruct (nth_error v (Z.to_nat i)) as [x|] eqn:Hx; [|reflexivity].
    assert (nth_error v (Z.to_nat i) <> None) by congruence.
    apply nth_error_Some in H1. lia.
Qed.

Lemma lookup_map_error {A B : Type} (f : A -> lookup B) (l : list A) (x : A) :
  In x l -> f x = IndexError -> lookup_map f l = IndexError.
Proof.
  intros Hin Hx. induction l as [|y l IH]; [contradiction|].
  cbn [lookup_map]. destruct Hin as [-> | Hin].
  - rewrite Hx. reflexivity.
  - destruct (f y); cbn [lbind]; [|reflexivity]. rewrite IH by assumption.
    reflexivity.
Qed.

Lemma lookup_map_found {A B : Type} (f : A -> lookup B) (g : A -> B) (l : list A) :
  Forall (fun x => f x = Found (g x)) l -> lookup_map f l = Found (map g l).
Proof.
  induction 1 as [|x l Hx _ IH]; [reflexivity|].
  cbn [lookup_map map]. rewrite Hx, IH. reflexivity.
Qed.

Lemma where_from_bound (mask : list bool) (i : nat) :
  Forall (fun k => (i <= k < i + length mask)%nat) (where_from i mask).
Proof.
  revert i. induction mask as [|b m IH]; intros i; [constructor|].
  cbn [where_from length].
  assert (H : Forall (fun k => (i <= k < i + S (length m))%nat) (where_from (S i) m)).
  { eapply Forall_impl; [|apply IH]. intros k Hk. cbn beta in *. lia. }
  destruct b; [constructor; [lia | exact H] | exact H].
Qed.

(** The values assigned through the mask of the positive entries. *)
Lemma merge_category (f : R -> xreal) (ps : list R) :
  merge (map (fun p => Rltb 0 p) ps) (repeat NInf (length ps))
        (map f (filter (fun p => Rltb 0 p) ps))
  = map (fun p => if Rltb 0 p then f p else NInf) ps.
Proof.
  induction ps as [|p ps IH]; [reflexivity|].
  cbn [map length repeat merge filter]. destruct (Rltb 0 p); cbn [map].
  - rewrite IH. reflexivity.
  - rewrite IH. reflexivity.
Qed.

Lemma np_log_category (ps : list R) :
  Forall (fun p => 0 <= p) ps ->
  map np_log (map Fin ps)
  = map (fun p => if Rltb 0 p then Fin (ln p) else NInf) ps.
Proof.
  intros Hps. rewrite map_map. apply map_ext_Forall.
  eapply Forall_impl; [|exact Hps]. intros p Hp. cbn beta. unfold np_log.
  destruct (Rltb 0 p); [reflexivity|]. rewrite Rltb_false by lra. reflexivity.
Qed.

Lemma np_take_in_range (rs : list R) (l : list Z) :
  Forall (fun i => (- Z.of_nat (length rs) <= i < Z.of_nat (length rs))%Z) l ->
  np_take (map Fin rs) l
  = Found (map Fin (map (fun i => nth (category (length rs) i) rs 0) l)).
Proof.
  intros Hl. unfold np_take. rewrite map_map.
  apply lookup_map_found. eapply Forall_impl; [|exact Hl].
  intros i Hi. cbn beta.
  rewrite (np_index_in_range (map Fin rs) i (Fin 0))
    by (rewrite length_map; exact Hi).
  rewrite length_map. f_equal. apply (map_nth Fin).
Qed.

Lemma take_where_filter {A : Type} (f : R -> bool) (g : A -> R) (d : A)
    (l : list A) :
  forall (pre : list A),
    map (fun k => g (nth k (pre ++ l) d)) (where_from (length pre) (map f (map g l)))
    = filter f (map g l).
Proof.
  induction l as [|x l IH]; intros pre; [reflexivity|].
  cbn [map where_from filter].
  assert (Hrest : map (fun k => g (nth k (pre ++ x :: l) d))
                      (where_from (S (length pre)) (map f (map g l)))
                  = filter f (map g l)).
  { rewrite (snoc_app pre x l), <- (snoc_length pre x). apply IH. }
  destruct (f (g x)); [|exact Hrest].
  cbn [map]. rewrite nth_middle, Hrest. reflexivity.
Qed.

(** [dirich.loglik] on indices within range. *)
Lemma dirich_loglik_Fin (special_psi : xreal -> xreal) (d : Dirich.t)
    (rs : list R) (obs : list Z) :
  Dirich.pi (Dirich.prm d) = map Fin rs ->
  Forall (fun r => 0 <= r) rs ->
  Forall (fun i => (- Z.of_nat (length rs) <= i < Z.of_nat (length rs))%Z) obs ->
  Dirich.loglik special_psi d (Some obs)
  = Found (map (fun i => category_loglik special_psi (Dirich.alpha (Dirich.prm d))
                           (nth (category (length rs) i) rs 0))
               obs).
Proof.
  intros Hpi Hnn Hobs. unfold Dirich.loglik. rewrite Hpi.
  set (ps := map (fun i => nth (category (length rs) i) rs 0) obs).
  assert (Hpsn : Forall (fun p => 0 <= p) ps).
  { unfold ps. apply Forall_map. apply Forall_forall. intros i _.
    destruct (Nat.lt_ge_cases (category (length rs) i) (length rs)) as [Hlt|Hge].
    - rewrite Forall_forall in Hnn. apply Hnn. apply nth_In. exact Hlt.
    - rewrite nth_overflow by assumption. lra. }
  rewrite (np_take_in_range rs obs Hobs). fold ps. cbn [lbind].
  destruct (np_isfinite (Dirich.alpha (Dirich.prm d))) eqn:Hfin.
  - rewrite positive_mask.
    set (ind := np_where (map (fun r => Rltb 0 r) ps)).
    assert (Hind : Forall (fun k => (k < length obs)%nat) ind).
    { unfold ind, np_where. eapply Forall_impl; [|apply where_from_bound].
      intros k Hk. cbn beta in Hk. rewrite length_map in Hk. unfold ps in Hk.
      rewrite length_map in Hk. lia. }
    rewrite np_take_in_range.
    + cbn [lbind]. f_equal.
      rewrite (map_map (fun k => nth k obs 0%Z)
                       (fun i => nth (category (length rs) i) rs 0)).
      replace (map (fun k => nth (category (length rs) (nth k obs 0%Z)) rs 0) ind)
        with (filter (fun p => Rltb 0 p) ps).
      * unfold np_repeat, ind.
        replace (length obs) with (length ps) by (unfold ps; apply length_map).
        rewrite put_idx_where by (rewrite length_map, repeat_length; reflexivity).
        unfold vsubs, vscale. rewrite !map_map.
        rewrite (merge_category
                   (fun p => (special_psi (Dirich.alpha (Dirich.prm d) * Fin p)
                              - special_psi (Dirich.alpha (Dirich.prm d)))%X)).
        unfold ps. rewrite map_map. apply map_ext. intros i.
        unfold category_loglik. rewrite Hfin. reflexivity.
      * symmetry. unfold ind, np_where.
        exact (take_where_filter (fun p => Rltb 0 p)
                 (fun i => nth (category (length rs) i) rs 0) 0%Z obs []).
    + apply Forall_map. eapply Forall_impl; [|exact Hind].
      intros k Hk. cbn beta. rewrite Forall_forall in Hobs. apply Hobs.
      apply nth_In. exact Hk.
  - rewrite np_log_category by assumption. f_equal. unfold ps.
    rewrite map_map. apply map_ext. intros i. unfold category_loglik.
    rewrite Hfin. reflexivity.
Qed.

(** [dirich.loglik] of a valid instance gives every observed category
    its own value: [-Inf] for a category of probability zero, whether
    [alpha] is finite or not; [psi(alpha*p) - psi(alpha)] for a category
    of probability [p > 0] when [alpha] is finite and [log p] when it is
    [+Inf].  Indices from [-dim] to [dim - 1] are accepted, the negative
    ones counting from the end, and [obs=None] stands for all the
    categories in order. *)
Theorem dirich_loglik_per_category (special_psi : xreal -> xreal) (d : Dirich.t)
    (rs : list R) (obs : list Z) :
  dirich_valid d ->
  Dirich.pi (Dirich.prm d) = map Fin rs ->
  Forall (fun i => (- Dirich.dim d <= i < Dirich.dim d)%Z) obs ->
  Dirich.loglik special_psi d (Some obs)
  = Found (map (fun i => category_loglik special_psi (Dirich.alpha (Dirich.prm d))
                           (nth (category (length rs) i) rs 0))
               obs)
  /\ Dirich.loglik special_psi d None
     = Found (map (category_loglik special_psi (Dirich.alpha (Dirich.prm d))) rs).
Proof.
  intros (Hdim & (rs' & Hpi' & Hlen & Hnn & _) & _) Hpi Hobs.
  assert (rs' = rs).
  { rewrite Hpi in Hpi'. clear - Hpi'. revert rs' Hpi'.
    induction rs as [|r rs IH]; intros [|r' rs'] H; try discriminate H;
      [reflexivity|].
    injection H as -> H. f_equal. apply IH. exact H. }
  subst rs'. unfold np_size in Hlen. split.
  - apply dirich_loglik_Fin; try assumption. rewrite Hlen. exact Hobs.
  - change (Dirich.loglik special_psi d None)
      with (Dirich.loglik special_psi d
              (Some (map Z.of_nat (seq 0 (Z.to_nat (Dirich.dim d)))))).
    rewrite (dirich_loglik_Fin special_psi d rs) by
      (try assumption; apply Forall_map, Forall_forall; intros k Hk;
       apply in_seq in Hk; cbn beta; lia).
    f_equal. rewrite map_map.
    rewrite (map_seq_nth (category_loglik special_psi
                            (Dirich.alpha (Dirich.prm d))) rs 0).
    replace (Z.to_nat (Dirich.dim d)) with (length rs) by lia.
    apply map_ext. intros k. unfold category.
    destruct (Z.ltb_spec (Z.of_nat k) 0); [lia|]. rewrite Nat2Z.id. reflexivity.
Qed.

Lemma dirich_loglik_per_category_witness :
  Dirich.loglik (fun x => x)
    (Dirich.mk 3 (Dirich.mk_param [Fin (1/2); Fin (1/2); Fin 0] (Fin 2)))
    (Some [2; -1; 0]%Z)
  = Found (map (fun i => category_loglik (fun x => x) (Fin 2)
                           (nth (category 3 i) [1/2; 1/2; 0] 0))
               [2; -1; 0]%Z)
  /\ Dirich.loglik (fun x => x)
       (Dirich.mk 3 (Dirich.mk_param [Fin (1/2); Fin (1/2); Fin 0] (Fin 2))) None
     = Found (map (category_loglik (fun x => x) (Fin 2)) [1/2; 1/2; 0]).
Proof.
  apply (dirich_loglik_per_category (fun x => x)
           (Dirich.mk 3 (Dirich.mk_param [Fin (1/2); Fin (1/2); Fin 0] (Fin 2)))
           [1/2; 1/2; 0] [2; -1; 0]%Z).
  - split; [reflexivity|]. split.
    + exists [1/2; 1/2; 0]. repeat split.
      * repeat constructor; lra.
      * change (Rabs (1/2 + (1/2 + (0 + 0)) - 1) < / 2 ^ 52).
        replace (1/2 + (1/2 + (0 + 0)) - 1) with 0 by lra.
        rewrite Rabs_R0. apply Rinv_0_lt_compat. apply pow_lt. lra.
    + right. exists 2. split; [reflexivity | lra].
  - reflexivity.
  - repeat constructor; simpl; lia.
Defined.

(** An index outside [-len(pi) .. len(pi)-1] makes [dirich.loglik] raise
    [IndexError], whatever [alpha] is. *)
Theorem dirich_loglik_index_error (special_psi : xreal -> xreal) (d : Dirich.t)
    (obs : list Z) (i : Z) :
  In i obs ->
  (i < - np_size (Dirich.pi (Dirich.prm d))
   \/ np_size (Dirich.pi (Dirich.prm d)) <= i)%Z ->
  Dirich.loglik special_psi d (Some obs) = IndexError.
Proof.
  intros Hin Hi. unfold Dirich.loglik.
  assert (H : np_take (Dirich.pi (Dirich.prm d)) obs = IndexError).
  { unfold np_take. apply (lookup_map_error _ obs i Hin).
    apply np_index_out_of_range. exact Hi. }
  rewrite H. destruct (np_isfinite _); reflexivity.
Qed.

Lemma dirich_loglik_index_error_witness :
  Dirich.loglik (fun x => x) scenario_prior (Some [0; 3]%Z) = IndexError.
Proof.
  apply (dirich_loglik_index_error (fun x => x) scenario_prior [0; 3]%Z 3%Z).
  - simpl. auto.
  - right. unfold np_size. simpl. lia.
Defined.

(** ** [isconv] *)

Lemma last_two {A : Type} (pre : list A) (a b d : A) :
  nth (length (pre ++ [a; b]) - 1) (pre ++ [a; b]) d = b
  /\ nth (length (pre ++ [a; b]) - 2) (pre ++ [a; b]) d = a.
Proof.
  rewrite length_app. cbn [length]. split.
  - replace (length pre + 2 - 1)%nat with (length (pre ++ [a])) by
      (rewrite length_app; simpl; lia).
    rewrite (snoc_app pre a [b]). apply nth_middle.
  - replace (length pre + 2 - 2)%nat with (length pre) by lia.
    apply nth_middle.
Qed.

Lemma isconv_suffix (np_spacing : xreal -> xreal) (tol : xreal)
    (pre : list xreal) (a b : xreal) :
  Util.isconv np_spacing tol (pre ++ [a; b])
  = Util.xle (Util.py_max (Fin 2 * xabs (b - a))%X (np_spacing (Fin 1 - tol)%X))
             (tol * (xabs b + xabs a))%X.
Proof.
  unfold Util.isconv.
  destruct (last_two pre a b NaN) as [-> ->].
  rewrite length_app. cbn [length].
  destruct (Nat.ltb_spec (length pre + 2) 2); [lia | reflexivity].
Qed.

Lemma isconv_pair (np_spacing : xreal -> xreal) (tol a b : xreal) :
  Util.isconv np_spacing tol [a; b]
  = Util.xle (Util.py_max (Fin 2 * xabs (b - a))%X (np_spacing (Fin 1 - tol)%X))
             (tol * (xabs b + xabs a))%X.
Proof. exact (isconv_suffix np_spacing tol [] a b). Qed.

Lemma xabs_minus_sym (a b : xreal) : xabs (a - b)%X = xabs (b - a)%X.
Proof.
  destruct a, b; cbn; try reflexivity. f_equal.
  replace (r0 + - r) with (- (r + - r0)) by lra. symmetry. apply Rabs_Ropp.
Qed.

Lemma xadd_comm (a b : xreal) : (a + b)%X = (b + a)%X.
Proof. destruct a, b; cbn; try reflexivity. f_equal. lra. Qed.

(** [isconv] looks at the last two values only, and does not tell them
    apart: it is [False] for fewer than two values, earlier values do not
    matter, and swapping the last two changes nothing. *)
Theorem isconv_last_two (np_spacing : xreal -> xreal) (tol : xreal) :
  (forall val : list xreal,
      (length val < 2)%nat -> Util.isconv np_spacing tol val = false)
  /\ (forall (pre : list xreal) (a b : xreal),
         Util.isconv np_spacing tol (pre ++ [a; b])
         = Util.isconv np_spacing tol [a; b])
  /\ (forall a b : xreal,
         Util.isconv np_spacing tol [a; b] = Util.isconv np_spacing tol [b; a]).
Proof.
  split; [|split].
  - intros val Hl. unfold Util.isconv.
    destruct (Nat.ltb_spec (length val) 2); [reflexivity | lia].
  - intros pre a b. rewrite isconv_suffix, isconv_pair. reflexivity.
  - intros a b. rewrite !isconv_pair.
    rewrite (xabs_minus_sym b a), (xadd_comm (xabs b) (xabs a)). reflexivity.
Qed.

(** [isconv] on finite numbers, as a comparison of real numbers. *)
Lemma isconv_Fin (np_spacing : xreal -> xreal) (tol s : R)
    (pre : list xreal) (a b : R) :
  np_spacing (Fin 1 - Fin tol)%X = Fin s ->
  Util.isconv np_spacing (Fin tol) (pre ++ [Fin a; Fin b]) = true
  <-> 2 * Rabs (b - a) <= tol * (Rabs b + Rabs a)
      /\ s <= tol * (Rabs b + Rabs a).
Proof.
  intros Hs. rewrite isconv_suffix, Hs.
  cbn [xsub xneg xadd xabs xmul Util.py_max Util.xle xgt xlt xeq].
  replace (b + - a) with (b - a) by lra.
  unfold Util.py_max. cbn [xgt xlt].
  destruct (Rltb (2 * Rabs (b - a)) s) eqn:Hmax; unfold Util.xle; cbn [xlt xeq].
  - apply Rltb_spec in Hmax. rewrite orb_true_iff, Rltb_spec, Reqb_spec. lra.
  - assert (~ 2 * Rabs (b - a) < s).
    { intros H. apply Rltb_spec in H. congruence. }
    rewrite orb_true_iff, Rltb_spec, Reqb_spec. lra.
Qed.



(** A sequence that sits at zero is never reported as converged, and
    neither is any sequence when [tol] is not positive: with a positive
    [np.spacing(1.0 - tol)], [isconv] is [False] when the last two values
    are both zero, and when [tol <= 0]. *)
Theorem isconv_never_at_zero (np_spacing : xreal -> xreal) (tol s : R)
    (pre : list xreal) (a b : R) :
  np_spacing (Fin 1 - Fin tol)%X = Fin s ->
  0 < s ->
  tol <= 0 \/ (a = 0 /\ b = 0) ->
  Util.isconv np_spacing (Fin tol) (pre ++ [Fin a; Fin b]) = false.
Proof.
  intros Hs Hpos Hcase.
  destruct (Util.isconv np_spacing (Fin tol) (pre ++ [Fin a; Fin b])) eqn:H;
    [|reflexivity].
  apply (isconv_Fin np_spacing tol s pre a b Hs) in H. destruct H as [_ H].
  pose proof (Rabs_pos a). pose proof (Rabs_pos b).
  destruct Hcase as [Htol | [-> ->]].
  - nra.
  - rewrite Rabs_R0 in H. lra.
Qed.

Lemma isconv_never_at_zero_witness :
  Util.isconv (fun _ => Fin (/ 2 ^ 53)) (Fin (1/2)) ([Fin 1] ++ [Fin 0; Fin 0]) = false.
Proof.
  apply (isconv_never_at_zero (fun _ => Fin (/ 2 ^ 53)) (1/2) (/ 2 ^ 53) [Fin 1] 0 0).
  - reflexivity.
  - apply Rinv_0_lt_compat. apply pow_lt. lra.
  - right. split; reflexivity.
Defined.

(** ** [unique] *)

Lemma pairs_cons2 {A : Type} (h t : A) (T : list A) :
  pairs (h :: t :: T) = (h, t) :: pairs (t :: T).
Proof. reflexivity. Qed.

Lemma skipn_prefix {A : Type} (pre l : list A) : skipn (length pre) (pre ++ l) = l.
Proof. induction pre as [|z pre IH]; [reflexivity | exact IH]. Qed.

Lemma skipn_prefix_S {A : Type} (pre : list A) (x : A) (l : list A) :
  skipn (S (length pre)) (pre ++ x :: l) = l.
Proof. induction pre as [|z pre IH]; [reflexivity | exact IH]. Qed.

Lemma slice_one {A : Type} (pre : list A) (x : A) (rest : list A) :
  slice (pre ++ x :: rest) (length pre) (S (length pre)) = [x].
Proof.
  unfold slice. rewrite skipn_prefix.
  replace (S (length pre) - length pre)%nat with 1%nat by lia. reflexivity.
Qed.

Lemma slice_step {A : Type} (pre : list A) (x : A) (rest : list A) (t : nat) :
  (S (length pre) <= t)%nat ->
  slice (pre ++ x :: rest) (length pre) t
  = x :: slice (pre ++ x :: rest) (S (length pre)) t.
Proof.
  intros Ht. unfold slice. rewrite skipn_prefix, skipn_prefix_S.
  replace (t - length pre)%nat with (S (t - S (length pre))) by lia.
  reflexivity.
Qed.

Lemma runs_head {A : Type} (x : A) (rest : list A) (mask : list bool) :
  exists r rs, runs x rest mask = (x, x :: r) :: rs.
Proof.
  destruct rest as [|y rest]; [exists [], []; reflexivity|].
  destruct mask as [|b mask]; [exists [], []; reflexivity|].
  cbn [runs]. destruct b; [eexists [], _; reflexivity|].
  destruct (runs y rest mask) as [|[h r] rs]; [exists [], []; reflexivity|].
  exists r, rs. reflexivity.
Qed.

Lemma where_from_lower (mask : list bool) (i : nat) :
  Forall (fun k => (i <= k)%nat) (where_from i mask).
Proof.
  eapply Forall_impl; [|apply where_from_bound]. intros k Hk. cbn beta in Hk. lia.
Qed.

(** The slices of [order] between the places where the mask holds are
    the runs of [order]. *)
Lemma slices_runs {A : Type} (d : A) (order : list A) :
  forall (rest : list A) (mask : list bool) (pre : list A) (x : A),
    order = pre ++ x :: rest ->
    length mask = length rest ->
    map (fun ij : nat * nat => (nth (fst ij) order d, slice order (fst ij) (snd ij)))
        (pairs (length pre :: map S (where_from (length pre) mask) ++ [length order]))
    = runs x rest mask.
Proof.
  induction rest as [|y rest IH]; intros mask pre x Horder Hl.
  - destruct mask; [|discriminate Hl]. cbn [where_from map app runs].
    rewrite pairs_cons2. cbn [pairs removelast tl combine map fst snd].
    rewrite Horder, nth_middle, length_app. cbn [length].
    replace (length pre + 1)%nat with (S (length pre)) by lia.
    rewrite slice_one. reflexivity.
  - destruct mask as [|b mask]; [discriminate Hl|].
    assert (Hl' : length mask = length rest) by (simpl in Hl; lia).
    assert (Horder' : order = (pre ++ [x]) ++ y :: rest)
      by (rewrite <- app_assoc; exact Horder).
    specialize (IH mask (pre ++ [x]) y Horder' Hl').
    rewrite snoc_length in IH.
    cbn [where_from runs]. destruct b.
    + cbn [map app]. rewrite pairs_cons2. cbn [map fst snd].
      rewrite IH. f_equal.
      rewrite Horder at 1 2. rewrite nth_middle, slice_one. reflexivity.
    + destruct (map S (where_from (S (length pre)) mask) ++ [length order])
        as [|t T] eqn:HT.
      { destruct (map S (where_from (S (length pre)) mask)); discriminate HT. }
      rewrite pairs_cons2 in IH. rewrite pairs_cons2.
      cbn [map fst snd] in *.
      assert (Ht : (S (length pre) <= t)%nat).
      { pose proof (where_from_lower mask (S (length pre))) as Hw.
        destruct (where_from (S (length pre)) mask) as [|w W].
        - cbn [map app] in HT. injection HT as <- _.
          rewrite Horder, length_app. simpl. lia.
        - cbn [map app] in HT. injection HT as <- _.
          inversion Hw; subst. lia. }
      rewrite <- IH. f_equal.
      rewrite Horder at 1. rewrite nth_middle. f_equal.
      rewrite Horder. apply slice_step. exact Ht.
Qed.

(** What the runs of a list sorted by [val] are, when the mask marks the
    rises of [val]. *)
Lemma runs_sorted {A : Type} (val : A -> R) :
  forall (rest : list A) (x : A),
    Sorted Rle (map val (x :: rest)) ->
    let rs := runs x rest (rises (map val (x :: rest))) in
    concat (map snd rs) = x :: rest
    /\ Forall (fun hr => snd hr <> [] /\ Forall (fun k => val k = val (fst hr)) (snd hr))
              rs
    /\ Sorted Rlt (map (fun hr => val (fst hr)) rs).
Proof.
  induction rest as [|y rest IH]; intros x Hs rs; subst rs.
  - cbn. repeat split; repeat constructor. discriminate.
  - cbn [map] in Hs. apply Sorted_inv in Hs. destruct Hs as [Hs Hhd].
    apply HdRel_inv in Hhd.
    specialize (IH y Hs). cbn zeta in IH. destruct IH as (Hc & Hm & Hv).
    destruct (runs_head y rest (rises (map val (y :: rest)))) as (r & rs & Hr).
    unfold rises in *. cbn [map tl map2 runs] in *.
    rewrite Hr in *. cbn [map snd fst concat] in *.
    destruct (Rltb 0 (val y + - val x)) eqn:Hrise.
    + apply Rltb_spec in Hrise. cbn [map snd fst concat app] in Hc |- *.
      split; [rewrite Hc; reflexivity|]. split.
      * constructor; [|exact Hm]. cbn [fst snd]. split; [discriminate|].
        constructor; [reflexivity | constructor].
      * constructor; [exact Hv|]. constructor. lra.
    + assert (Heq : val x = val y).
      { destruct (Rlt_dec 0 (val y + - val x)) as [H|H]; [|lra].
        apply Rltb_spec in H. congruence. }
      cbn [map snd fst concat app] in Hc |- *.
      split; [rewrite Hc; reflexivity|]. split.
      * apply Forall_inv in Hm as Hm1. apply Forall_inv_tail in Hm.
        constructor; [|exact Hm]. cbn [fst snd] in *. split; [discriminate|].
        constructor; [reflexivity|].
        destruct Hm1 as [_ Hm1]. eapply Forall_impl; [|exact Hm1].
        intros k Hk. cbn beta in Hk. lra.
      * apply Sorted_inv in Hv. destruct Hv as [Hv Hhd'].
        constructor; [exact Hv|].
        destruct Hhd' as [|b l Hb]; constructor. lra.
Qed.

Lemma index_nat_in_range {A : Type} (v : list A) (i : nat) (d : A) :
  (i < length v)%nat -> index_nat v i = Found (nth i v d).
Proof.
  intros Hi. unfold index_nat.
  destruct (nth_error v i) as [x|] eqn:Hx.
  - f_equal. symmetry. apply nth_error_nth. exact Hx.
  - apply nth_error_None in Hx. lia.
Qed.

Lemma rise_mask_Fin (a b : list R) :
  map (fun d => xgt d (Fin 0)) (map2 xsub (map Fin a) (map Fin b))
  = map2 (fun y x => Rltb 0 (y + - x)) a b.
Proof.
  revert b. induction a as [|y a IH]; intros [|x b]; try reflexivity.
  cbn [map map2]. rewrite IH. reflexivity.
Qed.

Lemma np_diff_Fin (ss : list R) :
  map (fun d => xgt d (Fin 0)) (Util.np_diff (map Fin ss)) = rises ss.
Proof.
  unfold Util.np_diff, rises.
  replace (tl (map Fin ss)) with (map Fin (tl ss)) by (destruct ss; reflexivity).
  apply rise_mask_Fin.
Qed.

Lemma rises_length (x : R) (ss : list R) : length (rises (x :: ss)) = length ss.
Proof.
  unfold rises. cbn [tl]. revert x. induction ss as [|y ss IH]; intros x;
    [reflexivity|].
  cbn [map2 length]. f_equal. apply IH.
Qed.

(** [unique] on an empty array raises [IndexError]. *)
Theorem unique_empty_raises (np_argsort : list xreal -> list nat) :
  np_argsort [] = [] ->
  Util.unique np_argsort [] = IndexError.
Proof. intros H. unfold Util.unique. rewrite H. reflexivity. Qed.

Lemma unique_empty_raises_witness :
  Util.unique (fun v => seq 0 (length v)) [] = IndexError.
Proof. apply (unique_empty_raises (fun v => seq 0 (length v))). reflexivity. Defined.

Lemma Sorted_Fin (l : list R) :
  Sorted Rlt l -> Sorted (fun a b => xlt a b = true) (map Fin l).
Proof.
  induction 1 as [|x l Hs IH Hhd]; [constructor|].
  cbn [map]. constructor; [exact IH|].
  destruct Hhd as [|y l Hy]; constructor. cbn [xlt]. apply Rltb_spec. exact Hy.
Qed.

Lemma pairs_starts (mask : list bool) (n : nat) :
  length mask = (n - 1)%nat -> (0 < n)%nat ->
  Forall (fun ij : nat * nat => (fst ij < n)%nat)
         (pairs (0%nat :: map S (where_from 0 mask) ++ [n])).
Proof.
  intros Hl Hn. apply Forall_forall. intros [i j] Hin. cbn [fst].
  unfold pairs in Hin. apply in_combine_l in Hin.
  change (0%nat :: map S (where_from 0 mask) ++ [n])
    with ((0%nat :: map S (where_from 0 mask)) ++ [n]) in Hin.
  rewrite removelast_last in Hin. destruct Hin as [<- | Hin]; [exact Hn|].
  apply in_map_iff in Hin. destruct Hin as (k & <- & Hk).
  pose proof (where_from_bound mask 0) as Hb. rewrite Forall_forall in Hb.
  specialize (Hb k Hk). cbn beta in Hb. lia.
Qed.

(** [unique] groups the indices of an array by value: for a non-empty
    array of finite numbers and an [np.argsort] that returns a
    permutation of the indices sorting the array, the generator yields
    pairs of a value and a non-empty array of indices such that the index
    arrays put together are the sorted order (so every index is in exactly
    one of them), every index of a pair holds the value of the pair, and
    the values of the pairs are strictly increasing. *)
Theorem unique_groups (np_argsort : list xreal -> list nat) (xs : list R) :
  xs <> [] ->
  Permutation (np_argsort (map Fin xs)) (seq 0 (length xs)) ->
  Sorted Rle (map (fun k => nth k xs 0) (np_argsort (map Fin xs))) ->
  exists groups,
    Util.unique np_argsort (map Fin xs) = Found groups
    /\ concat (map snd groups) = np_argsort (map Fin xs)
    /\ Forall (fun g => snd g <> []
                        /\ Forall (fun k => nth k (map Fin xs) NaN = fst g) (snd g))
              groups
    /\ Sorted (fun a b => xlt a b = true) (map fst groups).
Proof.
  intros Hne Hperm Hsorted.
  unfold Util.unique.
  remember (np_argsort (map Fin xs)) as order eqn:Eorder. clear Eorder.
  set (val := fun k => nth k xs 0) in *.
  assert (Hlen : length order = length xs).
  { rewrite (Permutation_length Hperm). apply length_seq. }
  assert (Hrange : Forall (fun k => (k < length xs)%nat) order).
  { apply Forall_forall. intros k Hk.
    apply (Permutation_in _ Hperm) in Hk. apply in_seq in Hk. lia. }
  assert (Hval : forall k, (k < length xs)%nat ->
                           nth k (map Fin xs) NaN = Fin (val k)).
  { intros k Hk. rewrite (nth_indep _ NaN (Fin 0)) by (rewrite length_map; exact Hk).
    apply (map_nth Fin). }
  assert (Hn : (0 < length xs)%nat) by (destruct xs; [contradiction | simpl; lia]).
  assert (Hcons : exists x rest, order = x :: rest).
  { destruct order as [|x rest]; [simpl in Hlen; lia|]. exists x, rest. reflexivity. }
  destruct Hcons as (x & rest & Horder).
  assert (Hlo : length order = S (length rest)) by (rewrite Horder; reflexivity).
  pose proof (runs_sorted val rest x) as Hruns.
  rewrite <- Horder in Hruns. specialize (Hruns Hsorted). cbn zeta in Hruns.
  set (mask := rises (map val order)) in *.
  set (rs := runs x rest mask) in *.
  destruct Hruns as (Hc & Hm & Hv).
  assert (Hmask : length mask = length rest).
  { unfold mask. rewrite Horder. cbn [map]. rewrite rises_length, length_map.
    reflexivity. }
  exists (map (fun hr : nat * list nat => (Fin (val (fst hr)), snd hr)) rs).
  split; [|split; [|split]].
  - assert (Htake : take_nat (map Fin xs) order = Found (map Fin (map val order))).
    { unfold take_nat. rewrite map_map. apply lookup_map_found.
      eapply Forall_impl; [|exact Hrange]. intros k Hk. cbn beta.
      rewrite (index_nat_in_range _ k NaN) by (rewrite length_map; exact Hk).
      f_equal. apply Hval. exact Hk. }
    rewrite Htake. cbn [lbind]. rewrite np_diff_Fin. fold mask.
    rewrite length_map, <- Hlen.
    change (combine
              (removelast ([0%nat] ++ map S (np_where mask) ++ [length order]))
              (tl ([0%nat] ++ map S (np_where mask) ++ [length order])))
      with (pairs (0%nat :: map S (where_from 0 mask) ++ [length order])).
    pose proof (pairs_starts mask (length order) ltac:(lia) ltac:(lia)) as Hstarts.
    pose proof (slices_runs 0%nat order rest mask [] x Horder Hmask) as Hslices.
    cbn [length] in Hslices. fold rs in Hslices. rewrite <- Hslices.
    rewrite map_map. apply lookup_map_found.
    eapply Forall_impl; [|exact Hstarts]. intros [i j] Hi. cbn [fst snd] in *.
    rewrite (index_nat_in_range order i 0%nat) by exact Hi. cbn [lbind].
    assert (Hk : (nth i order 0%nat < length xs)%nat).
    { rewrite Forall_forall in Hrange. apply Hrange. apply nth_In. exact Hi. }
    rewrite (index_nat_in_range (map Fin xs) _ NaN) by (rewrite length_map; exact Hk).
    cbn [lbind]. rewrite Hval by exact Hk. reflexivity.
  - rewrite map_map. cbn [snd]. exact Hc.
  - apply Forall_map. apply Forall_forall. intros [h r] Hin. cbn [fst snd].
    rewrite Forall_forall in Hm. destruct (Hm (h, r) Hin) as [Hr Hall].
    cbn [fst snd] in *. split; [exact Hr|].
    apply Forall_forall. intros k Hk.
    rewrite Forall_forall in Hall. rewrite <- (Hall k Hk).
    apply Hval. rewrite Forall_forall in Hrange. apply Hrange.
    rewrite <- Hc. apply in_concat. exists r. split; [|exact Hk].
    apply in_map_iff. exists (h, r). split; [reflexivity | exact Hin].
  - rewrite map_map. cbn [fst].
    rewrite <- (map_map (fun hr : nat * list nat => val (fst hr)) Fin).
    apply Sorted_Fin. exact Hv.
Qed.

Lemma unique_groups_witness :
  exists groups,
    Util.unique (fun _ => [1; 0; 2]%nat) (map Fin [2; 1; 2]) = Found groups
    /\ concat (map snd groups) = [1; 0; 2]%nat
    /\ Forall (fun g => snd g <> []
                        /\ Forall (fun k => nth k (map Fin [2; 1; 2]) NaN = fst g)
                                  (snd g))
              groups
    /\ Sorted (fun a b => xlt a b = true) (map fst groups).
Proof.
  apply (unique_groups (fun _ => [1; 0; 2]%nat) [2; 1; 2]).
  - discriminate.
  - apply perm_swap.
  - simpl. repeat constructor; lra.
Defined.

(** ** Symmetry of the scale matrix of [gausswish] *)

Lemma transpose_index {A : Type} (g : A -> nat -> xreal) (l : list A) :
  forall m a : nat,
    transpose m (map (fun i => map (g i) (seq a m)) l)
    = map (fun j => map (fun i => g i j) l) (seq a m).
Proof.
  induction m as [|m IH]; intros a; [reflexivity|].
  cbn [seq map transpose]. f_equal.
  - rewrite map_map. reflexivity.
  - rewrite map_map. cbn [map tl]. apply IH.
Qed.

Lemma square_index (n : nat) (B : list (list xreal)) :
  square_array n B ->
  B = map (fun i => map (fun j => nth j (nth i B []) NaN) (seq 0 n)) (seq 0 n).
Proof.
  intros [Hl Hr].
  rewrite <- (map_id B) at 1. rewrite (map_seq_nth (fun r => r) B []), Hl.
  apply map_ext_in. intros i Hi. apply in_seq in Hi.
  assert (Hrow : length (nth i B []) = n).
  { rewrite Forall_forall in Hr. apply Hr. apply nth_In. lia. }
  rewrite <- (map_id (nth i B [])) at 1.
  rewrite (map_seq_nth (fun x => x) (nth i B []) NaN), Hrow. reflexivity.
Qed.

(** An array plus its transpose is symmetric. *)
Lemma symmetrised_symmetric (n : nat) (B : list (list xreal)) :
  square_array n B ->
  transpose n (madd B (transpose n B)) = madd B (transpose n B).
Proof.
  intros HB.
  set (b := fun i j => nth j (nth i B []) NaN).
  assert (HB' : B = map (fun i => map (b i) (seq 0 n)) (seq 0 n))
    by exact (square_index n B HB).
  clearbody b. rewrite HB'. clear HB HB'.
  rewrite (transpose_index b (seq 0 n) n 0).
  assert (Hsum : madd (map (fun i => map (b i) (seq 0 n)) (seq 0 n))
                      (map (fun j => map (fun i => b i j) (seq 0 n)) (seq 0 n))
                 = map (fun i => map (fun j => (b i j + b j i)%X) (seq 0 n))
                       (seq 0 n)).
  { unfold madd, vadd. rewrite map2_map_same. apply map_ext. intros i.
    apply map2_map_same. }
  rewrite Hsum.
  rewrite (transpose_index (fun i j => (b i j + b j i)%X) (seq 0 n) n 0).
  apply map_ext. intros i. apply map_ext. intros j. apply xadd_comm.
Qed.

Lemma square_madd (n : nat) (A B : list (list xreal)) :
  square_array n A -> square_array n B -> square_array n (madd A B).
Proof.
  intros [Ha Har] [Hb Hbr]. unfold madd. split; [rewrite map2_length; lia|].
  clear Ha Hb. revert B Hbr. induction Har as [|x A Hx _ IH]; intros B Hbr;
    destruct Hbr as [|y B Hy Hbr]; cbn [map2]; constructor.
  - unfold vadd. rewrite map2_length; lia.
  - apply IH. assumption.
Qed.

Lemma square_map (n : nat) (f : xreal -> xreal) (A : list (list xreal)) :
  square_array n A -> square_array n (map (map f) A).
Proof.
  intros [Ha Har]. split; [rewrite length_map; exact Ha|].
  apply Forall_map. eapply Forall_impl; [|exact Har]. intros r Hr. cbn beta.
  rewrite length_map. exact Hr.
Qed.

Lemma square_outer (n : nat) (u : list xreal) :
  length u = n -> square_array n (np_outer u u).
Proof.
  intros Hu. unfold np_outer. split; [rewrite length_map; exact Hu|].
  apply Forall_map. apply Forall_forall. intros a _. unfold vscale.
  rewrite length_map. exact Hu.
Qed.

Lemma square_of_checks (dim : Z) (m : list (list xreal)) :
  (nrows m =? dim)%Z = true ->
  forallb (fun r => (np_size r =? dim)%Z) m = true ->
  square_array (Z.to_nat dim) m.
Proof.
  intros Hr Hc. apply Z.eqb_eq in Hr. unfold nrows, np_size in Hr.
  split; [lia|]. apply Forall_forall. intros r Hin.
  rewrite forallb_forall in Hc. specialize (Hc r Hin). apply Z.eqb_eq in Hc.
  unfold np_size in Hc. lia.
Qed.

(** [gausswish.update] always stores an exactly symmetric [sigma]: for an
    instance whose [mu] has [dim] entries and whose [sigma] is [dim] by
    [dim], whatever the numbers in it and in the record, an [update] that
    returns [self] leaves a [sigma] equal to its transpose. *)
Theorem gausswish_update_stores_symmetric (g g' : GaussWish.t)
    (st : GaussWish.param) :
  length (GaussWish.mu (GaussWish.prm g)) = Z.to_nat (GaussWish.dim g) ->
  square_array (Z.to_nat (GaussWish.dim g)) (GaussWish.sigma (GaussWish.prm g)) ->
  GaussWish.update g st = Ok (RetSelf, g') ->
  transpose (Z.to_nat (GaussWish.dim g)) (GaussWish.sigma (GaussWish.prm g'))
  = GaussWish.sigma (GaussWish.prm g').
Proof.
  intros Hmu Hsq Hup. unfold GaussWish.update in Hup.
  set (n := Z.to_nat (GaussWish.dim g)) in *.
  destruct ((np_size (GaussWish.mu st) =? GaussWish.dim g)%Z) eqn:Hc1;
    [|discriminate Hup].
  destruct ((nrows (GaussWish.sigma st) =? GaussWish.dim g)%Z) eqn:Hc2;
    [|discriminate Hup].
  destruct (forallb (fun r => (np_size r =? GaussWish.dim g)%Z) (GaussWish.sigma st))
    eqn:Hc3; [|discriminate Hup].
  cbn [andb assert bind] in Hup.
  pose proof (square_of_checks _ _ Hc2 Hc3) as Hst. fold n in Hst.
  assert (Hmst : length (GaussWish.mu st) = n).
  { apply Z.eqb_eq in Hc1. unfold np_size in Hc1. unfold n. lia. }
  destruct (np_isinf (GaussWish.omega (GaussWish.prm g))
            && np_isinf (GaussWish.eta (GaussWish.prm g))); [discriminate Hup|].
  set (diff := if xgt (GaussWish.omega st) (Fin 0)
               then vsub (GaussWish.mu (GaussWish.prm g))
                         (vdivs (GaussWish.mu st) (GaussWish.omega st))
               else GaussWish.mu (GaussWish.prm g)) in *.
  assert (Hdiff : length diff = n).
  { unfold diff. destruct (xgt _ _); [|exact Hmu].
    unfold vsub, vdivs. rewrite map2_length; rewrite ?length_map; lia. }
  assert (Hsym : forall (weight e1 : xreal) (m1 : list xreal) (w1 : xreal),
             let s1 := if np_isfinite (GaussWish.eta (GaussWish.prm g))
                       then mdivs (madd (madd (mscale (GaussWish.eta (GaussWish.prm g))
                                                      (GaussWish.sigma (GaussWish.prm g)))
                                              (GaussWish.sigma st))
                                        (mscale weight (np_outer diff diff)))
                                  e1
                       else GaussWish.sigma (GaussWish.prm g) in
             square_array n (mdivs s1 (Fin 2))).
  { intros weight e1 m1 w1 s1. unfold mdivs, vdivs. apply square_map.
    unfold s1. clear s1 Hup.
    destruct (np_isfinite (GaussWish.eta (GaussWish.prm g))); [|exact Hsq].
    apply square_map. apply square_madd; [apply square_madd|].
    - unfold mscale, vscale. apply square_map. exact Hsq.
    - exact Hst.
    - unfold mscale, vscale. apply square_map. apply square_outer. exact Hdiff. }
  destruct (np_isfinite (GaussWish.omega (GaussWish.prm g))).
  - destruct (py_truediv _ _) as [weight|e]; cbn [bind] in Hup; [|discriminate Hup].
    destruct (np_isfinite (GaussWish.eta (GaussWish.prm g))) eqn:He;
      cbn [bind] in Hup; injection Hup as <-; cbn [GaussWish.prm GaussWish.sigma].
    + specialize (Hsym weight (GaussWish.eta (GaussWish.prm g) + GaussWish.eta st)%X
                       [] (Fin 0)).
      cbn zeta in Hsym. apply symmetrised_symmetric. exact Hsym.
    + specialize (Hsym weight (Fin 0) [] (Fin 0)).
      cbn zeta in Hsym. apply symmetrised_symmetric. exact Hsym.
  - cbn [bind] in Hup.
    destruct (np_isfinite (GaussWish.eta (GaussWish.prm g))) eqn:He;
      cbn [bind] in Hup; injection Hup as <-; cbn [GaussWish.prm GaussWish.sigma].
    + specialize (Hsym (GaussWish.omega st)
                       (GaussWish.eta (GaussWish.prm g) + GaussWish.eta st)%X
                       [] (Fin 0)).
      cbn zeta in Hsym. apply symmetrised_symmetric. exact Hsym.
    + specialize (Hsym (GaussWish.omega st) (Fin 0) [] (Fin 0)).
      cbn zeta in Hsym. apply symmetrised_symmetric. exact Hsym.
Qed.

Lemma gausswish_update_stores_symmetric_witness :
  exists g',
    GaussWish.update default_gausswish lopsided_record = Ok (RetSelf, g')
    /\ transpose 2 (GaussWish.sigma (GaussWish.prm g'))
       = GaussWish.sigma (GaussWish.prm g').
Proof.
  assert (H : { g' | GaussWish.update default_gausswish lopsided_record
                     = Ok (RetSelf, g') }).
  { unfold GaussWish.update, default_gausswish, lopsided_record, py_truediv.
    cbn [GaussWish.dim GaussWish.prm GaussWish.mu GaussWish.omega GaussWish.sigma
         GaussWish.eta np_size nrows length Z.of_nat forallb andb Z.eqb Pos.eqb
         Pos.of_succ_nat Pos.succ assert bind np_isinf np_isfinite xgt xlt xeq
         xadd xmul].
    rdec. cbn [bind]. eexists. reflexivity. }
  destruct H as [g' H]. exists g'. split; [exact H|].
  apply (gausswish_update_stores_symmetric default_gausswish g' lopsided_record).
  - reflexivity.
  - split; [reflexivity|]. repeat constructor.
  - exact H.
Defined.

(** ** Further properties of [stat] and [update] of the Gaussian families *)



Lemma Forall_nonneg_map2_plus (a b : list R) :
  Forall (fun x => 0 <= x) a -> Forall (fun x => 0 <= x) b ->
  Forall (fun x => 0 <= x) (map2 Rplus a b).
Proof.
  intros Ha. revert b. induction Ha as [|x a Hx _ IH]; intros b Hb; [constructor|].
  destruct Hb as [|y b Hy Hb]; cbn [map2]; constructor;
    [cbn beta in *; lra | apply IH; assumption].
Qed.





Lemma Rdot_weighted_sym (w : list R) :
  forall u v : list R, Rdot u (map2 Rmult w v) = Rdot v (map2 Rmult w u).
Proof.
  unfold Rdot, Rsum.
  induction w as [|y w IH]; intros u v.
  - destruct u, v; reflexivity.
  - destruct u as [|a u], v as [|b v]; try reflexivity.
    cbn [map2 fold_right]. rewrite (IH u v). ring.
Qed.

Lemma entry_prod_sym (bs : list (list (list R) * list R)) (i j : nat) :
  entry_prod bs i j = entry_prod bs j i.
Proof.
  unfold entry_prod. induction bs as [|b bs IH]; [reflexivity|].
  cbn [fold_right]. rewrite IH, Rdot_weighted_sym. reflexivity.
Qed.

Lemma entry_dev_sym (n : nat) (bs : list (list (list R) * list R)) (c : list R)
    (i j : nat) :
  Forall (batch_shaped n) bs -> (i < n)%nat -> (j < n)%nat ->
  entry_dev bs c i j = entry_dev bs c j i.
Proof.
  intros Hbs Hi Hj. rewrite !(entry_dev_expand n) by assumption.
  rewrite (entry_prod_sym bs i j). ring.
Qed.

Lemma outer_dev_symmetric (n : nat) (bs : list (list (list R) * list R)) (c : list R) :
  Forall (batch_shaped n) bs -> length c = n ->
  transpose n (mat_of_R (outer_dev n bs c)) = mat_of_R (outer_dev n bs c).
Proof.
  intros Hbs Hc. rewrite outer_dev_entries by assumption.
  unfold mat_of_R, vec_of_R. rewrite map_map.
  assert (Hform : map (fun x => map Fin (map (fun j => entry_dev bs c x j) (seq 0 n)))
                      (seq 0 n)
                  = map (fun i => map (fun j => Fin (entry_dev bs c i j)) (seq 0 n))
                        (seq 0 n)).
  { apply map_ext. intros i. apply map_map. }
  rewrite Hform.
  rewrite (transpose_index (fun i j => Fin (entry_dev bs c i j)) (seq 0 n) n 0).
  apply map_ext_in. intros i Hi. apply map_ext_in. intros j Hj.
  apply in_seq in Hi. apply in_seq in Hj. f_equal.
  apply (entry_dev_sym n); (assumption || lia).
Qed.

(** The [sigma] that [gausswish.stat] returns is exactly symmetric. *)
Theorem gausswish_stat_sigma_symmetric (weighted scaled : bool) (g : GaussWish.t)
    (n : nat) (ms : list R) (ev : list ritem) :
  GaussWish.dim g = Z.of_nat n -> (0 < n)%nat ->
  GaussWish.mu (GaussWish.prm g) = map Fin ms -> length ms = n ->
  Forall (item_shaped n weighted scaled) ev ->
  0 < total_weight (map (batch weighted scaled) ev) ->
  exists st,
    GaussWish.stat g (map item_of_R ev) weighted scaled = Ok st
    /\ square_array n (GaussWish.sigma st)
    /\ transpose n (GaussWish.sigma st) = GaussWish.sigma st.
Proof.
  intros Hdim Hn Hmu Hms Hev Htot.
  destruct (gausswish_stat_Fin weighted scaled g n ms ev Hdim Hn Hmu Hms Hev Htot)
    as (st & Hst & _ & _ & Hsig).
  pose proof (batches_shaped n weighted scaled ev Hev) as Hbs.
  assert (Hml : length (weighted_mean n (map (batch weighted scaled) ev)) = n).
  { unfold weighted_mean. rewrite length_map. apply weighted_sum_length. exact Hbs. }
  exists st. split; [exact Hst|]. rewrite Hsig. split.
  - destruct (square_outer_dev n _ _ Hbs Hml) as [Hl Hr].
    unfold mat_of_R, vec_of_R. split; [rewrite length_map; exact Hl|].
    apply Forall_map. eapply Forall_impl; [|exact Hr]. intros r Hrow. cbn beta.
    rewrite length_map. exact Hrow.
  - apply outer_dev_symmetric; assumption.
Qed.

Lemma gausswish_stat_sigma_symmetric_witness :
  exists st,
    GaussWish.stat default_gausswish (map item_of_R two_observations) true true
    = Ok st
    /\ square_array 2 (GaussWish.sigma st)
    /\ transpose 2 (GaussWish.sigma st) = GaussWish.sigma st.
Proof.
  apply (gausswish_stat_sigma_symmetric true true default_gausswish 2 [0; 0]
           two_observations).
  - reflexivity.
  - lia.
  - reflexivity.
  - reflexivity.
  - constructor; [|constructor]. simpl. repeat split; repeat constructor.
  - unfold total_weight, two_observations, batch, Rsum. simpl. lra.
Defined.

Lemma undo_correction (a x b : list R) :
  length a = length x ->
  map2 Rminus a x = b -> map2 Rplus b x = a.
Proof.
  intros Hl <-. revert x Hl.
  induction a as [|p a IH]; intros [|q x] Hl; try discriminate Hl; [reflexivity|].
  cbn [map2]. rewrite IH by (simpl in Hl; lia). f_equal. lra.
Qed.

(** The record of [gaussgamma.stat], all four fields. *)
Lemma gaussgamma_stat_record (weighted scaled : bool) (g : GaussGamma.t) (n : nat)
    (ms : list R) (ev : list ritem) :
  GaussGamma.dim g = Z.of_nat n -> (0 < n)%nat ->
  GaussGamma.mu (GaussGamma.prm g) = map Fin ms -> length ms = n ->
  Forall (item_shaped n weighted scaled) ev ->
  let bs := map (batch weighted scaled) ev in
  0 < total_weight bs ->
  exists E,
    GaussGamma.stat g (map item_of_R ev) weighted scaled
    = Ok (GaussGamma.mk_param
            (map Fin (weighted_sum n bs)) (Fin (total_weight bs))
            (map Fin (sq_dev n bs (weighted_mean n bs))) (Fin E)).
Proof.
  intros Hdim Hn Hmu Hms Hev bs Hw.
  pose proof (batches_shaped n weighted scaled ev Hev) as Hbs. fold bs in Hbs.
  unfold GaussGamma.stat. rewrite gaussgamma_stat_loop, Hmu, Hdim, Nat2Z.id.
  rewrite zeros_Fin.
  destruct (gaussgamma_fold_Fin weighted scaled g n ms ev Hdim Hn Hms Hev
              (repeat 0 n) 0 (repeat 0 n) 0) as [E' ->];
    [apply repeat_length | apply repeat_length |].
  fold bs. cbn [bind].
  cbn [GaussGamma.mu GaussGamma.omega GaussGamma.sigma GaussGamma.eta].
  assert (HM : map2 Rplus (repeat 0 n) (weighted_sum n bs) = weighted_sum n bs).
  { rewrite <- (weighted_sum_length n bs Hbs) at 1. apply plus_zeros. }
  assert (HS : map2 Rplus (repeat 0 n) (sq_dev n bs ms) = sq_dev n bs ms).
  { rewrite <- (sq_dev_length n bs ms Hbs Hms) at 1. apply plus_zeros. }
  rewrite HM, HS.
  replace (0 + total_weight bs) with (total_weight bs) by lra.
  cbn [xgt xlt]. rewrite Rltb_true by assumption.
  rewrite vdivs_Fin by lra. rewrite vsub_Fin, sq_abs_Fin, vscale_Fin, vsub_Fin.
  exists E'. do 3 f_equal.
  rewrite <- sq_dev_correction with (ms := ms) by (try assumption; lra).
  do 2 f_equal. apply map_ext. intros x. apply abs_sq.
Qed.

(** With the mean fixed ([omega = +Inf]) [update] undoes the correction
    of [stat]: after [stat] over finite evidence of positive total weight,
    [update] leaves [mu] and [omega] as they are and sets [sigma] to
    [(eta*sigma + S)/(eta + stat.eta)], where [S] holds the weighted
    squared deviations of the observations from the fixed mean [mu] of the
    instance, not from their own weighted mean. *)
Theorem gaussgamma_fixed_mean_posterior (weighted scaled : bool) (g : GaussGamma.t)
    (n : nat) (ms ss : list R) (e : R) (ev : list ritem) :
  GaussGamma.dim g = Z.of_nat n -> (0 < n)%nat ->
  GaussGamma.prm g = GaussGamma.mk_param (map Fin ms) PInf (map Fin ss) (Fin e) ->
  length ms = n -> length ss = n ->
  Forall (item_shaped n weighted scaled) ev ->
  0 < total_weight (map (batch weighted scaled) ev) ->
  exists st E,
    GaussGamma.stat g (map item_of_R ev) weighted scaled = Ok st
    /\ GaussGamma.eta st = Fin E
    /\ (e + E <> 0 ->
        GaussGamma.update g st
        = Ok (RetSelf,
              GaussGamma.mk (GaussGamma.dim g)
                (GaussGamma.mk_param
                   (map Fin ms) PInf
                   (map Fin (map (fun x => x / (e + E))
                                 (map2 Rplus (map (Rmult e) ss)
                                        (sq_dev n (map (batch weighted scaled) ev)
                                                ms))))
                   (Fin (e + E))))).
Proof.
  intros Hdim Hn Hprm Hms Hss Hev Htot.
  assert (Hmu : GaussGamma.mu (GaussGamma.prm g) = map Fin ms)
    by (rewrite Hprm; reflexivity).
  destruct (gaussgamma_stat_record weighted scaled g n ms ev Hdim Hn Hmu Hms Hev Htot)
    as (E & Hst).
  set (bs := map (batch weighted scaled) ev) in *.
  pose proof (batches_shaped n weighted scaled ev Hev) as Hbs. fold bs in Hbs.
  pose proof (weighted_sum_length n bs Hbs) as Hwl.
  assert (Hml : length (weighted_mean n bs) = n)
    by (unfold weighted_mean; rewrite length_map; exact Hwl).
  pose proof (sq_dev_length n bs _ Hbs Hml) as Hsl.
  pose proof (sq_dev_length n bs ms Hbs Hms) as Hsl'.
  eexists. exists E. split; [exact Hst|]. split; [reflexivity|]. intros HeE.
  unfold GaussGamma.update. rewrite Hprm.
  cbn [GaussGamma.mu GaussGamma.omega GaussGamma.sigma GaussGamma.eta].
  unfold np_size. rewrite !length_map, Hwl, Hsl, Hdim, Z.eqb_refl.
  cbn [andb assert bind np_isinf np_isfinite xgt xlt xadd].
  rewrite Rltb_true by assumption.
  rewrite vdivs_Fin by lra.
  rewrite vsub_Fin, sq_abs_Fin, !vscale_Fin, !vadd_Fin, vdivs_Fin by assumption.
  do 5 f_equal.
  change (map (fun x => x / total_weight bs) (weighted_sum n bs))
    with (weighted_mean n bs).
  f_equal. rewrite map2_Rplus_assoc. f_equal.
  apply undo_correction.
  - rewrite !length_map, map2_length by lia. lia.
  - rewrite <- (sq_dev_correction n bs ms Hbs Hms) by lra.
    do 2 f_equal. apply map_ext. intros x. apply abs_sq.
Qed.

Lemma gaussgamma_fixed_mean_posterior_witness :
  exists st E,
    GaussGamma.stat
      (GaussGamma.mk 2 (GaussGamma.mk_param (map Fin [0; 0]) PInf
                                            (map Fin [1; 1]) (Fin 1)))
      (map item_of_R two_observations) true true = Ok st
    /\ GaussGamma.eta st = Fin E
    /\ (1 + E <> 0 ->
        GaussGamma.update
          (GaussGamma.mk 2 (GaussGamma.mk_param (map Fin [0; 0]) PInf
                                                (map Fin [1; 1]) (Fin 1)))
          st
        = Ok (RetSelf,
              GaussGamma.mk 2
                (GaussGamma.mk_param
                   (map Fin [0; 0]) PInf
                   (map Fin (map (fun x => x / (1 + E))
                                 (map2 Rplus (map (Rmult 1) [1; 1])
                                        (sq_dev 2 (map (batch true true)
                                                       two_observations)
                                                [0; 0]))))
                   (Fin (1 + E))))).
Proof.
  apply (gaussgamma_fixed_mean_posterior true true
           (GaussGamma.mk 2 (GaussGamma.mk_param (map Fin [0; 0]) PInf
                                                 (map Fin [1; 1]) (Fin 1)))
           2 [0; 0] [1; 1] 1 two_observations).
  - reflexivity.
  - lia.
  - reflexivity.
  - reflexivity.
  - reflexivity.
  - constructor; [|constructor]. simpl. repeat split; repeat constructor.
  - unfold total_weight, two_observations, batch, Rsum. simpl. lra.
Defined.

Lemma posterior_sigma_positive (e E c : R) (ss : list R) :
  0 < e -> 0 <= E -> 0 <= c ->
  Forall (fun s => 0 < s) ss ->
  forall ts ds : list R,
    Forall (fun t => 0 <= t) ts ->
    Forall (fun s => 0 < s)
           (map (fun x => x / (e + E))
                (map2 Rplus (map2 Rplus (map (Rmult e) ss) ts)
                       (map (Rmult c) (map (fun d => Rabs d * Rabs d) ds)))).
Proof.
  intros He HE Hc Hss. induction Hss as [|s ss Hs _ IH]; intros ts ds Hts;
    [constructor|].
  destruct Hts as [|t ts Ht Hts]; [constructor|].
  destruct ds as [|d ds]; [constructor|].
  cbn [map map2]. constructor; [|apply IH; exact Hts].
  cbn beta in *. unfold Rdiv. apply Rmult_lt_0_compat.
  - pose proof (Rle_0_sqr (Rabs d)) as Hd. unfold Rsqr in Hd. nra.
  - apply Rinv_0_lt_compat. lra.
Qed.

(** [gaussgamma.update] keeps a valid instance valid: with a record of
    finite fields of the right sizes in which [omega], [sigma] and [eta]
    are not negative, the call raises nothing and leaves an instance whose
    [mu] is finite, whose [sigma] is finite and positive, and whose
    [omega] and [eta] are positive or [+Inf]. *)
Theorem gaussgamma_update_keeps_valid (g : GaussGamma.t) (st : GaussGamma.param) :
  gaussgamma_valid g ->
  gaussgamma_record (GaussGamma.dim g) st ->
  exists r g',
    GaussGamma.update g st = Ok (r, g')
    /\ gaussgamma_valid g'.
Proof.
  intros Hvalid (mS & W & tS & E & HmS & HlS & HW & HWn & HtS & HlT & HtSn & HE & HEn).
  pose proof Hvalid as (Hdim & (ms & Hmu & Hml) & Hom & (ss & Hsg & Hsl & Hsp) & Het).
  destruct g as [dim [mu omega sigma eta]]. destruct st as [smu somega ssigma seta].
  cbn [GaussGamma.dim GaussGamma.prm GaussGamma.mu GaussGamma.omega
       GaussGamma.sigma GaussGamma.eta] in *.
  subst mu sigma smu somega ssigma seta. unfold np_size in *.
  assert (Hn1 : length mS = length ms) by lia.
  assert (Hn2 : length tS = length ss) by lia.
  unfold GaussGamma.update.
  cbn [GaussGamma.dim GaussGamma.prm GaussGamma.mu GaussGamma.omega
       GaussGamma.sigma GaussGamma.eta].
  unfold np_size. rewrite !length_map, HlS, HlT, Z.eqb_refl.
  cbn [andb assert bind].
  set (ds := if Rltb 0 W then map2 Rminus ms (map (fun x => x / W) mS) else ms).
  assert (Hdiff : (if xgt (Fin W) (Fin 0)
                   then vsub (map Fin ms) (vdivs (map Fin mS) (Fin W))
                   else map Fin ms) = map Fin ds).
  { unfold ds. cbn [xgt xlt]. destruct (Rltb 0 W) eqn:HW0; [|reflexivity].
    apply Rltb_spec in HW0. rewrite vdivs_Fin by lra. apply vsub_Fin. }
  assert (Hdl : length ds = length ms).
  { unfold ds. destruct (Rltb 0 W); [|reflexivity].
    rewrite map2_length; rewrite ?length_map; lia. }
  rewrite Hdiff. clear Hdiff.
  destruct Hom as [-> | (w & -> & Hw)]; destruct Het as [-> | (e & -> & He)];
    cbn [np_isinf np_isfinite andb bind xadd xmul].
  - exists RetSelf. eexists. split; [reflexivity | exact Hvalid].
  - exists RetSelf. eexists. split; [reflexivity|].
    rewrite sq_abs_Fin, !vscale_Fin, !vadd_Fin, vdivs_Fin by lra.
    split; [exact Hdim|]. cbn [GaussGamma.dim GaussGamma.prm GaussGamma.mu
      GaussGamma.omega GaussGamma.sigma GaussGamma.eta].
    split; [exists ms; split; [reflexivity | exact Hml]|].
    split; [left; reflexivity|]. split.
    + eexists. split; [reflexivity|]. split.
      * unfold np_size. rewrite length_map, !map2_length;
          rewrite ?length_map, ?map2_length; rewrite ?length_map; lia.
      * apply posterior_sigma_positive; assumption.
    + right. exists (e + E). split; [reflexivity | lra].
  - unfold py_truediv. cbn [xeq]. rewrite Reqb_false by lra. cbn [bind].
    exists RetSelf. eexists. split; [reflexivity|].
    rewrite !vscale_Fin, !vadd_Fin, vdivs_Fin by lra.
    split; [exact Hdim|]. cbn [GaussGamma.dim GaussGamma.prm GaussGamma.mu
      GaussGamma.omega GaussGamma.sigma GaussGamma.eta].
    split.
    { eexists. split; [reflexivity|]. unfold np_size.
      rewrite length_map, map2_length; rewrite ?length_map; lia. }
    split; [right; exists (w + W); split; [reflexivity | lra]|].
    split; [exists ss; repeat split; assumption|]. left. reflexivity.
  - unfold py_truediv. cbn [xeq]. rewrite Reqb_false by lra. cbn [bind].
    rewrite xdiv_Fin by lra.
    exists RetSelf. eexists. split; [reflexivity|].
    rewrite sq_abs_Fin, !vscale_Fin, !vadd_Fin, !vdivs_Fin by lra.
    split; [exact Hdim|]. cbn [GaussGamma.dim GaussGamma.prm GaussGamma.mu
      GaussGamma.omega GaussGamma.sigma GaussGamma.eta].
    split.
    { eexists. split; [reflexivity|]. unfold np_size.
      rewrite length_map, map2_length; rewrite ?length_map; lia. }
    split; [right; exists (w + W); split; [reflexivity | lra]|].
    split.
    + eexists. split; [reflexivity|]. split.
      * unfold np_size. rewrite length_map, !map2_length;
          rewrite ?length_map, ?map2_length; rewrite ?length_map; lia.
      * apply posterior_sigma_positive; try assumption.
        unfold Rdiv. apply Rle_mult_inv_pos; nra.
    + right. exists (e + E). split; [reflexivity | lra].
Qed.

Lemma gaussgamma_update_keeps_valid_witness :
  exists r g',
    GaussGamma.update default_gaussgamma
      (GaussGamma.mk_param [Fin 7; Fin 19] (Fin 5) [Fin (6/5); Fin (24/5)] (Fin 4))
    = Ok (r, g')
    /\ gaussgamma_valid g'.
Proof.
  apply (gaussgamma_update_keeps_valid default_gaussgamma).
  - exact default_gaussgamma_valid.
  - exists [7; 19], 5, [6/5; 24/5], 4. repeat split; try lra.
    repeat constructor; lra.
Defined.

(** ** The instances that the constructors build by default *)












(** ** [loglik], [rand] and [div] of [gaussgamma] *)

Lemma fold_vadd_length (rows : list (list xreal)) :
  forall acc : list xreal,
    Forall (fun r => length r = length acc) rows ->
    length (fold_left vadd rows acc) = length acc.
Proof.
  induction rows as [|r rows IH]; intros acc Hrows; [reflexivity|].
  cbn [fold_left]. apply Forall_inv in Hrows as Hr. apply Forall_inv_tail in Hrows.
  assert (Hl : length (vadd acc r) = length acc) by (apply vadd_length; lia).
  rewrite IH; [exact Hl|]. rewrite Hl. exact Hrows.
Qed.

Lemma map2_rows_length {A : Type} (f : list xreal -> A -> list xreal)
    (k : nat) (rows : list (list xreal)) :
  (forall r a, length (f r a) = length r) ->
  Forall (fun r => length r = k) rows ->
  forall l : list A, Forall (fun r => length r = k) (map2 f rows l).
Proof.
  intros Hf Hrows. induction Hrows as [|r rows Hr _ IH]; intros [|a l];
    cbn [map2]; constructor.
  - rewrite Hf. exact Hr.
  - apply IH.
Qed.

(** The squared error of [gaussgamma.loglik] has one entry for every
    observation. *)
Lemma sqerr_length (obs : list (list xreal)) (mu sigma : list xreal) (size : nat) :
  Forall (fun r => length r = size) obs ->
  length (sum_axis0 size
            (map2 (fun r s => vdivs r s) (map2 GaussGamma.sq_resid_row obs mu) sigma))
  = size.
Proof.
  intros Hobs. unfold sum_axis0.
  rewrite fold_vadd_length; unfold np_zeros; rewrite repeat_length; [reflexivity|].
  apply (map2_rows_length (fun r s => vdivs r s)).
  - intros r a. unfold vdivs. apply length_map.
  - apply (map2_rows_length GaussGamma.sq_resid_row).
    + intros r a. unfold GaussGamma.sq_resid_row. apply length_map.
    + exact Hobs.
Qed.

(** [gaussgamma.loglik] with a finite [nu] on an instance with a finite
    [eta] raises [ValueError] unless the number of observations equals
    [dim] or one of the two is 1: the half log-determinant is an array
    with one entry for every dimension, and it is subtracted from an array
    with one entry for every observation. *)
Theorem gaussgamma_loglik_shape_error (special_psi special_gammaln : xreal -> xreal)
    (g : GaussGamma.t) (obs : list (list xreal)) (size : nat) (e v : R) :
  gaussgamma_valid g ->
  GaussGamma.eta (GaussGamma.prm g) = Fin e ->
  0 < v ->
  nrows obs = GaussGamma.dim g ->
  Forall (fun r => length r = size) obs ->
  (1 < GaussGamma.dim g)%Z -> (1 < size)%nat ->
  GaussGamma.dim g <> Z.of_nat size ->
  GaussGamma.loglik special_psi special_gammaln g obs (Some (Fin v))
  = Raise ValueError.
Proof.
  intros (Hdim & (ms & Hmu & Hml) & Hom & (ss & Hsg & Hsl & Hsp) & Het)
         Heta Hv Hrows Hrect Hd1 Hs1 Hne.
  assert (He : 0 < e).
  { destruct Het as [Het | (e' & Het & He')]; rewrite Heta in Het;
      [discriminate Het | injection Het as ->; exact He']. }
  assert (Hcols : ncols obs = size).
  { unfold ncols. destruct obs as [|r obs].
    - unfold nrows, np_size in Hrows. simpl in Hrows. lia.
    - apply Forall_inv in Hrect. exact Hrect. }
  unfold GaussGamma.loglik. rewrite Hrows, Z.eqb_refl, Hcols, Heta.
  cbn [assert bind].
  pose proof (sqerr_length obs (GaussGamma.mu (GaussGamma.prm g))
                (GaussGamma.sigma (GaussGamma.prm g)) size Hrect) as Hsq.
  set (sqerr0 := sum_axis0 size _) in *.
  assert (Hsqerr : exists sq,
             (if np_isfinite (GaussGamma.omega (GaussGamma.prm g))
              then c <- py_truediv (of_Z (GaussGamma.dim g))
                                   (GaussGamma.omega (GaussGamma.prm g)) ;;
                   Ok (map (fun x => x + c)%X sqerr0)
              else Ok sqerr0) = Ok sq /\ length sq = size).
  { destruct Hom as [-> | (w & -> & Hw)]; cbn [np_isfinite].
    - exists sqerr0. split; [reflexivity | exact Hsq].
    - unfold py_truediv. cbn [xeq]. rewrite Reqb_false by lra. cbn [bind].
      eexists. split; [reflexivity|]. rewrite length_map. exact Hsq. }
  destruct Hsqerr as (sq & -> & Hsql). cbn [bind np_isfinite].
  rewrite xdiv_Fin by lra. rewrite math_log_Fin by lra.
  cbn [bind bcast2 np_isinf].
  unfold math_pi. cbn [xmul]. rewrite math_log_Fin by (pose proof PI_RGT_0; nra).
  cbn [bind bcast2 arr_neg].
  unfold vscale, vdivs, np_arange. rewrite !length_map, length_seq, Hsql.
  destruct (Nat.eqb_spec (Z.to_nat (GaussGamma.dim g)) size); [lia|].
  destruct (Nat.eqb_spec (Z.to_nat (GaussGamma.dim g)) 1); [lia|].
  destruct (Nat.eqb_spec size 1); [lia|]. reflexivity.
Qed.

Lemma gaussgamma_loglik_shape_error_witness :
  GaussGamma.loglik (fun x => x) (fun x => x) default_gaussgamma
    [[Fin 0; Fin 1; Fin 2]; [Fin 0; Fin 1; Fin 2]] (Some (Fin 1))
  = Raise ValueError.
Proof.
  apply (gaussgamma_loglik_shape_error (fun x => x) (fun x => x) default_gaussgamma
           [[Fin 0; Fin 1; Fin 2]; [Fin 0; Fin 1; Fin 2]] 3 1 1).
  - exact default_gaussgamma_valid.
  - reflexivity.
  - lra.
  - reflexivity.
  - repeat constructor.
  - simpl. lia.
  - lia.
  - simpl. lia.
Defined.

Lemma map_sqrt_Fin (ds : list R) :
  Forall (fun d => 0 < d) ds ->
  map np_sqrt (map Fin ds) = map Fin (map sqrt ds).
Proof.
  intros Hds. rewrite !map_map. apply map_ext_Forall.
  eapply Forall_impl; [|exact Hds]. intros d Hd. apply np_sqrt_Fin. exact Hd.
Qed.

Lemma ratios_positive (c : R) (ss : list R) :
  0 < c -> Forall (fun s => 0 < s) ss ->
  forall gs : list R,
    Forall (fun g => 0 < g) gs ->
    Forall (fun d => 0 < d) (map2 Rdiv ss (map (fun x => x / c) gs)).
Proof.
  intros Hc Hss. induction Hss as [|s ss Hs _ IH]; intros gs Hgs; [constructor|].
  destruct Hgs as [|y gs Hy Hgs]; cbn [map map2]; constructor; [|apply IH; exact Hgs].
  cbn beta in *. unfold Rdiv. apply Rmult_lt_0_compat; [lra|].
  apply Rinv_0_lt_compat. apply Rmult_lt_0_compat; [lra|].
  apply Rinv_0_lt_compat. lra.
Qed.

(** A sample of a valid Gauss-Gamma instance lies in the support: for
    positive draws of [random.gamma] and finite draws of [random.randn],
    [dim] of each, [rand] returns a location of [dim] finite numbers and
    a dispersion of [dim] finite positive numbers. *)
Theorem gaussgamma_rand_in_support (g : GaussGamma.t) (gs zs : list R) :
  gaussgamma_valid g ->
  Forall (fun x => 0 < x) gs ->
  np_size gs = GaussGamma.dim g ->
  np_size zs = GaussGamma.dim g ->
  exists loc ds,
    GaussGamma.rand g (map Fin gs) (map Fin zs) = Ok (map Fin loc, map Fin ds)
    /\ np_size loc = GaussGamma.dim g
    /\ np_size ds = GaussGamma.dim g
    /\ Forall (fun d => 0 < d) ds.
Proof.
  intros (Hdim & (ms & Hmu & Hml) & Hom & (ss & Hsg & Hsl & Hsp) & Het) Hgs Hgl Hzl.
  unfold np_size in *. unfold GaussGamma.rand. rewrite Hmu, Hsg.
  assert (Hdisp : exists ds,
             (if np_isfinite (GaussGamma.eta (GaussGamma.prm g))
              then vdiv (map Fin ss)
                        (vdivs (map Fin gs)
                               (GaussGamma.eta (GaussGamma.prm g) / Fin 2)%X)
              else map Fin ss) = map Fin ds
             /\ length ds = length ss /\ Forall (fun d => 0 < d) ds).
  { destruct Het as [-> | (e & -> & He)]; cbn [np_isfinite].
    - exists ss. repeat split. exact Hsp.
    - rewrite xdiv_Fin by lra. rewrite vdivs_Fin by lra.
      assert (Hq : Forall (fun q => q <> 0) (map (fun x => x / (e / 2)) gs)).
      { apply Forall_map. eapply Forall_impl; [|exact Hgs]. intros x Hx. cbn beta.
        unfold Rdiv. apply Rgt_not_eq. apply Rmult_lt_0_compat; [exact Hx|].
        apply Rinv_0_lt_compat. lra. }
      rewrite vdiv_Fin by exact Hq. eexists. split; [reflexivity|]. split.
      + rewrite map2_length; rewrite ?length_map; lia.
      + apply ratios_positive; [lra | assumption | assumption]. }
  destruct Hdisp as (ds & -> & Hdl & Hdp).
  destruct Hom as [-> | (w & -> & Hw)]; cbn [np_isfinite].
  - exists ms, ds. repeat split; try assumption; lia.
  - rewrite math_sqrt_Fin by exact Hw. cbn [bind].
    rewrite map_sqrt_Fin by exact Hdp.
    rewrite vmul_Fin, vdivs_Fin by (apply sqrt_nonzero; exact Hw).
    rewrite vadd_Fin. eexists. exists ds. split; [reflexivity|].
    repeat split; try assumption; try lia.
    rewrite map2_length; rewrite ?length_map, ?map2_length;
      rewrite ?length_map; lia.
Qed.

Lemma gaussgamma_rand_in_support_witness :
  exists loc ds,
    GaussGamma.rand default_gaussgamma (map Fin [1; 2]) (map Fin [-1; 3])
    = Ok (map Fin loc, map Fin ds)
    /\ np_size loc = 2%Z
    /\ np_size ds = 2%Z
    /\ Forall (fun d => 0 < d) ds.
Proof.
  apply (gaussgamma_rand_in_support default_gaussgamma [1; 2] [-1; 3]).
  - exact default_gaussgamma_valid.
  - repeat constructor; lra.
  - reflexivity.
  - reflexivity.
Defined.

(** When exactly one of two valid Gaussian instances of one dimension has a
    fixed mean ([omega = +Inf]), [div] is [+Inf], in both families. *)
Theorem div_one_fixed_mean_infinite (special_psi special_gammaln : xreal -> xreal) :
  (forall g h : GaussGamma.t,
      gaussgamma_valid g -> gaussgamma_valid h ->
      GaussGamma.dim h = GaussGamma.dim g ->
      np_isinf (GaussGamma.omega (GaussGamma.prm g))
      <> np_isinf (GaussGamma.omega (GaussGamma.prm h)) ->
      GaussGamma.div special_psi special_gammaln g h = Ok PInf)
  /\ (forall g h : GaussWish.t,
         gausswish_valid g -> gausswish_valid h ->
         GaussWish.dim h = GaussWish.dim g ->
         np_isinf (GaussWish.omega (GaussWish.prm g))
         <> np_isinf (GaussWish.omega (GaussWish.prm h)) ->
         GaussWish.div special_psi special_gammaln g h = Ok PInf).
Proof.
  split; intros g h.
  - intros (_ & _ & Hom & _) (_ & _ & Hom' & _) Hdim Hne.
    unfold GaussGamma.div. rewrite Hdim, Z.eqb_refl. cbn [assert bind].
    destruct Hom as [Hw | (w & Hw & _)]; destruct Hom' as [Hw' | (w' & Hw' & _)];
      rewrite Hw, Hw' in *; cbn [np_isinf np_isfinite andb bind] in *;
      try reflexivity; contradiction Hne; reflexivity.
  - intros (_ & _ & Hom & (s & Hsg & Hsl & _ & _ & (l & Hl)) & _)
           (_ & _ & Hom' & _) Hdim Hne.
    unfold GaussWish.div. rewrite Hdim, Z.eqb_refl. cbn [assert bind].
    rewrite Hsg, (linalg_cholesky_Ok _ s l Hsl Hl). cbn [bind].
    destruct Hom as [Hw | (w & Hw & _)]; destruct Hom' as [Hw' | (w' & Hw' & _)];
      rewrite Hw, Hw' in *; cbn [np_isinf np_isfinite andb bind] in *;
      try reflexivity; contradiction Hne; reflexivity.
Qed.

Lemma div_one_fixed_mean_infinite_witness :
  GaussGamma.div (fun x => x) (fun x => x) default_gaussgamma
    (GaussGamma.mk 2 (GaussGamma.mk_param [Fin 0; Fin 0] PInf [Fin 1; Fin 1] (Fin 1)))
  = Ok PInf.
Proof.
  destruct (div_one_fixed_mean_infinite (fun x => x) (fun x => x)) as [H _].
  apply H.
  - exact default_gaussgamma_valid.
  - split; [reflexivity|]. split; [|split; [|split]].
    + exists [0; 0]. split; reflexivity.
    + left. reflexivity.
    + exists [1; 1]. repeat split. repeat constructor; lra.
    + right. exists 1. split; [reflexivity | lra].
  - reflexivity.
  - discriminate.
Defined.

(** ** No evidence *)

Lemma zero_minus_zero_times (v : list R) :
  vsub (np_zeros (length v))
       (vscale (Fin 0) (map (fun x => xsqr (xabs x)) (map Fin v)))
  = np_zeros (length v).
Proof.
  unfold np_zeros, vsub, vscale.
  induction v as [|x v IH]; [reflexivity|].
  cbn [length repeat map map2]. rewrite IH. f_equal.
  cbn [xabs xsqr xmul xsub xneg xadd]. f_equal. lra.
Qed.

Lemma zero_row_minus_zero_times (a : R) (v : list R) :
  vsub (np_zeros (length v)) (vscale (Fin 0) (vscale (Fin a) (map Fin v)))
  = np_zeros (length v).
Proof.
  unfold np_zeros, vsub, vscale.
  induction v as [|x v IH]; [reflexivity|].
  cbn [length repeat map map2]. rewrite IH. f_equal.
  cbn [xmul xsub xneg xadd]. f_equal. lra.
Qed.

Lemma zero_matrix_minus_zero_times (u v : list R) :
  msub (repeat (np_zeros (length v)) (length u))
       (mscale (Fin 0) (np_outer (map Fin u) (map Fin v)))
  = repeat (np_zeros (length v)) (length u).
Proof.
  unfold msub, mscale, np_outer.
  induction u as [|a u IH]; [reflexivity|].
  cbn [length repeat map map2]. rewrite IH. f_equal.
  apply zero_row_minus_zero_times.
Qed.

Lemma gaussgamma_stat_nothing (g : GaussGamma.t) (weighted scaled : bool) :
  gaussgamma_valid g ->
  GaussGamma.stat g [] weighted scaled = Ok (gaussgamma_zero_stat g).
Proof.
  intros (Hdim & (ms & Hmu & Hml) & _).
  unfold GaussGamma.stat, gaussgamma_zero_stat. rewrite gaussgamma_stat_loop.
  cbn [py_fold bind GaussGamma.mu GaussGamma.omega GaussGamma.sigma GaussGamma.eta].
  rewrite xgt_0_0, Hmu.
  replace (Z.to_nat (GaussGamma.dim g)) with (length ms)
    by (unfold np_size in Hml; lia).
  rewrite zero_minus_zero_times. reflexivity.
Qed.

Lemma gausswish_stat_nothing (g : GaussWish.t) (weighted scaled : bool) :
  gausswish_valid g ->
  GaussWish.stat g [] weighted scaled = Ok (gausswish_zero_stat g).
Proof.
  intros (Hdim & (ms & Hmu & Hml) & _).
  unfold GaussWish.stat, gausswish_zero_stat. rewrite gausswish_stat_loop.
  cbn [py_fold bind GaussWish.mu GaussWish.omega GaussWish.sigma GaussWish.eta].
  rewrite xgt_0_0, Hmu.
  replace (Z.to_nat (GaussWish.dim g)) with (length ms)
    by (unfold np_size in Hml; lia).
  rewrite zero_matrix_minus_zero_times. reflexivity.
Qed.

(** No evidence, no change: for a valid instance of any of the three
    families, [stat] over an empty list of evidence returns the record
    that is zero in every field, in every mode, and [update] with that
    record leaves the parameters as they are. *)
Theorem update_without_evidence :
  (forall d : Dirich.t,
      dirich_valid d ->
      Dirich.stat d [] = Ok (dirich_zero_stat d)
      /\ exists r, Dirich.update d (dirich_zero_stat d) = Ok (r, d))
  /\ (forall (g : GaussGamma.t) (weighted scaled : bool),
         gaussgamma_valid g ->
         GaussGamma.stat g [] weighted scaled = Ok (gaussgamma_zero_stat g)
         /\ exists r, GaussGamma.update g (gaussgamma_zero_stat g) = Ok (r, g))
  /\ (forall (g : GaussWish.t) (weighted scaled : bool),
         gausswish_valid g ->
         GaussWish.stat g [] weighted scaled = Ok (gausswish_zero_stat g)
         /\ exists r, GaussWish.update g (gausswish_zero_stat g) = Ok (r, g)).
Proof.
  split; [|split].
  - intros d Hd. split; [reflexivity | exact (dirich_update_zero d Hd)].
  - intros g weighted scaled Hg.
    split; [apply gaussgamma_stat_nothing; exact Hg
           | exact (gaussgamma_update_zero g Hg)].
  - intros g weighted scaled Hg.
    split; [apply gausswish_stat_nothing; exact Hg
           | exact (gausswish_update_zero g Hg)].
Qed.

Lemma update_without_evidence_witness :
  (Dirich.stat scenario_prior [] = Ok (dirich_zero_stat scenario_prior)
   /\ exists r, Dirich.update scenario_prior (dirich_zero_stat scenario_prior)
                = Ok (r, scenario_prior))
  /\ (GaussGamma.stat default_gaussgamma [] true false
      = Ok (gaussgamma_zero_stat default_gaussgamma)
      /\ exists r, GaussGamma.update default_gaussgamma
                     (gaussgamma_zero_stat default_gaussgamma)
                   = Ok (r, default_gaussgamma))
  /\ (GaussWish.stat default_gausswish [] false true
      = Ok (gausswish_zero_stat default_gausswish)
      /\ exists r, GaussWish.update default_gausswish
                     (gausswish_zero_stat default_gausswish)
                   = Ok (r, default_gausswish)).
Proof.
  destruct update_without_evidence as (H1 & H2 & H3).
  split; [|split].
  - apply H1. exact scenario_prior_valid.
  - apply H2. exact default_gaussgamma_valid.
  - apply H3. exact default_gausswish_valid.
Defined.

(** ** The mixing weights of [gaussgamma.loglik] *)

Lemma rows_over_sigma (M : list (list R)) :
  forall ss : list R,
    Forall (fun s => 0 < s) ss ->
    map2 (fun r s => vdivs r s) (mat_of_R M) (map Fin ss)
    = mat_of_R (map2 (fun r s => map (fun x => x / s) r) M ss).
Proof.
  induction M as [|r M IH]; intros ss Hss; [reflexivity|].
  destruct Hss as [|s ss Hs Hss]; [reflexivity|].
  cbn [mat_of_R map map2]. unfold vec_of_R at 1.
  rewrite vdivs_Fin by lra. f_equal. apply IH. exact Hss.
Qed.

Lemma fold_vadd_Fin (M : list (list R)) :
  forall acc : list R,
    fold_left vadd (mat_of_R M) (map Fin acc)
    = map Fin (fold_left (map2 Rplus) M acc).
Proof.
  induction M as [|r M IH]; intros acc; [reflexivity|].
  cbn [mat_of_R map fold_left]. unfold vec_of_R at 1. rewrite vadd_Fin. apply IH.
Qed.

Lemma fold_plus_nonneg (M : list (list R)) :
  Forall (Forall (fun x => 0 <= x)) M ->
  forall acc : list R,
    Forall (fun x => 0 <= x) acc ->
    Forall (fun x => 0 <= x) (fold_left (map2 Rplus) M acc).
Proof.
  induction 1 as [|r M Hr _ IH]; intros acc Hacc; [exact Hacc|].
  cbn [fold_left]. apply IH. apply Forall_nonneg_map2_plus; assumption.
Qed.

Lemma scaled_squares_nonneg (o : list (list R)) :
  forall (ms ss : list R),
    Forall (fun s => 0 < s) ss ->
    Forall (Forall (fun x => 0 <= x))
           (map2 (fun r s => map (fun x => x / s) r)
                 (map2 (fun row m => map (fun x => (x - m) * (x - m)) row) o ms)
                 ss).
Proof.
  induction o as [|row o IH]; intros [|m ms] ss Hss; cbn [map2]; try constructor.
  destruct Hss as [|s ss Hs Hss]; cbn [map2]; constructor.
  - apply Forall_map. apply Forall_map. apply Forall_forall. intros x _. cbn beta.
    unfold Rdiv. apply Rle_mult_inv_pos; [apply Rle_0_sqr | exact Hs].
  - apply IH. exact Hss.
Qed.

Lemma weights_bounded (v d : R) (qs : list R) :
  0 < v -> 0 < d -> Forall (fun q => 0 <= q) qs ->
  Forall (fun w => 0 < w <= (v + d) / v) (map (fun q => (v + d) / (v + q)) qs).
Proof.
  intros Hv Hd Hqs. apply Forall_map. eapply Forall_impl; [|exact Hqs].
  intros q Hq. cbn beta in *. split.
  - unfold Rdiv. apply Rmult_lt_0_compat; [lra|]. apply Rinv_0_lt_compat. lra.
  - unfold Rdiv. apply Rmult_le_compat_l; [lra|].
    apply Rinv_le_contravar; lra.
Qed.

(** With the dispersion fixed ([eta = +Inf]) [gaussgamma.loglik] with a
    finite [nu > 0] returns, for a batch of finite observations, one
    log-density and one mixing weight for every observation, and every
    weight lies in the interval from 0 (excluded) to [(nu + dim)/nu]. *)
Theorem gaussgamma_loglik_weights (special_psi special_gammaln : xreal -> xreal)
    (g : GaussGamma.t) (o : list (list R)) (size : nat) (v : R) :
  gaussgamma_valid g ->
  GaussGamma.eta (GaussGamma.prm g) = PInf ->
  0 < v ->
  np_size o = GaussGamma.dim g ->
  Forall (fun r => length r = size) o ->
  exists val ws,
    GaussGamma.loglik special_psi special_gammaln g (mat_of_R o) (Some (Fin v))
    = Ok (LLW (Arr1 val) (Arr1 (map Fin ws)))
    /\ length val = size
    /\ length ws = size
    /\ Forall (fun w => 0 < w <= (v + IZR (GaussGamma.dim g)) / v) ws.
Proof.
  intros (Hdim & (ms & Hmu & Hml) & Hom & (ss & Hsg & Hsl & Hsp) & _)
         Heta Hv Hrows Hrect.
  assert (HR : 0 < IZR (GaussGamma.dim g)) by (apply IZR_lt; exact Hdim).
  assert (Hrect' : Forall (fun r : list xreal => length r = size) (mat_of_R o)).
  { unfold mat_of_R, vec_of_R. apply Forall_map.
    eapply Forall_impl; [|exact Hrect]. intros r Hr. cbn beta.
    rewrite length_map. exact Hr. }
  assert (Hcols : ncols (mat_of_R o) = size).
  { rewrite ncols_of_R. destruct o as [|r o].
    - unfold np_size in Hrows. simpl in Hrows. lia.
    - apply Forall_inv in Hrect. exact Hrect. }
  assert (Hnrows : nrows (mat_of_R o) = GaussGamma.dim g).
  { unfold nrows, np_size, mat_of_R. rewrite length_map. exact Hrows. }
  unfold GaussGamma.loglik. rewrite Hnrows, Z.eqb_refl, Hcols, Heta.
  cbn [assert bind].
  pose proof (sqerr_length (mat_of_R o) (GaussGamma.mu (GaussGamma.prm g))
                (GaussGamma.sigma (GaussGamma.prm g)) size Hrect') as Hsq.
  assert (Hsq0 : exists qs,
             sum_axis0 size
               (map2 (fun r s => vdivs r s)
                     (map2 GaussGamma.sq_resid_row (mat_of_R o)
                           (GaussGamma.mu (GaussGamma.prm g)))
                     (GaussGamma.sigma (GaussGamma.prm g)))
             = map Fin qs /\ Forall (fun q => 0 <= q) qs).
  { rewrite Hmu, Hsg.
    change (map2 GaussGamma.sq_resid_row (mat_of_R o) (map Fin ms))
      with (GaussGamma.sq_resid (mat_of_R o) (map Fin ms)).
    rewrite sq_resid_Fin, rows_over_sigma by exact Hsp.
    unfold sum_axis0. rewrite zeros_Fin, fold_vadd_Fin.
    eexists. split; [reflexivity|].
    apply fold_plus_nonneg; [apply scaled_squares_nonneg; exact Hsp|].
    apply Forall_forall. intros x Hx. apply repeat_spec in Hx. lra. }
  destruct Hsq0 as (qs0 & Hqs0 & Hqn0). rewrite Hqs0 in *.
  rewrite length_map in Hsq.
  assert (Hsqerr : exists qs,
             (if np_isfinite (GaussGamma.omega (GaussGamma.prm g))
              then c <- py_truediv (of_Z (GaussGamma.dim g))
                                   (GaussGamma.omega (GaussGamma.prm g)) ;;
                   Ok (map (fun x => x + c)%X (map Fin qs0))
              else Ok (map Fin qs0)) = Ok (map Fin qs)
             /\ length qs = size /\ Forall (fun q => 0 <= q) qs).
  { destruct Hom as [-> | (w & -> & Hw)]; cbn [np_isfinite].
    - exists qs0. repeat split; assumption.
    - unfold py_truediv, of_Z. cbn [xeq]. rewrite Reqb_false by lra. cbn [bind].
      rewrite xdiv_Fin by lra.
      exists (map (fun q => q + IZR (GaussGamma.dim g) / w) qs0).
      split; [rewrite !map_map; reflexivity|].
      split; [rewrite length_map; exact Hsq|].
      apply Forall_map. eapply Forall_impl; [|exact Hqn0].
      intros q Hq. cbn beta in *.
      assert (0 <= IZR (GaussGamma.dim g) / w)
        by (unfold Rdiv; apply Rle_mult_inv_pos; lra).
      lra. }
  destruct Hsqerr as (qs & -> & Hql & Hqn). cbn [bind np_isfinite np_isinf].
  unfold math_pi. cbn [xmul]. rewrite math_log_Fin by (pose proof PI_RGT_0; nra).
  cbn [bind bcast2 arr_neg].
  eexists. exists (map (fun q => (v + IZR (GaussGamma.dim g)) / (v + q)) qs).
  split; [|split; [|split]].
  - do 3 f_equal. unfold of_Z. cbn [xadd]. rewrite !map_map.
    apply map_ext_Forall. eapply Forall_impl; [|exact Hqn].
    intros q Hq. cbn beta in *. apply xdiv_Fin. lra.
  - unfold vscale, vdivs. rewrite !length_map. exact Hql.
  - rewrite length_map. exact Hql.
  - apply weights_bounded; assumption.
Qed.

Lemma gaussgamma_loglik_weights_witness :
  exists val ws,
    GaussGamma.loglik (fun x => x) (fun x => x) fixed_dispersion_prior
      (mat_of_R [[0; 1; 2]; [0; 1; 2]]) (Some (Fin 1))
    = Ok (LLW (Arr1 val) (Arr1 (map Fin ws)))
    /\ length val = 3%nat
    /\ length ws = 3%nat
    /\ Forall (fun w => 0 < w <= (1 + IZR 2) / 1) ws.
Proof.
  apply (gaussgamma_loglik_weights (fun x => x) (fun x => x) fixed_dispersion_prior
           [[0; 1; 2]; [0; 1; 2]] 3 1).
  - split; [reflexivity|]. split; [|split; [|split]].
    + exists [0; 0]. split; reflexivity.
    + right. exists 1. split; [reflexivity | lra].
    + exists [1; 1]. repeat split. repeat constructor; lra.
    + left. reflexivity.
  - reflexivity.
  - lra.
  - reflexivity.
  - repeat constructor.
Defined.
